(* ===== verification/_CoqProject ===== *)
-Q . S2P
Prelude.v
Str.v
Ip.v
Io.v
Interference.v
Constants.v
Netopt.v
Cli.v
Node.v
Config.v
Socks5.v
Chain.v
Runtime.v
Stats.v
Supervisor.v
Signals.v
Heartbeat.v
Relay.v
Tcp.v
Tunnel.v
Udp.v
UdpFlow.v
Nftables.v
Json.v
Status.v
Nat.v
Machine.v
App.v
System.v
NatSystem.v
Listener.v
Tests.v
