(* ===== verification/Prelude.v ===== *)
(** * Gust: a verification development of the port forwarder

    Gust (Rust, src/src/) forwards TCP and UDP ports, in userspace, through a
    chain of SOCKS5 proxies, or by programming DNAT rules in the kernel.  A
    command line becomes raw arguments (cli.rs), these become a validated
    configuration (config.rs, with node.rs for the URL-like node strings), and
    main.rs starts the application (app.rs) on it.  In userspace mode every
    listener runs under a supervisor (supervisor.rs) that restarts its serve
    loop (forward/tcp.rs, forward/udp.rs) with backoff; a TCP connection is
    dialed (netopt.rs, chain.rs, socks5.rs) and relayed (relay.rs); counters
    (stats.rs) and a shutdown broadcast (runtime.rs) are shared by all tasks.
    In NAT mode (nat/) rules are generated, handed to [nft], and cleaned up.  In
    both modes signals (signals.rs) trigger the shutdown and print the status, and
    a heartbeat task prints a line now and then.

    ** Files

    - Prelude.v: strings, [Result], I/O errors, machine integers, the hint
      database [gust] and the tactics shared by all files.
    - Str.v, Ip.v: what the sources use of Rust's [str], integers, UTF-8 and
      [std::net] (parsing and printing addresses), with their laws.
    - Io.v: [async] code as programs, trees of calls to the system continued
      with their replies; handlers, recorded logs, the paths through a program,
      timeouts.
    - Interference.v: the form of a program, and weakest preconditions for
      programs whose state other tasks change between their calls.
    - Constants.v (constants.rs); Netopt.v (netopt.rs); Cli.v (cli.rs);
      Node.v (node.rs); Config.v (config.rs); Socks5.v (socks5.rs).
    - Chain.v: chain.rs and the [Dialer] of runtime.rs.
    - Runtime.v: [Shutdown] of runtime.rs over a watch channel (class [Watch]).
    - Stats.v (stats.rs); Supervisor.v (supervisor.rs); Relay.v (relay.rs).
    - Signals.v (signals.rs); Heartbeat.v: the loop of [spawn_heartbeat] in app.rs
      and nat/linux.rs.
    - Tcp.v (forward/tcp.rs and [Context]); Udp.v (forward/udp.rs); UdpFlow.v:
      what the UDP loop and its reverse tasks deliver of what they received.
    - Tunnel.v: a TCP connection end to end, from the client through the
      connection handler, the dialer, the proxies and the relay to the target.
    - Nftables.v, Status.v, Nat.v: nat/nftables.rs, nat/status.rs and
      nat/linux.rs with nat/mod.rs; Json.v: the JSON texts the status is read from.
    - Machine.v: the machine NAT mode acts on, what each call to [nft] or the file
      system does to it when it works and when it fails (class [MachineLaws]), and
      what the NAT programs do to it when others use it too.
    - App.v: app.rs, main.rs and logging.rs.
    - System.v: the process of userspace mode: main, the supervisors, the signal
      tasks and the heartbeat, scheduled concurrently over one shutdown channel.
    - NatSystem.v: the process of NAT mode: main, the signal tasks with the status
      dump, and the heartbeat, over the shutdown channel and the machine.
    - Listener.v: a supervisor with the serve tasks it starts; what it needs of
      them is the class [ServeLoop], with the TCP and UDP loops as instances.
    - Tests.v: the unit tests of the sources, evaluated on the model.

    ** How code is modelled

    Strings are their UTF-8 bytes ([str] is a list of [ascii]); unsigned
    integers are [Z] with [wrap] where the code can overflow (release builds
    wrap) and [fits] for their range; [Result] is [result] with the source's
    error texts; a panic is [None] of an [option].  A [HashMap] is a [gmap].
    Effectful functions are programs of type [prog E A] over an interface [E] of
    calls ([IoE], [SupE], [SigE], [TimerE], [NatE], [AppE]).  A theorem for all handlers or
    oracles holds in every environment; concrete handlers (a byte stream, a
    SOCKS5 server, a network of proxies, a kernel) make programs run.
    Concurrent parts are state machines: the futures of [Shutdown::cancelled]
    with [op_step], the accept loop with its tasks as [serve_step], the UDP loop
    with its reverse tasks and a clock as [udp_step]; a step is what one task does
    between two [await]s, pauses and pending sends included, and every order of
    events is a run; where threads can come between two accesses of one stretch
    and that shows, as when a UDP session closes, there is a step for each.  In
    System.v, NatSystem.v and Listener.v the programs themselves are the tasks: an
    operation polls one, which makes its next call or stays pending on it, so
    that the [nft] processes of a status dump and of the cleanup interleave.  The
    invariant of such a process is a specification of each program by rely and
    guarantee (Interference.v): what it keeps when every other task keeps its part.
    What is not code of the repository is a class with laws: the watch
    channel ([WatchLaws]), a SOCKS5 server ([ServerPeer]), byte streams
    ([StreamOracle]), the JSON library ([JsonLaws]) and the machine NAT mode works
    on ([MachineLaws]); each has an instance.  The machine can fail in every way
    the code can see: a call may return an error, [nft] may refuse a deletion, and
    the effect of a process that could not be given its input or waited for is not
    known and may come at any later time.  Such failures are recorded ([Fault]), and
    the theorems about NAT mode have no premise on them: what they claim of a table
    or of [ip_forward] holds unless the record has a failure that is to blame, that
    is, its last deletion or write, or a process lost with the ruleset.  They assume that no other program changes the [gust] tables or
    [ip_forward] while gust runs.

    ** What the theorems show

    - Parsing: [parse_args] and [parse_node] invert printing, and accept only
      well-formed results; the flags of the help text are those of the scanner;
      the forms of a flag are equivalent; printed addresses, IPv6 included, parse
      back, and host and port split as they were written.
    - Configuration: [build_config] refines a declarative specification of
      accepted configurations, never panics, and what it accepts is what the
      other parts rely on: every address they split does split, round robin has
      a target, the relay's buffer is not empty.
    - Dialing and SOCKS5: a dial succeeds exactly when every option was set and the
      socket connected without an error, the addresses tried, the exact bytes a handshake takes, its success against an RFC server, and
      a chain that asks each proxy for the next hop and the last for the target,
      or stops at the first failing one.
    - A connection end to end: through a chain of proxies and in any interleaving
      the target gets what the client sends and the client what the target sends,
      in order and with nothing of the handshakes, and the handler returns.
    - Relay: in every environment and interleaving, bytes are delivered in
      order, at most a buffer is held back, the end of one input ends the relay
      when that direction is complete, and it terminates on bounded input.
    - Listeners: gauges and counters are exact under any interleaving, loops
      survive errors and end on shutdown, round robin is fair, UDP sessions are
      those of the reverse tasks, closing ones included, idle ones are reaped in
      bounded time, and
      datagrams and replies keep to their client's session and their order.
    - Supervision and shutdown: restarts without limit, the backoff schedule,
      nothing started after a stop; a supervisor with its real serve tasks has one
      serving at a time and exact counters; a shutdown that sticks, and exactly
      when a trigger is lost.
    - The process: a signal ends it in a bounded number of rounds of any fair
      schedule once main waits, nothing but a signal ends it, and a signal that
      comes before anyone waits is lost for good.
    - NAT: the rules are the listeners', with the addresses that name resolution
      returned; the ruleset, read back by a reader of nft's tables, chains and
      statements, holds exactly them, with masquerading; NAT mode leaves the
      machine as it found it on every path, a failure apart that is to blame; with
      its tasks running beside it, the rules are in place as long as it waits,
      everything is restored when it returns, which takes a signal, and after one,
      once main waits, it returns within six polls; counters are read from any text
      of the listing.  Two ways to leave the machine changed came out of this: a
      load that commits and cannot be waited for ([nat_load_leak]), and an
      [ip_forward] other than 0 and 1.
    - Entry point: exit codes and what is printed, nothing started on an error;
      exactly when [main] panics (an argument that is not Unicode, a console that
      cannot be written, the runtime's builder); logging set up first, one
      supervised task per listener, and exactly those joined.
    - The model passes the unit tests of the sources.

    ** Fuel and bounds

    Structural recursion is used wherever it fits.  [scan] and the string loops
    take the length of their input as fuel, which each step consumes; [Relay]'s
    loops take fuel, and [transport_terminates] shows that four times the number
    of bytes sent is enough (in Tunnel.v, twice those of both sides); [supervise n] is the first [n] iterations of an
    endless loop, and its theorems hold for all [n]; so are [usr1_loop] and
    [beat_loop].  System.v, NatSystem.v and Listener.v need no fuel: the end of a
    loop's body is the start of the next round.  The reader of Json.v takes twice
    the length of its text, and reads every document with that.

    ** Not modelled

    Module declarations (lib.rs, forward/mod.rs), the choice of the allocator in
    main.rs, log output other than the status lines, the messages [cleanup_main]
    prints, panics inside the logging libraries, and the code for systems
    other than Linux (the variants of [install] in signals.rs and of [run] in
    nat/mod.rs that only other systems compile). *)

From Stdlib Require Export ZArith Lia Ascii.
From stdpp Require Export base tactics list gmap strings.

(** ** Strings

    A Rust [String] or [&str] is its sequence of UTF-8 bytes.  Literals are
    written as string literals and coerced. *)

Abbreviation str := (list ascii).
Coercion String.list_ascii_of_string : string >-> list.

#[global] Open Scope string_scope.
#[global] Open Scope list_scope.
#[global] Open Scope Z_scope.

#[global] Instance ascii_countable : Countable ascii.
Proof.
  refine (inj_countable' N_of_ascii ascii_of_N _).
  apply ascii_N_embedding.
Defined.

(** ** [Result<T, E>] *)

Inductive result (A E : Type) : Type :=
| Ok (a : A)
| Err (e : E).
Arguments Ok {A E} & a.
Arguments Err {A E} & e.

#[global] Instance result_eq_dec `{EqDecision A, EqDecision E} :
  EqDecision (result A E).
Proof. solve_decision. Defined.

Definition is_ok {A E} (r : result A E) : bool :=
  match r with Ok _ => true | Err _ => false end.

Definition map_err {A E F} (f : E -> F) (r : result A E) : result A F :=
  match r with Ok a => Ok a | Err e => Err (f e) end.

(** [Option::ok_or_else] *)
Definition ok_or {A E} (o : option A) (e : E) : result A E :=
  match o with Some a => Ok a | None => Err e end.

Definition result_bind {A B E} (r : result A E) (k : A -> result B E) :
    result B E :=
  match r with Ok a => k a | Err e => Err e end.

Declare Scope gust_scope.
Delimit Scope gust_scope with gust.
#[global] Open Scope gust_scope.

(** [let? x := r in k] is Rust's [let x = r?; k]. *)
Notation "'let?' x ':=' r 'in' k" := (result_bind r (fun x => k))
  (at level 10, x pattern, r at level 100, k at level 200,
   format "'let?'  x  ':='  r  'in' '//' k") : gust_scope.

(** The loop [for x in xs { ... ?; out.push(y) }]: stop at the first error. *)
Fixpoint traverse {A B E} (f : A -> result B E) (xs : list A) :
    result (list B) E :=
  match xs with
  | [] => Ok []
  | x :: xs => let? y := f x in let? ys := traverse f xs in Ok (y :: ys)
  end.

(** ** [std::io::Error] *)

Inductive ErrorKind :=
| InvalidData | InvalidInput | PermissionDenied | TimedOut | NotFound
| WouldBlock | UnexpectedEof | WriteZero | OtherKind
| OsKind (code : Z).

#[global] Instance ErrorKind_eq_dec : EqDecision ErrorKind.
Proof. solve_decision. Defined.

(** [err_msg] is the error's [Display] text, [err_os] its [raw_os_error]. *)
Record io_error := IoError {
  err_kind : ErrorKind;
  err_msg : str;
  err_os : option Z;
}.

#[global] Instance io_error_eq_dec : EqDecision io_error.
Proof. solve_decision. Defined.

(** [io::Error::new] and [io::Error::other] *)
Definition io_new (k : ErrorKind) (m : str) : io_error := IoError k m None.
Definition io_other (m : str) : io_error := io_new OtherKind m.

Abbreviation io_result A := (result A io_error).

(** ** Machine integers: a w-bit unsigned integer is a [Z] in [0, 2^w). *)

Definition wrap (w z : Z) : Z := z mod 2 ^ w.

Definition fits (w z : Z) : Prop := 0 <= z < 2 ^ w.

Lemma wrap_fits w z : 0 <= w -> fits w (wrap w z).
Proof. intros. apply Z.mod_pos_bound. apply Z.pow_pos_nonneg; lia. Qed.

Lemma wrap_small w z : fits w z -> wrap w z = z.
Proof. apply Z.mod_small. Qed.

Lemma wrap_add_l w a b : wrap w (wrap w a + b) = wrap w (a + b).
Proof. unfold wrap. apply Zplus_mod_idemp_l. Qed.

(** ** Automation *)

Create HintDb gust.
Create Rewrite HintDb gust.
#[export] Hint Resolve wrap_fits : gust.
#[export] Hint Rewrite wrap_small using (unfold fits in *; lia) : gust.

(** Turn a successful [result_bind] in the hypotheses into the success of
    each step. *)
Lemma result_bind_ok {A B E} (r : result A E) (k : A -> result B E) b :
  result_bind r k = Ok b <-> exists a, r = Ok a /\ k a = Ok b.
Proof. destruct r; simpl; naive_solver. Qed.

Lemma result_bind_err {A B E} (r : result A E) (k : A -> result B E) e :
  result_bind r k = Err e <->
  r = Err e \/ exists a, r = Ok a /\ k a = Err e.
Proof. destruct r; simpl; naive_solver. Qed.

Lemma map_err_ok {A E F} (f : E -> F) (r : result A E) a :
  map_err f r = Ok a <-> r = Ok a.
Proof. destruct r; simpl; naive_solver. Qed.

Lemma ok_or_ok {A E} (o : option A) (e : E) a :
  ok_or o e = Ok a <-> o = Some a.
Proof. destruct o; simpl; naive_solver. Qed.

Ltac inv_ok :=
  repeat match goal with
  | H : result_bind _ _ = Ok _ |- _ =>
      let x := fresh "x" in
      let H1 := fresh "Hok" in
      apply result_bind_ok in H as (x & H1 & H)
  | H : map_err _ _ = Ok _ |- _ => apply map_err_ok in H
  | H : ok_or _ _ = Ok _ |- _ => apply ok_or_ok in H
  | H : Ok _ = Ok _ |- _ => injection H as H; subst
  | H : Err _ = Ok _ |- _ => discriminate H
  | H : Ok _ = Err _ |- _ => discriminate H
  end.

(** Decide a closed decidable proposition by computation. *)
Ltac by_decision := apply (bool_decide_unpack _); vm_compute; exact I.

(** Case analysis on the next conditional or match of a hypothesis. *)
Ltac split_if H :=
  match type of H with
  | context [if ?b then _ else _] => let E := fresh "E" in destruct b eqn:E
  | context [match ?b with _ => _ end] => let E := fresh "E" in destruct b eqn:E
  end.

Lemma traverse_ok {A B E} (f : A -> result B E) xs ys :
  traverse f xs = Ok ys <-> Forall2 (fun x y => f x = Ok y) xs ys.
Proof.
  revert ys; induction xs as [|x xs IH]; intros ys; simpl.
  - split; intros H; [by simplify_eq; constructor | by inversion H].
  - rewrite result_bind_ok. split.
    + intros (y & Hy & H). apply result_bind_ok in H as (ys' & Hys & [= <-]).
      constructor; [done|]. by apply IH.
    + intros H. inversion H as [|? y ? ys' Hy Hys]; subst.
      exists y. split; [done|]. apply result_bind_ok. exists ys'.
      split; [by apply IH|done].
Qed.

(** The first failing element is the one whose error is returned. *)
Lemma traverse_err {A B E} (f : A -> result B E) xs e :
  traverse f xs = Err e <->
  exists pre x post ys, xs = pre ++ x :: post /\
    traverse f pre = Ok ys /\ f x = Err e.
Proof.
  induction xs as [|x xs IH]; simpl.
  - split; [done|]. intros (pre & x & post & ys & H & _). by destruct pre.
  - rewrite result_bind_err. split.
    + intros [H | (y & Hy & H)]; [by exists [], x, xs, []|].
      apply result_bind_err in H as [H | (? & _ & ?)]; [|done].
      apply IH in H as (pre & x' & post & ys & -> & Hpre & Hx').
      exists (x :: pre), x', post, (y :: ys). split; [done|].
      simpl. rewrite Hy. simpl. by rewrite Hpre.
    + intros (pre & x' & post & ys & Heq & Hpre & Hx').
      destruct pre as [|z pre]; simplify_eq/=; [by left|].
      apply result_bind_ok in Hpre as (y & Hy & Hpre). right. exists y.
      split; [done|]. apply result_bind_err. left. apply IH.
      apply result_bind_ok in Hpre as (ys' & Hys & _). eauto 10.
Qed.
