(* ===== verification/Str.v ===== *)
(** * The [str] and integer operations of the standard library

    Rust strings are byte lists; this file models the [str], [char] and
    integer-parsing operations the sources call, with the lemmas the
    parsers of the development share.  Every pattern the sources search for
    is ASCII, so the byte index of a match is a character boundary. *)

From S2P Require Import Prelude.

(** ** Bytes *)

Definition byte_val (c : ascii) : Z := Z.of_N (N_of_ascii c).
Definition byte_of (z : Z) : ascii := ascii_of_N (Z.to_N z).

Lemma byte_val_range c : 0 <= byte_val c < 256.
Proof. unfold byte_val. pose proof (N_ascii_bounded c). lia. Qed.

Lemma byte_val_of z : 0 <= z < 256 -> byte_val (byte_of z) = z.
Proof. intros. unfold byte_val, byte_of. rewrite N_ascii_embedding; lia. Qed.

Lemma byte_of_val c : byte_of (byte_val c) = c.
Proof. unfold byte_val, byte_of. rewrite N2Z.id. apply ascii_N_embedding. Qed.

#[global] Instance byte_val_inj : Inj (=) (=) byte_val.
Proof. intros a b H. by rewrite <- (byte_of_val a), H, byte_of_val. Qed.

(** [as_bytes]: the bytes of a string as [u8] values. *)
Definition as_bytes (s : str) : list Z := byte_val <$> s.

Lemma length_as_bytes s : length (as_bytes s) = length s.
Proof. apply length_fmap. Qed.

Definition in_range (lo hi z : Z) : bool := (lo <=? z) && (z <=? hi).

(** A [match] of a string against string literals. *)
Definition one_of (s : str) (xs : list string) : bool :=
  existsb (fun x : string => bool_decide (s = String.list_ascii_of_string x)) xs.

(** ** Searching *)

Fixpoint find_by (p : ascii -> bool) (s : str) : option nat :=
  match s with
  | [] => None
  | c :: s => if p c then Some 0%nat else S <$> find_by p s
  end.

Fixpoint rfind_by (p : ascii -> bool) (s : str) : option nat :=
  match s with
  | [] => None
  | c :: s =>
      match rfind_by p s with
      | Some i => Some (S i)
      | None => if p c then Some 0%nat else None
      end
  end.

(** [s.find('c')] and [s.rfind('c')] *)
Definition find_char (c : ascii) : str -> option nat := find_by (Ascii.eqb c).
Definition rfind_char (c : ascii) : str -> option nat := rfind_by (Ascii.eqb c).

Fixpoint starts_with (p s : str) : bool :=
  match p, s with
  | [], _ => true
  | a :: p, b :: s => Ascii.eqb a b && starts_with p s
  | _ :: _, [] => false
  end.

(** The double quote and the line feed *)
Definition quote : ascii := ascii_of_N 34.
Definition newline : ascii := ascii_of_N 10.

(** [s.find("pat")] *)
Fixpoint find_str (pat s : str) : option nat :=
  if starts_with pat s then Some 0%nat
  else match s with [] => None | _ :: s => S <$> find_str pat s end.

Definition contains_str (pat s : str) : bool :=
  match find_str pat s with Some _ => true | None => false end.

Definition contains_char (c : ascii) (s : str) : bool :=
  match find_char c s with Some _ => true | None => false end.

(** [s.strip_prefix('c')] *)
Definition strip_prefix (c : ascii) (s : str) : option str :=
  match s with
  | d :: s => if Ascii.eqb c d then Some s else None
  | [] => None
  end.

(** [s.strip_prefix("pat")] *)
Definition strip_prefix_str (pat s : str) : option str :=
  if starts_with pat s then Some (drop (length pat) s) else None.

(** [s.split('c')]: always at least one piece. *)
Fixpoint split_char (c : ascii) (s : str) : list str :=
  match s with
  | [] => [[]]
  | d :: s =>
      if Ascii.eqb c d then [] :: split_char c s
      else match split_char c s with
           | [] => [[d]]
           | p :: ps => (d :: p) :: ps
           end
  end.

(** [s.lines()]: split at '\n', a '\r' before it dropped, no last empty line. *)
Definition lines (s : str) : list str :=
  let strip_cr l := match reverse l with
                    | c :: r => if Ascii.eqb c "013"%char then reverse r else l
                    | [] => l
                    end in
  let ps := split_char "010"%char s in
  match reverse ps with
  | last :: rest =>
      map strip_cr (reverse rest) ++ (if decide (last = []) then [] else [last])
  | [] => []
  end.

(** ** Trimming *)

Fixpoint trim_start_matches (c : ascii) (s : str) : str :=
  match s with
  | d :: s' => if Ascii.eqb c d then trim_start_matches c s' else s
  | [] => []
  end.

(** [s.trim_matches('c')] *)
Definition trim_matches (c : ascii) (s : str) : str :=
  reverse (trim_start_matches c (reverse (trim_start_matches c s))).

(** The number of bytes of the Unicode [White_Space] character that starts
    the UTF-8 bytes [s] (given as byte values), 0 when there is none. *)
Definition ws_bytes (s : list Z) : nat :=
  match s with
  | c :: r =>
      if in_range 9 13 c || (c =? 32) then 1%nat
      else match r with
      | d :: r' =>
          if (c =? 0xC2) && ((d =? 0x85) || (d =? 0xA0)) then 2%nat
          else match r' with
          | e :: _ =>
              if ((c =? 0xE1) && (d =? 0x9A) && (e =? 0x80))
                 || ((c =? 0xE2) && (d =? 0x80) &&
                     (in_range 0x80 0x8A e || (e =? 0xA8) || (e =? 0xA9) || (e =? 0xAF)))
                 || ((c =? 0xE2) && (d =? 0x81) && (e =? 0x9F))
                 || ((c =? 0xE3) && (d =? 0x80) && (e =? 0x80))
              then 3%nat else 0%nat
          | [] => 0%nat
          end
      | [] => 0%nat
      end
  | [] => 0%nat
  end.

(** The same for the character that ends the string, given reversed. *)
Definition ws_end (r : str) : nat :=
  let v := as_bytes (take 3 r) in
  match v with
  | c :: d :: e :: _ =>
      if (ws_bytes [c] =? 1)%nat then 1%nat
      else if (ws_bytes [d; c] =? 2)%nat then 2%nat
      else if (ws_bytes [e; d; c] =? 3)%nat then 3%nat else 0%nat
  | [c; d] =>
      if (ws_bytes [c] =? 1)%nat then 1%nat
      else if (ws_bytes [d; c] =? 2)%nat then 2%nat else 0%nat
  | [c] => ws_bytes [c]
  | [] => 0%nat
  end.

Definition ws_start (s : str) : nat := ws_bytes (as_bytes (take 3 s)).

(** Drop white space while there is some; each round drops a byte, so the
    length of the string is enough fuel. *)
Fixpoint strip_ws (w : str -> nat) (fuel : nat) (s : str) : str :=
  match fuel with
  | O => s
  | S fuel => match w s with
              | O => s
              | n => strip_ws w fuel (drop n s)
              end
  end.

Definition trim_start (s : str) : str := strip_ws ws_start (length s) s.
Definition trim_end (s : str) : str :=
  reverse (strip_ws ws_end (length s) (reverse s)).

(** [s.trim()] *)
Definition trim (s : str) : str := trim_end (trim_start s).

(** ** Case *)

Definition lower_byte (c : ascii) : ascii :=
  let v := byte_val c in if in_range 65 90 v then byte_of (v + 32) else c.

Definition to_ascii_lowercase (s : str) : str := lower_byte <$> s.

(** ** Numbers *)

(** [char::to_digit(radix)] for a one-byte character *)
Definition to_digit (radix : Z) (c : ascii) : option Z :=
  let v := byte_val c in
  let d := if in_range 48 57 v then Some (v - 48)
           else if in_range 97 122 v then Some (v - 87)
           else if in_range 65 90 v then Some (v - 55)
           else None in
  match d with
  | Some d => if d <? radix then Some d else None
  | None => None
  end.

(** The digit loop of [from_str_radix], with checked arithmetic. *)
Fixpoint digits_checked (radix max acc : Z) (s : str) : option Z :=
  match s with
  | [] => Some acc
  | c :: s =>
      match to_digit radix c with
      | None => None
      | Some d =>
          if acc * radix <=? max then
            if acc * radix + d <=? max then
              digits_checked radix max (acc * radix + d) s
            else None
          else None
      end
  end.

(** [u*::from_str_radix]: empty strings and lone signs are errors, a leading
    '+' is skipped. *)
Definition parse_unsigned_radix (radix max : Z) (s : str) : option Z :=
  match s with
  | [] => None
  | [c] => if Ascii.eqb c "+" || Ascii.eqb c "-" then None
           else digits_checked radix max 0 s
  | c :: r => if Ascii.eqb c "+" then digits_checked radix max 0 r
              else digits_checked radix max 0 s
  end%char.

Definition u16_max : Z := 2 ^ 16 - 1.
Definition u64_max : Z := 2 ^ 64 - 1.

(** [s.parse::<u16>()], [::<u64>()], [::<usize>()] (64-bit targets) *)
Definition parse_u16 : str -> option Z := parse_unsigned_radix 10 u16_max.
Definition parse_u64 : str -> option Z := parse_unsigned_radix 10 u64_max.
Definition parse_usize : str -> option Z := parse_unsigned_radix 10 u64_max.

(** [s.parse::<i64>()]: a negative number is accumulated by subtraction. *)
Definition parse_i64 (s : str) : option Z :=
  match s with
  | [] => None
  | [c] => if Ascii.eqb c "+" || Ascii.eqb c "-" then None
           else digits_checked 10 (2 ^ 63 - 1) 0 s
  | c :: r =>
      if Ascii.eqb c "+" then digits_checked 10 (2 ^ 63 - 1) 0 r
      else if Ascii.eqb c "-" then Z.opp <$> digits_checked 10 (2 ^ 63) 0 r
      else digits_checked 10 (2 ^ 63 - 1) 0 s
  end%char.

(** Decimal and hexadecimal digits of a non-negative number, as [Display] and
    [{:x}] print them.  [fuel] bounds the number of digits. *)
Definition digit_char (d : Z) : ascii :=
  if d <? 10 then byte_of (48 + d) else byte_of (87 + d).

Fixpoint show_digits (radix : Z) (fuel : nat) (n : Z) : str :=
  match fuel with
  | O => [digit_char (n mod radix)]
  | S fuel =>
      if n <? radix then [digit_char n]
      else show_digits radix fuel (n / radix) ++ [digit_char (n mod radix)]
  end.

(** Binary length bounds the number of digits in any radix. *)
Definition show_uint (radix n : Z) : str :=
  show_digits radix (Z.to_nat (Z.log2 n)) n.

(** [format!("{n}")] of an unsigned and of a signed integer *)
Definition show_dec (n : Z) : str := show_uint 10 n.
Definition show_hex (n : Z) : str := show_uint 16 n.
Definition show_int (n : Z) : str :=
  if n <? 0 then "-" ++ show_dec (- n) else show_dec n.

Definition show_bool (b : bool) : str := if b then "true" else "false".

(** ** [String::from_utf8_lossy] *)

Definition is_cont (z : Z) : bool := in_range 0x80 0xBF z.

(** The second byte of a three- or four-byte sequence, given the first. *)
Definition second3 (a b : Z) : bool :=
  ((a =? 0xE0) && in_range 0xA0 0xBF b)
  || (in_range 0xE1 0xEC a && is_cont b)
  || ((a =? 0xED) && in_range 0x80 0x9F b)
  || (in_range 0xEE 0xEF a && is_cont b).

Definition second4 (a b : Z) : bool :=
  ((a =? 0xF0) && in_range 0x90 0xBF b)
  || (in_range 0xF1 0xF3 a && is_cont b)
  || ((a =? 0xF4) && in_range 0x80 0x8F b).

(** The next chunk: whether it is a character, and its length.  An invalid
    chunk is the lead byte and the continuation bytes accepted after it. *)
Definition utf8_next (s : str) : bool * nat :=
  match as_bytes (take 4 s) with
  | [] => (true, 0%nat)
  | a :: r =>
      if a <? 128 then (true, 1%nat)
      else if in_range 0xC2 0xDF a then
        match r with
        | b :: _ => if is_cont b then (true, 2%nat) else (false, 1%nat)
        | [] => (false, 1%nat)
        end
      else if in_range 0xE0 0xEF a then
        match r with
        | b :: r' =>
            if second3 a b then
              match r' with
              | c :: _ => if is_cont c then (true, 3%nat) else (false, 2%nat)
              | [] => (false, 2%nat)
              end
            else (false, 1%nat)
        | [] => (false, 1%nat)
        end
      else if in_range 0xF0 0xF4 a then
        match r with
        | b :: r' =>
            if second4 a b then
              match r' with
              | c :: r'' =>
                  if is_cont c then
                    match r'' with
                    | d :: _ => if is_cont d then (true, 4%nat) else (false, 3%nat)
                    | [] => (false, 3%nat)
                    end
                  else (false, 2%nat)
              | [] => (false, 2%nat)
              end
            else (false, 1%nat)
        | [] => (false, 1%nat)
        end
      else (false, 1%nat)
  end.

(** U+FFFD *)
Definition replacement : str := byte_of <$> [0xEF; 0xBF; 0xBD].

Fixpoint lossy_fuel (fuel : nat) (s : str) : str :=
  match fuel, s with
  | O, _ | _, [] => []
  | S fuel, _ =>
      let '(ok, n) := utf8_next s in
      (if ok then take n s else replacement) ++ lossy_fuel fuel (drop n s)
  end.

Definition from_utf8_lossy (s : str) : str := lossy_fuel (length s) s.

(** Well-formed UTF-8: every chunk is a character. *)
Fixpoint utf8_fuel (fuel : nat) (s : str) : bool :=
  match fuel, s with
  | _, [] => true
  | O, _ => false
  | S fuel, _ => let '(ok, n) := utf8_next s in ok && utf8_fuel fuel (drop n s)
  end.

Definition utf8 (s : str) : bool := utf8_fuel (length s) s.

Definition is_ascii (s : str) : bool := forallb (fun c => byte_val c <? 128) s.

(** ** Searching: lemmas *)

Section find.
Context (p : ascii -> bool).

Lemma find_by_app pre c post :
  Forall (fun x => p x = false) pre -> p c = true ->
  find_by p (pre ++ c :: post) = Some (length pre).
Proof.
  intros Hpre Hc. induction Hpre as [|x pre Hx _ IH]; simpl; [by rewrite Hc|].
  by rewrite Hx, IH.
Qed.

Lemma find_by_Some s i :
  find_by p s = Some i <->
  exists c, s = take i s ++ c :: drop (S i) s /\ length (take i s) = i /\
    p c = true /\ Forall (fun x => p x = false) (take i s).
Proof.
  split.
  - revert i; induction s as [|x s IH]; intros i H; simplify_eq/=.
    destruct (p x) eqn:Hx; simplify_eq/=; [by exists x|].
    apply fmap_Some in H as (j & Hj & ->).
    destruct (IH j Hj) as (c & Hs & Hl & Hc & Hf). exists c. simpl.
    split_and!; [by f_equal|by f_equal|done|by constructor].
  - intros (c & Hs & Hl & Hc & Hf). rewrite Hs at 1.
    by rewrite find_by_app, Hl.
Qed.

Lemma find_by_None s : find_by p s = None <-> Forall (fun x => p x = false) s.
Proof.
  induction s as [|x s IH]; simpl; [done|].
  rewrite Forall_cons. destruct (p x) eqn:Hx; [naive_solver|].
  rewrite fmap_None, IH. naive_solver.
Qed.

Lemma rfind_by_None s : rfind_by p s = None <-> Forall (fun x => p x = false) s.
Proof.
  induction s as [|x s IH]; simpl; [done|]. rewrite Forall_cons.
  destruct (rfind_by p s); [naive_solver|]. destruct (p x) eqn:?; naive_solver.
Qed.

Lemma rfind_by_app pre c post :
  Forall (fun x => p x = false) post -> p c = true ->
  rfind_by p (pre ++ c :: post) = Some (length pre).
Proof.
  intros Hpost Hc. induction pre as [|x pre IH]; simpl.
  - apply rfind_by_None in Hpost. by rewrite Hpost, Hc.
  - by rewrite IH.
Qed.

Lemma rfind_by_Some s i :
  rfind_by p s = Some i <->
  exists c, s = take i s ++ c :: drop (S i) s /\ length (take i s) = i /\
    p c = true /\ Forall (fun x => p x = false) (drop (S i) s).
Proof.
  split.
  - revert i; induction s as [|x s IH]; intros i H; simplify_eq/=.
    destruct (rfind_by p s) as [j|] eqn:Hj; simplify_eq/=.
    + destruct (IH j eq_refl) as (c & Hs & Hl & Hc & Hf). exists c.
      split_and!; [by f_equal|by f_equal|done|done].
    + destruct (p x) eqn:Hx; simplify_eq/=. exists x.
      split_and!; [done..|]. by apply rfind_by_None.
  - intros (c & Hs & Hl & Hc & Hf). rewrite Hs at 1.
    by rewrite rfind_by_app, Hl.
Qed.

End find.

(** [c] does not occur in [s]. *)
Definition absent (c : ascii) (s : str) : Prop :=
  Forall (fun x => Ascii.eqb c x = false) s.

#[global] Instance absent_dec c s : Decision (absent c s).
Proof. unfold absent. apply _. Defined.

Lemma absent_app c s t : absent c (s ++ t) <-> absent c s /\ absent c t.
Proof. apply Forall_app. Qed.

Lemma absent_cons c x s : absent c (x :: s) <-> c <> x /\ absent c s.
Proof. unfold absent. rewrite Forall_cons, Ascii.eqb_neq. done. Qed.

Lemma absent_take c n s : absent c s -> absent c (take n s).
Proof. apply Forall_take. Qed.

Lemma absent_drop c n s : absent c s -> absent c (drop n s).
Proof. apply Forall_drop. Qed.

#[export] Hint Resolve absent_take absent_drop : gust.

Lemma find_char_app c pre post :
  absent c pre -> find_char c (pre ++ c :: post) = Some (length pre).
Proof. intros. apply find_by_app; [done|apply Ascii.eqb_refl]. Qed.

Lemma rfind_char_app c pre post :
  absent c post -> rfind_char c (pre ++ c :: post) = Some (length pre).
Proof. intros. apply rfind_by_app; [done|apply Ascii.eqb_refl]. Qed.

(** Cutting at the index a search returned: the two sides and what is known
    of them. *)
Lemma find_char_split c s i :
  find_char c s = Some i ->
  s = take i s ++ c :: drop (S i) s /\ length (take i s) = i /\ absent c (take i s).
Proof.
  intros (d & Hs & Hl & ->%Ascii.eqb_eq & Hf)%find_by_Some. done.
Qed.

Lemma rfind_char_split c s i :
  rfind_char c s = Some i ->
  s = take i s ++ c :: drop (S i) s /\ length (take i s) = i /\ absent c (drop (S i) s).
Proof.
  intros (d & Hs & Hl & ->%Ascii.eqb_eq & Hf)%rfind_by_Some. done.
Qed.

Lemma find_char_None c s : find_char c s = None <-> absent c s.
Proof. apply find_by_None. Qed.

Lemma rfind_char_None c s : rfind_char c s = None <-> absent c s.
Proof. apply rfind_by_None. Qed.

Lemma take_length_app {A} (l k : list A) : take (length l) (l ++ k) = l.
Proof. by rewrite take_app_length. Qed.

Lemma drop_S_length_app {A} (l : list A) x k :
  drop (S (length l)) (l ++ x :: k) = k.
Proof. induction l; simpl; done. Qed.

Lemma starts_with_app p s : starts_with p (p ++ s) = true.
Proof. induction p; simpl; [done|]. by rewrite Ascii.eqb_refl. Qed.

Lemma starts_with_spec p s :
  starts_with p s = true <-> s = p ++ drop (length p) s.
Proof.
  revert s; induction p as [|a p IH]; intros s; simpl; [by rewrite drop_0|].
  destruct s as [|b s]; simpl; [done|].
  rewrite andb_true_iff, Ascii.eqb_eq, IH.
  split; [intros [-> H]; by f_equal|]. intros [= -> H]. done.
Qed.

Lemma find_str_split pat s i :
  find_str pat s = Some i ->
  s = take i s ++ pat ++ drop (i + length pat) s /\ (i <= length s)%nat.
Proof.
  revert i; induction s as [|x s IH]; intros i H; cbn [find_str] in H.
  - destruct (starts_with pat []) eqn:Hp; simplify_eq/=.
    apply starts_with_spec in Hp. done.
  - destruct (starts_with pat (x :: s)) eqn:Hp; simplify_eq/=.
    + apply starts_with_spec in Hp. split; [done|lia].
    + apply fmap_Some in H as (j & Hj & ->). destruct (IH j Hj). simpl.
      split; [by f_equal|lia].
Qed.

(** A pattern whose first byte is absent from the prefix is found after it. *)
Lemma find_str_app c pat pre post :
  absent c pre ->
  find_str (c :: pat) (pre ++ (c :: pat) ++ post) = Some (length pre).
Proof.
  induction pre as [|x pre IH]; intros H.
  - simpl. by rewrite Ascii.eqb_refl, starts_with_app.
  - apply absent_cons in H as [Hne H]. specialize (IH H). simpl in *.
    by rewrite (proj2 (Ascii.eqb_neq c x) Hne), IH.
Qed.

(** ** Splitting: lemmas *)

Lemma split_char_absent c s : absent c s -> split_char c s = [s].
Proof.
  induction s as [|x s IH]; intros H; simpl; [done|].
  apply absent_cons in H as [Hne H].
  by rewrite (proj2 (Ascii.eqb_neq c x) Hne), IH.
Qed.

Lemma split_char_cons c s t :
  absent c s -> split_char c (s ++ c :: t) = s :: split_char c t.
Proof.
  induction s as [|x s IH]; intros H; simpl.
  - by rewrite Ascii.eqb_refl.
  - apply absent_cons in H as [Hne H].
    by rewrite (proj2 (Ascii.eqb_neq c x) Hne), IH.
Qed.

Lemma split_char_nonempty c s : split_char c s <> [].
Proof. destruct s; simpl; repeat case_match; done. Qed.

Lemma split_char_pieces c s : Forall (absent c) (split_char c s).
Proof.
  induction s as [|x s IH]; simpl; [by repeat constructor|].
  destruct (Ascii.eqb c x) eqn:Hx; [by repeat constructor|].
  destruct IH as [|p ps Hp Hps]; repeat constructor; done.
Qed.

(** [ps.join("c")] *)
Fixpoint join_char (c : ascii) (ps : list str) : str :=
  match ps with
  | [] => []
  | [p] => p
  | p :: ps => p ++ c :: join_char c ps
  end.

Lemma split_char_join c ps :
  ps <> [] -> Forall (absent c) ps -> split_char c (join_char c ps) = ps.
Proof.
  intros Hne Hps. induction Hps as [|p ps Hp Hps IH]; [done|].
  destruct ps as [|q ps]; simpl; [by apply split_char_absent|].
  rewrite split_char_cons by done. f_equal. by apply IH.
Qed.

Lemma join_char_split c s : join_char c (split_char c s) = s.
Proof.
  induction s as [|x s IH]; simpl; [done|].
  pose proof (split_char_nonempty c s).
  destruct (Ascii.eqb c x) eqn:Hx.
  - apply Ascii.eqb_eq in Hx as ->. simpl in *.
    destruct (split_char x s); [done|]. by f_equal.
  - destruct (split_char c s) as [|p ps]; [done|]. simpl in *.
    destruct ps; simpl in *; by f_equal.
Qed.

Lemma absent_join c d ps :
  c <> d -> Forall (absent c) ps -> absent c (join_char d ps).
Proof.
  intros Hne Hps. induction Hps as [|p ps Hp Hps IH]; [by constructor|].
  destruct ps; [done|]. apply absent_app; split; [done|].
  by apply absent_cons.
Qed.

(** ** Trimming: lemmas *)

(** A byte that is neither white space nor part of a multi-byte character. *)
Definition graphic (c : ascii) : bool := in_range 33 126 (byte_val c).

Lemma ws_start_graphic c s : graphic c = true -> ws_start (c :: s) = 0%nat.
Proof.
  unfold graphic, ws_start, in_range. intros H.
  destruct s as [|d [|e s]]; cbn -[Z.eqb Z.leb byte_val Nat.eqb];
    repeat (case_match; try done); unfold in_range in *; lia.
Qed.

Lemma ws_end_graphic c s : graphic c = true -> ws_end (c :: s) = 0%nat.
Proof.
  unfold graphic, ws_end, in_range. intros H.
  destruct s as [|d [|e s]]; cbn -[Z.eqb Z.leb byte_val Nat.eqb];
    unfold in_range in *;
    repeat (case_match; cbn -[Z.eqb Z.leb byte_val] in *; try done; try lia).
Qed.

(** A string that starts and ends with graphic bytes is already trimmed. *)
Definition trimmed (s : str) : Prop :=
  match s with
  | [] => True
  | c :: _ => graphic c = true /\
              match reverse s with d :: _ => graphic d = true | [] => True end
  end.

Lemma strip_ws_stop w fuel s : w s = 0%nat -> strip_ws w fuel s = s.
Proof. intros H. destruct fuel; simpl; [done|]. by rewrite H. Qed.

Lemma trim_trimmed s : trimmed s -> trim s = s.
Proof.
  destruct s as [|c s]; [done|]. intros [Hc Hr].
  unfold trim, trim_start, trim_end.
  rewrite (strip_ws_stop ws_start) by (by apply ws_start_graphic).
  destruct (reverse (c :: s)) as [|d r] eqn:Hrev.
  - apply (f_equal length) in Hrev. by rewrite length_reverse in Hrev.
  - rewrite strip_ws_stop by (by apply ws_end_graphic).
    by rewrite <- Hrev, reverse_involutive.
Qed.

Lemma trimmed_graphic s : forallb graphic s = true -> trimmed s.
Proof.
  intros H. destruct s as [|c s]; [done|]. cbn [trimmed].
  assert (Hall : Forall (fun c => graphic c = true) (c :: s)).
  { apply Forall_forall. intros x Hx. eapply forallb_forall in H; [done|].
    by apply list_elem_of_In. }
  split; [by inversion Hall|].
  apply Forall_reverse in Hall. by destruct Hall.
Qed.

Lemma trim_start_matches_stop c s :
  (forall d s', s = d :: s' -> c <> d) -> trim_start_matches c s = s.
Proof.
  destruct s as [|d s]; [done|]. intros H. simpl.
  by rewrite (proj2 (Ascii.eqb_neq c d)) by eauto.
Qed.

(** No surrounding [c]: [trim_matches] changes nothing. *)
Definition unfenced (c : ascii) (s : str) : Prop :=
  (forall d s', s = d :: s' -> c <> d) /\
  (forall d s', reverse s = d :: s' -> c <> d).

Lemma trim_matches_unfenced c s : unfenced c s -> trim_matches c s = s.
Proof.
  intros [H1 H2]. unfold trim_matches.
  rewrite (trim_start_matches_stop c s H1), (trim_start_matches_stop c _ H2).
  apply reverse_involutive.
Qed.

Lemma absent_unfenced c s : absent c s -> unfenced c s.
Proof.
  intros H. split; intros d s' Hs.
  - rewrite Hs in H. by apply absent_cons in H as [? _].
  - apply Forall_reverse in H. rewrite Hs in H.
    by apply absent_cons in H as [? _].
Qed.

Lemma lower_byte_idem c : lower_byte (lower_byte c) = lower_byte c.
Proof.
  unfold lower_byte at 2 3. destruct (in_range 65 90 (byte_val c)) eqn:H.
  - unfold lower_byte, in_range in *. rewrite byte_val_of by lia.
    case_match; [lia|done].
  - unfold lower_byte. by rewrite H.
Qed.

Lemma to_ascii_lowercase_idem s :
  to_ascii_lowercase (to_ascii_lowercase s) = to_ascii_lowercase s.
Proof.
  unfold to_ascii_lowercase. rewrite <- list_fmap_compose.
  apply list_fmap_ext. intros. apply lower_byte_idem.
Qed.

(** ** Numbers: printing and parsing back *)

Section digits.
Context (radix : Z) (Hradix : 2 <= radix <= 16).

Lemma digit_char_val d : 0 <= d < radix -> to_digit radix (digit_char d) = Some d.
Proof.
  intros H. unfold digit_char, to_digit. cbv zeta.
  destruct (d <? 10) eqn:Hd; rewrite byte_val_of by lia; unfold in_range;
    repeat (case_match; try lia); simplify_eq; f_equal; lia.
Qed.

Lemma digits_checked_app max acc s c :
  digits_checked radix max acc (s ++ [c]) =
  match digits_checked radix max acc s with
  | Some v => digits_checked radix max v [c]
  | None => None
  end.
Proof.
  revert acc; induction s as [|x s IH]; intros acc; [done|].
  rewrite <- app_comm_cons. cbn [digits_checked].
  destruct (to_digit radix x); [|done]. by repeat (case_match; try done).
Qed.

Lemma show_digits_parse max fuel n :
  0 <= n <= max -> n < radix ^ Z.of_nat (S fuel) ->
  digits_checked radix max 0 (show_digits radix fuel n) = Some n.
Proof.
  revert n; induction fuel as [|fuel IH]; intros n Hn Hf;
    cbn [show_digits].
  - rewrite Z.mod_small by lia. cbn. rewrite digit_char_val by lia.
    repeat (case_match; try lia). f_equal; lia.
  - case_match eqn:Hlt.
    + cbn. rewrite digit_char_val by lia.
      repeat (case_match; try lia). f_equal; lia.
    + pose proof (Z.div_mod n radix ltac:(lia)) as Hdm.
      pose proof (Z.mod_pos_bound n radix ltac:(lia)).
      assert (Hdiv : 0 <= n / radix <= max) by nia.
      rewrite digits_checked_app, IH; [..|nia|].
      * cbn. rewrite digit_char_val by lia.
        repeat (case_match; try nia). f_equal; lia.
      * apply Z.div_lt_upper_bound; [lia|].
        by rewrite <- Z.pow_succ_r, <- Nat2Z.inj_succ by lia.
Qed.

Lemma log2_fuel n : 0 <= n -> n < radix ^ Z.of_nat (S (Z.to_nat (Z.log2 n))).
Proof.
  intros Hn. rewrite Nat2Z.inj_succ, Z2Nat.id by apply Z.log2_nonneg.
  destruct (Z.eq_dec n 0) as [->|]; [cbn; lia|].
  pose proof (Z.log2_spec n ltac:(lia)).
  pose proof (Z.pow_le_mono_l 2 radix (Z.succ (Z.log2 n))). lia.
Qed.

Lemma show_uint_checked max n :
  0 <= n <= max -> digits_checked radix max 0 (show_uint radix n) = Some n.
Proof. intros. apply show_digits_parse; [done|]. apply log2_fuel; lia. Qed.

Lemma show_digits_class fuel n :
  0 <= n -> n < radix ^ Z.of_nat (S fuel) ->
  Forall (fun c => exists d, 0 <= d < radix /\ c = digit_char d) (show_digits radix fuel n).
Proof.
  revert n; induction fuel as [|fuel IH]; intros n Hn Hf; cbn [show_digits].
  - constructor; [|done]. eexists; split; [|done]. apply Z.mod_pos_bound; lia.
  - case_match.
    + constructor; [|done]. exists n. split; [lia|done].
    + apply Forall_app; split.
      * apply IH; [apply Z.div_pos; lia|]. apply Z.div_lt_upper_bound; [lia|].
        by rewrite <- Z.pow_succ_r, <- Nat2Z.inj_succ by lia.
      * constructor; [|done]. eexists; split; [|done]. apply Z.mod_pos_bound; lia.
Qed.

Lemma show_uint_class n :
  0 <= n -> Forall (fun c => exists d, 0 <= d < radix /\ c = digit_char d) (show_uint radix n).
Proof. intros. apply show_digits_class; [done|]. by apply log2_fuel. Qed.

Lemma show_uint_nonempty n : show_uint radix n <> [].
Proof.
  unfold show_uint. generalize (Z.to_nat (Z.log2 n)) as fuel.
  destruct fuel; simpl; [done|]. case_match; [done|].
  by destruct (show_digits _ _ _).
Qed.

Lemma show_digits_length fuel k n :
  0 <= n < radix ^ Z.of_nat (S k) -> (length (show_digits radix fuel n) <= S k)%nat.
Proof.
  revert k n; induction fuel as [|fuel IH]; intros k n Hn; cbn [show_digits]; [cbn; lia|].
  destruct (Z.ltb_spec n radix); [cbn; lia|]. rewrite length_app. cbn [length].
  destruct k as [|k]; [rewrite Z.pow_1_r in Hn; lia|].
  assert (0 <= n / radix < radix ^ Z.of_nat (S k)).
  { split; [apply Z.div_pos; lia|]. apply Z.div_lt_upper_bound; [lia|].
    rewrite <- Z.pow_succ_r, <- Nat2Z.inj_succ by lia. lia. }
  specialize (IH k (n / radix) ltac:(done)). lia.
Qed.

(** No sign and no separator occurs in a printed number. *)
Lemma show_uint_absent c n :
  0 <= n -> to_digit radix c = None -> absent c (show_uint radix n).
Proof.
  intros Hn Hc. eapply Forall_impl; [by apply show_uint_class|].
  intros x (d & Hd & ->). apply Ascii.eqb_neq. intros ->.
  by rewrite digit_char_val in Hc.
Qed.

Lemma parse_show_uint max n :
  0 <= n <= max -> parse_unsigned_radix radix max (show_uint radix n) = Some n.
Proof.
  intros Hn. pose proof (show_uint_checked max n Hn) as Hc.
  pose proof (show_uint_absent "+"%char n ltac:(lia)) as Hplus.
  pose proof (show_uint_absent "-"%char n ltac:(lia)) as Hminus.
  assert (Hp : to_digit radix "+"%char = None) by done.
  assert (Hm : to_digit radix "-"%char = None) by done.
  specialize (Hplus Hp). specialize (Hminus Hm).
  pose proof (show_uint_nonempty n).
  destruct (show_uint radix n) as [|c s] eqn:Hs; [done|].
  apply absent_cons in Hplus as [Hplus _], Hminus as [Hminus _].
  unfold parse_unsigned_radix.
  rewrite !(proj2 (Ascii.eqb_neq c _)) by done. by destruct s.
Qed.

End digits.

Lemma parse_u16_show n : fits 16 n -> parse_u16 (show_dec n) = Some n.
Proof. intros []. apply parse_show_uint; [lia|]. unfold u16_max. lia. Qed.

(** A parsed number is within its type's range. *)
Lemma to_digit_range radix c d : to_digit radix c = Some d -> 0 <= d < radix.
Proof.
  unfold to_digit, in_range. pose proof (byte_val_range c). intros H0.
  repeat (case_match; try done); simplify_eq; lia.
Qed.

Lemma digits_checked_range radix max acc s n :
  0 <= acc <= max -> digits_checked radix max acc s = Some n -> 0 <= n <= max.
Proof.
  revert acc; induction s as [|c s IH]; intros acc Hacc H; simplify_eq/=; [done|].
  destruct (to_digit radix c) as [d|] eqn:Hd; [|done].
  apply to_digit_range in Hd. repeat (case_match; try done).
  eapply IH; [|done]. nia.
Qed.

Lemma parse_unsigned_range radix max s n :
  0 <= max -> parse_unsigned_radix radix max s = Some n -> 0 <= n <= max.
Proof.
  intros Hmax H. unfold parse_unsigned_radix in H.
  repeat (case_match; try done); by eapply digits_checked_range in H.
Qed.

Lemma parse_u16_fits s n : parse_u16 s = Some n -> fits 16 n.
Proof.
  intros H. apply parse_unsigned_range in H; unfold fits, u16_max in *; lia.
Qed.

Lemma parse_i64_range s n : parse_i64 s = Some n -> - 2 ^ 63 <= n <= 2 ^ 63 - 1.
Proof.
  intros H. unfold parse_i64 in H.
  repeat (case_match; try done);
    try (eapply digits_checked_range in H; lia).
  apply fmap_Some in H as (m & H & ->). eapply digits_checked_range in H; lia.
Qed.

#[export] Hint Resolve parse_u16_fits : gust.

Lemma parse_unsigned_show n : fits 64 n -> parse_usize (show_dec n) = Some n.
Proof. intros []. apply parse_show_uint; [lia|]. unfold u64_max. lia. Qed.

Lemma parse_u64_show n : fits 64 n -> parse_u64 (show_dec n) = Some n.
Proof. apply parse_unsigned_show. Qed.

Lemma parse_i64_show n : - 2 ^ 63 <= n < 2 ^ 63 -> parse_i64 (show_int n) = Some n.
Proof.
  intros Hn. unfold show_int. destruct (n <? 0) eqn:Hneg.
  - pose proof (show_uint_nonempty 10 (- n)) as Hne.
    pose proof (show_uint_checked 10 ltac:(lia) (2 ^ 63) (- n) ltac:(lia)) as Hc.
    unfold show_dec. destruct (show_uint 10 (- n)) as [|c s]; [done|].
    unfold parse_i64. cbn [app String.list_ascii_of_string]. simpl.
    simpl in Hc. rewrite Hc. simpl. f_equal. lia.
  - pose proof (parse_show_uint 10 ltac:(lia) (2 ^ 63 - 1) n ltac:(lia)) as Hp.
    pose proof (show_uint_absent 10 ltac:(lia) "-"%char n ltac:(lia) eq_refl) as Hm.
    unfold parse_unsigned_radix in Hp. unfold parse_i64, show_dec.
    destruct (show_uint 10 n) as [|c s]; [done|].
    apply absent_cons in Hm as [Hm _].
    rewrite (proj2 (Ascii.eqb_neq c "-"%char)) in * by done.
    by destruct s.
Qed.

(** ** UTF-8: lemmas *)

Lemma lossy_fuel_utf8 fuel s :
  utf8_fuel fuel s = true -> lossy_fuel fuel s = s.
Proof.
  revert s; induction fuel as [|fuel IH]; intros s H; destruct s as [|c s];
    try done.
  cbn [utf8_fuel lossy_fuel] in *. destruct (utf8_next (c :: s)) as [ok n].
  apply andb_true_iff in H as [-> H]. rewrite IH by done. apply take_drop.
Qed.

(** A string that is well-formed UTF-8 is not changed. *)
Lemma from_utf8_lossy_id s : utf8 s = true -> from_utf8_lossy s = s.
Proof. apply lossy_fuel_utf8. Qed.

Lemma utf8_fuel_ascii s : is_ascii s = true -> utf8_fuel (length s) s = true.
Proof.
  induction s as [|c s IH]; [done|]. simpl. intros [Hc Hs]%andb_true_iff.
  unfold utf8_next. cbn [take as_bytes fmap list_fmap]. rewrite Hc. simpl.
  by rewrite drop_0, IH.
Qed.

Lemma utf8_ascii s : is_ascii s = true -> utf8 s = true.
Proof. apply utf8_fuel_ascii. Qed.

(** ** What [trim_matches] leaves *)

Lemma trim_start_matches_suffix c s : exists n, trim_start_matches c s = drop n s.
Proof.
  induction s as [|d s [n IH]]; simpl; [by exists 0%nat|].
  case_match; [by exists (S n)|by exists 0%nat].
Qed.

Lemma trim_start_matches_head c s d s' : trim_start_matches c s = d :: s' -> c <> d.
Proof.
  induction s as [|e s IH]; simpl; [done|]. case_match eqn:He; [done|].
  intros [= <- <-]. by apply Ascii.eqb_neq.
Qed.

Lemma trim_matches_drop_take c s :
  exists n m, trim_matches c s = take m (drop n s).
Proof.
  unfold trim_matches. destruct (trim_start_matches_suffix c s) as [n ->].
  destruct (trim_start_matches_suffix c (reverse (drop n s))) as [m ->].
  exists n, (length (drop n s) - m)%nat.
  by rewrite drop_reverse, reverse_involutive.
Qed.

Lemma trim_matches_unfenced_out c s : unfenced c (trim_matches c s).
Proof.
  split; intros d s' H.
  - unfold trim_matches in H.
    destruct (trim_start_matches c s) as [|e t] eqn:Ht; [done|].
    pose proof (trim_start_matches_head c s e t Ht) as He.
    destruct (trim_start_matches_suffix c (reverse (e :: t))) as [m Hm].
    rewrite Hm, drop_reverse, reverse_involutive in H.
    destruct (length (e :: t) - m)%nat; simplify_eq/=. done.
  - unfold trim_matches in H. rewrite reverse_involutive in H.
    by eapply trim_start_matches_head.
Qed.

Lemma trim_matches_absent c d s : absent d s -> absent d (trim_matches c s).
Proof.
  destruct (trim_matches_drop_take c s) as (n & m & ->). auto with gust.
Qed.

(** ** Numbers on a line *)

(** A line of graphic characters, without its end. *)
Lemma trim_line s : s <> [] -> forallb graphic s = true -> trim (s ++ [newline]) = s.
Proof.
  intros Hne Hg. pose proof (trimmed_graphic s Hg) as Ht. destruct s as [|c s]; [done|]. destruct Ht as [Hc Hr].
  unfold trim, trim_start, trim_end.
  rewrite (strip_ws_stop ws_start) by (by apply ws_start_graphic).
  rewrite reverse_snoc, length_app, Nat.add_comm. cbn [length Nat.add].
  destruct (reverse (c :: s)) as [|d r] eqn:Hrev.
  - apply (f_equal length) in Hrev. by rewrite length_reverse in Hrev.
  - assert (Hw : ws_end (newline :: d :: r) = 1%nat) by (by destruct r).
    cbn [strip_ws]. rewrite Hw. cbn [drop]. rewrite ws_end_graphic by done.
    by rewrite <- Hrev, reverse_involutive.
Qed.

Lemma show_int_graphic n : forallb graphic (show_int n) = true.
Proof.
  assert (Hd : forall m, 0 <= m -> forallb graphic (show_dec m) = true).
  { intros m Hm. apply forallb_forall. intros c Hc%list_elem_of_In.
    pose proof (show_uint_class 10 ltac:(lia) m Hm) as Hall. rewrite Forall_forall in Hall.
    destruct (Hall c Hc) as (d & Hd & ->).
    assert (d = 0 \/ d = 1 \/ d = 2 \/ d = 3 \/ d = 4 \/ d = 5 \/ d = 6 \/ d = 7 \/ d = 8 \/ d = 9) by lia.
    by repeat destruct H as [->|H]; [..|subst]. }
  unfold show_int. destruct (n <? 0) eqn:Hn.
  - apply Z.ltb_lt in Hn. rewrite forallb_app, Hd by lia. done.
  - apply Z.ltb_ge in Hn. by apply Hd.
Qed.

Lemma show_int_nonempty n : show_int n <> [].
Proof. unfold show_int. destruct (n <? 0); [done|]. apply show_uint_nonempty. Qed.
