(* ===== verification/Ip.v ===== *)
(** * IP and socket addresses

    The parsers and printers of [std::net] the sources call:
    [host.parse::<Ipv4Addr>()], [::<Ipv6Addr>()], [::<IpAddr>()],
    [addr.parse::<SocketAddr>()] and the [Display] of the address types.
    A parser takes the input left and returns the value and the rest;
    an address string must be consumed whole. *)

From S2P Require Import Prelude Str.

Record Ipv4Addr := Ipv4 { oct1 : Z; oct2 : Z; oct3 : Z; oct4 : Z }.

(** The eight 16-bit segments. *)
Record Ipv6Addr := Ipv6 { segments : list Z }.

Inductive IpAddr := V4 (a : Ipv4Addr) | V6 (a : Ipv6Addr).

Record SocketAddr := SockAddr { sa_ip : IpAddr; sa_port : Z; sa_scope : Z }.

#[global] Instance Ipv4Addr_eq_dec : EqDecision Ipv4Addr.
Proof. solve_decision. Defined.
#[global] Instance Ipv6Addr_eq_dec : EqDecision Ipv6Addr.
Proof. solve_decision. Defined.
#[global] Instance IpAddr_eq_dec : EqDecision IpAddr.
Proof. solve_decision. Defined.
#[global] Instance SocketAddr_eq_dec : EqDecision SocketAddr.
Proof. solve_decision. Defined.

#[global] Instance Ipv4Addr_countable : Countable Ipv4Addr.
Proof.
  by refine (inj_countable' (fun a => (oct1 a, oct2 a, oct3 a, oct4 a))
    (fun '(a, b, c, d) => Ipv4 a b c d) _); intros [].
Defined.

#[global] Instance Ipv6Addr_countable : Countable Ipv6Addr.
Proof. by refine (inj_countable' segments Ipv6 _); intros []. Defined.

#[global] Instance IpAddr_countable : Countable IpAddr.
Proof.
  by refine (inj_countable' (fun ip => match ip with V4 a => inl a | V6 a => inr a end)
    (fun x => match x with inl a => V4 a | inr a => V6 a end) _); intros [].
Defined.

#[global] Instance SocketAddr_countable : Countable SocketAddr.
Proof.
  by refine (inj_countable' (fun sa => (sa_ip sa, sa_port sa, sa_scope sa))
    (fun '(a, b, c) => SockAddr a b c) _); intros [].
Defined.

Definition is_ipv4 (ip : IpAddr) : bool := match ip with V4 _ => true | V6 _ => false end.
Definition is_ipv6 (ip : IpAddr) : bool := match ip with V4 _ => false | V6 _ => true end.

Definition v4_octets (a : Ipv4Addr) : list Z := [oct1 a; oct2 a; oct3 a; oct4 a].

(** [u16::to_be_bytes] *)
Definition be16 (n : Z) : list Z := [Z.shiftr n 8; Z.land n 255].

Definition v6_octets (a : Ipv6Addr) : list Z := mjoin (be16 <$> segments a).

Definition wf_ipv4 (a : Ipv4Addr) : Prop := Forall (fits 8) (v4_octets a).
Definition wf_ipv6 (a : Ipv6Addr) : Prop :=
  length (segments a) = 8%nat /\ Forall (fits 16) (segments a).
Definition wf_ip (ip : IpAddr) : Prop :=
  match ip with V4 a => wf_ipv4 a | V6 a => wf_ipv6 a end.

(** ** The parser *)

Abbreviation parser A := (str -> option (A * str)).

Definition read_given_char (c : ascii) : parser unit :=
  fun s => match s with
           | d :: s => if Ascii.eqb c d then Some (tt, s) else None
           | [] => None
           end.

(** The digit loop with a bound on the number of digits: [None] when there
    are more, else the value, how many digits were read, and the rest. *)
Fixpoint read_digits (radix : Z) (budget : nat) (acc : Z) (s : str) {struct s} :
    option (Z * nat * str) :=
  match s with
  | c :: s' =>
      match to_digit radix c with
      | Some d =>
          match budget with
          | O => None
          | S b => match read_digits radix b (acc * radix + d) s' with
                   | Some (v, n, r) => Some (v, S n, r)
                   | None => None
                   end
          end
      | None => Some (acc, 0%nat, s)
      end
  | [] => Some (acc, 0%nat, [])
  end.

(** [read_number(radix, Some(max_digits), allow_zero_prefix)] into a type with
    maximum [max]. *)
Definition read_number (radix : Z) (max_digits : nat) (allow_zero_prefix : bool)
    (max : Z) : parser Z :=
  fun s =>
    let has_leading_zero := starts_with "0" s in
    match read_digits radix max_digits 0 s with
    | None | Some (_, O, _) => None
    | Some (v, n, r) =>
        if negb allow_zero_prefix && has_leading_zero && (1 <? n)%nat then None
        else if v <=? max then Some (v, r) else None
    end.

(** [read_number(10, None, true)]: any number of digits, checked arithmetic. *)
Fixpoint read_checked (max acc : Z) (s : str) : option (Z * nat * str) :=
  match s with
  | c :: s' =>
      match to_digit 10 c with
      | Some d =>
          if acc * 10 + d <=? max then
            match read_checked max (acc * 10 + d) s' with
            | Some (v, n, r) => Some (v, S n, r)
            | None => None
            end
          else None
      | None => Some (acc, 0%nat, s)
      end
  | [] => Some (acc, 0%nat, [])
  end.

Definition read_number_unbounded (max : Z) : parser Z :=
  fun s => match read_checked max 0 s with
           | None | Some (_, O, _) => None
           | Some (v, _, r) => Some (v, r)
           end.

(** [read_separator(sep, index, inner)]: the separator from the second on. *)
Definition read_separator {A} (sep : ascii) (index : nat) (inner : parser A) : parser A :=
  fun s => match index with
           | O => inner s
           | S _ => match read_given_char sep s with
                    | Some (_, s) => inner s
                    | None => None
                    end
           end.

Definition read_octet (i : nat) : parser Z :=
  read_separator "." i (read_number 10 3 false 255).

Definition read_ipv4_addr : parser Ipv4Addr :=
  fun s =>
    match read_octet 0 s with None => None | Some (a, s) =>
    match read_octet 1 s with None => None | Some (b, s) =>
    match read_octet 2 s with None => None | Some (c, s) =>
    match read_octet 3 s with None => None | Some (d, s) =>
      Some (Ipv4 a b c d, s)
    end end end end.

(** [read_groups] with [rem] slots left, [i] groups read so far. *)
Fixpoint read_groups (rem i : nat) (s : str) : list Z * bool * str :=
  match rem with
  | O => ([], false, s)
  | S rem' =>
      let v4 := if (1 <=? rem')%nat then read_separator ":" i read_ipv4_addr s else None in
      match v4 with
      | Some (a, s') =>
          ([oct1 a * 256 + oct2 a; oct3 a * 256 + oct4 a], true, s')
      | None =>
          match read_separator ":" i (read_number 16 4 true 65535) s with
          | Some (g, s') =>
              let '(gs, v, r) := read_groups rem' (S i) s' in (g :: gs, v, r)
          | None => ([], false, s)
          end
      end
  end.

Definition read_ipv6_addr : parser Ipv6Addr :=
  fun s =>
    let '(head, head_ipv4, s) := read_groups 8 0 s in
    if (length head =? 8)%nat then Some (Ipv6 head, s)
    else if head_ipv4 then None
    else
      match read_given_char ":" s with None => None | Some (_, s) =>
      match read_given_char ":" s with None => None | Some (_, s) =>
        let limit := (8 - (length head + 1))%nat in
        let '(tail, _, s) := read_groups limit 0 s in
        Some (Ipv6 (head ++ replicate (8 - length head - length tail) 0 ++ tail), s)
      end end.

Definition read_port : parser Z :=
  fun s => match read_given_char ":" s with
           | Some (_, s) => read_number_unbounded 65535 s
           | None => None
           end.

Definition read_scope_id : parser Z :=
  fun s => match read_given_char "%" s with
           | Some (_, s) => read_number_unbounded (2 ^ 32 - 1) s
           | None => None
           end.

Definition read_socket_addr_v4 : parser SocketAddr :=
  fun s => match read_ipv4_addr s with
           | Some (a, s) => match read_port s with
                            | Some (p, s) => Some (SockAddr (V4 a) p 0, s)
                            | None => None
                            end
           | None => None
           end.

Definition read_socket_addr_v6 : parser SocketAddr :=
  fun s =>
    match read_given_char "[" s with None => None | Some (_, s) =>
    match read_ipv6_addr s with None => None | Some (a, s) =>
      let '(scope, s) := match read_scope_id s with
                         | Some (n, s') => (n, s')
                         | None => (0, s)
                         end in
      match read_given_char "]" s with None => None | Some (_, s) =>
      match read_port s with None => None | Some (p, s) =>
        Some (SockAddr (V6 a) p scope, s)
      end end
    end end.

(** [parse_with]: the whole input must be consumed. *)
Definition parse_whole {A} (p : parser A) (s : str) : option A :=
  match p s with Some (a, []) => Some a | _ => None end.

Definition parse_ipv4 (s : str) : option Ipv4Addr :=
  if (15 <? length s)%nat then None else parse_whole read_ipv4_addr s.

Definition parse_ipv6 (s : str) : option Ipv6Addr := parse_whole read_ipv6_addr s.

Definition parse_ip (s : str) : option IpAddr :=
  parse_whole (fun s => match read_ipv4_addr s with
                        | Some (a, r) => Some (V4 a, r)
                        | None => match read_ipv6_addr s with
                                  | Some (a, r) => Some (V6 a, r)
                                  | None => None
                                  end
                        end) s.

Definition parse_socket_addr (s : str) : option SocketAddr :=
  parse_whole (fun s => match read_socket_addr_v4 s with
                        | Some r => Some r
                        | None => read_socket_addr_v6 s
                        end) s.

(** ** [Display] *)

Definition show_ipv4 (a : Ipv4Addr) : str :=
  show_dec (oct1 a) ++ "." ++ show_dec (oct2 a) ++ "." ++
  show_dec (oct3 a) ++ "." ++ show_dec (oct4 a).

(** The first longest run of zero segments: its start and length. *)
Fixpoint zero_runs (i : nat) (segs : list Z) (longest current : nat * nat) : nat * nat :=
  match segs with
  | [] => longest
  | g :: segs =>
      if g =? 0 then
        let current := if (snd current =? 0)%nat then (i, 1%nat)
                       else (fst current, S (snd current)) in
        let longest := if (snd longest <? snd current)%nat then current else longest in
        zero_runs (S i) segs longest current
      else zero_runs (S i) segs longest (0%nat, 0%nat)
  end.

Definition show_segments (segs : list Z) : str := join_char ":" (show_hex <$> segs).

(** [to_ipv4_mapped] *)
Definition to_ipv4_mapped (a : Ipv6Addr) : option Ipv4Addr :=
  match segments a with
  | [0; 0; 0; 0; 0; 0xFFFF; x; y] =>
      Some (Ipv4 (Z.shiftr x 8) (Z.land x 255) (Z.shiftr y 8) (Z.land y 255))
  | _ => None
  end.

Definition show_ipv6 (a : Ipv6Addr) : str :=
  match to_ipv4_mapped a with
  | Some v4 => "::ffff:" ++ show_ipv4 v4
  | None =>
      let '(start, len) := zero_runs 0 (segments a) (0%nat, 0%nat) (0%nat, 0%nat) in
      if (1 <? len)%nat then
        show_segments (take start (segments a)) ++ "::" ++
        show_segments (drop (start + len) (segments a))
      else show_segments (segments a)
  end.

Definition show_ip (ip : IpAddr) : str :=
  match ip with V4 a => show_ipv4 a | V6 a => show_ipv6 a end.

(** ** Lemmas *)

Example parse_ipv6_loopback : parse_ipv6 "::1" = Some (Ipv6 [0;0;0;0;0;0;0;1]).
Proof. reflexivity. Qed.
Example parse_ipv6_mapped :
  parse_ipv6 "::ffff:1.2.3.4" = Some (Ipv6 [0;0;0;0;0;0xFFFF;0x102;0x304]).
Proof. reflexivity. Qed.
Example parse_ipv6_full :
  parse_ipv6 "2001:db8:0:1:2:3:4:5" = Some (Ipv6 [0x2001;0xdb8;0;1;2;3;4;5]).
Proof. reflexivity. Qed.
Example parse_ipv6_bad : parse_ipv6 "1::2::3" = None.
Proof. reflexivity. Qed.
Example parse_ipv4_leading_zero : parse_ipv4 "01.2.3.4" = None.
Proof. reflexivity. Qed.
Example show_ipv6_compressed :
  show_ipv6 (Ipv6 [0x2001;0xdb8;0;0;1;0;0;1]) = "2001:db8::1:0:0:1".
Proof. reflexivity. Qed.
Example parse_socket_v6 :
  parse_socket_addr "[2001:db8::1]:443" =
  Some (SockAddr (V6 (Ipv6 [0x2001;0xdb8;0;0;0;0;0;1])) 443 0).
Proof. reflexivity. Qed.
Example parse_socket_name : parse_socket_addr "example.com:443" = None.
Proof. reflexivity. Qed.

(** What is left after a number does not go on with a digit. *)
Definition no_digit (radix : Z) (r : str) : Prop :=
  match r with c :: _ => to_digit radix c = None | [] => True end.

Lemma read_digits_app radix max b acc s v r :
  digits_checked radix max acc s = Some v -> (length s <= b)%nat ->
  no_digit radix r ->
  read_digits radix b acc (s ++ r) = Some (v, length s, r).
Proof.
  revert b acc; induction s as [|c s IH]; intros b acc Hs Hb Hr; simplify_eq/=.
  - destruct r as [|x r]; [done|]. simpl in *. by rewrite Hr.
  - destruct (to_digit radix c) as [d|]; [|done].
    destruct b as [|b]; [lia|].
    destruct (acc * radix <=? max); [|done].
    destruct (acc * radix + d <=? max); [|done].
    by rewrite (IH b) by (done || lia).
Qed.

Lemma bounded_check (f : Z -> bool) n m :
  forallb f (seqZ 0 m) = true -> 0 <= n < m -> f n = true.
Proof.
  intros H Hn. eapply forallb_forall in H; [done|].
  apply list_elem_of_In, elem_of_seqZ. lia.
Qed.

(** An octet prints as at most three digits with no leading zero. *)
Definition octet_shape (n : Z) : bool :=
  let s := show_dec n in
  (length s <=? 3)%nat && (negb (starts_with "0" s) || (length s =? 1)%nat).

Lemma octet_shape_ok n : fits 8 n -> octet_shape n = true.
Proof. apply bounded_check. vm_compute. reflexivity. Qed.

Lemma octet_shape_length n : fits 8 n -> (length (show_dec n) <= 3)%nat.
Proof. intros [H _]%octet_shape_ok%andb_true_iff. by apply Nat.leb_le. Qed.

Lemma starts_with_zero_app s r :
  s <> [] -> starts_with "0" (s ++ r) = starts_with "0" s.
Proof. destruct s; [done|]. simpl. by rewrite !andb_true_r. Qed.

Lemma read_number_octet n r :
  fits 8 n -> no_digit 10 r ->
  read_number 10 3 false 255 (show_dec n ++ r) = Some (n, r).
Proof.
  intros Hn Hr. pose proof (octet_shape_ok n Hn) as Hs.
  unfold octet_shape in Hs. apply andb_true_iff in Hs as [Hl Hz].
  apply Nat.leb_le in Hl. unfold fits in Hn.
  pose proof (show_uint_nonempty 10 n).
  unfold read_number. rewrite starts_with_zero_app by done.
  erewrite read_digits_app;
    [|apply (show_uint_checked 10 ltac:(lia) 255); lia|done|done].
  fold (show_dec n). destruct (show_dec n) as [|c s] eqn:Hc; [done|].
  cbn [length] in *. rewrite (proj2 (Z.leb_le n 255)) by lia.
  destruct (starts_with "0" (c :: s)); simpl in Hz |- *; [|done].
  by destruct s.
Qed.

Lemma read_octet_show i n r :
  fits 8 n -> no_digit 10 r ->
  read_octet (S i) ("." ++ show_dec n ++ r) = Some (n, r).
Proof. intros. apply read_number_octet; done. Qed.

Lemma read_show_ipv4 a r :
  wf_ipv4 a -> no_digit 10 r -> read_ipv4_addr (show_ipv4 a ++ r) = Some (a, r).
Proof.
  intros Hwf Hr. unfold wf_ipv4, v4_octets in Hwf. destruct a as [a b c d].
  rewrite !Forall_cons in Hwf. destruct Hwf as (Ha & Hb & Hc & Hd & _).
  unfold read_ipv4_addr, show_ipv4. cbn [oct1 oct2 oct3 oct4] in *.
  rewrite <- !app_assoc. unfold read_octet at 1. cbn [read_separator].
  rewrite read_number_octet by done.
  rewrite read_octet_show by done. rewrite read_octet_show by done.
  by rewrite read_octet_show.
Qed.

Lemma show_ipv4_length a : wf_ipv4 a -> (length (show_ipv4 a) <= 15)%nat.
Proof.
  intros Hwf. unfold wf_ipv4, v4_octets in Hwf. rewrite !Forall_cons in Hwf.
  destruct Hwf as (Ha & Hb & Hc & Hd & _).
  apply octet_shape_length in Ha, Hb, Hc, Hd.
  unfold show_ipv4. rewrite !length_app. cbn [length String.list_ascii_of_string].
  lia.
Qed.

Lemma parse_show_ipv4 a : wf_ipv4 a -> parse_ipv4 (show_ipv4 a) = Some a.
Proof.
  intros Hwf. unfold parse_ipv4, parse_whole.
  pose proof (show_ipv4_length a Hwf).
  rewrite (proj2 (Nat.ltb_ge 15 _)) by done.
  rewrite <- (app_nil_r (show_ipv4 a)). by rewrite read_show_ipv4.
Qed.

(** What the parsers return is well formed. *)

Lemma read_number_range radix n z max s v r :
  0 <= max -> read_number radix n z max s = Some (v, r) -> v <= max.
Proof.
  intros Hmax H. unfold read_number in H.
  repeat (case_match; try done); simplify_eq; lia.
Qed.

Lemma read_digits_nonneg radix b acc s v n r :
  0 <= radix -> 0 <= acc -> read_digits radix b acc s = Some (v, n, r) -> 0 <= v.
Proof.
  intros Hr. revert b acc n; induction s as [|c s IH]; intros b acc n Ha H;
    simplify_eq/=; [done|].
  destruct (to_digit radix c) as [d|] eqn:Hd; simplify_eq; [|done].
  apply to_digit_range in Hd. repeat (case_match; try done); simplify_eq.
  eapply IH; [|done]. nia.
Qed.

Lemma read_number_fits w radix n z s v r :
  0 <= w -> 0 <= radix ->
  read_number radix n z (2 ^ w - 1) s = Some (v, r) -> fits w v.
Proof.
  intros Hw Hr H. pose proof (Z.pow_pos_nonneg 2 w).
  pose proof H as Hle. apply read_number_range in Hle; [|lia].
  unfold read_number in H. repeat (case_match; try done); simplify_eq.
  split; [|lia]. eapply read_digits_nonneg; [done| |done]. lia.
Qed.

Lemma read_separator_inv {A} sep i (p : parser A) s a r :
  read_separator sep i p s = Some (a, r) -> exists s', p s' = Some (a, r).
Proof. unfold read_separator. intros. repeat (case_match; try done); eauto. Qed.

Lemma read_octet_fits i s v r : read_octet i s = Some (v, r) -> fits 8 v.
Proof.
  intros [s' H]%read_separator_inv. by eapply (read_number_fits 8) in H.
Qed.

Lemma read_ipv4_wf s a r : read_ipv4_addr s = Some (a, r) -> wf_ipv4 a.
Proof.
  unfold read_ipv4_addr. intros H.
  destruct (read_octet 0 s) as [[? ?]|] eqn:H0; [|done].
  destruct (read_octet 1 _) as [[? ?]|] eqn:H1; [|done].
  destruct (read_octet 2 _) as [[? ?]|] eqn:H2; [|done].
  destruct (read_octet 3 _) as [[? ?]|] eqn:H3; [|done].
  simplify_eq. apply read_octet_fits in H0, H1, H2, H3.
  unfold wf_ipv4, v4_octets. by rewrite !Forall_cons.
Qed.

Lemma parse_ipv4_wf s a : parse_ipv4 s = Some a -> wf_ipv4 a.
Proof.
  unfold parse_ipv4, parse_whole. intros. repeat (case_match; try done).
  simplify_eq. by eapply read_ipv4_wf.
Qed.

Lemma read_groups_wf rem i s gs v r :
  read_groups rem i s = (gs, v, r) ->
  (length gs <= rem)%nat /\ Forall (fits 16) gs.
Proof.
  revert i s gs v r; induction rem as [|rem IH]; intros i s gs v r H;
    [by simplify_eq/=|].
  cbn [read_groups] in H.
  destruct (if (1 <=? rem)%nat then _ else _) as [[a s']|] eqn:Hv4.
  - destruct (1 <=? rem)%nat eqn:Hrem; [|done]. simplify_eq.
    apply read_separator_inv in Hv4 as [? Hv4]. apply read_ipv4_wf in Hv4.
    unfold wf_ipv4, v4_octets, fits in Hv4. rewrite !Forall_cons in Hv4.
    apply Nat.leb_le in Hrem. split; [cbn [length]; lia|].
    rewrite !Forall_cons; unfold fits; split_and!; try lia; done.
  - clear Hv4.
    destruct (read_separator _ _ (read_number _ _ _ _) _) as [[g s']|] eqn:Hg; simplify_eq;
      [|split; [simpl; lia|done]].
    destruct (read_groups rem (S i) s') as [[gs' v'] r'] eqn:Hrec. simplify_eq.
    apply IH in Hrec as [Hl Hf]. split; [simpl; lia|].
    constructor; [|done]. apply read_separator_inv in Hg as [? Hg].
    by eapply (read_number_fits 16) in Hg.
Qed.

Lemma read_ipv6_wf s a r : read_ipv6_addr s = Some (a, r) -> wf_ipv6 a.
Proof.
  unfold read_ipv6_addr. intros H.
  destruct (read_groups 8 0 s) as [[hd v] r0] eqn:Hh.
  apply read_groups_wf in Hh as [Hl Hf].
  destruct (length hd =? 8)%nat eqn:H8.
  - apply Nat.eqb_eq in H8. by simplify_eq.
  - apply Nat.eqb_neq in H8.
    destruct v; [done|]. destruct (read_given_char _ r0) as [[_ r1]|]; [|done].
    destruct (read_given_char _ r1) as [[_ r2]|]; [|done].
    destruct (read_groups _ 0 r2) as [[tl v2] r3] eqn:Ht.
    apply read_groups_wf in Ht as [Hl2 Hf2].
    simplify_eq. split; simpl.
    + rewrite !length_app, length_replicate. lia.
    + rewrite !Forall_app. split_and!; [done| |done].
      apply Forall_replicate. unfold fits. lia.
Qed.

Lemma parse_ipv6_wf s a : parse_ipv6 s = Some a -> wf_ipv6 a.
Proof.
  unfold parse_ipv6, parse_whole. intros H.
  destruct (read_ipv6_addr s) as [[b [|]]|] eqn:Hr; simplify_eq. by eapply read_ipv6_wf.
Qed.

Lemma parse_ip_wf s ip : parse_ip s = Some ip -> wf_ip ip.
Proof.
  unfold parse_ip, parse_whole. intros H.
  destruct (read_ipv4_addr s) as [[a [|]]|] eqn:H4; simplify_eq; [by eapply read_ipv4_wf|].
  destruct (read_ipv6_addr s) as [[a [|]]|] eqn:H6; simplify_eq. by eapply read_ipv6_wf.
Qed.

(** ** Characters of a printed address *)

(** [c] is no digit and no separator of an address. *)
Definition outside (c : ascii) : Prop :=
  to_digit 16 c = None /\ to_digit 10 c = None /\ c <> "."%char /\ c <> ":"%char.

Lemma show_ipv4_absent c a : outside c -> Forall (Z.le 0) (v4_octets a) -> absent c (show_ipv4 a).
Proof.
  intros (_ & Hd & Hp & _) Ha. destruct a as [o1 o2 o3 o4].
  unfold v4_octets in Ha. cbn [oct1 oct2 oct3 oct4] in Ha.
  rewrite !Forall_cons in Ha. destruct Ha as (H1 & H2 & H3 & H4 & _). unfold show_ipv4. cbn [oct1 oct2 oct3 oct4].
  rewrite !absent_app. repeat split; try (by apply show_uint_absent);
    apply absent_cons; (split; [done|constructor]).
Qed.

Lemma show_segments_absent c gs : outside c -> Forall (Z.le 0) gs -> absent c (show_segments gs).
Proof.
  intros (Hh & _ & _ & Hc) Hgs. apply absent_join; [done|]. apply Forall_fmap.
  eapply Forall_impl; [exact Hgs|]. intros g Hg. by apply show_uint_absent.
Qed.

Lemma show_ipv6_absent c a : outside c -> wf_ipv6 a -> absent c (show_ipv6 a).
Proof.
  intros Hc [_ Ha]. assert (Hs : Forall (Z.le 0) (segments a)).
  { eapply Forall_impl; [exact Ha|]. unfold fits. lia. }
  assert (Hcol : c <> ":"%char) by apply Hc.
  unfold show_ipv6. destruct (to_ipv4_mapped a) as [v4|] eqn:Hm.
  - apply absent_app. split.
    + destruct Hc as (Hh & _ & _ & Hcc). unfold absent. cbn. repeat constructor;
        apply Ascii.eqb_neq; intros ->; done.
    + apply show_ipv4_absent; [done|]. unfold to_ipv4_mapped in Hm.
      destruct a as [gs]. cbn in *.
      repeat match type of Hm with context [match ?x with _ => _ end] => destruct x; try done end.
      injection Hm as <-. rewrite !Forall_cons in Hs. unfold v4_octets.
      cbn [oct1 oct2 oct3 oct4]. destruct_and!.
      repeat constructor; try (by apply Z.shiftr_nonneg); apply Z.land_nonneg; lia.
  - destruct (zero_runs _ _ _ _) as [start len]. destruct (1 <? len)%nat.
    + rewrite !absent_app. split; [|split].
      * by apply show_segments_absent, Forall_take.
      * unfold absent. cbn. repeat constructor; by apply Ascii.eqb_neq.
      * by apply show_segments_absent, Forall_drop.
    + by apply show_segments_absent.
Qed.

Lemma show_ip_absent c ip : outside c -> wf_ip ip -> absent c (show_ip ip).
Proof.
  intros Hc. destruct ip as [a|a]; simpl; [|by apply show_ipv6_absent].
  intros Ha. apply show_ipv4_absent; [done|]. eapply Forall_impl; [exact Ha|]. unfold fits. lia.
Qed.

(** ** Printing and parsing addresses

    What is left after an address ([rest]) does not go on with one more digit,
    octet or group. *)

Definition group_end (rest : str) : Prop :=
  no_digit 16 rest /\ no_digit 10 rest /\ read_given_char "." rest = None /\
  match read_given_char ":" rest with
  | Some (_, rest') => no_digit 16 rest' /\ no_digit 10 rest'
  | None => True
  end.

(** A number that is not followed by a dot is no IPv4 address. *)
Lemma read_digits_dotless radix b acc d rest v n r :
  Forall (fun c => c <> "."%char) d -> no_digit radix rest -> read_given_char "." rest = None ->
  read_digits radix b acc (d ++ rest) = Some (v, n, r) -> read_given_char "." r = None.
Proof.
  intros Hd Hn Hr. revert b acc n; induction Hd as [|c d Hc _ IH]; intros b acc n.
  - destruct rest as [|c rest]; cbn; [by intros [= _ _ <-]|]. cbn in Hn. rewrite Hn.
    by intros [= _ _ <-].
  - cbn. destruct (to_digit radix c) as [z|].
    + destruct b as [|b]; [done|].
      destruct (read_digits radix b (acc * radix + z) (d ++ rest)) as [[[v' n'] r']|] eqn:Hrec; [|done].
      intros [= -> _ ->]. by eapply IH.
    + intros [= _ _ <-]. apply not_eq_sym, Ascii.eqb_neq in Hc. unfold read_given_char. by rewrite Hc.
Qed.

Lemma read_ipv4_dotless d rest :
  Forall (fun c => c <> "."%char) d -> no_digit 10 rest -> read_given_char "." rest = None ->
  read_ipv4_addr (d ++ rest) = None.
Proof.
  intros Hd Hn Hr. unfold read_ipv4_addr, read_octet at 1. cbn [read_separator]. unfold read_number.
  destruct (read_digits 10 3 0 (d ++ rest)) as [[[v n] r]|] eqn:Hrd; [|done].
  pose proof (read_digits_dotless _ _ _ _ _ _ _ _ Hd Hn Hr Hrd) as Hdot.
  destruct n as [|n]; [done|]. destruct (_ && _); [done|]. destruct (v <=? 255); [|done].
  unfold read_octet, read_separator. by rewrite Hdot.
Qed.

Lemma hex_length n : fits 16 n -> (length (show_hex n) <= 4)%nat.
Proof.
  intros Hn. apply (show_digits_length 16 ltac:(lia) _ 3). exact Hn.
Qed.

Lemma hex_dotless n : fits 16 n -> Forall (fun c => c <> "."%char) (show_hex n).
Proof.
  intros [Hn _]. pose proof (show_uint_absent 16 ltac:(lia) "."%char n Hn eq_refl) as Ha.
  eapply Forall_impl; [exact Ha|]. intros c Hc ->. done.
Qed.

Lemma read_hex n rest :
  fits 16 n -> no_digit 16 rest ->
  read_number 16 4 true 65535 (show_hex n ++ rest) = Some (n, rest).
Proof.
  intros Hn Hr. unfold read_number. pose proof (hex_length n Hn) as Hl. destruct Hn as [H0 H1].
  erewrite read_digits_app; [|apply (show_uint_checked 16 ltac:(lia) 65535); lia|done|done].
  pose proof (show_uint_nonempty 16 n) as Hne. unfold show_hex.
  destruct (show_uint 16 n); [done|]. cbn [length negb andb].
  by rewrite (proj2 (Z.leb_le n 65535)) by lia.
Qed.

(** The groups after the first, each with its colon. *)
Definition show_tail (gs : list Z) : str := mjoin ((fun g => ":"%char :: show_hex g) <$> gs).

Lemma show_segments_cons g gs : show_segments (g :: gs) = show_hex g ++ show_tail gs.
Proof.
  unfold show_segments. revert g; induction gs as [|h gs IH]; intros g; cbn.
  - by rewrite app_nil_r.
  - f_equal. f_equal. apply IH.
Qed.

Lemma tail_end gs rest : group_end rest ->
  no_digit 16 (show_tail gs ++ rest) /\ no_digit 10 (show_tail gs ++ rest) /\
  read_given_char "." (show_tail gs ++ rest) = None.
Proof. intros (H16 & H10 & Hd & _). by destruct gs. Qed.

(** Nothing more to read: the loop stops at [rest]. *)
Lemma read_groups_end rem i rest : group_end rest -> read_groups rem (S i) rest = ([], false, rest).
Proof.
  intros (_ & _ & _ & Hc). destruct rem as [|rem]; [done|]. cbn [read_groups read_separator].
  destruct (read_given_char ":" rest) as [[u r]|]; [|by destruct (1 <=? rem)%nat].
  destruct Hc as [H16 H10].
  assert (Hn : forall radix k z m, no_digit radix r -> read_number radix k z m r = None).
  { intros radix k z m Hr. unfold read_number. destruct r as [|c r]; [done|]. cbn in Hr |- *.
    by rewrite Hr. }
  rewrite (Hn 16) by done. unfold read_ipv4_addr, read_octet at 1. cbn [read_separator].
  rewrite (Hn 10) by done. by destruct (1 <=? rem)%nat.
Qed.

(** One group, which is not the start of a dotted address. *)
Lemma read_groups_cons rem i g gs rest s :
  fits 16 g -> group_end rest ->
  read_separator ":" i (fun s => Some (tt, s)) s = Some (tt, show_hex g ++ show_tail gs ++ rest) ->
  read_groups (S rem) i s =
  let '(gs', v, r) := read_groups rem (S i) (show_tail gs ++ rest) in (g :: gs', v, r).
Proof.
  intros Hg Hr Hs. destruct (tail_end gs rest Hr) as (H16 & H10 & Hdot).
  assert (Hsep : forall A (p : parser A), read_separator ":" i p s = p (show_hex g ++ show_tail gs ++ rest)).
  { intros A p. revert Hs. unfold read_separator. destruct i; [by intros [= ->]|].
    destruct (read_given_char ":" s) as [[u s']|]; [|done]. by intros [= ->]. }
  cbn [read_groups]. rewrite !Hsep, read_ipv4_dotless, read_hex by auto using hex_dotless.
  by destruct (1 <=? rem)%nat.
Qed.

Lemma read_tail rem i gs rest :
  (length gs <= rem)%nat -> Forall (fits 16) gs -> group_end rest ->
  read_groups rem (S i) (show_tail gs ++ rest) = (gs, false, rest).
Proof.
  revert rem i; induction gs as [|g gs IH]; intros rem i Hl Hgs Hr; [by apply read_groups_end|].
  destruct rem as [|rem]; [cbn in Hl; lia|]. apply Forall_cons in Hgs as [Hg Hgs].
  rewrite (read_groups_cons rem (S i) g gs rest).
  - rewrite IH by (cbn in Hl; auto with lia). done.
  - done.
  - done.
  - cbn. by rewrite <- app_assoc.
Qed.

Lemma read_segments rem gs rest :
  (length gs <= rem)%nat -> Forall (fits 16) gs -> group_end rest ->
  read_groups rem 0 (show_segments gs ++ rest) = (gs, false, rest).
Proof.
  intros Hl Hgs Hr. destruct gs as [|g gs].
  - destruct rem as [|rem]; [done|]. change (show_segments [] ++ rest) with rest.
    cbn [read_groups read_separator]. destruct Hr as (H16 & H10 & Hd & _).
    assert (H4 : read_ipv4_addr rest = None) by (by apply (read_ipv4_dotless [] rest)). rewrite H4.
    assert (Hn : read_number 16 4 true 65535 rest = None).
    { unfold read_number. destruct rest as [|c rest]; [done|]. cbn in H16 |- *. by rewrite H16. }
    rewrite Hn. by destruct (1 <=? rem)%nat.
  - apply Forall_cons in Hgs as [Hg Hgs]. destruct rem as [|rem]; [cbn in Hl; lia|].
    rewrite show_segments_cons, <- app_assoc, (read_groups_cons rem 0 g gs rest) by done.
    by rewrite read_tail by (cbn in Hl; auto with lia).
Qed.

(** *** The longest run of zeros *)

(** [snd run] zeros in [segs] from [fst run] on. *)
Definition zeros_at (segs : list Z) (run : nat * nat) : Prop :=
  forall j, (fst run <= j < fst run + snd run)%nat -> segs !! j = Some 0.

Lemma zero_runs_spec pre segs longest current :
  zeros_at (pre ++ segs) longest -> zeros_at (pre ++ segs) current ->
  (snd current <> 0 -> fst current + snd current = length pre)%nat ->
  zeros_at (pre ++ segs) (zero_runs (length pre) segs longest current).
Proof.
  revert pre longest current; induction segs as [|g segs IH]; intros pre longest current Hl Hc He; [done|].
  cbn [zero_runs]. replace (pre ++ g :: segs) with ((pre ++ [g]) ++ segs) in * by (by rewrite <- app_assoc).
  replace (S (length pre)) with (length (pre ++ [g])) by (rewrite length_app; cbn; lia).
  destruct (Z.eqb_spec g 0) as [->|Hg]; [|apply IH; [done|intros j; cbn; lia|done]].
  set (cur := if (snd current =? 0)%nat then _ else _).
  assert (Hcur : zeros_at ((pre ++ [0]) ++ segs) cur /\ (fst cur + snd cur)%nat = length (pre ++ [0])).
  { assert (Hlast : ((pre ++ [0]) ++ segs) !! length pre = Some 0)
      by (rewrite <- app_assoc; by apply list_lookup_middle).
    unfold cur. rewrite length_app. destruct (Nat.eqb_spec (snd current) 0) as [H0|H0]; cbn.
    - split; [|lia]. intros j Hj. cbn in Hj. by replace j with (length pre) by lia.
    - split; [|specialize (He H0); lia]. intros j Hj. cbn in Hj. specialize (He H0).
      destruct (decide (j = length pre)) as [->|Hne]; [done|]. apply Hc. lia. }
  destruct Hcur as [Hz Hend]. apply IH; [by destruct (_ <? _)%nat|done|done].
Qed.

Lemma zeros_split (segs : list Z) start len :
  zeros_at segs (start, len) -> len <> 0%nat ->
  segs = take start segs ++ replicate len 0 ++ drop (start + len) segs.
Proof.
  intros Hz Hl. rewrite <- (take_drop start segs) at 1. f_equal.
  rewrite <- (take_drop len (drop start segs)) at 1. rewrite drop_drop. f_equal.
  apply list_eq. intros j. destruct (decide (j < len)%nat) as [Hj|Hj].
  - rewrite lookup_take_lt, lookup_drop, lookup_replicate_2 by done. apply Hz. cbn. lia.
  - rewrite lookup_take_ge by lia. symmetry. apply lookup_ge_None_2. rewrite length_replicate. lia.
Qed.

(** *** Round trips *)

Lemma read_two_colons s : read_given_char ":" ("::" ++ s) = Some (tt, ":" ++ s) /\
  read_given_char ":" (":" ++ s) = Some (tt, s).
Proof. done. Qed.

Lemma colons_end s : group_end ("::" ++ s).
Proof. by repeat split. Qed.

Lemma split_group x : Z.shiftr x 8 * 256 + Z.land x 255 = x.
Proof.
  rewrite Z.shiftr_div_pow2 by lia. change 255 with (Z.ones 8). rewrite Z.land_ones by lia.
  pose proof (Z.div_mod x 256). change (2 ^ 8) with 256. lia.
Qed.

Lemma mapped_octets x : fits 16 x -> fits 8 (Z.shiftr x 8) /\ fits 8 (Z.land x 255).
Proof.
  intros [H0 H1]. rewrite Z.shiftr_div_pow2 by lia. change 255 with (Z.ones 8).
  rewrite Z.land_ones by lia. split.
  - split; [apply Z.div_pos; lia|]. apply Z.div_lt_upper_bound; lia.
  - apply Z.mod_pos_bound. lia.
Qed.

Lemma read_show_mapped x y rest :
  fits 16 x -> fits 16 y -> group_end rest ->
  read_ipv6_addr ("::ffff:" ++
    show_ipv4 (Ipv4 (Z.shiftr x 8) (Z.land x 255) (Z.shiftr y 8) (Z.land y 255)) ++ rest) =
  Some (Ipv6 [0; 0; 0; 0; 0; 0xFFFF; x; y], rest).
Proof.
  intros Hx Hy Hr. set (a := Ipv4 _ _ _ _).
  assert (Ha : wf_ipv4 a).
  { destruct (mapped_octets x Hx), (mapped_octets y Hy). unfold wf_ipv4, v4_octets.
    by rewrite !Forall_cons. }
  unfold read_ipv6_addr. set (t := show_ipv4 a ++ rest).
  set (u := show_hex 0xFFFF ++ ":" ++ t).
  change (String.list_ascii_of_string "::ffff:" ++ t) with ("::" ++ u).
  assert (H8 : read_groups 8 0 ("::" ++ u) = ([], false, "::" ++ u))
    by (apply (read_segments 8 []); [cbn; lia|done|apply colons_end]).
  rewrite H8. cbn [length Nat.eqb]. destruct (read_two_colons u) as [-> ->]. unfold u.
  cbn [Nat.add Nat.sub]. cbn [read_groups read_separator].
  rewrite (read_ipv4_dotless (show_hex 0xFFFF) (":" ++ t)) by (by_decision || done).
  rewrite (read_hex 0xFFFF (":" ++ t)) by (done || (split; [lia|reflexivity])).
  cbn [Nat.leb]. change (read_given_char ":" (":" ++ t)) with (Some (tt, t)).
  unfold t. rewrite (read_show_ipv4 a rest Ha) by apply Hr.
  cbn [length app Nat.sub replicate oct1 oct2 oct3 oct4 a]. by rewrite !split_group.
Qed.

(** The parser reads a printed IPv6 address back, whatever follows it. *)
Lemma read_show_ipv6 a rest :
  wf_ipv6 a -> group_end rest -> read_ipv6_addr (show_ipv6 a ++ rest) = Some (a, rest).
Proof.
  destruct a as [segs]. intros [Hl Hf] Hr. cbn [segments] in *. unfold show_ipv6.
  destruct (to_ipv4_mapped (Ipv6 segs)) as [v4|] eqn:Hm.
  { unfold to_ipv4_mapped in Hm. cbn [segments] in Hm.
    repeat match type of Hm with context [match ?x with _ => _ end] => destruct x; try done end.
    injection Hm as <-. rewrite !Forall_cons in Hf. destruct_and!. rewrite <- app_assoc.
    by apply read_show_mapped. }
  cbn [segments]. pose proof (zero_runs_spec [] segs (0%nat, 0%nat) (0%nat, 0%nat)) as Hz.
  cbn [length app] in Hz. specialize (Hz ltac:(intros j; cbn; lia) ltac:(intros j; cbn; lia) ltac:(done)).
  destruct (zero_runs _ _ _ _) as [start len]. unfold read_ipv6_addr.
  destruct (Nat.ltb_spec 1 len) as [Hlen|Hlen].
  - pose proof (zeros_split segs start len Hz ltac:(lia)) as Hs.
    set (hd := take start segs) in *. set (tl := drop (start + len) segs) in *.
    assert (Hll : (length hd + len + length tl = 8)%nat)
      by (rewrite <- Hl, Hs at 1; rewrite !length_app, length_replicate; lia).
    rewrite <- !app_assoc.
    rewrite (read_segments 8 hd) by (apply colons_end || (by apply Forall_take) || lia).
    rewrite (proj2 (Nat.eqb_neq (length hd) 8)) by lia.
    destruct (read_two_colons (show_segments tl ++ rest)) as [-> ->].
    rewrite read_segments by (done || (by apply Forall_drop) || lia).
    replace (8 - length hd - length tl)%nat with len by lia. by rewrite <- Hs.
  - rewrite (read_segments 8 segs) by (done || lia). by rewrite Hl.
Qed.

Lemma parse_show_ipv6 a : wf_ipv6 a -> parse_ipv6 (show_ipv6 a) = Some a.
Proof.
  intros Ha. unfold parse_ipv6, parse_whole. rewrite <- (app_nil_r (show_ipv6 a)).
  by rewrite read_show_ipv6.
Qed.

(** A printed IPv6 address does not start like an IPv4 address. *)
Lemma show_ipv6_not_v4 a rest : wf_ipv6 a -> group_end rest -> read_ipv4_addr (show_ipv6 a ++ rest) = None.
Proof.
  destruct a as [segs]. intros [Hl Hf] Hr. cbn [segments] in *.
  assert (Hcol : forall s, read_ipv4_addr ("::" ++ s) = None) by (intros s; by apply (read_ipv4_dotless [])).
  assert (Hseg : forall gs s, Forall (fits 16) gs -> gs <> [] -> group_end s ->
    read_ipv4_addr (show_segments gs ++ s) = None).
  { intros [|g gs] s Hg Hne Hs; [done|]. apply Forall_cons in Hg as [Hg _].
    rewrite show_segments_cons, <- app_assoc. destruct (tail_end gs s Hs) as (_ & H10 & Hd).
    apply read_ipv4_dotless; auto using hex_dotless. }
  unfold show_ipv6. destruct (to_ipv4_mapped _); [rewrite <- app_assoc; apply Hcol|].
  cbn [segments]. destruct (zero_runs _ _ _ _) as [start len]. destruct (1 <? len)%nat.
  - rewrite <- !app_assoc. destruct (take start segs) as [|g gs] eqn:Ht; [apply Hcol|].
    apply Hseg; [rewrite <- Ht; by apply Forall_take|done|apply colons_end].
  - apply Hseg; [done|by intros ->|done].
Qed.

Lemma parse_show_ip ip : wf_ip ip -> parse_ip (show_ip ip) = Some ip.
Proof.
  intros Hip. unfold parse_ip, parse_whole. rewrite <- (app_nil_r (show_ip ip)).
  destruct ip as [a|a]; cbn [show_ip wf_ip] in *.
  - by rewrite read_show_ipv4.
  - by rewrite show_ipv6_not_v4, read_show_ipv6.
Qed.

Lemma read_checked_digits max acc s v :
  digits_checked 10 max acc s = Some v -> read_checked max acc s = Some (v, length s, []).
Proof.
  revert acc; induction s as [|c s IH]; intros acc; cbn; [by intros [= ->]|].
  destruct (to_digit 10 c) as [d|]; [|done]. destruct (_ <=? _); [|done].
  destruct (_ <=? _); [|done]. intros Hs. by rewrite (IH _ Hs).
Qed.

Lemma read_port_show port : fits 16 port -> read_port (":" ++ show_dec port) = Some (port, []).
Proof.
  intros [H0 H1]. unfold read_port. change (read_given_char ":" _) with (Some (tt, show_dec port)).
  unfold read_number_unbounded.
  rewrite (read_checked_digits 65535 0 _ port) by (apply show_uint_checked; lia).
  pose proof (show_uint_nonempty 10 port : show_dec port <> []). by destruct (show_dec port).
Qed.

(** [SocketAddr]'s [Display]: an IPv6 address in brackets. *)
Definition show_socket_addr (ip : IpAddr) (port : Z) : str :=
  match ip with
  | V4 a => show_ipv4 a ++ ":" ++ show_dec port
  | V6 a => "[" ++ show_ipv6 a ++ "]:" ++ show_dec port
  end.

(** A printed socket address is read back. *)
Lemma parse_show_socket_addr ip port :
  wf_ip ip -> fits 16 port -> parse_socket_addr (show_socket_addr ip port) = Some (SockAddr ip port 0).
Proof.
  intros Hip Hp. unfold parse_socket_addr, parse_whole. destruct ip as [a|a]; cbn [wf_ip show_socket_addr] in *.
  - unfold read_socket_addr_v4. rewrite read_show_ipv4 by done. by rewrite read_port_show.
  - set (s := show_ipv6 a ++ _).
    assert (H4 : read_socket_addr_v4 ("[" ++ s) = None).
    { unfold read_socket_addr_v4. assert (Hn : read_ipv4_addr ("[" ++ s) = None) by (by apply (read_ipv4_dotless [])). by rewrite Hn. }
    rewrite H4. unfold read_socket_addr_v6. change (read_given_char "[" ("[" ++ s)) with (Some (tt, s)).
    unfold s. change ("]:" ++ show_dec port) with ("]" ++ ":" ++ show_dec port).
    rewrite read_show_ipv6 by (done || by repeat split).
    change (read_scope_id ("]" ++ ":" ++ show_dec port)) with (@None (Z * str)).
    cbv beta iota zeta. change (read_given_char "]" _) with (Some (tt, ":" ++ show_dec port)).
    cbv beta iota zeta. by rewrite read_port_show.
Qed.
