(* ===== verification/Io.v ===== *)
(** * Effectful code

    An [async] function of the sources is a [prog]: a tree of calls to the
    operating system, each continued with its reply.  [run] interprets a
    program with a handler that answers calls from a state, so a theorem for
    all handlers holds in every environment, and a concrete handler makes the
    program run.  [IoE] is the interface to sockets, name resolution and time
    (tokio, socket2); nothing is assumed of it here. *)

From S2P Require Import Prelude Str Ip.

(** ** Programs *)

Inductive prog (E : Type -> Type) (A : Type) : Type :=
| Ret (a : A)
| Vis {X : Type} (e : E X) (k : X -> prog E A).
Arguments Ret {E A} & a.
Arguments Vis {E A X} e k.

Fixpoint bind {E A B} (p : prog E A) (f : A -> prog E B) : prog E B :=
  match p with
  | Ret a => f a
  | Vis e k => Vis e (fun x => bind (k x) f)
  end.

Definition call {E X} (e : E X) : prog E X := Vis e Ret.

Notation "'await' x ':=' p 'in' k" := (bind p (fun x => k))
  (at level 10, x pattern, p at level 100, k at level 200,
   format "'await'  x  ':='  p  'in' '//' k") : gust_scope.

(** [p.await?]: return the error, or go on with the value. *)
Definition bind_ok {E A B Er} (p : prog E (result A Er)) (f : A -> prog E (result B Er)) :
    prog E (result B Er) :=
  bind p (fun r => match r with Ok a => f a | Err e => Ret (Err e) end).

Notation "'await?' x ':=' p 'in' k" := (bind_ok p (fun x => k))
  (at level 10, x pattern, p at level 100, k at level 200,
   format "'await?'  x  ':='  p  'in' '//' k") : gust_scope.

(** A pure [Result] used with [?] in an effectful function. *)
Definition lift {E A Er} (r : result A Er) : prog E (result A Er) := Ret r.

Definition prog_map_err {E A Er Er'} (f : Er -> Er') (p : prog E (result A Er)) :
    prog E (result A Er') := bind p (fun r => Ret (map_err f r)).

(** ** Interpretation *)

Definition handler (E : Type -> Type) (S : Type) := forall X, E X -> S -> X * S.

Fixpoint run {E A S} (h : handler E S) (p : prog E A) (s : S) : A * S :=
  match p with
  | Ret a => (a, s)
  | Vis e k => let '(x, s) := h _ e s in run h (k x) s
  end.

Lemma run_bind {E A B S} (h : handler E S) (p : prog E A) (f : A -> prog E B) s :
  run h (bind p f) s = let '(a, s') := run h p s in run h (f a) s'.
Proof.
  revert s; induction p as [a|X e k IH]; intros s; simpl; [done|].
  destruct (h X e s) as [x s']. apply IH.
Qed.

Lemma run_bind_ok {E A B Er S} (h : handler E S) (p : prog E (result A Er))
    (f : A -> prog E (result B Er)) s :
  run h (bind_ok p f) s =
  match run h p s with
  | (Ok a, s') => run h (f a) s'
  | (Err e, s') => (Err e, s')
  end.
Proof.
  unfold bind_ok. rewrite run_bind. destruct (run h p s) as [[a|e] s']; done.
Qed.

(** An invariant of the handler's state is an invariant of every program. *)
Lemma run_inv {E A S} (h : handler E S) (I : S -> Prop) :
  (forall X (e : E X) s, I s -> I (snd (h X e s))) ->
  forall (p : prog E A) s, I s -> I (snd (run h p s)).
Proof.
  intros Hh p. induction p as [a|X e k IH]; intros s Hs; simpl; [done|].
  specialize (Hh X e s Hs). destruct (h X e s) as [x s']. by apply IH.
Qed.

(** ** Calls to the network *)

Abbreviation Fd := nat (only parsing).

Inductive Domain := IPV4 | IPV6.
Inductive SockType := STREAM | DGRAM.
Inductive SockProto := TCP | UDP.

(** [socket2::TcpKeepalive]: idle time and probe interval in milliseconds. *)
Record TcpKeepalive := MkKeepalive {
  ka_time : option Z;
  ka_interval : option Z;
  ka_retries : option Z;
}.

Inductive IoE : Type -> Type :=
| SocketNew (d : Domain) (t : SockType) (p : SockProto) : IoE (io_result Fd)
| SetNonblocking (f : Fd) (b : bool) : IoE (io_result unit)
| SetTcpKeepalive (f : Fd) (k : TcpKeepalive) : IoE (io_result unit)
| SetNodelay (f : Fd) (b : bool) : IoE (io_result unit)
| SetRecvBuf (f : Fd) (n : Z) : IoE (io_result unit)
| SetSendBuf (f : Fd) (n : Z) : IoE (io_result unit)
| SetMark (f : Fd) (m : Z) : IoE (io_result unit)
| Bind (f : Fd) (sa : SocketAddr) : IoE (io_result unit)
| Connect (f : Fd) (sa : SocketAddr) : IoE (io_result unit)
| FromStd (f : Fd) : IoE (io_result Fd)
| Writable (f : Fd) : IoE (io_result unit)
| TakeError (f : Fd) : IoE (io_result (option io_error))
| LookupHost (name : str) : IoE (io_result (list SocketAddr))
| Elapsed (ms : Z) : IoE bool
| WriteAll (f : Fd) (bs : list Z) : IoE (io_result unit)
| ReadExact (f : Fd) (n : nat) : IoE (io_result (list Z))
| ReadSome (f : Fd) (n : Z) : IoE (io_result (list Z))       (* read(&mut buf[..n]) *)
| WriteSome (f : Fd) (bs : list Z) : IoE (io_result nat)     (* write(bs) *)
| SelectFirst : IoE bool.                                    (* the branch of a select! that runs next *)

Abbreviation io A := (prog IoE A).

(** [tokio::time::timeout(d, p)]: [None] when the time is up before [p] is
    done.  The deadline can pass at every point where [p] waits for the
    outside; the call it waits for then has no effect the program sees. *)
Fixpoint timeout {A} (ms : Z) (p : io A) : io (option A) :=
  match p with
  | Ret a => Ret (Some a)
  | Vis e k =>
      Vis (Elapsed ms) (fun late : bool =>
        if late then Ret None else Vis e (fun x => timeout ms (k x)))
  end.

(** ** Call logs

    A recording handler answers from an arbitrary oracle and keeps the log. *)

Record event (E : Type -> Type) := Ev { ev_type : Type; ev_call : E ev_type; ev_reply : ev_type }.
Arguments Ev {E ev_type} ev_call ev_reply.
Arguments ev_type {E} _.
Arguments ev_call {E} _.
Arguments ev_reply {E} _.

Definition oracle (E : Type -> Type) := forall X, E X -> list (event E) -> X.

Definition record {E} (o : oracle E) : handler E (list (event E)) :=
  fun X e log => let x := o X e log in (x, log ++ [Ev e x]).

(** A run that starts with a log is a run of its own. *)
Lemma run_record_shift {E A} (o : oracle E) (p : prog E A) log0 log :
  run (record o) p (log0 ++ log) =
  let '(a, l) := run (record (fun X e l => o X e (log0 ++ l))) p log in (a, log0 ++ l).
Proof.
  revert log; induction p as [a|X e k IH]; intros log; simpl; [done|].
  by rewrite <- app_assoc, IH.
Qed.

Lemma run_record_prefix {E A} (o : oracle E) (p : prog E A) log :
  exists tr, snd (run (record o) p log) = log ++ tr.
Proof.
  revert log; induction p as [a|X e k IH]; intros log; simpl.
  - exists []. by rewrite app_nil_r.
  - destruct (IH (o X e log) (log ++ [Ev e (o X e log)])) as [tr Htr].
    exists (Ev e (o X e log) :: tr). by rewrite Htr, <- app_assoc.
Qed.

(** One call of a recorded run. *)
Lemma run_record_ok {E A B Er} (o : oracle E) (e : E (result A Er))
    (f : A -> prog E (result B Er)) log :
  run (record o) (bind_ok (call e) f) log =
  match o _ e log with
  | Ok a => run (record o) (f a) (log ++ [Ev e (Ok a)])
  | Err er => (Err er, log ++ [Ev e (Err er)])
  end.
Proof. unfold bind_ok. simpl. by destruct (o _ e log). Qed.

Lemma run_record_call {E A B} (o : oracle E) (e : E A) (f : A -> prog E B) log :
  run (record o) (bind (call e) f) log =
  run (record o) (f (o _ e log)) (log ++ [Ev e (o _ e log)]).
Proof. done. Qed.

(** [p] returns [a] when its calls and their replies are those of the log. *)
Fixpoint path {E A} (p : prog E A) (l : list (event E)) (a : A) : Prop :=
  match p with
  | Ret b => l = [] /\ b = a
  | Vis e k => exists x l', l = Ev e x :: l' /\ path (k x) l' a
  end.

(** The oracle gives the replies of [l], after [l0]. *)
Fixpoint replies {E} (o : oracle E) (l0 l : list (event E)) : Prop :=
  match l with
  | [] => True
  | ev :: l => ev_reply ev = o _ (ev_call ev) l0 /\ replies o (l0 ++ [ev]) l
  end.

Lemma run_path {E A} (o : oracle E) (p : prog E A) l0 l a :
  run (record o) p l0 = (a, l0 ++ l) <-> path p l a /\ replies o l0 l.
Proof.
  revert l0 l; induction p as [b|X e k IH]; intros l0 l; cbn [run path].
  - split.
    + intros [= <- Hl]. rewrite <- (app_nil_r l0) in Hl at 1. apply app_inv_head in Hl. by subst l.
    + intros [[-> ->] _]. by rewrite app_nil_r.
  - cbn [record]. set (x := o X e l0). split.
    + intros Hr. destruct (run_record_prefix o (k x) (l0 ++ [Ev e x])) as [tr Htr].
      rewrite Hr in Htr. cbn in Htr. rewrite <- app_assoc in Htr. apply app_inv_head in Htr as ->.
      change (l0 ++ [Ev e x] ++ tr) with (l0 ++ ([Ev e x] ++ tr)) in Hr. rewrite app_assoc in Hr.
      apply IH in Hr as [Hp Hs]. split; [by exists x, tr|]. by split.
    + intros [(y & l' & -> & Hp) [Hy Hs]]. cbn in Hy. fold x in Hy. subst y.
      change (l0 ++ Ev e x :: l') with (l0 ++ ([Ev e x] ++ l')). rewrite app_assoc. by apply IH.
Qed.

(** From the start. *)
Lemma run_path_nil {E A} (o : oracle E) (p : prog E A) l a :
  run (record o) p [] = (a, l) <-> path p l a /\ replies o [] l.
Proof. apply (run_path o p [] l a). Qed.

Lemma path_bind {E A B} (p : prog E A) (f : A -> prog E B) l b :
  path (bind p f) l b <-> exists a l1 l2, l = l1 ++ l2 /\ path p l1 a /\ path (f a) l2 b.
Proof.
  revert l; induction p as [a|X e k IH]; intros l; cbn [bind path].
  - split; [by exists a, [], l|]. by intros (a' & l1 & l2 & -> & [-> ->] & Hf).
  - split.
    + intros (x & l' & -> & Hp). apply IH in Hp as (a & l1 & l2 & -> & H1 & H2).
      exists a, (Ev e x :: l1), l2. eauto 6.
    + intros (a & l1 & l2 & -> & (x & l' & -> & H1) & H2). exists x, (l' ++ l2).
      split; [done|]. apply IH. eauto 6.
Qed.

Lemma path_bind_ok {E A B Er} (p : prog E (result A Er)) (f : A -> prog E (result B Er)) l b :
  path (bind_ok p f) l (Ok b) <-> exists a l1 l2, l = l1 ++ l2 /\ path p l1 (Ok a) /\ path (f a) l2 (Ok b).
Proof.
  unfold bind_ok. rewrite path_bind. split.
  - intros ([a|e] & l1 & l2 & Hl & H1 & H2); [by eauto 6|]. by destruct H2.
  - intros (a & l1 & l2 & Hl & H1 & H2). by exists (Ok a), l1, l2.
Qed.

Lemma path_map_err {E A Er Er'} (f : Er -> Er') (p : prog E (result A Er)) l a :
  path (prog_map_err f p) l (Ok a) <-> path p l (Ok a).
Proof.
  unfold prog_map_err. rewrite path_bind. split.
  - intros ([b|e] & l1 & l2 & -> & H1 & -> & Hb); [|done]. injection Hb as ->. by rewrite app_nil_r.
  - intros H. exists (Ok a), l, []. by rewrite app_nil_r.
Qed.

(** A handler as an oracle: the state it is in is that after the calls of the log. *)
Definition after {E S} (h : handler E S) (s : S) (log : list (event E)) : S :=
  foldl (fun s ev => snd (h _ (ev_call ev) s)) s log.

Definition observed {E S} (h : handler E S) (s : S) : oracle E :=
  fun X e log => fst (h X e (after h s log)).

Lemma after_snoc {E S} (h : handler E S) (s : S) log ev :
  after h s (log ++ [ev]) = snd (h _ (ev_call ev) (after h s log)).
Proof. unfold after. by rewrite foldl_app. Qed.

(** A run with a handler is a recorded run. *)
Lemma run_observed {E A S} (h : handler E S) (p : prog E A) (s : S) log :
  run h p (after h s log) =
  let '(a, log') := run (record (observed h s)) p log in (a, after h s log').
Proof.
  revert log; induction p as [a|X e k IH]; intros log; cbn [run]; [done|].
  destruct (h X e (after h s log)) as [x s'] eqn:Hx.
  assert (Ho : observed h s X e log = x) by (unfold observed; by rewrite Hx).
  unfold record at 1. rewrite Ho, <- IH, after_snoc. cbn [ev_call ev_type]. by rewrite Hx.
Qed.

(** The number of events of a kind in a log. *)
Definition tally {E} (f : event E -> bool) (l : list (event E)) : nat := length (List.filter f l).

Lemma tally_app {E} (f : event E -> bool) l l' : tally f (l ++ l') = (tally f l + tally f l')%nat.
Proof. unfold tally. by rewrite List.filter_app, length_app. Qed.

Lemma tally_none {E} (f : event E -> bool) l : Forall (fun ev => f ev = false) l -> tally f l = 0%nat.
Proof. unfold tally. induction 1 as [|ev l Hev _ IH]; simpl; [done|]. by rewrite Hev. Qed.

(** A handler for the byte stream, every other call succeeding. *)
Definition with_stream {S} (w : Fd -> list Z -> S -> io_result unit * S)
    (r : Fd -> nat -> S -> io_result (list Z) * S) : handler IoE S :=
  fun X e s => match e in IoE X return X * S with
  | WriteAll f bs => w f bs s
  | ReadExact f n => r f n s
  | SocketNew _ _ _ => (Ok 3%nat, s)
  | SetNonblocking _ _ | SetTcpKeepalive _ _ | SetNodelay _ _ | SetRecvBuf _ _
  | SetSendBuf _ _ | SetMark _ _ | Bind _ _ | Connect _ _ | Writable _ => (Ok tt, s)
  | FromStd f => (Ok f, s)
  | TakeError _ => (Ok None, s)
  | LookupHost _ => (Ok [], s)
  | Elapsed _ => (false, s)
  | ReadSome _ _ => (Ok [], s)
  | WriteSome _ bs => (Ok (length bs), s)
  | SelectFirst => (true, s)
  end.
