(* ===== verification/Interference.v ===== *)
(** * Programs with others running beside them

    Weakest preconditions for programs ([prog] of Io.v) whose calls act on a state
    that other tasks change too, in the style of rely and guarantee: [step] is what
    a call may do, [rely] what the others may do between two calls, [guar] what
    this program promises them. *)

From S2P Require Import Prelude Io.
From Stdlib Require Import RelationClasses Morphisms.

(** ** The form of a program, whatever the replies *)

Fixpoint shape {E A} (calls_ok : forall X, E X -> Prop) (rets_ok : A -> Prop) (p : prog E A) : Prop :=
  match p with
  | Ret a => rets_ok a
  | Vis e k => calls_ok _ e /\ forall x, shape calls_ok rets_ok (k x)
  end.

Lemma shape_mono {E A} (C : forall X, E X -> Prop) (R R' : A -> Prop) (p : prog E A) :
  (forall a, R a -> R' a) -> shape C R p -> shape C R' p.
Proof. intros HR. induction p as [a|X e k IH]; cbn; [apply HR|]. intros [He Hk]. eauto. Qed.

Lemma shape_bind {E A B} (C : forall X, E X -> Prop) (R : B -> Prop) (p : prog E A) (f : A -> prog E B) :
  shape C (fun a => shape C R (f a)) p -> shape C R (bind p f).
Proof. induction p as [a|X e k IH]; cbn; [done|]. intros [He Hk]. split; [done|]. eauto. Qed.

(** A program made of calls of one kind. *)
Abbreviation made_of C p := (shape C (fun _ => True) p).

Lemma made_then {E A B} (C : forall X, E X -> Prop) (R : B -> Prop) (p : prog E A) (f : A -> prog E B) :
  made_of C p -> (forall x, shape C R (f x)) -> shape C R (bind p f).
Proof. intros Hp Hf. apply shape_bind. eapply shape_mono; [|exact Hp]. auto. Qed.

Lemma made_then_ok {E A B Er} (C : forall X, E X -> Prop) (p : prog E (result A Er))
    (f : A -> prog E (result B Er)) :
  made_of C p -> (forall x, made_of C (f x)) -> made_of C (bind_ok p f).
Proof. intros Hp Hf. apply made_then; [done|]. by intros []. Qed.

Lemma made_map_err {E A Er Er'} (C : forall X, E X -> Prop) (f : Er -> Er') (p : prog E (result A Er)) :
  made_of C p -> made_of C (prog_map_err f p).
Proof. intros Hp. by apply made_then. Qed.

(** Go through a program, every branch of it. *)
Ltac made_tac :=
  repeat (intros; lazymatch goal with
    | |- shape _ _ (Ret _) => exact I
    | |- shape _ _ (call _) => split; [exact I|]
    | |- shape _ _ (bind _ _) => apply made_then
    | |- shape _ _ (bind_ok _ _) => apply made_then_ok
    | |- shape _ _ (prog_map_err _ _) => apply made_map_err
    | |- shape _ _ (match ?x with _ => _ end) => destruct x
    | |- shape _ _ ?p => first [assumption|let q := eval red in p in change p with q]
    end).

(** The program returns after at most [n] calls. *)
Fixpoint within_calls {E A} (n : nat) (p : prog E A) : Prop :=
  match p, n with
  | Ret _, _ => True
  | Vis _ _, O => False
  | Vis _ k, S n => forall x, within_calls n (k x)
  end.

Lemma within_calls_le {E A} n m (p : prog E A) : (n <= m)%nat -> within_calls n p -> within_calls m p.
Proof.
  revert n m; induction p as [a|X e k IH]; intros n m Hle; destruct n, m; cbn; try done; [lia|].
  intros Hk x. apply (IH x n); [lia|done].
Qed.

Lemma within_calls_bind {E A B} n m (p : prog E A) (f : A -> prog E B) :
  within_calls n p -> (forall a, within_calls m (f a)) -> within_calls (n + m) (bind p f).
Proof.
  revert n; induction p as [a|X e k IH]; intros n Hp Hf; cbn [bind].
  - eapply within_calls_le; [|apply Hf]. lia.
  - destruct n; [done|]. cbn in *. intros x. by apply IH.
Qed.

Lemma within_calls_assoc {E A B C} n (p : prog E A) (f : A -> prog E B) (g : B -> prog E C) :
  within_calls n (bind p (fun x => bind (f x) g)) -> within_calls n (bind (bind p f) g).
Proof.
  revert n; induction p as [a|X e k IH]; intros n; cbn [bind]; [done|].
  destruct n as [|n]; [done|]. intros Hk x. apply IH, Hk.
Qed.

(** ** Weakest preconditions *)

Section Logic.
Context {E : Type -> Type} {St : Type}.
Context (step : forall X, E X -> St -> X -> St -> Prop).
Context (rely guar : St -> St -> Prop) `{!PreOrder rely}.

Fixpoint wp {A} (p : prog E A) (Q : A -> St -> Prop) (s : St) : Prop :=
  match p with
  | Ret a => forall s', rely s s' -> Q a s'
  | Vis e k => forall s1 x s2, rely s s1 -> step _ e s1 x s2 -> guar s1 s2 /\ wp (k x) Q s2
  end.

(** The others cannot invalidate it. *)
Lemma wp_stable {A} (p : prog E A) Q s s' : rely s s' -> wp p Q s -> wp p Q s'.
Proof.
  intros Hr. destruct p as [a|X e k]; cbn; intros Hp.
  - intros s2 H2. apply Hp. by etransitivity.
  - intros s1 x s2 H1. apply Hp. by etransitivity.
Qed.

Lemma wp_mono {A} (p : prog E A) (Q Q' : A -> St -> Prop) s :
  (forall a s, Q a s -> Q' a s) -> wp p Q s -> wp p Q' s.
Proof.
  intros HQ. revert s; induction p as [a|X e k IH]; intros s; cbn; [by eauto|].
  intros Hp s1 x s2 H1 H2. destruct (Hp s1 x s2 H1 H2). eauto.
Qed.

#[global] Instance wp_proper {A} (p : prog E A) :
  Proper (pointwise_relation A (pointwise_relation St iff) ==> pointwise_relation St iff) (wp p).
Proof. intros Q Q' HQ s. split; apply wp_mono; intros a s'; apply HQ. Qed.

Lemma wp_bind {A B} (p : prog E A) (f : A -> prog E B) Q s :
  wp p (fun a => wp (f a) Q) s -> wp (bind p f) Q s.
Proof.
  revert s; induction p as [a|X e k IH]; intros s; cbn.
  - intros Hp. by apply Hp.
  - intros Hp s1 x s2 H1 H2. destruct (Hp s1 x s2 H1 H2). eauto.
Qed.

(** [?]: an error ends the program. *)
Lemma wp_bind_ok {A B Er} (p : prog E (result A Er)) (f : A -> prog E (result B Er)) Q s :
  wp p (fun r s => match r with Ok a => wp (f a) Q s | Err e => forall s', rely s s' -> Q (Err e) s' end) s ->
  wp (bind_ok p f) Q s.
Proof. intros Hp. apply wp_bind. eapply wp_mono; [|exact Hp]. by intros [a|e] s'. Qed.

(** Sequencing with the specification of the first part. *)
Lemma wp_seq {A B} (P : A -> St -> Prop) (p : prog E A) (f : A -> prog E B) Q s :
  wp p P s -> (forall a s', P a s' -> wp (f a) Q s') -> wp (bind p f) Q s.
Proof. intros Hp Hf. apply wp_bind. by eapply wp_mono. Qed.

Lemma wp_seq_ok {A B Er} (P : result A Er -> St -> Prop) (p : prog E (result A Er))
    (f : A -> prog E (result B Er)) Q s :
  wp p P s -> (forall a s', P (Ok a) s' -> wp (f a) Q s') ->
  (forall e s' s'', P (Err e) s' -> rely s' s'' -> Q (Err e) s'') -> wp (bind_ok p f) Q s.
Proof.
  intros Hp Hf He. apply wp_bind_ok. eapply wp_mono; [|exact Hp].
  intros [a|e] s' HP; [by apply Hf|]. intros s'' Hr. by eapply He.
Qed.

Lemma wp_ret {A} (a : A) (Q : A -> St -> Prop) s : (forall s', rely s s' -> Q a s') -> wp (Ret a) Q s.
Proof. done. Qed.

Lemma wp_call {X} (e : E X) (Q : X -> St -> Prop) s :
  (forall s1 x s2, rely s s1 -> step _ e s1 x s2 -> guar s1 s2 /\ forall s3, rely s2 s3 -> Q x s3) ->
  wp (call e) Q s.
Proof. done. Qed.

Lemma wp_map_err {A Er Er'} (f : Er -> Er') (p : prog E (result A Er)) Q s :
  wp p (fun r s => forall s', rely s s' -> Q (map_err f r) s') s -> wp (prog_map_err f p) Q s.
Proof. intros Hp. apply wp_bind. exact Hp. Qed.

(** A program run with a handler whose calls are such steps, with what the others
    do before and after. *)
Lemma wp_run {A S} (h : handler E S) (abs : S -> St) :
  (forall X (e : E X) s x s', h X e s = (x, s') ->
    exists s1 s2, rely (abs s) s1 /\ step X e s1 x s2 /\ rely s2 (abs s')) ->
  forall (p : prog E A) Q s a s', wp p Q (abs s) -> run h p s = (a, s') -> Q a (abs s').
Proof.
  intros Hh p Q. induction p as [b|X e k IH]; intros s a s' Hp; cbn.
  - intros [= <- <-]. by apply Hp.
  - destruct (h X e s) as [x s3] eqn:He. intros Hr. eapply IH; [|exact Hr].
    destruct (Hh _ _ _ _ _ He) as (s1 & s2 & H1 & H2 & H3). destruct (Hp s1 x s2 H1 H2) as [_ Hk].
    by eapply wp_stable.
Qed.

End Logic.
