(* ===== verification/Constants.v ===== *)
(** * src/constants.rs: tunables (durations in milliseconds) *)

From S2P Require Import Prelude.

Definition KEEPALIVE : Z := 180 * 1000.
Definition KEEPALIVE_INTERVAL : Z := 25 * 1000.
Definition KEEPALIVE_RETRIES : Z := 4.
Definition DIAL_TIMEOUT : Z := 5 * 1000.
Definition HANDSHAKE_TIMEOUT : Z := 5 * 1000.
Definition UDP_TTL : Z := 60 * 1000.
Definition UDP_BUF : Z := 64 * 1024.
Definition UDP_QUEUE : Z := 128.
Definition BACKOFF_INITIAL : Z := 100.
Definition BACKOFF_MAX : Z := 5 * 1000.
Definition BACKOFF_HEALTHY : Z := 10 * 1000.
