(* ===== verification/Netopt.v ===== *)
(** * src/netopt.rs: socket options, the TCP dialer, [host:port] splitting *)

From S2P Require Import Prelude Str Ip Io Constants.

Record SockOpts := MkSockOpts {
  nodelay : bool;
  rcvbuf : option Z;
  sndbuf : option Z;
}.

(** [SockOpts::default()] *)
Definition default_opts : SockOpts := MkSockOpts true None None.

Definition keepalive : TcpKeepalive :=
  MkKeepalive (Some KEEPALIVE) (Some KEEPALIVE_INTERVAL) (Some KEEPALIVE_RETRIES).

(** [if cond { call?; }] and [if let Some(n) = opt { call(n)?; }] *)
Definition when (b : bool) (p : io (io_result unit)) : io (io_result unit) :=
  if b then p else Ret (Ok tt).
Definition when_some (o : option Z) (p : Z -> io (io_result unit)) : io (io_result unit) :=
  match o with Some n => p n | None => Ret (Ok tt) end.

Definition tune_accepted (stream : Fd) (opts : SockOpts) : io (io_result unit) :=
  await? _ := when (nodelay opts) (call (SetNodelay stream true)) in
  await? _ := call (SetTcpKeepalive stream keepalive) in
  await? _ := when_some (rcvbuf opts) (fun n => call (SetRecvBuf stream n)) in
  await? _ := when_some (sndbuf opts) (fun n => call (SetSendBuf stream n)) in
  Ret (Ok tt).

Definition EINPROGRESS : Z := 115.

Definition is_in_progress (e : io_error) : bool :=
  if decide (err_kind e = WouldBlock) then true
  else bool_decide (err_os e = Some EINPROGRESS).

Definition for_address (sa : SocketAddr) : Domain :=
  if is_ipv4 (sa_ip sa) then IPV4 else IPV6.

Definition dial_one (sa : SocketAddr) (ms : Z) (mark : option Z) (opts : SockOpts) :
    io (io_result Fd) :=
  await? sock := call (SocketNew (for_address sa) STREAM TCP) in
  await? _ := call (SetNonblocking sock true) in
  await? _ := call (SetTcpKeepalive sock keepalive) in
  await? _ := when (nodelay opts) (call (SetNodelay sock true)) in
  await? _ := when_some (rcvbuf opts) (fun n => call (SetRecvBuf sock n)) in
  await? _ := when_some (sndbuf opts) (fun n => call (SetSendBuf sock n)) in
  await? _ := when_some mark (fun m => call (SetMark sock m)) in
  await r := call (Connect sock sa) in
  await? _ := match r with
              | Ok _ => Ret (Ok tt)
              | Err e => if is_in_progress e then Ret (Ok tt) else Ret (Err e)
              end in
  await? stream := call (FromStd sock) in
  await w := timeout ms (call (Writable stream)) in
  match w with
  | None => Ret (Err (io_new TimedOut "connect timed out"))
  | Some (Err e) => Ret (Err e)
  | Some (Ok _) =>
      await? pending := call (TakeError stream) in
      match pending with
      | Some e => Ret (Err e)
      | None => Ret (Ok stream)
      end
  end.

(** The loop over the resolved addresses. *)
Fixpoint dial_all (addrs : list SocketAddr) (ms : Z) (mark : option Z) (opts : SockOpts)
    (none : io_error) (last_err : option io_error) : io (io_result Fd) :=
  match addrs with
  | [] => Ret (Err (default none last_err))
  | sa :: addrs =>
      await r := dial_one sa ms mark opts in
      match r with
      | Ok s => Ret (Ok s)
      | Err e => dial_all addrs ms mark opts none (Some e)
      end
  end.

Definition dial_tcp (addr : str) (ms : Z) (mark : option Z) (opts : SockOpts) :
    io (io_result Fd) :=
  match parse_socket_addr addr with
  | Some sa => dial_one sa ms mark opts
  | None =>
      await? addrs := call (LookupHost addr) in
      dial_all addrs ms mark opts
        (io_other ("could not resolve `" ++ addr ++ "`")) None
  end.

Definition split_host_port (s : str) : io_result (str * Z) :=
  let bad := io_new InvalidInput ("invalid host:port `" ++ s ++ "`") in
  let? (host, port) :=
    match strip_prefix "[" s with
    | Some rest =>
        let? close := ok_or (find_char "]" rest) bad in
        let? port := ok_or (strip_prefix ":" (drop (S close) rest)) bad in
        Ok (take close rest, port)
    | None =>
        let? c := ok_or (rfind_char ":" s) bad in
        Ok (take c s, drop (S c) s)
    end in
  let? port := ok_or (parse_u16 port) bad in
  if decide (host = []) then Err bad else Ok (host, port).

(** ** Splitting an address *)

Lemma split_host_port_plain h p :
  h <> [] -> strip_prefix "[" h = None -> fits 16 p ->
  split_host_port (h ++ ":" ++ show_dec p) = Ok (h, p).
Proof.
  intros Hne Hb Hp. unfold split_host_port.
  change (h ++ ":" ++ show_dec p) with (h ++ ":"%char :: show_dec p).
  assert (Hs : strip_prefix "[" (h ++ ":"%char :: show_dec p) = None)
    by (destruct h; [done|]; simpl in Hb |- *; by case_match).
  rewrite Hs, rfind_char_app; [|apply show_uint_absent; [lia|apply Hp|done]].
  simpl. rewrite take_length_app, drop_S_length_app, parse_u16_show by done.
  simpl. by rewrite decide_False.
Qed.

Lemma split_host_port_bracketed h p :
  h <> [] -> absent "]" h -> fits 16 p ->
  split_host_port ("[" ++ h ++ "]:" ++ show_dec p) = Ok (h, p).
Proof.
  intros Hne Hb Hp. unfold split_host_port. simpl strip_prefix. cbv beta iota.
  change (h ++ "]:" ++ show_dec p) with (h ++ "]"%char :: ":"%char :: show_dec p).
  rewrite find_char_app by done. simpl.
  rewrite take_length_app, drop_S_length_app. simpl.
  rewrite parse_u16_show by done. simpl. by rewrite decide_False.
Qed.

(** [split_host_port] recovers the host and the port of a plain address
    and of a bracketed IPv6 one, for every host without a bracket of its own
    and every 16-bit port; and whatever it returns has a non-empty host and a
    port that fits. *)
Lemma split_host_port_spec h p s :
  h <> [] -> strip_prefix "[" h = None -> absent "]" h -> fits 16 p ->
  split_host_port (h ++ ":" ++ show_dec p) = Ok (h, p) /\
  split_host_port ("[" ++ h ++ "]:" ++ show_dec p) = Ok (h, p) /\
  (forall h' p', split_host_port s = Ok (h', p') -> h' <> [] /\ fits 16 p').
Proof.
  intros. split_and!; [by apply split_host_port_plain|by apply split_host_port_bracketed|].
  intros h' p' Hs. unfold split_host_port in Hs.
  apply result_bind_ok in Hs as ([h0 p0] & _ & Hs). inv_ok.
  case_decide; [done|]. simplify_eq. eauto with gust.
Qed.

Lemma split_host_port_fits s h p : split_host_port s = Ok (h, p) -> fits 16 p.
Proof.
  unfold split_host_port. intros H. apply result_bind_ok in H as ([h0 p0] & _ & H).
  inv_ok. case_decide; [done|]. simplify_eq. eauto with gust.
Qed.

(** ** The dialer's calls *)

Definition the_call {E} (ev : event E) : {X : Type & E X} := existT (ev_type ev) (ev_call ev).
Definition calls {E} (log : list (event E)) : list {X : Type & E X} := the_call <$> log.

Definition opt_call {X} (o : option Z) (f : Z -> IoE X) : list {X : Type & IoE X} :=
  match o with Some n => [existT X (f n)] | None => [] end.

Lemma run_when_some {A} o n (e : Z -> IoE (io_result unit)) (f : unit -> io (io_result A))
    log a log' :
  run (record o) (bind_ok (when_some n (fun n => call (e n))) f) log = (Ok a, log') ->
  exists evs, run (record o) (f tt) (log ++ evs) = (Ok a, log') /\
    calls evs = opt_call n e.
Proof.
  destruct n as [n|]; cbn [when_some].
  - rewrite run_record_ok. destruct (o _ (e n) log) as [[]|] eqn:?; [|done].
    intros H. by exists [Ev (e n) (Ok ())].
  - intros H. exists []. by rewrite app_nil_r.
Qed.

Lemma run_ok_inv {A B} o (e : IoE (io_result A)) (f : A -> io (io_result B)) log b log' :
  run (record o) (bind_ok (call e) f) log = (Ok b, log') ->
  exists a, run (record o) (f a) (log ++ [Ev e (Ok a)]) = (Ok b, log').
Proof.
  rewrite run_record_ok. destruct (o _ e log) as [a|] eqn:?; [|done]. eauto.
Qed.

(** An option of a socket was set. *)
Definition was_set (o : option Z) (e : Z -> IoE (io_result unit)) : list (event IoE) :=
  match o with Some n => [Ev (e n) (Ok tt)] | None => [] end.

(** A non-blocking connect that is done or under way. *)
Definition connecting (r : io_result unit) : Prop :=
  match r with Ok _ => True | Err e => err_kind e = WouldBlock \/ err_os e = Some 115 end.

(** What a successful dial asks of the system, and the answers it gets. *)
Definition dial_log (sa : SocketAddr) (ms : Z) (mark : option Z) (opts : SockOpts)
    (sock stream : Fd) (conn : io_result unit) : list (event IoE) :=
  [Ev (SocketNew (match sa_ip sa with V4 _ => IPV4 | V6 _ => IPV6 end) STREAM TCP) (Ok sock);
   Ev (SetNonblocking sock true) (Ok tt);
   Ev (SetTcpKeepalive sock (MkKeepalive (Some 180000) (Some 25000) (Some 4))) (Ok tt)] ++
  (if nodelay opts then [Ev (SetNodelay sock true) (Ok tt)] else []) ++
  was_set (rcvbuf opts) (SetRecvBuf sock) ++
  was_set (sndbuf opts) (SetSendBuf sock) ++
  was_set mark (SetMark sock) ++
  [Ev (Connect sock sa) conn; Ev (FromStd sock) (Ok stream); Ev (Elapsed ms) false;
   Ev (Writable stream) (Ok tt); Ev (TakeError stream) (Ok None)].

Lemma is_in_progress_iff e : is_in_progress e = true <-> connecting (Err e).
Proof.
  unfold is_in_progress, connecting. case_decide as Hk; [by split; [left|]|].
  rewrite bool_decide_eq_true. split; [by right|]. by intros [?|?].
Qed.

Lemma for_address_match sa : for_address sa = match sa_ip sa with V4 _ => IPV4 | V6 _ => IPV6 end.
Proof. unfold for_address. by destruct (sa_ip sa). Qed.

(** The ways through the parts of [dial_one]. *)
Lemma path_next {E A B Er} (p : prog E (result A Er)) (f : A -> prog E (result B Er)) l1 l2 a b :
  path p l1 (Ok a) -> path (f a) l2 (Ok b) -> path (bind_ok p f) (l1 ++ l2) (Ok b).
Proof. intros H1 H2. apply path_bind_ok. by exists a, l1, l2. Qed.

Lemma path_call {E X} (e : E X) l x : path (call e) l x <-> l = [Ev e x].
Proof.
  unfold call. cbn. split; [by intros (y & l' & -> & -> & ->)|]. intros ->. by exists x, [].
Qed.

Lemma path_when b (e : IoE (io_result unit)) l :
  path (when b (call e)) l (Ok tt) <-> l = if b then [Ev e (Ok tt)] else [].
Proof. destruct b; cbn [when]; [apply path_call|]. cbn. naive_solver. Qed.

Lemma path_when_some o (e : Z -> IoE (io_result unit)) l :
  path (when_some o (fun n => call (e n))) l (Ok tt) <-> l = was_set o e.
Proof. destruct o; cbn [when_some was_set]; [apply path_call|]. cbn. naive_solver. Qed.

Lemma path_connected r l :
  path (match r with
    | Ok _ => Ret (Ok tt)
    | Err e => if is_in_progress e then Ret (Ok tt) else Ret (Err e)
    end : io (io_result unit)) l (Ok tt) <-> l = [] /\ connecting r.
Proof.
  destruct r as [[]|e]; cbn -[is_in_progress connecting]; [by cbn; intuition|]. rewrite <- is_in_progress_iff.
  destruct (is_in_progress e); cbn; by intuition.
Qed.

(** The wait for the connection and the check of the socket. *)
Lemma path_checked ms (stream fd : Fd) l :
  path (
    await w := timeout ms (call (Writable stream)) in
    match w with
    | None => Ret (Err (io_new TimedOut "connect timed out"))
    | Some (Err e) => Ret (Err e)
    | Some (Ok _) =>
        await? pending := call (TakeError stream) in
        match pending with Some e => Ret (Err e) | None => Ret (Ok stream) end
    end) l (Ok fd) <->
  stream = fd /\
  l = [Ev (Elapsed ms) false; Ev (Writable stream) (Ok tt); Ev (TakeError stream) (Ok None)].
Proof.
  split.
  - cbn. intros ([] & l1 & -> & H1); cbn in H1; [by destruct H1|].
    destruct H1 as ([[]|e] & l2 & -> & H2); cbn in H2; [|by destruct H2].
    destruct H2 as ([[e|]|e] & l3 & -> & H3); cbn in H3; destruct H3 as [-> H3]; try done.
    by injection H3 as ->.
  - intros [-> ->]. do 3 (cbn; do 2 eexists; split; [reflexivity|]). done.
Qed.

(** C25: [dial_one] succeeds exactly when the system answers so: the socket is
    made, every requested option (non-blocking, keep-alive, nodelay, both buffer
    sizes, the mark) is set on it without an error before the connect, the connect
    succeeds or is under way, the socket becomes writable before the time is up
    and has no pending error; these are all its calls, in this order. *)
Theorem dial_one_succeeds_iff o sa ms mark opts fd log :
  run (record o) (dial_one sa ms mark opts) [] = (Ok fd, log) <->
  replies o [] log /\
  exists sock conn, connecting conn /\ log = dial_log sa ms mark opts sock fd conn.
Proof.
  rewrite run_path_nil, (Logic.and_comm (path _ _ _)).
  apply Morphisms_Prop.and_iff_morphism; [done|].
  unfold dial_one. rewrite for_address_match. split.
  - intros H.
    apply path_bind_ok in H as (sock & l1 & m1 & -> & ->%path_call & H).
    do 2 apply path_bind_ok in H as ([] & ? & ? & -> & ->%path_call & H).
    apply path_bind_ok in H as ([] & ? & ? & -> & ->%path_when & H).
    do 3 apply path_bind_ok in H as ([] & ? & ? & -> & ->%path_when_some & H).
    apply path_bind in H as (conn & ? & ? & -> & ->%path_call & H).
    apply path_bind_ok in H as ([] & ? & ? & -> & [-> Hc]%path_connected & H).
    apply path_bind_ok in H as (stream & ? & ? & -> & ->%path_call & H).
    apply path_checked in H as [-> ->]. by exists sock, conn.
  - intros (sock & conn & Hc & ->).
    apply (path_next _ _ [_] _ sock); [by apply path_call|].
    do 2 (apply (path_next _ _ [_] _ tt); [by apply path_call|]).
    apply (path_next _ _ _ _ tt); [by apply path_when|].
    do 3 (apply (path_next _ _ _ _ tt); [by apply path_when_some|]).
    apply path_bind. exists conn, [Ev (Connect sock sa) conn]. eexists.
    split; [reflexivity|]. split; [by apply path_call|].
    apply (path_next _ _ [] _ tt); [by apply path_connected|].
    apply (path_next _ _ [_] _ fd); [by apply path_call|by apply path_checked].
Qed.

(** A system in which every call succeeds. *)
Definition ok_oracle : oracle IoE :=
  fun X e _ => match e in IoE X return X with
  | SocketNew _ _ _ => Ok 3%nat
  | SetNonblocking _ _ | SetTcpKeepalive _ _ | SetNodelay _ _ | SetRecvBuf _ _
  | SetSendBuf _ _ | SetMark _ _ | Bind _ _ | Connect _ _ | Writable _
  | WriteAll _ _ => Ok tt
  | FromStd f => Ok f
  | TakeError _ => Ok None
  | LookupHost _ => Ok []
  | Elapsed _ => false
  | ReadExact _ n => Ok (replicate n 0)
  | ReadSome _ _ => Ok []
  | WriteSome _ bs => Ok (length bs)
  | SelectFirst => true
  end.

Definition example_sa : SocketAddr := SockAddr (V4 (Ipv4 1 2 3 4)) 9090 0.

(** A dial that succeeds. *)
Lemma dial_one_example :
  let opts := MkSockOpts true (Some 4096) None in
  run (record ok_oracle) (dial_one example_sa DIAL_TIMEOUT (Some 7) opts) [] =
  (Ok 3%nat, dial_log example_sa 5000 (Some 7) opts 3 3 (Ok tt)).
Proof. reflexivity. Qed.

(** ** Resolving and trying the addresses *)

Section dial.
Context {S : Type} (h : handler IoE S) (ms : Z) (mark : option Z) (opts : SockOpts).

(** Every address of the list was tried, in order, and failed; the error kept
    goes from [e] to [e']. *)
Inductive all_failed : list SocketAddr -> S -> option io_error -> option io_error -> S -> Prop :=
| failed_nil s e : all_failed [] s e e s
| failed_cons sa addrs s e s1 err e' s2 :
    run h (dial_one sa ms mark opts) s = (Err err, s1) ->
    all_failed addrs s1 (Some err) e' s2 ->
    all_failed (sa :: addrs) s e e' s2.

Lemma dial_all_spec addrs none last s :
  match run h (dial_all addrs ms mark opts none last) s with
  | (Ok fd, s') => exists pre sa post e s1, addrs = pre ++ sa :: post /\
      all_failed pre s last e s1 /\ run h (dial_one sa ms mark opts) s1 = (Ok fd, s')
  | (Err err, s') => exists e, all_failed addrs s last e s' /\ err = default none e
  end.
Proof.
  revert last s; induction addrs as [|sa addrs IH]; intros last s; cbn [dial_all run].
  - exists last. by repeat constructor.
  - rewrite run_bind. destruct (run h (dial_one sa ms mark opts) s) as [[fd|err] s1] eqn:Hd;
      cbn [run].
    + exists [], sa, addrs, last, s. by repeat constructor.
    + specialize (IH (Some err) s1).
      destruct (run h (dial_all _ _ _ _ _ _) s1) as [[fd|err'] s'].
      * destruct IH as (pre & sa' & post & e & s2 & -> & Hf & Hr).
        exists (sa :: pre), sa', post, e, s2. split_and!; [done| |done].
        by econstructor.
      * destruct IH as (e & Hf & ->). exists e. split; [|done]. by econstructor.
Qed.

(** C39: [dial_tcp] does not resolve an [IP:port] literal; otherwise it fails
    with the resolver's error, or tries the resolved addresses in order and
    returns the first connection, or when all failed the last error (a
    "could not resolve" error when there was no address at all). *)
Theorem dial_tcp_spec addr s :
  match parse_socket_addr addr with
  | Some sa =>
      run h (dial_tcp addr ms mark opts) s = run h (dial_one sa ms mark opts) s
  | None =>
      match h _ (LookupHost addr) s with
      | (Err e, s0) => run h (dial_tcp addr ms mark opts) s = (Err e, s0)
      | (Ok addrs, s0) =>
          match run h (dial_tcp addr ms mark opts) s with
          | (Ok fd, s') => exists pre sa post e s1, addrs = pre ++ sa :: post /\
              all_failed pre s0 None e s1 /\
              run h (dial_one sa ms mark opts) s1 = (Ok fd, s')
          | (Err err, s') => exists e, all_failed addrs s0 None e s' /\
              err = default (io_other ("could not resolve `" ++ addr ++ "`")) e
          end
      end
  end.
Proof.
  unfold dial_tcp. destruct (parse_socket_addr addr) as [sa|]; [done|].
  rewrite run_bind_ok. cbn [run call].
  destruct (h _ (LookupHost addr) s) as [[addrs|e] s0]; [|done].
  apply dial_all_spec.
Qed.

End dial.
