(* ===== verification/Node.v ===== *)
(** * src/node.rs: GOST-style node strings

    [parse_node] takes [scheme://[user:pass@]host:port[/target][?query]]
    apart; [render_node] below is the printer it is proved to invert. *)

From S2P Require Import Prelude Str.

Record Node := MkNode {
  scheme : str;
  user : option str;
  pass : option str;
  host : str;
  port : option Z;
  target : str;
  query : gmap str str;
}.

(** [Node::authority] *)
Definition authority (n : Node) : option str :=
  (fun p => host n ++ ":" ++ show_dec p) <$> port n.

(** [Node::bind_string] *)
Definition bind_string (n : Node) : option str :=
  match port n with
  | None => None
  | Some p =>
      if decide (host n = []) then Some ("0.0.0.0:" ++ show_dec p)
      else Some (host n ++ ":" ++ show_dec p)
  end.

(** [Node::targets] *)
Definition targets (n : Node) : list str :=
  List.filter (fun s => negb (bool_decide (s = [])))
    (trim <$> split_char "," (target n)).

(** [decode]: the loop over the bytes of a string with a '%'. *)
Fixpoint decode_bytes (s : str) : str :=
  match s with
  | [] => []
  | c :: r =>
      if Ascii.eqb c "%" then
        match r with
        | a :: b :: r' =>
            match to_digit 16 a, to_digit 16 b with
            | Some h, Some l => byte_of (wrap 8 (h * 16 + l)) :: decode_bytes r'
            | _, _ => c :: decode_bytes r
            end
        | _ => c :: decode_bytes r
        end
      else c :: decode_bytes r
  end.

Definition decode (s : str) : str :=
  if contains_char "%" s then from_utf8_lossy (decode_bytes s) else s.

Definition parse_port (p : str) : result Z str :=
  ok_or (parse_u16 p) ("invalid port `" ++ p ++ "`").

Definition parse_host_port (hp : str) : result (str * option Z) str :=
  if decide (hp = []) then Ok ([], None)
  else
    match strip_prefix "[" hp with
    | Some stripped =>
        let? close := ok_or (find_char "]" stripped) ("unterminated IPv6 bracket" : str) in
        let h := take close stripped in
        let after := drop (S close) stripped in
        let? p :=
          match strip_prefix ":" after with
          | Some p => let? n := parse_port p in Ok (Some n)
          | None =>
              if decide (after = []) then Ok None
              else Err ("unexpected characters after IPv6 literal: `" ++ after ++ "`")
          end in
        Ok (h, p)
    | None =>
        match rfind_char ":" hp with
        | Some c =>
            let? p := parse_port (drop (S c) hp) in
            Ok (take c hp, Some p)
        | None => Ok (hp, None)
        end
    end.

(** The remainder after the authority, as path and query. *)
Definition split_path_query (remainder : str) : str * str :=
  match remainder with
  | c :: r =>
      if Ascii.eqb c "?" then ([], r)
      else if Ascii.eqb c "/" then
        match find_char "?" remainder with
        | Some q => (drop 1 (take q remainder), drop (S q) remainder)
        | None => (r, [])
        end
      else ([], [])
  | [] => ([], [])
  end.

(** Userinfo is everything before the last '@'. *)
Definition split_userinfo (auth : str) : option str * str :=
  match rfind_char "@" auth with
  | Some at_ => (Some (take at_ auth), drop (S at_) auth)
  | None => (None, auth)
  end.

Definition split_user_pass (userinfo : option str) : option str * option str :=
  match userinfo with
  | Some ui =>
      match find_char ":" ui with
      | Some c => (Some (decode (take c ui)), Some (decode (drop (S c) ui)))
      | None => (Some (decode ui), None)
      end
  | None => (None, None)
  end.

(** One [key=value] pair inserted into the query map. *)
Definition insert_pair (q : gmap str str) (pair : str) : gmap str str :=
  match find_char "=" pair with
  | Some eq => <[take eq pair := drop (S eq) pair]> q
  | None => <[pair := []]> q
  end.

Definition parse_query (query_str : str) : gmap str str :=
  foldl insert_pair ∅
    (List.filter (fun p => negb (bool_decide (p = []))) (split_char "&" query_str)).

Definition parse_node (s0 : str) : result Node str :=
  let s := trim s0 in
  if decide (s = []) then Err "empty node string"
  else
    let? scheme_idx := ok_or (find_str "://" s)
      ("node `" ++ s ++
       "` is missing a scheme (expected e.g. tcp://, udp://, socks5://)") in
    let scheme := to_ascii_lowercase (take scheme_idx s) in
    if decide (scheme = []) then Err ("node `" ++ s ++ "` has an empty scheme")
    else
      let rest := drop (scheme_idx + 3) s in
      let auth_end := default (length rest)
        (find_by (fun c => Ascii.eqb "/" c || Ascii.eqb "?" c) rest) in
      let auth := take auth_end rest in
      let remainder := drop auth_end rest in
      let '(path, query_str) := split_path_query remainder in
      let target := trim_matches "/" path in
      let '(userinfo, hostport) := split_userinfo auth in
      let '(user, pass) := split_user_pass userinfo in
      let? (host, port) := map_err (fun e => "node `" ++ s ++ "`: " ++ e)
        (parse_host_port hostport) in
      Ok (MkNode scheme user pass host port target (parse_query query_str)).

(** ** Percent-encoding of userinfo *)

(** The bytes that would end the user name or the authority, and '%' itself. *)
Definition special (c : ascii) : bool := one_of [c] ["%"; "/"; "?"; ":"]%string.

Definition encode_byte (c : ascii) : str :=
  if special c then
    ["%"%char; digit_char (byte_val c / 16); digit_char (byte_val c mod 16)]
  else [c].

Definition encode (s : str) : str := mjoin (encode_byte <$> s).

Lemma encode_cons c s : encode (c :: s) = encode_byte c ++ encode s.
Proof. done. Qed.

Lemma decode_bytes_escape a b h l r :
  to_digit 16 a = Some h -> to_digit 16 b = Some l ->
  decode_bytes ("%"%char :: a :: b :: r) = byte_of (wrap 8 (h * 16 + l)) :: decode_bytes r.
Proof. intros Ha Hb. cbn [decode_bytes]. by rewrite Ascii.eqb_refl, Ha, Hb. Qed.

Lemma decode_bytes_encode s : decode_bytes (encode s) = s.
Proof.
  induction s as [|c s IH]; [done|]. rewrite encode_cons. unfold encode_byte.
  destruct (special c) eqn:Hc.
  - pose proof (byte_val_range c).
    rewrite <- !app_comm_cons, app_nil_l.
    erewrite decode_bytes_escape; cycle 1.
    { apply digit_char_val; [lia|]. split; [apply Z.div_pos; lia|].
      apply Z.div_lt_upper_bound; lia. }
    { apply digit_char_val; [lia|]. apply Z.mod_pos_bound; lia. }
    rewrite IH. f_equal.
    replace (byte_val c / 16 * 16 + byte_val c mod 16) with (byte_val c)
      by (pose proof (Z.div_mod (byte_val c) 16); lia).
    rewrite wrap_small by (unfold fits; lia). apply byte_of_val.
  - cbn [app decode_bytes]. case_match eqn:Hp.
    + apply Ascii.eqb_eq in Hp as ->. done.
    + by rewrite IH.
Qed.

Lemma encode_plain s : absent "%" (encode s) -> encode s = s.
Proof.
  induction s as [|c s IH]; [done|]. rewrite encode_cons. intros H.
  apply absent_app in H as [Hc Hs]. rewrite (IH Hs). unfold encode_byte in *.
  destruct (special c); [|done]. by apply absent_cons in Hc as [? _].
Qed.

Lemma decode_encode s : utf8 s = true -> decode (encode s) = s.
Proof.
  intros Hu. unfold decode, contains_char.
  destruct (find_char "%" (encode s)) eqn:Hf.
  - rewrite decode_bytes_encode. by apply from_utf8_lossy_id.
  - apply find_char_None in Hf. by apply encode_plain.
Qed.

(** None of the separators survives the encoding. *)
Lemma encode_absent d s :
  one_of [d] ["/"; "?"; ":"]%string = true -> absent d (encode s).
Proof.
  intros Hd. induction s as [|c s IH]; [constructor|]. rewrite encode_cons.
  apply absent_app; split; [|done]. unfold encode_byte.
  assert (Hspec : special d = true).
  { unfold special, one_of in *. simpl in *. by rewrite Hd, orb_true_r. }
  assert (Hnd : to_digit 16 d = None /\ d <> "%"%char).
  { unfold one_of in Hd. simpl in Hd.
    repeat (apply orb_true_iff in Hd as [Hd|Hd]; [apply bool_decide_eq_true in Hd;
      simplify_eq; done|]). done. }
  destruct Hnd as [Hnd Hne]. destruct (special c) eqn:Hc.
  - pose proof (byte_val_range c).
    rewrite !absent_cons. split_and!; [done|..|constructor]; intros ->;
      rewrite digit_char_val in Hnd; try done; try lia.
    + split; [apply Z.div_pos; lia|]. apply Z.div_lt_upper_bound; lia.
    + apply Z.mod_pos_bound; lia.
  - apply absent_cons. split; [congruence|constructor].
Qed.

(** ** Printing a node *)

Definition render_host_port (h : str) (p : option Z) : str :=
  (if contains_char ":" h then "[" ++ h ++ "]" else h) ++
  match p with Some p => ":" ++ show_dec p | None => [] end.

Definition render_userinfo (u p : option str) : str :=
  match u, p with
  | None, _ => []
  | Some u, None => encode u ++ "@"
  | Some u, Some p => encode u ++ ":" ++ encode p ++ "@"
  end.

Definition render_query (q : gmap str str) : str :=
  join_char "&" ((fun kv => fst kv ++ "=" ++ snd kv) <$> map_to_list q).

Definition render_node (n : Node) : str :=
  scheme n ++ "://" ++ render_userinfo (user n) (pass n) ++
  render_host_port (host n) (port n) ++
  (if decide (target n = []) then [] else "/" ++ target n) ++
  (if decide (query n = ∅) then [] else "?" ++ render_query (query n)).

(** A host that can be printed: no character that ends the authority, no
    bracket of its own. *)
Record wf_host (h : str) : Prop := {
  wf_host_slash : absent "/" h;
  wf_host_question : absent "?" h;
  wf_host_at : absent "@" h;
  wf_host_close : absent "]" h;
  wf_host_open : strip_prefix "[" h = None;
}.

Record wf_node (n : Node) : Prop := {
  wf_scheme : scheme n <> [];
  wf_scheme_lower : to_ascii_lowercase (scheme n) = scheme n;
  wf_scheme_colon : absent ":" (scheme n);
  wf_user : forall u, user n = Some u -> utf8 u = true;
  wf_pass : forall p, pass n = Some p -> utf8 p = true /\ is_Some (user n);
  wf_hostname : wf_host (host n);
  wf_port : forall p, port n = Some p -> fits 16 p;
  wf_target : unfenced "/" (target n);
  wf_target_question : absent "?" (target n);
  wf_query : forall k v, query n !! k = Some v ->
    absent "=" k /\ absent "&" k /\ absent "&" v;
  wf_trimmed : trimmed (render_node n);
}.

(** ** Each part parses back *)

Lemma parse_port_show p : fits 16 p -> parse_port (show_dec p) = Ok p.
Proof. intros. unfold parse_port. by rewrite parse_u16_show. Qed.

Lemma show_dec_absent c p : to_digit 10 c = None -> fits 16 p -> absent c (show_dec p).
Proof. intros ? []. by apply show_uint_absent; [lia..|]. Qed.

Lemma parse_host_port_render h p :
  wf_host h -> (forall p', p = Some p' -> fits 16 p') ->
  parse_host_port (render_host_port h p) = Ok (h, p).
Proof.
  intros Hh Hp. unfold render_host_port, contains_char.
  destruct (find_char ":" h) as [i|] eqn:Hc.
  - unfold parse_host_port. cbn [decide]. rewrite <- !app_assoc.
    destruct (decide _) as [?|_]; [done|]. simpl strip_prefix. cbv beta iota.
    rewrite find_char_app by apply Hh. simpl.
    rewrite take_length_app, drop_S_length_app.
    destruct p as [p|]; simpl; [|done].
    by rewrite parse_port_show by auto.
  - apply find_char_None in Hc. unfold parse_host_port.
    destruct p as [p|].
    + specialize (Hp p eq_refl). pose proof (wf_host_open h Hh) as Ho.
      destruct (decide _) as [Hnil|_]; [by destruct h|].
      change (h ++ ":" ++ show_dec p) with (h ++ ":"%char :: show_dec p).
      assert (Hs : strip_prefix "[" (h ++ ":"%char :: show_dec p) = None)
        by (destruct h; [done|]; simpl in Ho |- *; by case_match).
      rewrite Hs.
      rewrite rfind_char_app by (by apply show_dec_absent).
      simpl. by rewrite drop_S_length_app, take_length_app, parse_port_show.
    + rewrite app_nil_r. destruct (decide _) as [->|_]; [done|].
      rewrite (wf_host_open h Hh). apply rfind_char_None in Hc. by rewrite Hc.
Qed.

Lemma split_user_pass_render u p hp :
  absent "@" hp ->
  (forall u', u = Some u' -> utf8 u' = true) ->
  (forall p', p = Some p' -> utf8 p' = true /\ is_Some u) ->
  let '(ui, hp') := split_userinfo (render_userinfo u p ++ hp) in
  hp' = hp /\ split_user_pass ui = (u, p).
Proof.
  intros Hat Hu Hp. unfold split_userinfo, render_userinfo.
  destruct u as [u|]; cycle 1.
  - apply rfind_char_None in Hat as Hr. simpl. rewrite Hr.
    destruct p as [p|]; [|done]. destruct (Hp p eq_refl) as [_ [? ?]]. done.
  - specialize (Hu u eq_refl).
    assert (Hcol : absent ":" (encode u)) by (by apply encode_absent).
    destruct p as [p|].
    + rewrite <- !app_assoc. simpl.
      replace (encode u ++ ":"%char :: encode p ++ "@"%char :: hp)
        with ((encode u ++ ":"%char :: encode p) ++ "@"%char :: hp)
        by (by rewrite <- app_assoc).
      rewrite rfind_char_app by done. rewrite take_length_app, drop_S_length_app.
      split; [done|]. simpl. rewrite find_char_app by done.
      rewrite take_length_app, drop_S_length_app.
      by rewrite !decode_encode by (done || by apply Hp).
    + rewrite <- app_assoc. simpl. rewrite rfind_char_app by done.
      rewrite take_length_app, drop_S_length_app. split; [done|]. simpl.
      apply find_char_None in Hcol. by rewrite Hcol, decode_encode.
Qed.

Lemma foldl_insert_pair q pairs :
  (forall k v, (k, v) ∈ pairs -> absent "=" k) ->
  foldl insert_pair q ((fun kv => fst kv ++ "=" ++ snd kv) <$> pairs) =
  foldl (fun m kv => <[fst kv := snd kv]> m) q pairs.
Proof.
  revert q; induction pairs as [|[k v] pairs IH]; intros q Hk; simpl; [done|].
  unfold insert_pair at 2. cbn [fst snd]. simpl.
  rewrite find_char_app by (eapply Hk; by left).
  rewrite take_length_app, drop_S_length_app. apply IH. intros. eapply Hk. by right.
Qed.

Lemma foldl_insert_list (l : list (str * str)) (q : gmap str str) :
  NoDup l.*1 ->
  foldl (fun m kv => <[fst kv := snd kv]> m) q l = list_to_map l ∪ q.
Proof.
  revert q; induction l as [|[k v] l IH]; intros q Hnd; simpl.
  - by rewrite (left_id_L ∅ (∪)).
  - apply NoDup_cons in Hnd as [Hk Hnd]. rewrite IH by done.
    rewrite <- insert_union_r by (by apply not_elem_of_list_to_map_1).
    by rewrite insert_union_l.
Qed.

Lemma foldl_insert_map (m : gmap str str) :
  foldl (fun m kv => <[fst kv := snd kv]> m) ∅ (map_to_list m) = m.
Proof.
  rewrite foldl_insert_list by apply NoDup_fst_map_to_list.
  by rewrite list_to_map_to_list, (right_id_L ∅ (∪)).
Qed.

Lemma filter_all {A} (f : A -> bool) l :
  Forall (fun x => f x = true) l -> List.filter f l = l.
Proof. induction 1 as [|x l Hx _ IH]; simpl; [done|]. by rewrite Hx, IH. Qed.

Lemma parse_query_render (q : gmap str str) :
  q <> ∅ ->
  (forall k v, q !! k = Some v -> absent "=" k /\ absent "&" k /\ absent "&" v) ->
  parse_query (render_query q) = q.
Proof.
  intros Hne Hwf. unfold parse_query, render_query.
  assert (Hin : forall kv, kv ∈ map_to_list q ->
    absent "=" (fst kv) /\ absent "&" (fst kv) /\ absent "&" (snd kv)).
  { intros [k v] Hkv. apply elem_of_map_to_list in Hkv. by apply Hwf. }
  rewrite split_char_join.
  - rewrite filter_all.
    + rewrite foldl_insert_pair, foldl_insert_map by (intros k v Hkv; apply (Hin _ Hkv)).
      done.
    + apply Forall_fmap, Forall_forall. intros [k v] _. simpl.
      by destruct k.
  - intros H. apply fmap_nil_inv in H. by apply map_to_list_empty_iff in H.
  - apply Forall_fmap, Forall_forall. intros kv Hkv. apply Hin in Hkv. simpl.
    apply absent_app. split; [apply Hkv|]. apply absent_cons. split; [done|apply Hkv].
Qed.

(** Where the authority ends: the separators are absent from it. *)
Lemma auth_end_spec auth rem :
  absent "/" auth -> absent "?" auth ->
  match rem with c :: _ => c = "/"%char \/ c = "?"%char | [] => True end ->
  let f := find_by (fun c => Ascii.eqb "/" c || Ascii.eqb "?" c) (auth ++ rem) in
  default (length (auth ++ rem)) f = length auth.
Proof.
  intros H1 H2 Hr.
  assert (Hn : Forall (fun c => (Ascii.eqb "/" c || Ascii.eqb "?" c)%char = false) auth).
  { apply Forall_forall. intros c Hc. unfold absent in *. rewrite Forall_forall in H1, H2.
    by rewrite H1, H2. }
  destruct rem as [|c rem].
  - cbv zeta. rewrite app_nil_r. apply find_by_None in Hn. by rewrite Hn.
  - cbv zeta. rewrite find_by_app; [done|done|]. by destruct Hr as [-> | ->].
Qed.

Lemma render_host_port_absent c h p :
  one_of [c] ["/"; "?"; "@"]%string = true -> absent c h ->
  (forall p', p = Some p' -> fits 16 p') -> absent c (render_host_port h p).
Proof.
  intros Hc Hh Hp.
  assert (H : to_digit 10 c = None /\ ":"%char <> c /\ "["%char <> c /\ "]"%char <> c).
  { unfold one_of in Hc. simpl in Hc.
    repeat (apply orb_true_iff in Hc as [Hc|Hc]; [apply bool_decide_eq_true in Hc;
      simplify_eq; done|]). done. }
  destruct H as (Hd & H1 & H2 & H3).
  unfold render_host_port. apply absent_app. split.
  - case_match; [|done]. simpl. rewrite absent_cons, absent_app, absent_cons.
    split_and!; done || constructor.
  - destruct p as [p|]; [|constructor]. apply absent_cons. split; [done|].
    apply show_dec_absent; auto.
Qed.

Lemma render_userinfo_absent c u p :
  one_of [c] ["/"; "?"]%string = true -> absent c (render_userinfo u p).
Proof.
  intros Hc.
  assert (H : one_of [c] ["/"; "?"; ":"]%string = true /\ ":"%char <> c /\ "@"%char <> c).
  { unfold one_of in *. simpl in *.
    repeat (apply orb_true_iff in Hc as [Hc|Hc]; [apply bool_decide_eq_true in Hc;
      simplify_eq; done|]). done. }
  destruct H as (He & H1 & H2).
  destruct u as [u|], p as [p|]; simpl; try constructor;
    rewrite ?absent_app, ?absent_cons, ?absent_app, ?absent_cons;
    split_and?; try done; try (by apply encode_absent); try constructor.
Qed.

Lemma split_path_query_render t qs :
  absent "?" t ->
  split_path_query ((if decide (t = []) then [] else "/" ++ t) ++
    match qs with Some q => "?" ++ q | None => [] end) =
  (t, default [] qs).
Proof.
  intros Ht. destruct (decide (t = [])) as [->|Hne].
  - by destruct qs.
  - unfold split_path_query. simpl. destruct qs as [q|]; simpl.
    + change ("/"%char :: t ++ "?"%char :: q) with (("/"%char :: t) ++ "?"%char :: q).
      rewrite find_char_app by (by apply absent_cons). simpl.
      by rewrite drop_0, take_length_app, drop_S_length_app.
    + rewrite app_nil_r.
      assert (Hf : find_char "?" ("/"%char :: t) = None)
        by (by apply find_char_None, absent_cons).
      by rewrite Hf.
Qed.

(** C4: [parse_node] inverts [render_node]: a node with any scheme, user and
    password (with '@', ':', '%' or UTF-8 in them), IPv4, name or bracketed
    IPv6 host, port, target list and query map comes back exactly.  In
    particular userinfo ends at the last '@' and percent-escapes decode. *)
Theorem parse_node_render n : wf_node n -> parse_node (render_node n) = Ok n.
Proof.
  intros Hwf. destruct (Hwf) as [Hs Hl Hc Hu Hp Hh Hpo Ht Htq Hq Htr].
  unfold parse_node. rewrite trim_trimmed by done.
  destruct (decide (render_node n = [])) as [E|_].
  { unfold render_node in E. by destruct (scheme n). }
  set (qs := if decide (query n = ∅) then None else Some (render_query (query n))).
  set (auth := render_userinfo (user n) (pass n) ++ render_host_port (host n) (port n)).
  set (rem := (if decide (target n = []) then [] else "/" ++ target n) ++
    match qs with Some q => "?" ++ q | None => [] end).
  assert (Hr : render_node n = scheme n ++ (":"%char :: "//"%string) ++ (auth ++ rem)).
  { unfold render_node, auth, rem, qs. rewrite <- !app_assoc.
    do 5 f_equal. by case_decide. }
  rewrite Hr. change ("://" : str) with (":"%char :: ("//"%string : str)).
  rewrite find_str_app by done. simpl result_bind.
  rewrite take_length_app, Hl. destruct (decide (scheme n = [])) as [|_]; [done|].
  replace (drop (length (scheme n) + 3) _) with (auth ++ rem); cycle 1.
  { rewrite <- drop_drop, drop_app_length. done. }
  rewrite auth_end_spec; cycle 1.
  { apply absent_app; split; [by apply render_userinfo_absent|].
    apply render_host_port_absent; [done|apply Hh|done]. }
  { apply absent_app; split; [by apply render_userinfo_absent|].
    apply render_host_port_absent; [done|apply Hh|done]. }
  { subst rem qs. repeat case_decide; simpl; auto. }
  rewrite take_length_app, drop_app_length.
  subst rem. rewrite split_path_query_render by done.
  rewrite trim_matches_unfenced by done.
  pose proof (split_user_pass_render (user n) (pass n) (render_host_port (host n) (port n)))
    as Hup.
  fold auth in Hup. destruct (split_userinfo auth) as [ui hp].
  destruct Hup as [-> ->]; [|done|done|].
  { apply render_host_port_absent; [done|apply Hh|done]. }
  rewrite parse_host_port_render by done. simpl.
  assert (Hqq : parse_query (default [] qs) = query n).
  { subst qs. destruct (decide (query n = ∅)) as [E|E]; simpl; [by rewrite E|].
    by apply parse_query_render. }
  rewrite Hqq. by destruct n.
Qed.

(** ** What a successful parse guarantees *)

Record node_ok (n : Node) : Prop := {
  ok_scheme : scheme n <> [];
  ok_scheme_lower : to_ascii_lowercase (scheme n) = scheme n;
  ok_pass : forall p, pass n = Some p -> is_Some (user n);
  ok_host_at : absent "@" (host n);
  ok_host_slash : absent "/" (host n) /\ absent "?" (host n);
  ok_port : forall p, port n = Some p -> fits 16 p;
  ok_target : unfenced "/" (target n);
  ok_target_question : absent "?" (target n);
  ok_query : forall k v, query n !! k = Some v ->
    absent "=" k /\ absent "&" k /\ absent "&" v;
}.

Lemma strip_prefix_Some c s r : strip_prefix c s = Some r -> s = c :: r.
Proof.
  destruct s; simpl; [done|]. case_match eqn:E; [|done].
  apply Ascii.eqb_eq in E. naive_solver.
Qed.

Lemma parse_port_fits p n : parse_port p = Ok n -> fits 16 n.
Proof. intros H. apply ok_or_ok in H. eauto with gust. Qed.

(** The host is a part of the string, and the port fits. *)
Lemma parse_host_port_ok hp h p :
  parse_host_port hp = Ok (h, p) ->
  (forall c, absent c hp -> absent c h) /\ (forall n, p = Some n -> fits 16 n).
Proof.
  unfold parse_host_port. intros H. case_decide; [naive_solver|].
  destruct (strip_prefix "[" hp) as [r|] eqn:Hb.
  - apply strip_prefix_Some in Hb as ->. inv_ok. simplify_eq. split.
    + intros c [_ Hc]%absent_cons. auto with gust.
    + intros n ->. repeat (case_match; try done); inv_ok; simplify_eq.
      by eapply parse_port_fits.
  - destruct (rfind_char ":" hp) as [i|] eqn:Hr; inv_ok; simplify_eq.
    + split; [auto with gust|]. intros n [= <-]. by eapply parse_port_fits.
    + naive_solver.
Qed.

Lemma split_path_query_ok rem path qs :
  split_path_query rem = (path, qs) -> absent "?" path.
Proof.
  unfold split_path_query. intros H.
  destruct rem as [|c r]; [simplify_eq; constructor|].
  destruct (Ascii.eqb c "?") eqn:E1; [simplify_eq; constructor|].
  destruct (Ascii.eqb c "/") eqn:E2; [|simplify_eq; constructor].
  destruct (find_char "?" (c :: r)) as [q|] eqn:Hq; simplify_eq.
  - apply find_char_split in Hq as (_ & _ & Hq). auto with gust.
  - apply find_char_None in Hq. by apply absent_cons in Hq as [_ ?].
Qed.

Lemma insert_pair_ok q pair :
  absent "&" pair ->
  (forall k v, q !! k = Some v -> absent "=" k /\ absent "&" k /\ absent "&" v) ->
  forall k v, insert_pair q pair !! k = Some v ->
    absent "=" k /\ absent "&" k /\ absent "&" v.
Proof.
  intros Hp Hq k v H. unfold insert_pair in H.
  destruct (find_char "=" pair) as [i|] eqn:Hi;
    apply lookup_insert_Some in H as [[<- <-]|[_ H]]; eauto.
  - apply find_char_split in Hi as (_ & _ & Hi). auto with gust.
  - apply find_char_None in Hi. split_and!; [done..|constructor].
Qed.

Lemma parse_query_ok qs k v :
  parse_query qs !! k = Some v -> absent "=" k /\ absent "&" k /\ absent "&" v.
Proof.
  unfold parse_query. revert k v.
  pose proof (split_char_pieces "&" qs) as Hall.
  assert (Hf : Forall (absent "&") (List.filter (fun p => negb (bool_decide (p = [])))
    (split_char "&" qs))).
  { rewrite List.Forall_forall in Hall |- *. intros x [Hx _]%filter_In. auto. }
  revert Hf. generalize (List.filter (fun p : str => negb (bool_decide (p = [])))
    (split_char "&" qs)) as ps.
  assert (Hq : forall k v, (∅ : gmap str str) !! k = Some v ->
    absent "=" k /\ absent "&" k /\ absent "&" v) by done.
  revert Hq. generalize (∅ : gmap str str) as q.
  intros q Hq ps. revert q Hq.
  induction ps as [|p ps IH]; intros q Hq Hps; simpl; [done|].
  apply Forall_cons in Hps as [Hp Hps]. apply IH; [|done].
  by apply insert_pair_ok.
Qed.

Lemma parse_node_wf s n : parse_node s = Ok n -> node_ok n.
Proof.
  unfold parse_node. intros H. case_decide; [done|]. inv_ok.
  case_decide as Hs; [done|].
  match type of H with context [split_path_query ?r] =>
    destruct (split_path_query r) as [path qs] eqn:Hp end.
  match type of H with context [split_userinfo ?a] => set (auth := a) in * end.
  assert (Ha : absent "/" auth /\ absent "?" auth).
  { subst auth. destruct (find_by _ _) as [i|] eqn:Hi; simpl.
    - apply find_by_Some in Hi as (c & _ & _ & _ & Hf).
      split; eapply Forall_impl; try exact Hf; simpl; intros ? ?%orb_false_iff; naive_solver.
    - apply find_by_None in Hi. rewrite take_ge by done.
      split; eapply Forall_impl; try exact Hi; simpl; intros ? ?%orb_false_iff; naive_solver. }
  destruct (split_userinfo auth) as [ui hp] eqn:Hu.
  assert (Hhp : absent "@" hp /\ absent "/" hp /\ absent "?" hp).
  { unfold split_userinfo in Hu. destruct (rfind_char "@" auth) as [i|] eqn:Hi; simplify_eq.
    - apply rfind_char_split in Hi as (_ & _ & Hi). destruct Ha. auto with gust.
    - apply rfind_char_None in Hi. naive_solver. }
  destruct (split_user_pass ui) as [u p] eqn:Hup.
  apply result_bind_ok in H as ([h po] & Hh & H). inv_ok. simplify_eq.
  apply parse_host_port_ok in Hh as [Hh Hpo].
  constructor; simpl; try done.
  - apply to_ascii_lowercase_idem.
  - intros p' ->. unfold split_user_pass in Hup.
    repeat (case_match; simplify_eq; try done).
  - apply Hh, Hhp.
  - split; apply Hh, Hhp.
  - apply trim_matches_unfenced_out.
  - apply trim_matches_absent. by eapply split_path_query_ok.
  - apply parse_query_ok.
Qed.

(** C32: every node [parse_node] accepts has a non-empty lower-case scheme, a
    16-bit port, a password only with a user, a host free of '@', '/' and '?',
    a target free of '?' and of surrounding slashes, and query keys and values
    free of the separators. *)
Theorem parse_node_ok s n : parse_node s = Ok n -> node_ok n.
Proof. apply parse_node_wf. Qed.

(** The destinations of a node are its comma-separated target list, in
    order, with white space around entries and empty entries dropped: a list
    of trimmed non-empty names joined with commas comes back as it was. *)
Lemma targets_join n ts :
  target n = join_char "," ts -> ts <> [] ->
  Forall (fun t => t <> [] /\ absent "," t /\ trimmed t) ts ->
  targets n = ts.
Proof.
  intros Hj Hne Hts. unfold targets. rewrite Hj, split_char_join; [|done|].
  - assert (Ht : trim <$> ts = ts).
    { clear -Hts. induction Hts as [|t ts (_ & _ & Ht) _ IH]; [done|].
      by rewrite fmap_cons, IH, trim_trimmed. }
    rewrite Ht. apply filter_all. eapply Forall_impl; [exact Hts|].
    intros t (Ht0 & _ & _). by rewrite bool_decide_eq_false_2.
  - eapply Forall_impl; [exact Hts|]. naive_solver.
Qed.

Lemma targets_nonempty n t : t ∈ targets n -> t <> [].
Proof.
  unfold targets. rewrite list_elem_of_In, filter_In. intros [_ H] ->. done.
Qed.

(** ** Witnesses *)

Definition example_node : Node :=
  MkNode "socks5" (Some ("u:x" : str)) (Some ("p@ss%/?" : str)) "2001:db8::1" (Some 1080)
    "a.example:1,b.example:2" {[ ("nodelay" : str) := ("true" : str) ]}.

Lemma example_node_wf : wf_node example_node.
Proof.
  constructor.
  - done.
  - vm_compute. reflexivity.
  - by_decision.
  - by intros u [= <-].
  - intros p [= <-]. split; [done|]. by eexists.
  - constructor; [by_decision..|reflexivity].
  - intros p [= <-]. unfold fits. lia.
  - apply absent_unfenced. by_decision.
  - by_decision.
  - intros k v. unfold example_node. cbn [query]. rewrite lookup_singleton_Some.
    intros [<- <-]. split_and!; by_decision.
  - vm_compute. done.
Qed.

Lemma parse_node_render_witness :
  parse_node "socks5://u%3ax:p@ss%25%2f%3f@[2001:db8::1]:1080/a.example:1,b.example:2?nodelay=true"
  = Ok example_node.
Proof. apply (parse_node_render example_node example_node_wf). Defined.

Lemma parse_node_ok_witness :
  exists n, parse_node "tcp://:8080/1.2.3.4:9090" = Ok n /\ node_ok n.
Proof. eexists. split; [|apply (parse_node_ok "tcp://:8080/1.2.3.4:9090")]; reflexivity. Defined.

