(* ===== verification/Config.v ===== *)
(** * src/config.rs: the validated configuration

    [build_config] turns [RawArgs] into a [Config] or an error message.  The
    source unwraps a port with [expect]; a panic is [None], so the result type
    is an option of a [Result], and [build_config_no_panic] discharges it. *)

From S2P Require Import Prelude Str Io Netopt Cli Node.

Inductive Protocol := Tcp | Udp.

#[global] Instance Protocol_eq_dec : EqDecision Protocol.
Proof. solve_decision. Defined.

(** [Protocol::as_str] *)
Definition as_str (p : Protocol) : str := match p with Tcp => "tcp" | Udp => "udp" end.

Record ListenerSpec := MkListener {
  proto : Protocol;
  bind_addr : str;
  listen_port : Z;
  targets : list str;
  l_nodelay : bool;
  name : str;
}.

Record ChainHop := MkHop { addr : str; hop_user : option str; hop_pass : option str }.

Inductive Mode := Userspace | Nat.

#[global] Instance Mode_eq_dec : EqDecision Mode.
Proof. solve_decision. Defined.

Record Config := MkConfig {
  listeners : list ListenerSpec;
  chain : list ChainHop;
  mode : Mode;
  mark : option Z;
  set_ip_forward : bool;
  buf_size : Z;
  heartbeat : Z;
  debug : bool;
  worker_threads : option Z;
  sock : SockOpts;
}.

Definition MIN_BUF_KB : Z := 1.
Definition MAX_BUF_KB : Z := 1024.

Definition validate_hostport (s : str) : result unit str :=
  let? (host, port) :=
    match strip_prefix "[" s with
    | Some rest =>
        let? close := ok_or (find_char "]" rest) ("unterminated IPv6 bracket" : str) in
        let? port := ok_or (strip_prefix ":" (drop (S close) rest))
          ("missing :port after IPv6 literal" : str) in
        Ok (take close rest, port)
    | None =>
        let? c := ok_or (rfind_char ":" s) ("missing :port" : str) in
        Ok (take c s, drop (S c) s)
    end in
  if decide (host = []) then Err "missing host"
  else
    let? _ := ok_or (parse_u16 port) ("invalid port `" ++ port ++ "`") in
    Ok tt.

(** [node.query.get("nodelay").map(...).unwrap_or(false)] *)
Definition query_nodelay (n : Node) : bool :=
  match (query n !! ("nodelay" : str) : option str) with
  | Some v => negb (bool_decide (v = "false")) && negb (bool_decide (v = "0"))
  | None => false
  end.

Definition listener_name (p : Protocol) (n : Node) (port : Z) : str :=
  if decide (host n = []) then as_str p ++ "://:" ++ show_dec port
  else as_str p ++ "://" ++ host n ++ ":" ++ show_dec port.

(** One round of the listener loop. *)
Definition listener_of (ls : str) : option (result ListenerSpec str) :=
  match parse_node ls with
  | Err e => Some (Err e)
  | Ok node =>
      let proto :=
        if decide (scheme node = "tcp") then Ok Tcp
        else if decide (scheme node = "udp") then Ok Udp
        else Err ("-L `" ++ ls ++ "`: unsupported scheme `" ++ scheme node ++
                  "` (only tcp:// and udp:// are supported)") in
      match proto with
      | Err e => Some (Err e)
      | Ok proto =>
          match bind_string node with
          | None => Some (Err ("-L `" ++ ls ++ "`: missing listen port"))
          | Some bind =>
              match port node with
              | None => None
              | Some port =>
                  let ts := Node.targets node in
                  Some (
                    if decide (ts = []) then
                      Err ("-L `" ++ ls ++ "`: forwarding requires a destination, e.g. " ++
                           as_str proto ++ "://:" ++ show_dec port ++ "/HOST:PORT")
                    else
                      let? _ := traverse (fun t =>
                        map_err (fun e => "-L `" ++ ls ++ "` target `" ++ t ++ "`: " ++ e)
                          (validate_hostport t)) ts in
                      Ok (MkListener proto bind port ts (query_nodelay node)
                            (listener_name proto node port)))
              end
          end
      end
  end.

(** One round of the chain loop. *)
Definition hop_of (fwd : str) : result ChainHop str :=
  let? node := parse_node fwd in
  if decide (scheme node <> "socks5") then
    Err ("-F `" ++ fwd ++ "`: only socks5:// hops are supported (got `" ++
         scheme node ++ "://`)")
  else
    let? a := ok_or (authority node) ("-F `" ++ fwd ++ "`: missing host:port") in
    let? _ := map_err (fun e => "-F `" ++ fwd ++ "`: " ++ e) (validate_hostport a) in
    Ok (MkHop a (user node) (pass node)).

(** A loop whose rounds may panic. *)
Fixpoint traverse_p {A B E} (f : A -> option (result B E)) (xs : list A) :
    option (result (list B) E) :=
  match xs with
  | [] => Some (Ok [])
  | x :: xs =>
      match f x with
      | None => None
      | Some (Err e) => Some (Err e)
      | Some (Ok y) =>
          match traverse_p f xs with
          | None => None
          | Some r => Some (let? ys := r in Ok (y :: ys))
          end
      end
  end.

Definition same_bind (a b : ListenerSpec) : bool :=
  bool_decide (proto a = proto b) && bool_decide (bind_addr a = bind_addr b).

(** The double loop [i < j]: the first pair with the same protocol and bind. *)
Fixpoint find_dup (ls : list ListenerSpec) : option (ListenerSpec * ListenerSpec) :=
  match ls with
  | [] => None
  | l :: ls =>
      match List.find (same_bind l) ls with
      | Some l' => Some (l, l')
      | None => find_dup ls
      end
  end.

Definition is_udp (l : ListenerSpec) : bool := bool_decide (proto l = Udp).

(** The checks across rules and on the scalars, once the rules are parsed. *)
Definition cross_checks (raw : RawArgs) (ls : list ListenerSpec) (hops : list ChainHop) :
    result unit str :=
  if nat_flag raw && negb (bool_decide (length hops = 0%nat)) then
    Err "--nat cannot be combined with -F: kernel DNAT cannot speak SOCKS5. Use a separate process for SOCKS5-chained listeners."
  else
  let? _ := match (if bool_decide (length hops = 0%nat) then None else List.find is_udp ls) with
            | Some l =>
                Err ("UDP forwarding does not support SOCKS5 chaining (-F): listener `" ++
                     name l ++ "` is udp://. Remove -F or drop the udp:// listener.")
            | None => Ok tt
            end in
  match find_dup ls with
  | Some (a, b) =>
      Err ("duplicate listener: " ++ name a ++ " and " ++ name b ++ " both bind " ++
           bind_addr a ++ " on " ++ as_str (proto a))
  | None => Ok tt
  end.

Definition buf_kb (raw : RawArgs) : Z := default 32 (buf_size_kb raw).

Definition scalar_checks (raw : RawArgs) : result (option Z) str :=
  if negb ((MIN_BUF_KB <=? buf_kb raw) && (buf_kb raw <=? MAX_BUF_KB)) then
    Err ("--buf-size-kb must be between " ++ show_dec MIN_BUF_KB ++ " and " ++
         show_dec MAX_BUF_KB ++ " (got " ++ show_dec (buf_kb raw) ++ ")")
  else
  let? mark := match Cli.mark raw with
               | Some m => if m <? 0 then
                   Err ("-M mark must be non-negative (got " ++ show_int m ++ ")")
                 else Ok (Some (wrap 32 m))
               | None => Ok None
               end in
  if decide (Cli.worker_threads raw = Some 0) then Err "--worker-threads must be >= 1"
  else Ok mark.

Definition build_config (raw : RawArgs) : option (result Config str) :=
  if decide (listens raw = []) then
    Some (Err ("no listeners: at least one -L is required " ++
               "(e.g. -L=tcp://:8080/1.2.3.4:9090)"))
  else
  match traverse_p listener_of (listens raw) with
  | None => None
  | Some r => Some (
      let? ls := r in
      let? hops := traverse hop_of (forwards raw) in
      let? _ := cross_checks raw ls hops in
      let? mark := scalar_checks raw in
      Ok (MkConfig ls hops (if nat_flag raw then Nat else Userspace) mark
            (Cli.set_ip_forward raw) (wrap 64 (buf_kb raw * 1024))
            (default 60 (heartbeat_secs raw)) (Cli.debug raw) (Cli.worker_threads raw)
            (MkSockOpts (default true (Cli.nodelay raw)) (so_rcvbuf raw) (so_sndbuf raw))))
  end.

(** ** Validation agrees with the splitter used when dialing *)

Lemma validate_split s :
  validate_hostport s = Ok tt <-> exists h p, split_host_port s = Ok (h, p).
Proof.
  unfold validate_hostport, split_host_port.
  assert (Hcut : forall h p, parse_u16 p = None \/ h = [] \/
    exists n, parse_u16 p = Some n /\ h <> []) by
    (intros h p; destruct (parse_u16 p); destruct h; naive_solver).
  destruct (strip_prefix "[" s) as [rest|].
  - destruct (find_char "]" rest) as [i|]; simpl; [|naive_solver].
    destruct (strip_prefix ":" _) as [p|]; simpl; [|naive_solver].
    destruct (parse_u16 p); simpl; repeat case_decide; naive_solver.
  - destruct (rfind_char ":" s) as [c|]; simpl; [|naive_solver].
    destruct (parse_u16 _); simpl; repeat case_decide; naive_solver.
Qed.

(** C34: the two hand-written [host:port] parsers agree: validation at startup
    accepts a string exactly when the splitter used at dial time does, so an
    address that was accepted never fails to split later. *)
Theorem validate_hostport_iff_split s :
  is_ok (validate_hostport s) = is_ok (split_host_port s).
Proof.
  destruct (validate_hostport s) as [[]|e] eqn:Hv.
  - apply validate_split in Hv as (h & p & ->). done.
  - destruct (split_host_port s) as [[h p]|] eqn:Hs; [|done].
    assert (validate_hostport s = Ok tt) by (apply validate_split; eauto). congruence.
Qed.

(** ** What the configuration is, declaratively *)

(** Listener [l] is what the rule [ls] asks for. *)
Definition listener_spec (ls : str) (l : ListenerSpec) : Prop :=
  exists n,
    parse_node ls = Ok n /\ scheme n = as_str (proto l) /\
    port n = Some (listen_port l) /\
    bind_addr l = (if decide (host n = []) then "0.0.0.0" else host n) ++ ":" ++
                  show_dec (listen_port l) /\
    targets l = Node.targets n /\ targets l <> [] /\
    Forall (fun t => exists h p, split_host_port t = Ok (h, p)) (targets l) /\
    l_nodelay l = query_nodelay n /\ name l = listener_name (proto l) n (listen_port l).

Definition hop_spec (fwd : str) (h : ChainHop) : Prop :=
  exists n p,
    parse_node fwd = Ok n /\ scheme n = "socks5" /\ port n = Some p /\
    addr h = host n ++ ":" ++ show_dec p /\
    (exists hh pp, split_host_port (addr h) = Ok (hh, pp)) /\
    hop_user h = user n /\ hop_pass h = pass n.

Definition bind_key (l : ListenerSpec) : Protocol * str := (proto l, bind_addr l).

(** The configuration [cfg] of the flags [raw], and when there is one. *)
Record config_spec (raw : RawArgs) (cfg : Config) : Prop := {
  cs_listeners : Forall2 listener_spec (listens raw) (listeners cfg);
  cs_some : listens raw <> [];
  cs_chain : Forall2 hop_spec (forwards raw) (chain cfg);
  cs_mode : mode cfg = if nat_flag raw then Nat else Userspace;
  cs_nat : nat_flag raw = true -> chain cfg = [];
  cs_udp : chain cfg <> [] -> Forall (fun l => proto l = Tcp) (listeners cfg);
  cs_dup : NoDup (bind_key <$> listeners cfg);
  cs_buf_range : 1 <= buf_kb raw <= 1024;
  cs_buf : buf_size cfg = buf_kb raw * 1024;
  cs_mark : match Cli.mark raw with
            | Some m => 0 <= m /\ mark cfg = Some (m mod 2 ^ 32)
            | None => mark cfg = None
            end;
  cs_workers : Cli.worker_threads raw <> Some 0;
  cs_rest : set_ip_forward cfg = Cli.set_ip_forward raw /\
            heartbeat cfg = default 60 (heartbeat_secs raw) /\
            debug cfg = Cli.debug raw /\ worker_threads cfg = Cli.worker_threads raw /\
            sock cfg = MkSockOpts (default true (Cli.nodelay raw)) (so_rcvbuf raw) (so_sndbuf raw);
}.

Lemma traverse_unit {A E} (f : A -> result unit E) xs :
  (exists us, traverse f xs = Ok us) <-> Forall (fun x => f x = Ok tt) xs.
Proof.
  setoid_rewrite traverse_ok. split.
  - intros [us H]. induction H as [|x [] xs us Hx _ IH]; by constructor.
  - intros H. exists (replicate (length xs) tt).
    induction H; simpl; by constructor.
Qed.

Lemma bind_string_eq n p :
  port n = Some p ->
  bind_string n = Some ((if decide (host n = []) then "0.0.0.0" else host n) ++ ":" ++ show_dec p).
Proof. intros Hp. unfold bind_string. rewrite Hp. by case_decide. Qed.

Lemma targets_valid ls ts :
  (exists us, traverse (fun t => map_err (fun e => "-L `" ++ ls ++ "` target `" ++ t ++ "`: " ++ e)
     (validate_hostport t)) ts = Ok us) <->
  Forall (fun t => exists h p, split_host_port t = Ok (h, p)) ts.
Proof.
  rewrite traverse_unit. split; intros H; (eapply Forall_impl; [exact H|]); simpl; intros t Ht.
  - apply map_err_ok in Ht. by apply validate_split.
  - apply map_err_ok. by apply validate_split.
Qed.

Lemma listener_of_total ls : listener_of ls <> None.
Proof.
  unfold listener_of, bind_string. destruct (parse_node ls) as [n|]; [|done].
  repeat case_decide; destruct (port n); simpl; repeat case_decide; done.
Qed.

Lemma listener_of_ok ls l : listener_of ls = Some (Ok l) <-> listener_spec ls l.
Proof.
  unfold listener_of, listener_spec. split.
  - destruct (parse_node ls) as [n|] eqn:Hn; [|done]. intros H. exists n.
    destruct (port n) as [p|] eqn:Hp;
      [|by unfold bind_string in H; rewrite Hp in H; repeat case_decide].
    rewrite (bind_string_eq n p Hp) in H.
    repeat case_decide; try done; injection H as H; inv_ok;
      match goal with Hok : traverse _ _ = Ok _ |- _ =>
        pose proof (proj1 (targets_valid _ _) (ex_intro _ _ Hok)) end;
      simpl; split_and!; try done; by case_decide.
  - intros (n & -> & Hs & Hp & Hb & Ht & Hne & Hv & Hnd & Hname).
    rewrite (bind_string_eq n _ Hp), Hp, Hs. rewrite <- Ht, <- Hb, <- Hnd.
    apply (targets_valid ls) in Hv as [us Hv].
    assert (Hpr : (if decide (as_str (proto l) = "tcp") then Ok Tcp
      else if decide (as_str (proto l) = "udp") then Ok Udp
      else Err ("-L `" ++ ls ++ "`: unsupported scheme `" ++ as_str (proto l) ++
                "` (only tcp:// and udp:// are supported)")) = Ok (proto l))
      by (by destruct (proto l)).
    cbv zeta. rewrite Hpr. rewrite decide_False by done. rewrite Hv. simpl.
    rewrite <- Hname. by destruct l.
Qed.

Lemma hop_of_ok fwd h : hop_of fwd = Ok h <-> hop_spec fwd h.
Proof.
  unfold hop_of, hop_spec, authority. split.
  - intros H. inv_ok. case_decide as Hs; [done|]. inv_ok.
    match goal with H : _ <$> port _ = Some _ |- _ => apply fmap_Some in H as (p & Hp & ->) end.
    match goal with H : validate_hostport _ = Ok ?u |- _ =>
      destruct u; apply validate_split in H end.
    simpl. eauto 10.
  - intros (n & p & -> & Hs & Hp & Ha & Hv & Hu & Hpa). simpl.
    rewrite Hp. simpl. rewrite decide_False by (intros Hn; by apply Hn). simpl in Ha. rewrite <- Ha.
    apply validate_split in Hv. rewrite Hv. simpl. rewrite <- Hu, <- Hpa.
    by destruct h.
Qed.

Lemma traverse_p_ok {A B E} (f : A -> option (result B E)) xs ys :
  traverse_p f xs = Some (Ok ys) <-> Forall2 (fun x y => f x = Some (Ok y)) xs ys.
Proof.
  revert ys; induction xs as [|x xs IH]; intros ys; simpl.
  - split; [intros [= <-]; constructor|]. intros H. by inversion H.
  - split.
    + destruct (f x) as [[y|]|] eqn:Hx; [|done..].
      destruct (traverse_p f xs) as [r|]; [|done]. intros [= H]. inv_ok.
      constructor; [done|]. by apply IH.
    + intros H. inversion H as [|? y ? ys' Hy Hys]; subst. rewrite Hy.
      apply IH in Hys. by rewrite Hys.
Qed.

Lemma traverse_p_total {A B E} (f : A -> option (result B E)) xs :
  (forall x, f x <> None) -> traverse_p f xs <> None.
Proof.
  intros Hf. induction xs as [|x xs IH]; simpl; [done|].
  specialize (Hf x). destruct (f x) as [[|]|]; try done.
  by destruct (traverse_p f xs).
Qed.

Lemma find_dup_None ls : find_dup ls = None <-> NoDup (bind_key <$> ls).
Proof.
  induction ls as [|l ls IH]; simpl; [by split; [constructor|]|].
  rewrite NoDup_cons, <- IH.
  assert (Hf : List.find (same_bind l) ls = None <-> bind_key l ∉ bind_key <$> ls).
  { clear IH. induction ls as [|l' ls IH]; simpl; [by split; [intros _ ?%not_elem_of_nil|]|].
    rewrite not_elem_of_cons, <- IH. unfold same_bind at 1.
    destruct (bool_decide_reflect (proto l = proto l')) as [Hp|Hp];
      destruct (bool_decide_reflect (bind_addr l = bind_addr l')) as [Hb|Hb]; simpl.
    - split; [done|]. intros [Hne _]. destruct Hne. unfold bind_key. congruence.
    - split; [intros ?; split; [by intros [=]|done]|by intros [_ ?]].
    - split; [intros ?; split; [by intros [=]|done]|by intros [_ ?]].
    - split; [intros ?; split; [by intros [=]|done]|by intros [_ ?]]. }
  destruct (List.find (same_bind l) ls).
  - split; [done|]. intros [H%Hf _]. done.
  - split; [intros; split; [by apply Hf|done]|by intros [_ ?]].
Qed.

Lemma find_udp_None ls : List.find is_udp ls = None <-> Forall (fun l => proto l = Tcp) ls.
Proof.
  induction ls as [|l ls IH]; simpl; [done|]. rewrite Forall_cons, <- IH.
  unfold is_udp at 1. case_bool_decide as H.
  - split; [done|]. intros [? _]. congruence.
  - destruct (proto l); naive_solver.
Qed.

Lemma cross_checks_ok raw ls hops :
  cross_checks raw ls hops = Ok tt <->
  (nat_flag raw = true -> hops = []) /\
  (hops <> [] -> Forall (fun l => proto l = Tcp) ls) /\
  NoDup (bind_key <$> ls).
Proof.
  rewrite <- find_dup_None, <- find_udp_None. unfold cross_checks.
  assert (Hl : length hops = 0%nat <-> hops = []) by apply length_zero_iff_nil.
  destruct (nat_flag raw); case_bool_decide as Hh; simpl;
    repeat case_match; naive_solver.
Qed.

Lemma scalar_checks_ok raw m :
  scalar_checks raw = Ok m <->
  1 <= buf_kb raw <= 1024 /\ Cli.worker_threads raw <> Some 0 /\
  match Cli.mark raw with
  | Some n => 0 <= n /\ m = Some (n mod 2 ^ 32)
  | None => m = None
  end.
Proof.
  unfold scalar_checks, MIN_BUF_KB, MAX_BUF_KB, wrap.
  destruct (_ && _) eqn:Hb; simpl.
  - apply andb_true_iff in Hb as [H1%Z.leb_le H2%Z.leb_le].
    destruct (Cli.mark raw) as [n|]; simpl.
    + destruct (n <? 0) eqn:Hn; simpl; [naive_solver lia|].
      apply Z.ltb_ge in Hn. case_decide; naive_solver.
    + case_decide; naive_solver.
  - split; [done|]. intros [H _]. lia.
Qed.

Lemma build_config_total raw : build_config raw <> None.
Proof.
  unfold build_config. case_decide; [done|].
  pose proof (traverse_p_total listener_of (listens raw) listener_of_total).
  by destruct (traverse_p listener_of (listens raw)).
Qed.

Lemma build_config_spec_ok raw cfg :
  build_config raw = Some (Ok cfg) <-> config_spec raw cfg.
Proof.
  unfold build_config. split.
  - case_decide as Hne; [done|].
    destruct (traverse_p listener_of (listens raw)) as [r|] eqn:Hl; [|done].
    intros [= H]. inv_ok.
    match goal with H : cross_checks _ _ _ = Ok ?u |- _ =>
      destruct u; apply cross_checks_ok in H as (? & ? & ?) end.
    match goal with H : scalar_checks _ = Ok _ |- _ =>
      apply scalar_checks_ok in H as (Hb & ? & ?) end.
    apply traverse_p_ok in Hl.
    constructor; simpl; try done.
    + eapply Forall2_impl; [exact Hl|]. intros. by apply listener_of_ok.
    + match goal with H : traverse _ _ = Ok _ |- _ => apply traverse_ok in H as Hc end.
      eapply Forall2_impl; [exact Hc|]. intros. by apply hop_of_ok.
    + apply wrap_small. unfold fits. lia.
  - intros [Hls Hne Hch Hm Hnat Hudp Hdup Hbr Hb Hmk Hw (H1 & H2 & H3 & H4 & H5)].
    rewrite decide_False by done.
    assert (Hl : traverse_p listener_of (listens raw) = Some (Ok (listeners cfg))).
    { apply traverse_p_ok. eapply Forall2_impl; [exact Hls|]. intros. by apply listener_of_ok. }
    assert (Hc : traverse hop_of (forwards raw) = Ok (chain cfg)).
    { apply traverse_ok. eapply Forall2_impl; [exact Hch|]. intros. by apply hop_of_ok. }
    rewrite Hl. simpl. rewrite Hc. simpl.
    rewrite (proj2 (cross_checks_ok raw (listeners cfg) (chain cfg))) by done. simpl.
    rewrite (proj2 (scalar_checks_ok raw (mark cfg))); cycle 1.
    { split_and!; [lia..|done|]. destruct (Cli.mark raw); done. }
    simpl. rewrite wrap_small by (unfold fits; lia). rewrite <- Hm, <- Hb.
    rewrite <- H1, <- H2, <- H3, <- H4, <- H5. by destruct cfg.
Qed.

(** C3: [build_config] is exactly the declarative [config_spec]: a command
    line is accepted with configuration [cfg] if and only if every rule
    parses, names a supported scheme, has a port and valid destinations, the
    cross-rule conditions hold (no [-F] with [--nat], no [-F] with UDP, no two
    listeners with the same protocol and bind address), the scalars are in
    range, and [cfg] is what the flags say. *)
Theorem build_config_refines raw cfg :
  build_config raw = Some (Ok cfg) <-> config_spec raw cfg.
Proof. apply build_config_spec_ok. Qed.

(** ** What the rest of the program may rely on *)

Definition splits (t : str) : Prop := exists h p, split_host_port t = Ok (h, p).

Record listener_ok (l : ListenerSpec) : Prop := {
  lo_targets : targets l <> [];
  lo_split : Forall splits (targets l);
  lo_port : fits 16 (listen_port l);
}.

Record config_ok (cfg : Config) : Prop := {
  co_listeners : listeners cfg <> [];
  co_each : Forall listener_ok (listeners cfg);
  co_chain : Forall (fun h => splits (addr h)) (chain cfg);
  co_nat : mode cfg = Nat -> chain cfg = [];
  co_tcp : chain cfg <> [] -> Forall (fun l => proto l = Tcp) (listeners cfg);
  co_unique : NoDup (bind_key <$> listeners cfg);
  co_buf : 1024 <= buf_size cfg <= 1024 * 1024;
  co_mark : forall m, mark cfg = Some m -> fits 32 m;
  co_workers : worker_threads cfg <> Some 0;
}.

Lemma listener_spec_ok ls l : listener_spec ls l -> listener_ok l.
Proof.
  intros (n & Hn & _ & Hp & _ & _ & Hne & Hv & _). constructor; [done..|].
  by eapply ok_port; [eapply parse_node_wf|].
Qed.

Lemma Forall2_right {A B} (P : A -> B -> Prop) (Q : B -> Prop) xs ys :
  Forall2 P xs ys -> (forall x y, P x y -> Q y) -> Forall Q ys.
Proof. induction 1; constructor; eauto. Qed.

Lemma config_spec_ok raw cfg : config_spec raw cfg -> config_ok cfg.
Proof.
  intros [Hls Hne Hch Hm Hnat Hudp Hdup Hbr Hb Hmk Hw (H1 & H2 & H3 & H4 & H5)].
  constructor.
  - intros E. rewrite E in Hls. by inversion Hls.
  - eapply Forall2_right; [exact Hls|]. apply listener_spec_ok.
  - eapply Forall2_right; [exact Hch|]. by intros ? ? (n & p & _ & _ & _ & _ & ? & _).
  - intros E. apply Hnat. rewrite Hm in E. by destruct (nat_flag raw).
  - done.
  - done.
  - rewrite Hb. lia.
  - intros m Em. destruct (Cli.mark raw); [|congruence]. destruct Hmk as [_ Hmk].
    rewrite Hmk in Em. injection Em as <-. unfold fits. apply Z.mod_pos_bound. lia.
  - by rewrite H4.
Qed.

(** Every configuration [build_config] accepts satisfies the invariant the
    runtime relies on: at least one listener; each with destinations, all of
    which split into host and port, and a 16-bit port; hops that split; no
    hops in NAT mode and only TCP listeners with hops; distinct bind
    addresses per protocol; a relay buffer of 1 KiB to 1 MiB; a 32-bit mark;
    at least one worker thread. *)
Lemma build_config_ok raw cfg : build_config raw = Some (Ok cfg) -> config_ok cfg.
Proof. intros H. apply build_config_spec_ok in H. by eapply config_spec_ok. Qed.

(** A host that came out of brackets is printed without them; the address
    still splits at its last colon. *)
Lemma parse_host_port_open hp h p :
  parse_host_port hp = Ok (h, p) -> strip_prefix "[" h <> None -> absent "]" h.
Proof.
  unfold parse_host_port. intros H Ho. case_decide; [by simplify_eq|].
  destruct (strip_prefix "[" hp) as [r|] eqn:Hb.
  - inv_ok. simplify_eq.
    match goal with H : find_char _ _ = Some _ |- _ => apply find_char_split in H as (_ & _ & ?) end.
    done.
  - destruct (rfind_char ":" hp) as [i|] eqn:Hr; inv_ok; simplify_eq.
    destruct hp as [|c hp]; [done|]. destruct i; [done|].
    cbn [strip_prefix take] in *. destruct (Ascii.eqb "[" c); done.
Qed.

Lemma parse_node_host_open s n :
  parse_node s = Ok n -> strip_prefix "[" (host n) <> None -> absent "]" (host n).
Proof.
  unfold parse_node. intros H. repeat case_decide; try done. inv_ok.
  repeat case_decide; try done. repeat (case_match; try done). inv_ok.
  match goal with H : parse_host_port _ = Ok ?x |- _ => destruct x as [h p]; 
    intros Ho; eapply parse_host_port_open in H end; inv_ok; simplify_eq; done.
Qed.

(** The address stored for a [-F] hop splits back into the host and the
    port that were written in the rule, also for a bracketed IPv6 host, whose
    brackets the stored address has lost. *)
Lemma hop_addr_splits fwd h :
  hop_of fwd = Ok h ->
  exists n p, parse_node fwd = Ok n /\ port n = Some p /\
    split_host_port (addr h) = Ok (host n, p).
Proof.
  intros (n & p & Hn & _ & Hp & Ha & (hh & pp & Hs) & _)%hop_of_ok.
  exists n, p. split_and!; [done..|].
  pose proof (parse_node_wf _ _ Hn) as Hok.
  assert (Hfit : fits 16 p) by (by eapply ok_port).
  assert (Hcut : absent "]" (show_dec p)) by (by apply show_dec_absent).
  destruct (strip_prefix "[" (host n)) as [r|] eqn:Ho.
  - exfalso. assert (Hc : absent "]" (host n)).
    { eapply parse_node_host_open; [done|]. by rewrite Ho. }
    apply strip_prefix_Some in Ho as Hh. rewrite Ha, Hh in Hs.
    unfold split_host_port in Hs. simpl in Hs.
    assert (Hf : find_char "]" (r ++ ":"%char :: show_dec p) = None).
    { apply find_char_None, absent_app. rewrite Hh in Hc.
      split; [by apply absent_cons in Hc as [_ ?]|]. by apply absent_cons. }
    by rewrite Hf in Hs.
  - rewrite Ha. apply split_host_port_plain; [|done|done].
    intros Hnil. rewrite Ha, Hnil in Hs. unfold split_host_port in Hs.
    simpl in Hs. assert (Hr : rfind_char ":" (":"%char :: show_dec p) = Some 0%nat)
      by (apply (rfind_char_app ":" []); by apply show_dec_absent).
    rewrite Hr in Hs. simpl in Hs. by inv_ok.
Qed.

(** ** Witnesses *)

Definition example_raw : RawArgs :=
  Cli.MkRawArgs ["tcp://:8080/1.2.3.4:9090"%string : str; "tcp://[::1]:81/h:1,[::2]:2"%string : str]
    ["socks5://u:p@[::1]:1080"%string : str] (Some 7) false false false
    None None (Some 2) None None None false false false.

Definition example_config : Config :=
  match build_config example_raw with
  | Some (Ok c) => c
  | _ => MkConfig [] [] Userspace None false 0 0 false None default_opts
  end.

(** A [-M] mark is an [i64] but stored as [m as u32]: the mark 2^32 is
    accepted and silently becomes the mark 0. *)
Lemma mark_truncated :
  exists cfg, build_config (set_mark (2 ^ 32) example_raw) = Some (Ok cfg) /\ mark cfg = Some 0.
Proof. eexists. split; vm_compute; reflexivity. Qed.
