(* ===== verification/Socks5.v ===== *)
(** * src/socks5.rs: the SOCKS5 client

    The client's negotiation, RFC 1929 authentication and CONNECT, as
    programs over one stream.  The server side is specified twice: by what
    bytes make the client succeed ([success_bytes]), and by a server that
    follows RFC 1928 and 1929 ([server_handler]). *)

From S2P Require Import Prelude Str Ip Io Netopt.

Definition VER : Z := 0x05.
Definition METHOD_NO_AUTH : Z := 0x00.
Definition METHOD_USER_PASS : Z := 0x02.
Definition METHOD_NONE : Z := 0xFF.
Definition CMD_CONNECT : Z := 0x01.
Definition ATYP_IPV4 : Z := 0x01.
Definition ATYP_DOMAIN : Z := 0x03.
Definition ATYP_IPV6 : Z := 0x04.
Definition AUTH_VER : Z := 0x01.

Definition proto_err (msg : str) : io_error := io_new InvalidData msg.

Definition reply_reason (rep : Z) : str :=
  if rep =? 0x01 then "general SOCKS server failure"
  else if rep =? 0x02 then "connection not allowed by ruleset"
  else if rep =? 0x03 then "network unreachable"
  else if rep =? 0x04 then "host unreachable"
  else if rep =? 0x05 then "connection refused"
  else if rep =? 0x06 then "TTL expired"
  else if rep =? 0x07 then "command not supported"
  else if rep =? 0x08 then "address type not supported"
  else "unknown SOCKS5 error".

Definition reply_err (rep : Z) : io_error :=
  io_other ("SOCKS5 CONNECT failed: " ++ reply_reason rep ++ " (" ++ show_dec rep ++ ")").

(** A byte of a fixed-size array that was read. *)
Definition at_ (bs : list Z) (i : nat) : Z := nth i bs 0.

(** [encode_addr]: the bytes it appends. *)
Definition encode_addr (host : str) : io_result (list Z) :=
  match parse_ipv4 host with
  | Some v4 => Ok (ATYP_IPV4 :: v4_octets v4)
  | None =>
      match parse_ipv6 host with
      | Some v6 => Ok (ATYP_IPV6 :: v6_octets v6)
      | None =>
          let b := as_bytes host in
          if (255 <? length b)%nat then
            Err (proto_err "destination hostname exceeds 255 bytes")
          else Ok (ATYP_DOMAIN :: wrap 8 (Z.of_nat (length b)) :: b)
      end
  end.

Definition user_pass_request (user pass : str) : list Z :=
  [AUTH_VER; wrap 8 (Z.of_nat (length user))] ++ as_bytes user ++
  [wrap 8 (Z.of_nat (length pass))] ++ as_bytes pass.

Definition user_pass_auth (stream : Fd) (user pass : str) : io (io_result unit) :=
  if (255 <? length user)%nat || (255 <? length pass)%nat then
    Ret (Err (proto_err "username or password exceeds 255 bytes"))
  else
    await? _ := call (WriteAll stream (user_pass_request user pass)) in
    await? resp := call (ReadExact stream 2) in
    if negb (at_ resp 1 =? 0x00) then
      Ret (Err (io_new PermissionDenied
        ("SOCKS5 username/password auth failed (status " ++ show_dec (at_ resp 1) ++ ")")))
    else Ret (Ok tt).

Definition methods (user : option str) : list Z :=
  match user with
  | Some _ => [METHOD_NO_AUTH; METHOD_USER_PASS]
  | None => [METHOD_NO_AUTH]
  end.

Definition negotiate_method (stream : Fd) (user pass : option str) : io (io_result unit) :=
  let ms := methods user in
  await? _ := call (WriteAll stream (VER :: wrap 8 (Z.of_nat (length ms)) :: ms)) in
  await? resp := call (ReadExact stream 2) in
  if negb (at_ resp 0 =? VER) then
    Ret (Err (proto_err ("bad SOCKS version in method reply: " ++ show_dec (at_ resp 0))))
  else
    let m := at_ resp 1 in
    if m =? METHOD_NO_AUTH then Ret (Ok tt)
    else if m =? METHOD_USER_PASS then
      match user with
      | None => Ret (Err (proto_err
          "server requires username/password auth but none was configured"))
      | Some u => user_pass_auth stream u (default [] pass)
      end
    else if m =? METHOD_NONE then
      Ret (Err (proto_err "server rejected all offered auth methods"))
    else Ret (Err (proto_err ("server selected unsupported method " ++ show_dec m))).

Definition send_connect (stream : Fd) (host : str) (port : Z) : io (io_result unit) :=
  await? dest := lift (encode_addr host) in
  await? _ := call (WriteAll stream ([VER; CMD_CONNECT; 0x00] ++ dest ++ be16 port)) in
  await? head := call (ReadExact stream 4) in
  if negb (at_ head 0 =? VER) then
    Ret (Err (proto_err ("bad SOCKS version in reply: " ++ show_dec (at_ head 0))))
  else if negb (at_ head 1 =? 0x00) then Ret (Err (reply_err (at_ head 1)))
  else
    let atyp := at_ head 3 in
    await? addr_len :=
      if atyp =? ATYP_IPV4 then Ret (Ok 4%nat)
      else if atyp =? ATYP_IPV6 then Ret (Ok 16%nat)
      else if atyp =? ATYP_DOMAIN then
        await? l := call (ReadExact stream 1) in Ret (Ok (Z.to_nat (at_ l 0)))
      else Ret (Err (proto_err ("unknown ATYP in reply: " ++ show_dec atyp))) in
    await? _ := call (ReadExact stream (addr_len + 2)) in
    Ret (Ok tt).

Definition connect (stream : Fd) (host : str) (port : Z) (user pass : option str) :
    io (io_result unit) :=
  await? _ := negotiate_method stream user pass in
  await? _ := send_connect stream host port in
  Ret (Ok tt).

(** ** The CONNECT request, as RFC 1928 reads it *)

Inductive Dest := DIpv4 (octets : list Z) | DIpv6 (octets : list Z) | DDomain (name : list Z).

(** Cut [n] bytes off the front. *)
Definition cut (n : nat) (bs : list Z) : option (list Z * list Z) :=
  if (n <=? length bs)%nat then Some (take n bs, drop n bs) else None.

Definition decode_dest (bs : list Z) : option (Dest * list Z) :=
  match bs with
  | t :: bs =>
      if t =? 1 then '(a, r) ← cut 4 bs; Some (DIpv4 a, r)
      else if t =? 4 then '(a, r) ← cut 16 bs; Some (DIpv6 a, r)
      else if t =? 3 then
        match bs with
        | l :: bs => '(a, r) ← cut (Z.to_nat l) bs; Some (DDomain a, r)
        | [] => None
        end
      else None
  | [] => None
  end.

Definition decode_request (bs : list Z) : option (Dest * Z * list Z) :=
  match bs with
  | v :: c :: z :: bs =>
      if (v =? 5) && (c =? 1) && (z =? 0) then
        '(d, r) ← decode_dest bs;
        match r with
        | hi :: lo :: r => Some (d, hi * 256 + lo, r)
        | _ => None
        end
      else None
  | _ => None
  end.

(** What the client means by a host: a literal, or a name for the proxy. *)
Definition dest_of (host : str) : Dest :=
  match parse_ipv4 host with
  | Some a => DIpv4 (v4_octets a)
  | None => match parse_ipv6 host with
            | Some a => DIpv6 (v6_octets a)
            | None => DDomain (as_bytes host)
            end
  end.

(** A host the request can carry. *)
Definition encodable (host : str) : Prop :=
  parse_ipv4 host <> None \/ parse_ipv6 host <> None \/ (length host <= 255)%nat.

Lemma cut_app a r : cut (length a) (a ++ r) = Some (a, r).
Proof.
  unfold cut. rewrite (proj2 (Nat.leb_le _ _)) by (rewrite length_app; lia).
  by rewrite take_app_length, drop_app_length.
Qed.

Lemma length_v6_octets a : wf_ipv6 a -> length (v6_octets a) = 16%nat.
Proof.
  intros [Hl _]. unfold v6_octets. destruct a as [segs]. simpl in *.
  do 8 (destruct segs as [|? segs]; [done|]). by destruct segs.
Qed.

Lemma encode_addr_decode host dest r :
  encode_addr host = Ok dest -> decode_dest (dest ++ r) = Some (dest_of host, r).
Proof.
  unfold encode_addr, dest_of. intros H.
  destruct (parse_ipv4 host) as [a|]; [injection H as <-|].
  { unfold decode_dest. cbn [app]. rewrite Z.eqb_refl.
    change 4%nat with (length (v4_octets a)). by rewrite cut_app. }
  destruct (parse_ipv6 host) as [a|] eqn:H6; [injection H as <-|].
  { apply parse_ipv6_wf, length_v6_octets in H6. unfold decode_dest. simpl.
    rewrite <- H6. by rewrite cut_app. }
  destruct (255 <? length (as_bytes host))%nat eqn:Hl; [done|].
  injection H as <-. apply Nat.ltb_ge in Hl. unfold decode_dest. simpl.
  rewrite wrap_small by (unfold fits; lia).
  rewrite Nat2Z.id. by rewrite cut_app.
Qed.

Lemma be16_value p : fits 16 p -> Z.shiftr p 8 * 256 + Z.land p 255 = p.
Proof.
  intros []. rewrite Z.shiftr_div_pow2 by lia.
  change 255 with (Z.ones 8). rewrite Z.land_ones by lia.
  pose proof (Z.div_mod p (2 ^ 8)). lia.
Qed.

Lemma encode_addr_ok host : encodable host -> exists dest, encode_addr host = Ok dest.
Proof.
  unfold encodable, encode_addr. intros H.
  destruct (parse_ipv4 host); [eauto|]. destruct (parse_ipv6 host); [eauto|].
  destruct H as [?|[?|H]]; [done..|].
  rewrite length_as_bytes, (proj2 (Nat.ltb_ge 255 _)) by lia. eauto.
Qed.

Lemma request_decodes host port dest rest :
  fits 16 port -> encode_addr host = Ok dest ->
  decode_request ([VER; CMD_CONNECT; 0x00] ++ dest ++ be16 port ++ rest)
  = Some (dest_of host, port, rest).
Proof.
  intros Hp He. cbn [app decode_request]. simpl.
  rewrite (encode_addr_decode host dest) by done. simpl. by rewrite be16_value.
Qed.

(** The CONNECT request the client writes is decoded by the RFC 1928
    grammar as exactly the destination and the port asked for (an IPv4 or IPv6
    literal by its octets, anything else as a domain of at most 255 bytes),
    with nothing left over; and a name that is too long is refused. *)
Lemma connect_request_decodes host port rest :
  fits 16 port ->
  match encode_addr host with
  | Ok dest =>
      decode_request ([VER; CMD_CONNECT; 0x00] ++ dest ++ be16 port ++ rest)
      = Some (dest_of host, port, rest)
  | Err e => ~ encodable host /\ err_kind e = InvalidData
  end.
Proof.
  intros Hp. destruct (encode_addr host) as [dest|e] eqn:He.
  - by apply request_decodes.
  - split.
    + intros Hc. apply encode_addr_ok in Hc as [d Hd]. congruence.
    + unfold encode_addr in He. repeat (case_match; try done). by simplify_eq.
Qed.

(** ** Success, byte by byte

    The peer as the bytes it will have sent ([rx]) and those it was sent
    ([tx]); a read past the end fails. *)

Record wire := MkWire { rx : list Z; tx : list Z }.

Definition eof : io_error := io_new UnexpectedEof "early eof".

Definition wire_handler : handler IoE wire :=
  with_stream
    (fun _ bs w => (Ok tt, MkWire (rx w) (tx w ++ bs)))
    (fun _ n w => match cut n (rx w) with
                  | Some (a, r) => (Ok a, MkWire r (tx w))
                  | None => (Err eof, MkWire [] (tx w))
                  end).

Lemma run_write {B} f bs (k : unit -> io (io_result B)) w :
  run wire_handler (bind_ok (call (WriteAll f bs)) k) w =
  run wire_handler (k tt) (MkWire (rx w) (tx w ++ bs)).
Proof. done. Qed.

Lemma run_read {B} f n (k : list Z -> io (io_result B)) w :
  run wire_handler (bind_ok (call (ReadExact f n)) k) w =
  match cut n (rx w) with
  | Some (a, r) => run wire_handler (k a) (MkWire r (tx w))
  | None => (Err eof, MkWire [] (tx w))
  end.
Proof. rewrite run_bind_ok. simpl. by destruct (cut n (rx w)) as [[a r]|]. Qed.

(** A method reply the client accepts: no authentication, or user/password
    when it has them, followed by the status 0. *)
Definition method_reply (user pass : option str) (bs : list Z) : Prop :=
  bs = [5; 0] \/
  exists u v, user = Some u /\ (length u <= 255)%nat /\
    (length (default [] pass) <= 255)%nat /\ bs = [5; 2; v; 0].

(** A success reply: VER, REP 0, RSV, ATYP, the bound address and port. *)
Definition connect_reply (bs : list Z) : Prop :=
  exists rsv a,
    (bs = [5; 0; rsv; 1] ++ a /\ length a = 6%nat) \/
    (bs = [5; 0; rsv; 4] ++ a /\ length a = 18%nat) \/
    (exists l, bs = [5; 0; rsv; 3; l] ++ a /\ length a = (Z.to_nat l + 2)%nat).

Definition success_bytes (user pass : option str) (bs : list Z) : Prop :=
  exists m r, bs = m ++ r /\ method_reply user pass m /\ connect_reply r.

Lemma cut_Some n bs a r : cut n bs = Some (a, r) <-> bs = a ++ r /\ length a = n.
Proof.
  split.
  - unfold cut. case_match eqn:H; [|done]. intros [= <- <-].
    apply Nat.leb_le in H. by rewrite take_drop, length_take_le.
  - intros [-> <-]. apply cut_app.
Qed.

Lemma negb_eqb_false a b : negb (a =? b) = false -> a = b.
Proof. lia. Qed.

(** Name the bytes of a list of known length. *)
Ltac name_bytes l :=
  let rec go l := lazymatch goal with
    | H : length l = 0%nat |- _ => apply length_zero_iff_nil in H; subst l
    | H : length l = S _ |- _ =>
        let b := fresh "b" in let t := fresh "t" in
        destruct l as [|b t]; [discriminate H|]; cbn [length] in H; injection H as H; go t
    end in go l.

Lemma negotiate_inv stream user pass w u w' :
  run wire_handler (negotiate_method stream user pass) w = (Ok u, w') ->
  exists m, rx w = m ++ rx w' /\ method_reply user pass m.
Proof.
  unfold negotiate_method. rewrite run_write, run_read. cbn [rx tx]. intros H.
  destruct (cut 2 (rx w)) as [[a r]|] eqn:Hc; [|done].
  apply cut_Some in Hc as [Hrx Hl]. name_bytes a. cbn [at_ nth] in H.
  destruct (negb (b =? VER)) eqn:Hv; [done|]. apply negb_eqb_false in Hv as ->.
  destruct (b0 =? METHOD_NO_AUTH) eqn:H0.
  { apply Z.eqb_eq in H0 as ->. cbn in H. simplify_eq. exists [5; 0]. by split; [|left]. }
  destruct (b0 =? METHOD_USER_PASS) eqn:H2; cycle 1.
  { by destruct (b0 =? METHOD_NONE). }
  apply Z.eqb_eq in H2 as ->. destruct user as [us|]; [|done].
  unfold user_pass_auth in H. destruct (_ || _) eqn:Hlen; [done|].
  apply orb_false_iff in Hlen as [Hu%Nat.ltb_ge Hp%Nat.ltb_ge].
  rewrite run_write, run_read in H. cbn [rx tx] in H.
  destruct (cut 2 r) as [[a r']|] eqn:Hc; [|done].
  apply cut_Some in Hc as [-> Hl]. name_bytes a. cbn [at_ nth] in H.
  destruct (negb (b0 =? 0)) eqn:Hs; [done|]. apply negb_eqb_false in Hs as ->.
  cbn in H. simplify_eq. exists [5; 2; b; 0]. split; [done|]. right. by exists us, b.
Qed.

Lemma negotiate_run stream user pass m r t :
  method_reply user pass m ->
  exists t', run wire_handler (negotiate_method stream user pass) (MkWire (m ++ r) t) =
    (Ok tt, MkWire r t').
Proof.
  intros [-> | (u & v & -> & Hu & Hp & ->)]; unfold negotiate_method; [by eexists|].
  rewrite run_write, run_read. cbn -[user_pass_auth]. unfold user_pass_auth.
  rewrite (proj2 (Nat.ltb_ge 255 _) Hu), (proj2 (Nat.ltb_ge 255 _) Hp). by eexists.
Qed.

Lemma send_connect_inv stream host port w u w' :
  run wire_handler (send_connect stream host port) w = (Ok u, w') ->
  exists r, rx w = r ++ rx w' /\ connect_reply r.
Proof.
  unfold send_connect. rewrite run_bind_ok. cbn [lift run].
  destruct (encode_addr host) as [dest|]; [|done].
  rewrite run_write, run_read. cbn [rx tx]. intros H.
  destruct (cut 4 (rx w)) as [[a r]|] eqn:Hc; [|done].
  apply cut_Some in Hc as [Hrx Hl]. name_bytes a. cbn [at_ nth] in H.
  destruct (negb (b =? VER)) eqn:Hv; [done|]. apply negb_eqb_false in Hv as ->.
  destruct (negb (b0 =? 0)) eqn:H0; [done|]. apply negb_eqb_false in H0 as ->.
  rewrite run_bind_ok in H.
  destruct (b2 =? ATYP_IPV4) eqn:H4.
  { apply Z.eqb_eq in H4 as ->. cbn [run] in H. rewrite run_read in H. cbn [rx tx] in H.
    destruct (cut _ r) as [[a r']|] eqn:Hc; [|done]. apply cut_Some in Hc as [-> Hl].
    cbn in H. simplify_eq. exists ([5; 0; b1; 1] ++ a). split; [done|]. exists b1, a. auto. }
  destruct (b2 =? ATYP_IPV6) eqn:H6.
  { apply Z.eqb_eq in H6 as ->. cbn [run] in H. rewrite run_read in H. cbn [rx tx] in H.
    destruct (cut _ r) as [[a r']|] eqn:Hc; [|done]. apply cut_Some in Hc as [-> Hl].
    cbn in H. simplify_eq. exists ([5; 0; b1; 4] ++ a). split; [done|]. exists b1, a. auto. }
  destruct (b2 =? ATYP_DOMAIN) eqn:Hd; [|done]. apply Z.eqb_eq in Hd as ->.
  rewrite run_read in H. cbn [rx tx] in H.
  destruct (cut 1 r) as [[l r0]|] eqn:Hc; [|done]. apply cut_Some in Hc as [-> Hl].
  name_bytes l. cbn [run at_ nth] in H. rewrite run_read in H. cbn [rx tx] in H.
  destruct (cut _ r0) as [[a r']|] eqn:Hc; [|done]. apply cut_Some in Hc as [-> Hl].
  cbn in H. simplify_eq. exists ([5; 0; b1; 3; b] ++ a). split; [done|].
  exists b1, a. eauto.
Qed.

Lemma run_read_app {B} f n a r t (k : list Z -> io (io_result B)) :
  length a = n ->
  run wire_handler (bind_ok (call (ReadExact f n)) k) (MkWire (a ++ r) t) =
  run wire_handler (k a) (MkWire r t).
Proof. intros <-. rewrite run_read. cbn [rx tx]. by rewrite cut_app. Qed.

Lemma send_connect_run stream host port bs r t :
  encodable host -> connect_reply bs ->
  exists t', run wire_handler (send_connect stream host port) (MkWire (bs ++ r) t) =
    (Ok tt, MkWire r t').
Proof.
  intros Henc (rsv & a & Hbs). apply encode_addr_ok in Henc as [dest Hd].
  unfold send_connect. rewrite run_bind_ok. cbn [lift run]. rewrite Hd, run_write.
  cbn [rx tx]. destruct Hbs as [[-> Hl]|[[-> Hl]|(l & -> & Hl)]]; rewrite <- app_assoc.
  - rewrite run_read_app by done. cbn [at_ nth negb Z.eqb Pos.eqb VER ATYP_IPV4 ATYP_IPV6 ATYP_DOMAIN].
    rewrite run_bind_ok. cbn [run]. rewrite run_read_app by done. by eexists.
  - rewrite run_read_app by done. cbn [at_ nth negb Z.eqb Pos.eqb VER ATYP_IPV4 ATYP_IPV6 ATYP_DOMAIN].
    rewrite run_bind_ok. cbn [run]. rewrite run_read_app by done. by eexists.
  - change ([5; 0; rsv; 3; l] ++ a ++ r) with ([5; 0; rsv; 3] ++ [l] ++ a ++ r).
    rewrite run_read_app by done. cbn [at_ nth negb Z.eqb Pos.eqb VER ATYP_IPV4 ATYP_IPV6 ATYP_DOMAIN].
    rewrite run_bind_ok, run_read_app by done. cbn [run]. rewrite run_read_app by done. by eexists.
Qed.

(** C20: whatever the server sends, the client reports success exactly when the
    bytes start with an accepted method reply (and authentication status 0
    when user/password was selected) and a CONNECT success reply, and it
    consumes exactly those: every byte after the reply is left in the stream
    for the relay. *)
Theorem connect_succeeds_iff stream host port user pass input rest :
  encodable host ->
  (exists t, run wire_handler (connect stream host port user pass) (MkWire input []) =
     (Ok tt, MkWire rest t)) <->
  exists bs, input = bs ++ rest /\ success_bytes user pass bs.
Proof.
  intros Henc. unfold connect. rewrite run_bind_ok. split.
  - intros (t & H).
    destruct (run wire_handler (negotiate_method _ _ _) _) as [[u|] w1] eqn:Hn; [|done].
    apply negotiate_inv in Hn as (m & Hm & Hok). rewrite run_bind_ok in H.
    destruct (run wire_handler (send_connect _ _ _) _) as [[u'|] w2] eqn:Hs; [|done].
    apply send_connect_inv in Hs as (r & Hr & Hok'). cbn in H. simplify_eq/=.
    exists (m ++ r). split; [rewrite <- app_assoc; congruence|]. by exists m, r.
  - intros (bs & -> & m & r & -> & Hm & Hr). rewrite <- app_assoc.
    destruct (negotiate_run stream user pass m (r ++ rest) [] Hm) as [t1 ->].
    rewrite run_bind_ok.
    destruct (send_connect_run stream host port r rest t1 Henc Hr) as [t2 ->].
    by exists t2.
Qed.

Lemma connect_succeeds_iff_witness :
  exists t, run wire_handler (connect 3 "host.example" 443 (Some ("u" : str)) (Some ("p" : str)))
    (MkWire ([5; 2; 1; 0; 5; 0; 0; 1; 0; 0; 0; 0; 0; 0] ++ [72; 73]) []) =
    (Ok tt, MkWire [72; 73] t).
Proof.
  apply (connect_succeeds_iff 3 "host.example" 443 (Some ("u" : str)) (Some ("p" : str))).
  - right. right. by_decision.
  - eexists. split; [reflexivity|]. exists [5; 2; 1; 0], [5; 0; 0; 1; 0; 0; 0; 0; 0; 0].
    split; [done|]. split.
    + right. exists "u", 1. repeat split; by_decision.
    + exists 0, [0; 0; 0; 0; 0; 0]. by left.
Defined.

(** ** Against a server that follows the RFCs *)

Record ServerCfg := MkServer {
  creds : option (list Z * list Z);  (** required user and password *)
  rep : Z;                           (** the reply code to CONNECT *)
  bound : list Z;                    (** ATYP, BND.ADDR, BND.PORT *)
  app : list Z;                      (** what the destination says first *)
}.

Inductive Phase := PGreeting | PAuth | PRequest | PRelay (d : Dest) (port : Z) | PClosed.

(** Received and not yet consumed; sent and not yet read by the client. *)
Record Srv := MkSrv { phase : Phase; inbuf : list Z; outbuf : list Z }.

Definition decode_greeting (bs : list Z) : option (list Z * list Z) :=
  match bs with
  | v :: n :: bs => if v =? 5 then cut (Z.to_nat n) bs else None
  | _ => None
  end.

Definition decode_auth (bs : list Z) : option (list Z * list Z * list Z) :=
  match bs with
  | v :: n :: bs =>
      if v =? 1 then
        '(u, r) ← cut (Z.to_nat n) bs;
        match r with
        | m :: r => '(p, r) ← cut (Z.to_nat m) r; Some (u, p, r)
        | [] => None
        end
      else None
  | _ => None
  end.

(** The server consumes one message when it is complete, and answers. *)
Definition srv_recv (cfg : ServerCfg) (s : Srv) : Srv :=
  match phase s with
  | PGreeting =>
      match decode_greeting (inbuf s) with
      | Some (ms, r) =>
          let want := match creds cfg with None => METHOD_NO_AUTH | Some _ => METHOD_USER_PASS end in
          if bool_decide (want ∈ ms) then
            MkSrv (match creds cfg with None => PRequest | Some _ => PAuth end) r
              (outbuf s ++ [5; want])
          else MkSrv PClosed r (outbuf s ++ [5; METHOD_NONE])
      | None => s
      end
  | PAuth =>
      match decode_auth (inbuf s) with
      | Some (u, p, r) =>
          if bool_decide (creds cfg = Some (u, p)) then MkSrv PRequest r (outbuf s ++ [1; 0])
          else MkSrv PClosed r (outbuf s ++ [1; 1])
      | None => s
      end
  | PRequest =>
      match decode_request (inbuf s) with
      | Some (d, port, r) =>
          if rep cfg =? 0 then
            MkSrv (PRelay d port) r (outbuf s ++ [5; 0; 0] ++ bound cfg ++ app cfg)
          else MkSrv PClosed r (outbuf s ++ [5; rep cfg; 0] ++ bound cfg)
      | None => s
      end
  | PRelay _ _ | PClosed => s
  end.

(** What the client's theorems need of a system that connects it to a server:
    unless the server already relays, a write reaches it and a read takes what
    it sent.  [inj] places the server's state in the system's. *)
Class ServerPeer {S} (h : handler IoE S) (cfg : ServerCfg) (inj : Srv -> S) : Prop := {
  peer_write f bs ph ib ob :
    (forall d p, ph <> PRelay d p) ->
    h _ (WriteAll f bs) (inj (MkSrv ph ib ob)) =
    (Ok tt, inj (srv_recv cfg (MkSrv ph (ib ++ bs) ob)));
  peer_read f n a r ph ib :
    length a = n ->
    h _ (ReadExact f n) (inj (MkSrv ph ib (a ++ r))) = (Ok a, inj (MkSrv ph ib r));
}.

(** One server, nothing else. *)
Definition server_handler (cfg : ServerCfg) : handler IoE Srv :=
  with_stream
    (fun _ bs s => (Ok tt, srv_recv cfg (MkSrv (phase s) (inbuf s ++ bs) (outbuf s))))
    (fun _ n s => match cut n (outbuf s) with
                  | Some (a, r) => (Ok a, MkSrv (phase s) (inbuf s) r)
                  | None => (Err eof, MkSrv (phase s) (inbuf s) [])
                  end).

#[global] Instance server_peer cfg : ServerPeer (server_handler cfg) cfg id.
Proof.
  constructor; [done|]. intros f n a r ph ib <-. unfold id. cbn -[cut].
  by rewrite cut_app.
Qed.

Lemma cut_as_bytes s r : cut (length s) (as_bytes s ++ r) = Some (as_bytes s, r).
Proof. rewrite <- (length_as_bytes s). apply cut_app. Qed.

Lemma decode_auth_request u p :
  (length u <= 255)%nat -> (length p <= 255)%nat ->
  decode_auth (user_pass_request u p) = Some (as_bytes u, as_bytes p, []).
Proof.
  intros Hu Hp. unfold decode_auth, user_pass_request. cbn [Datatypes.app].
  rewrite !wrap_small by (unfold fits; lia). cbn [Z.eqb AUTH_VER Pos.eqb].
  rewrite !Nat2Z.id, cut_as_bytes. simpl. rewrite ?Nat2Z.id.
  rewrite <- (app_nil_r (as_bytes p)) at 1. by rewrite cut_as_bytes.
Qed.

(** What the negotiation comes to, given what the server wants. *)
Definition negotiated (cfg : ServerCfg) (user pass : option str) : io_result unit :=
  match creds cfg, user with
  | None, _ => Ok tt
  | Some _, None => Err (proto_err "server rejected all offered auth methods")
  | Some c, Some u =>
      if bool_decide (c = (as_bytes u, as_bytes (default [] pass))) then Ok tt
      else Err (io_new PermissionDenied "SOCKS5 username/password auth failed (status 1)")
  end.

Definition short_creds (user pass : option str) : Prop :=
  (length (default [] user) <= 255)%nat /\ (length (default [] pass) <= 255)%nat.

Section peer.
Context {S : Type} (h : handler IoE S) (cfg : ServerCfg) (inj : Srv -> S)
  {Hpeer : ServerPeer h cfg inj}.

Lemma srv_write {B} f bs (k : unit -> io (io_result B)) ph ib ob :
  (forall d p, ph <> PRelay d p) ->
  run h (bind_ok (call (WriteAll f bs)) k) (inj (MkSrv ph ib ob)) =
  run h (k tt) (inj (srv_recv cfg (MkSrv ph (ib ++ bs) ob))).
Proof. intros Hph. rewrite run_bind_ok. cbn [run call]. by rewrite peer_write. Qed.

Lemma srv_read {B} f n a r out ph ib (k : list Z -> io (io_result B)) :
  out = a ++ r -> length a = n ->
  run h (bind_ok (call (ReadExact f n)) k) (inj (MkSrv ph ib out)) =
  run h (k a) (inj (MkSrv ph ib r)).
Proof. intros -> Hn. rewrite run_bind_ok. cbn [run call]. by rewrite peer_read. Qed.

Lemma srv_greeting user :
  let ms := methods user in
  srv_recv cfg (MkSrv PGreeting (VER :: wrap 8 (Z.of_nat (length ms)) :: ms) []) =
  match creds cfg, user with
  | None, _ => MkSrv PRequest [] [5; 0]
  | Some _, Some _ => MkSrv PAuth [] [5; 2]
  | Some _, None => MkSrv PClosed [] [5; 255]
  end.
Proof. unfold srv_recv. by destruct (creds cfg), user. Qed.

Ltac read_reply a :=
  erewrite (srv_read _ _ a []) by reflexivity;
  cbn [at_ nth negb Z.eqb Pos.eqb VER METHOD_NO_AUTH METHOD_USER_PASS METHOD_NONE].

Lemma negotiate_server stream user pass :
  short_creds user pass ->
  exists s, run h (negotiate_method stream user pass)
    (inj (MkSrv PGreeting [] [])) = (negotiated cfg user pass, s) /\
    (is_ok (negotiated cfg user pass) = true -> s = inj (MkSrv PRequest [] [])).
Proof.
  intros [Hu Hp]. unfold negotiate_method, negotiated. cbv zeta.
  rewrite srv_write by done. rewrite app_nil_l, srv_greeting.
  destruct (creds cfg) as [c|] eqn:Hc; destruct user as [u|].
  - read_reply [5; 2]. unfold user_pass_auth. cbn in Hu.
    rewrite (proj2 (Nat.ltb_ge 255 _) Hu), (proj2 (Nat.ltb_ge 255 _) Hp). cbn [orb].
    rewrite srv_write by done. unfold srv_recv. cbn [phase inbuf outbuf]. rewrite app_nil_l.
    rewrite decode_auth_request by done. rewrite Hc.
    destruct (decide (c = (as_bytes u, as_bytes (default [] pass)))) as [->|Hne].
    + rewrite !bool_decide_eq_true_2 by done. read_reply [1; 0]. by eexists.
    + rewrite !bool_decide_eq_false_2 by congruence. read_reply [1; 1]. by eexists.
  - read_reply [5; 255]. by eexists.
  - read_reply [5; 0]. by eexists.
  - read_reply [5; 0]. by eexists.
Qed.

(** The server's bound address is one the protocol allows. *)
Definition wf_bound (cfg : ServerCfg) : Prop :=
  exists a,
    (bound cfg = 1 :: a /\ length a = 6%nat) \/ (bound cfg = 4 :: a /\ length a = 18%nat) \/
    (exists l, bound cfg = 3 :: l :: a /\ length a = (Z.to_nat l + 2)%nat).

Lemma send_connect_server stream host port :
  encodable host -> fits 16 port -> wf_bound cfg ->
  exists s, run h (send_connect stream host port) (inj (MkSrv PRequest [] [])) =
    ((if rep cfg =? 0 then Ok tt else Err (reply_err (rep cfg))), s) /\
    (rep cfg = 0 -> s = inj (MkSrv (PRelay (dest_of host) port) [] (app cfg))).
Proof.
  intros Henc Hport (a & Hb).
  destruct (encode_addr_ok host Henc) as [dest Hd].
  pose proof (request_decodes host port dest [] Hport Hd) as Hreq.
  rewrite app_nil_r in Hreq.
  unfold send_connect. rewrite run_bind_ok. cbn [lift run]. rewrite Hd.
  rewrite srv_write by done. unfold srv_recv. cbn [phase inbuf outbuf].
  rewrite !app_nil_l, Hreq.
  destruct (rep cfg =? 0) eqn:Hrep.
  - apply Z.eqb_eq in Hrep.
    destruct Hb as [[-> Hl]|[[-> Hl]|(l & -> & Hl)]].
    + erewrite (srv_read _ _ [5; 0; 0; 1] (a ++ app cfg)) by reflexivity.
      cbn [at_ nth negb Z.eqb Pos.eqb VER ATYP_IPV4]. rewrite run_bind_ok. cbn [run].
      rewrite (srv_read _ _ a (app cfg)) by done. by eexists.
    + erewrite (srv_read _ _ [5; 0; 0; 4] (a ++ app cfg)) by reflexivity.
      cbn [at_ nth negb Z.eqb Pos.eqb VER ATYP_IPV4 ATYP_IPV6]. rewrite run_bind_ok. cbn [run].
      rewrite (srv_read _ _ a (app cfg)) by done. by eexists.
    + erewrite (srv_read _ _ [5; 0; 0; 3] (l :: a ++ app cfg)) by reflexivity.
      cbn [at_ nth negb Z.eqb Pos.eqb VER ATYP_IPV4 ATYP_IPV6 ATYP_DOMAIN].
      rewrite run_bind_ok.
      rewrite (srv_read _ _ [l] (a ++ app cfg)) by done. cbn [run at_ nth].
      rewrite (srv_read _ _ a (app cfg)) by done. by eexists.
  - assert (Hc : exists t r, bound cfg = t :: r).
    { destruct Hb as [[-> _]|[[-> _]|(l & -> & _)]]; eauto. }
    destruct Hc as (t & r & ->).
    erewrite (srv_read _ _ [5; rep cfg; 0; t] r) by reflexivity.
    cbn [at_ nth negb Z.eqb Pos.eqb VER]. rewrite Hrep. cbn [negb run].
    eexists. split; [done|]. intros E. by rewrite E in Hrep.
Qed.

Lemma connect_peer stream host port user pass :
  short_creds user pass -> encodable host -> fits 16 port -> wf_bound cfg ->
  exists s, run h (connect stream host port user pass) (inj (MkSrv PGreeting [] [])) =
      (match negotiated cfg user pass with
       | Err e => Err e
       | Ok _ => if rep cfg =? 0 then Ok tt else Err (reply_err (rep cfg))
       end, s) /\
    (is_ok (negotiated cfg user pass) = true -> rep cfg = 0 ->
       s = inj (MkSrv (PRelay (dest_of host) port) [] (app cfg))).
Proof.
  intros Hs Henc Hport Hb. unfold connect. rewrite run_bind_ok.
  destruct (negotiate_server stream user pass Hs) as (s1 & -> & Hs1).
  destruct (negotiated cfg user pass) as [[]|e] eqn:Hn; [|by eexists].
  rewrite (Hs1 eq_refl), run_bind_ok.
  destruct (send_connect_server stream host port Henc Hport Hb) as (s2 & -> & Hs2).
  destruct (rep cfg =? 0) eqn:Hr; eexists; split; try done; auto.
Qed.

End peer.

(** C5: end to end against any server that follows RFC 1928/1929: the client
    succeeds exactly when the server grants the request, having presented the
    right credentials if they are required; the server then relays to the very
    destination and port asked for, and the first bytes of the destination are
    unread in the stream.  Otherwise the error says why: all methods rejected,
    authentication failed (permission denied), or the reply code's reason. *)
Theorem connect_rfc_server cfg stream host port user pass :
  short_creds user pass -> encodable host -> fits 16 port -> wf_bound cfg ->
  exists s, run (server_handler cfg) (connect stream host port user pass)
    (MkSrv PGreeting [] []) =
      (match negotiated cfg user pass with
       | Err e => Err e
       | Ok _ => if rep cfg =? 0 then Ok tt else Err (reply_err (rep cfg))
       end, s) /\
    (is_ok (negotiated cfg user pass) = true -> rep cfg = 0 ->
       s = MkSrv (PRelay (dest_of host) port) [] (app cfg)).
Proof. apply (connect_peer (server_handler cfg) cfg id). Qed.

Lemma connect_rfc_server_witness :
  exists s, run (server_handler (MkServer (Some ([117], [112])) 0 [1; 0; 0; 0; 0; 0; 0] [72; 73]))
    (connect 3 "1.2.3.4" 9090 (Some ("u" : str)) (Some ("p" : str))) (MkSrv PGreeting [] []) =
    (Ok tt, s) /\ phase s = PRelay (DIpv4 [1; 2; 3; 4]) 9090 /\ outbuf s = [72; 73].
Proof.
  destruct (connect_rfc_server
    (MkServer (Some ([117], [112])) 0 [1; 0; 0; 0; 0; 0; 0] [72; 73])
    3 "1.2.3.4" 9090 (Some ("u" : str)) (Some ("p" : str))) as (s & Hrun & Hs).
  - split; by_decision.
  - left. by vm_compute.
  - unfold fits. lia.
  - exists [0; 0; 0; 0; 0; 0]. by left.
  - exists s. split; [rewrite Hrun; reflexivity|]. by rewrite Hs.
Defined.
