(* ===== verification/Chain.v ===== *)
(** * src/chain.rs and the [Dialer] of src/runtime.rs

    Dialing through a chain of SOCKS5 hops.  [dial] indexes [hops[0]], so it
    panics ([None]) on an empty chain; the dialer never calls it with one. *)

From S2P Require Import Prelude Str Ip Io Constants Netopt Config Socks5.

(** The address hop [i] is asked to connect to: the next hop, or the target. *)
Definition next_addr (rest : list ChainHop) (target : str) : str :=
  match rest with hop :: _ => addr hop | [] => target end.

Fixpoint negotiate_hops (stream : Fd) (hops : list ChainHop) (target : str) :
    io (io_result unit) :=
  match hops with
  | [] => Ret (Ok tt)
  | hop :: rest =>
      await? (host, port) := lift (split_host_port (next_addr rest target)) in
      await r := timeout HANDSHAKE_TIMEOUT
        (connect stream host port (hop_user hop) (hop_pass hop)) in
      match r with
      | None => Ret (Err (io_new TimedOut
          ("SOCKS5 handshake to " ++ addr hop ++ " timed out")))
      | Some (Err e) => Ret (Err e)
      | Some (Ok _) => negotiate_hops stream rest target
      end
  end.

Definition dial (hops : list ChainHop) (target : str) (mark : option Z) (sock : SockOpts) :
    option (io (io_result Fd)) :=
  match hops with
  | [] => None
  | hop0 :: _ => Some (
      await? stream := dial_tcp (addr hop0) DIAL_TIMEOUT mark sock in
      await? _ := negotiate_hops stream hops target in
      Ret (Ok stream))
  end.

(** [Dialer] and [Dialer::connect] *)
Record Dialer := MkDialer { d_chain : list ChainHop; d_mark : option Z; d_sock : SockOpts }.

Definition dialer_connect (d : Dialer) (target : str) : option (io (io_result Fd)) :=
  match d_chain d with
  | [] => Some (dial_tcp target DIAL_TIMEOUT (d_mark d) (d_sock d))
  | _ :: _ => dial (d_chain d) target (d_mark d) (d_sock d)
  end.

(** The destinations the proxies are to be asked for, in order: the second hop,
    the third, ..., and the target. *)
Definition hop_targets (hops : list ChainHop) (target : str) : list str :=
  match hops with
  | [] => []
  | _ :: rest => (addr <$> rest) ++ [target]
  end.

Lemma hop_targets_cons hop rest target :
  hop_targets (hop :: rest) target = next_addr rest target :: hop_targets rest target.
Proof. by destruct rest. Qed.

Lemma next_addr_head rest target : next_addr rest target = default target (addr <$> head rest).
Proof. by destruct rest. Qed.

(** ** Timeouts that never fire *)

Lemma run_timeout {S A} w r ms (p : io A) (s : S) :
  run (with_stream w r) (timeout ms p) s =
  let '(a, s') := run (with_stream w r) p s in (Some a, s').
Proof.
  revert s; induction p as [a|X e k IH]; intros s; [done|].
  cbn [timeout run]. cbn [with_stream].
  destruct (with_stream w r X e s) as [x s'] eqn:He. cbn [run].
  rewrite He. apply IH.
Qed.

(** ** A network of proxies

    [cur] is the server the client's stream ends at now, [next] those behind
    it.  Once a server relays, what is written goes to the next one; the
    destinations it was asked for are kept in [reached]. *)

Record Net := MkNet {
  reached : list (Dest * Z);
  cur : Srv;
  cur_cfg : ServerCfg;
  next : list ServerCfg;
}.

Definition fresh_srv : Srv := MkSrv PGreeting [] [].

Definition net_write (bs : list Z) (n : Net) : Net :=
  match phase (cur n), next n with
  | PRelay d p, c :: rest =>
      MkNet (reached n ++ [(d, p)]) (srv_recv c (MkSrv PGreeting bs (outbuf (cur n)))) c rest
  | PRelay _ _, [] => n
  | ph, _ =>
      MkNet (reached n)
        (srv_recv (cur_cfg n) (MkSrv ph (inbuf (cur n) ++ bs) (outbuf (cur n))))
        (cur_cfg n) (next n)
  end.

Definition net_handler : handler IoE Net :=
  with_stream
    (fun _ bs n => (Ok tt, net_write bs n))
    (fun _ m n => match cut m (outbuf (cur n)) with
                  | Some (a, r) =>
                      (Ok a, MkNet (reached n) (MkSrv (phase (cur n)) (inbuf (cur n)) r)
                               (cur_cfg n) (next n))
                  | None => (Err eof, n)
                  end).

#[global] Instance net_peer re cfg nx :
  ServerPeer net_handler cfg (fun s => MkNet re s cfg nx).
Proof.
  constructor.
  - intros f bs ph ib ob Hph. cbn. unfold net_write. cbn [phase cur].
    destruct ph; try done. by destruct (Hph d port).
  - intros f n a r ph ib <-. cbn -[cut]. by rewrite cut_app.
Qed.

(** Starting a handshake through a relaying server is starting it with the
    next one. *)
Lemma connect_through re d p c0 c nx stream host port user pass :
  run net_handler (connect stream host port user pass)
    (MkNet re (MkSrv (PRelay d p) [] []) c0 (c :: nx)) =
  run net_handler (connect stream host port user pass)
    (MkNet (re ++ [(d, p)]) fresh_srv c nx).
Proof. reflexivity. Qed.

(** Server [cfg] serves hop [hop]: right credentials, the request granted. *)
Record grants (hop : ChainHop) (cfg : ServerCfg) : Prop := {
  gr_short : short_creds (hop_user hop) (hop_pass hop);
  gr_auth : negotiated cfg (hop_user hop) (hop_pass hop) = Ok tt;
  gr_rep : rep cfg = 0;
  gr_bound : wf_bound cfg;
}.

(** What a proxy's destination says first comes from the next proxy, which waits
    for the greeting: only behind the last one there may be something. *)
Fixpoint hushed (cfg : ServerCfg) (cfgs : list ServerCfg) : Prop :=
  match cfgs with
  | [] => True
  | c :: cfgs => app cfg = [] /\ hushed c cfgs
  end.

(** [a] splits into a host the request can carry and a port: its destination. *)
Definition dest_pair (a : str) (d : Dest * Z) : Prop :=
  exists h p, split_host_port a = Ok (h, p) /\ encodable h /\ d = (dest_of h, p).

(** One granted handshake. *)
Lemma handshake re cfg nx stream hop a d :
  grants hop cfg -> dest_pair a d ->
  exists h p, split_host_port a = Ok (h, p) /\
  run net_handler (timeout HANDSHAKE_TIMEOUT
    (connect stream h p (hop_user hop) (hop_pass hop))) (MkNet re fresh_srv cfg nx) =
  (Some (Ok tt), MkNet re (MkSrv (PRelay (fst d) (snd d)) [] (app cfg)) cfg nx).
Proof.
  intros [Hs Ha Hr Hb] (h & p & Hsp & He & ->). exists h, p. split; [done|].
  unfold net_handler at 1. rewrite run_timeout. fold net_handler.
  destruct (connect_peer net_handler cfg (fun s => MkNet re s cfg nx) stream h p
    (hop_user hop) (hop_pass hop) Hs He) as (s & Hrun & Hst);
    [by eapply split_host_port_fits|done|].
  unfold fresh_srv. by rewrite Hrun, (Hst ltac:(by rewrite Ha) Hr), Ha, Hr.
Qed.

Lemma negotiate_hops_run stream hop0 hops cfg0 cfgs target re d0 ds :
  grants hop0 cfg0 -> Forall2 grants hops cfgs -> hushed cfg0 cfgs ->
  dest_pair (next_addr hops target) d0 ->
  Forall2 dest_pair (hop_targets hops target) ds ->
  exists re' d' c',
    run net_handler (negotiate_hops stream (hop0 :: hops) target)
      (MkNet re fresh_srv cfg0 cfgs) =
    (Ok tt, MkNet re' (MkSrv (PRelay (fst d') (snd d')) [] (app c')) c' []) /\
    re' ++ [d'] = re ++ d0 :: ds /\ last (cfg0 :: cfgs) = Some c'.
Proof.
  intros H0 Hall. revert hop0 cfg0 H0 re d0 ds.
  induction Hall as [|hop1 cfg1 hops cfgs H1 _ IH]; intros hop0 cfg0 H0 re d0 ds Hq Hd0 Hds;
    destruct (handshake re cfg0 [] stream hop0 _ d0 H0 Hd0) as (h & p & Hsp & _);
    cbn [negotiate_hops]; rewrite run_bind_ok; cbn [lift run]; rewrite Hsp, run_bind.
  - destruct (handshake re cfg0 [] stream hop0 _ d0 H0 Hd0) as (h' & p' & Hsp' & Hrun).
    rewrite Hsp in Hsp'. injection Hsp' as <- <-. rewrite Hrun. cbn [run].
    inversion Hds; subst. by exists re, d0, cfg0.
  - destruct (handshake re cfg0 (cfg1 :: cfgs) stream hop0 _ d0 H0 Hd0)
      as (h' & p' & Hsp' & Hrun).
    rewrite Hsp in Hsp'. injection Hsp' as <- <-. rewrite Hrun. cbn [run].
    rewrite hop_targets_cons in Hds. inversion Hds as [|? d1 ? ds' Hd1 Hds']; subst.
    destruct Hq as [Hq0 Hq].
    destruct (IH hop1 cfg1 H1 (re ++ [d0]) d1 ds' Hq Hd1 Hds') as (re' & d' & c' & Hr & He & Hl).
    exists re', d', c'. split; [|split; [by rewrite He, <- app_assoc|done]]. rewrite Hq0.
    rewrite <- Hr. cbn [negotiate_hops]. rewrite !run_bind_ok. cbn [lift run].
    destruct Hd1 as (h1 & p1 & Hs1 & _). rewrite Hs1, !run_bind.
    unfold net_handler. rewrite !run_timeout. fold net_handler.
    rewrite connect_through. by destruct d0.
Qed.

(** C6: dialing through a chain of granting proxies succeeds on the stream
    dialed to the first hop, and the proxies were asked, in order, for exactly
    the second hop, the third, ..., and last the real destination; whatever that
    destination has said by then is unread in the stream. *)
Theorem dial_reaches_target hop0 hops cfg0 cfgs target mark sock fd d0 ds p :
  dial (hop0 :: hops) target mark sock = Some p ->
  run net_handler (dial_tcp (addr hop0) DIAL_TIMEOUT mark sock)
    (MkNet [] fresh_srv cfg0 cfgs) = (Ok fd, MkNet [] fresh_srv cfg0 cfgs) ->
  grants hop0 cfg0 -> Forall2 grants hops cfgs -> hushed cfg0 cfgs ->
  Forall2 dest_pair (hop_targets (hop0 :: hops) target) (d0 :: ds) ->
  exists re d c,
    run net_handler p (MkNet [] fresh_srv cfg0 cfgs) =
    (Ok fd, MkNet re (MkSrv (PRelay (fst d) (snd d)) [] (app c)) c []) /\
    re ++ [d] = d0 :: ds /\ last (cfg0 :: cfgs) = Some c.
Proof.
  unfold dial. intros Hp Hdial H0 Hall Hq Hd. apply (inj Some) in Hp as <-.
  rewrite hop_targets_cons in Hd. inversion Hd as [|? ? ? ? Hd0 Hds]; subst.
  destruct (negotiate_hops_run fd hop0 hops cfg0 cfgs target [] d0 ds H0 Hall Hq Hd0 Hds)
    as (re & d & c & Hrun & Hre).
  exists re, d, c. split; [|done].
  by rewrite run_bind_ok, Hdial, run_bind_ok, Hrun.
Qed.

Definition example_hops : list ChainHop :=
  [MkHop "10.0.0.1:1080" (Some ("u" : str)) (Some ("p" : str)); MkHop "hop2:1080" None None].

(** Two servers; the destination behind the second greets. *)
Definition example_server0 : ServerCfg := MkServer (Some ([117], [112])) 0 [1; 0; 0; 0; 0; 0; 0] [].
Definition example_server1 : ServerCfg := MkServer None 0 [3; 1; 120; 0; 80] [72; 73].

Lemma example_grants :
  grants (MkHop "10.0.0.1:1080" (Some ("u" : str)) (Some ("p" : str))) example_server0 /\
  grants (MkHop "hop2:1080" None None) example_server1.
Proof.
  split; (constructor; [split; by_decision|reflexivity|done|]).
  - exists [0; 0; 0; 0; 0; 0]. by left.
  - exists [120; 0; 80]. right. right. by exists 1.
Qed.

Lemma example_dests :
  Forall2 dest_pair (hop_targets example_hops "1.2.3.4:9090")
    [(DDomain [104; 111; 112; 50], 1080); (DIpv4 [1; 2; 3; 4], 9090)].
Proof.
  constructor; [|constructor; [|constructor]].
  - exists "hop2", 1080. split; [reflexivity|]. split; [right; right; by_decision|reflexivity].
  - exists "1.2.3.4", 9090. split; [reflexivity|]. split; [left; by vm_compute|reflexivity].
Qed.

Lemma dial_reaches_target_witness :
  exists p re d c,
    dial example_hops "1.2.3.4:9090" None default_opts = Some p /\
    run net_handler p (MkNet [] fresh_srv example_server0 [example_server1]) =
    (Ok 3%nat, MkNet re (MkSrv (PRelay (fst d) (snd d)) [] (app c)) c []) /\
    re ++ [d] = [(DDomain [104; 111; 112; 50], 1080); (DIpv4 [1; 2; 3; 4], 9090)] /\
    Some example_server1 = Some c.
Proof.
  eexists.
  edestruct (dial_reaches_target
    (MkHop "10.0.0.1:1080" (Some ("u" : str)) (Some ("p" : str)))
    [MkHop "hop2:1080" None None] example_server0 [example_server1] "1.2.3.4:9090" None default_opts 3
    (DDomain [104; 111; 112; 50], 1080) [(DIpv4 [1; 2; 3; 4], 9090)])
    as (re & d & c & Hrun & Hre & Hl).
  - reflexivity.
  - reflexivity.
  - apply example_grants.
  - constructor; [apply example_grants|constructor].
  - done.
  - exact example_dests.
  - exists re, d, c. split; [reflexivity|]. split; [exact Hrun|]. by split.
Defined.

(** ** Failures *)

(** C33: in any environment, the negotiation with a chain of hops fails at one
    hop, all those before it having been negotiated successfully: its next
    address does not split, or its handshake fails and that error is returned,
    or the handshake deadline passes, which is reported as a timeout naming
    the hop.  The hops behind it are not contacted: the state is the one the
    failing step left. *)
Theorem negotiate_hops_first_failure {S} (h : handler IoE S) stream hops target s e s' :
  run h (negotiate_hops stream hops target) s = (Err e, s') ->
  exists pre hop post s1,
    hops = pre ++ hop :: post /\
    run h (negotiate_hops stream pre (addr hop)) s = (Ok tt, s1) /\
    ((split_host_port (default target (addr <$> head post)) = Err e /\ s' = s1) \/
     exists host port, split_host_port (default target (addr <$> head post)) = Ok (host, port) /\
       let hs := run h (timeout HANDSHAKE_TIMEOUT
         (connect stream host port (hop_user hop) (hop_pass hop))) s1 in
       hs = (Some (Err e), s') \/
       (hs = (None, s') /\ e = io_new TimedOut
          ("SOCKS5 handshake to " ++ addr hop ++ " timed out"))).
Proof.
  revert s; induction hops as [|hop hops IH]; intros s; [done|].
  cbn [negotiate_hops]. rewrite run_bind_ok. cbn [lift run].
  destruct (split_host_port (next_addr hops target)) as [[host port]|e0] eqn:Hsp.
  - rewrite run_bind. destruct (run h (timeout _ _) s) as [[[[]|e1]|] s1] eqn:Hr; cbn [run].
    + intros H. destruct (IH s1 H) as (pre & hop' & post & s2 & Hhops & Hpre & Hfail).
      exists (hop :: pre), hop', post, s2. split; [by rewrite Hhops|]. split; [|done].
      cbn [negotiate_hops]. rewrite run_bind_ok. cbn [lift run].
      assert (Hn : next_addr pre (addr hop') = next_addr hops target)
        by (rewrite Hhops; by destruct pre).
      rewrite Hn, Hsp, run_bind, Hr. apply Hpre.
    + intros [= <- <-]. exists [], hop, hops, s. rewrite <- next_addr_head. split; [done|].
      split; [done|]. right. exists host, port. auto.
    + intros [= <- <-]. exists [], hop, hops, s. rewrite <- next_addr_head. split; [done|].
      split; [done|]. right. exists host, port. auto.
  - intros [= <- <-]. exists [], hop, hops, s. rewrite <- next_addr_head. split; [done|].
    split; [done|]. by left.
Qed.

Lemma negotiate_hops_first_failure_witness :
  exists s', run net_handler (negotiate_hops 3 [MkHop "h:1" None None] "t:80")
    (MkNet [] fresh_srv (MkServer None 5 [1; 0; 0; 0; 0; 0; 0] []) []) =
    (Err (reply_err 5), s') /\
  exists pre hop post, [MkHop "h:1" None None] = pre ++ hop :: post.
Proof.
  eexists. split; [reflexivity|].
  destruct (negotiate_hops_first_failure net_handler 3 [MkHop "h:1" None None] "t:80"
    (MkNet [] fresh_srv (MkServer None 5 [1; 0; 0; 0; 0; 0; 0] []) []) (reply_err 5)
    (snd (run net_handler (negotiate_hops 3 [MkHop "h:1" None None] "t:80")
      (MkNet [] fresh_srv (MkServer None 5 [1; 0; 0; 0; 0; 0; 0] []) []))) eq_refl)
    as (pre & hop & post & s1 & Hh & _).
  by exists pre, hop, post.
Defined.

(** ** Accepted configurations dial without an address error *)

(** With an accepted configuration, dialing any destination of any
    listener neither panics nor meets an address that does not split, whether
    the chain is empty or not. *)
Lemma config_dial_addresses cfg l t :
  config_ok cfg -> l ∈ listeners cfg -> t ∈ targets l ->
  is_Some (dialer_connect (MkDialer (chain cfg) (mark cfg) (sock cfg)) t) /\
  Forall splits (hop_targets (chain cfg) t).
Proof.
  intros Hok Hl Ht. split.
  - unfold dialer_connect, dial. simpl. by destruct (chain cfg).
  - assert (Hst : splits t).
    { pose proof (co_each cfg Hok) as Hall. rewrite Forall_forall in Hall.
      pose proof (lo_split l (Hall l Hl)) as Hs. rewrite Forall_forall in Hs. auto. }
    pose proof (co_chain cfg Hok) as Hc. induction Hc as [|hop hops Hh Hc IH]; [constructor|].
    rewrite hop_targets_cons. constructor; [|done]. by destruct Hc.
Qed.
