(* ===== verification/Runtime.v ===== *)
(** * src/runtime.rs: the shutdown broadcast

    [Shutdown] is a handle on a [tokio::sync::watch] channel of a boolean.  The
    channel is not code of this repository: it is the class [Watch], whose laws
    [WatchLaws] are the documented behaviour of tokio's type, and [Chan] is an
    instance that shows the laws can hold.  The futures returned by
    [Shutdown::cancelled] are state machines advanced by [poll]; a [World] is the
    channel with every such future, and [op_step] one action of any task. *)

From S2P Require Import Prelude.

(** ** The watch channel *)

Class Watch (Ch Rx : Type) := {
  watch_channel : bool -> Ch * Rx;
  watch_send : bool -> Ch -> Ch * result unit bool;
  watch_borrow : Ch -> bool;
  watch_subscribe : Ch -> Ch * Rx;
  watch_drop : Rx -> Ch -> Ch;
  (** poll of [rx.changed()], with the receiver after it; [None] is pending *)
  watch_changed : Rx -> Ch -> option Rx;
  receiver_count : Ch -> nat;
  (** the receiver was made by this channel *)
  receiver_of : Rx -> Ch -> Prop;
}.

(** A receiver sees the value it was made with or last saw; [send] fails, and
    the value is not kept, when there is no receiver. *)
Class WatchLaws (Ch Rx : Type) `{Watch Ch Rx} : Prop := {
  channel_law v : forall c r, watch_channel v = (c, r) ->
    watch_borrow c = v /\ receiver_count c = 1%nat /\ receiver_of r c;
  send_closed v c : receiver_count c = 0%nat -> watch_send v c = (c, Err v);
  send_open v c : receiver_count c <> 0%nat ->
    exists c', watch_send v c = (c', Ok tt) /\ watch_borrow c' = v /\
      receiver_count c' = receiver_count c /\
      forall r, receiver_of r c -> receiver_of r c' /\ is_Some (watch_changed r c');
  subscribe_law c c' r : watch_subscribe c = (c', r) ->
    watch_borrow c' = watch_borrow c /\ receiver_count c' = S (receiver_count c) /\
    receiver_of r c' /\ watch_changed r c' = None /\
    forall r0, receiver_of r0 c ->
      receiver_of r0 c' /\ watch_changed r0 c' = watch_changed r0 c;
  drop_law r c : receiver_of r c ->
    watch_borrow (watch_drop r c) = watch_borrow c /\
    receiver_count (watch_drop r c) = pred (receiver_count c) /\
    forall r0, receiver_of r0 c ->
      receiver_of r0 (watch_drop r c) /\ watch_changed r0 (watch_drop r c) = watch_changed r0 c;
  changed_law r r' c : receiver_of r c -> watch_changed r c = Some r' ->
    receiver_of r' c /\ watch_changed r' c = None;
}.

(** A channel with a version number: a receiver is the version it last saw. *)
Record Chan := MkChan { value : bool; version : nat; rxs : nat }.

#[global] Instance chan_watch : Watch Chan nat := {
  watch_channel v := (MkChan v 0 1, 0%nat);
  watch_send v c := match rxs c with
    | O => (c, Err v)
    | n => (MkChan v (S (version c)) n, Ok tt)
    end;
  watch_borrow := value;
  watch_subscribe c := (MkChan (value c) (version c) (S (rxs c)), version c);
  watch_drop _ c := MkChan (value c) (version c) (pred (rxs c));
  watch_changed r c := if decide (r = version c) then None else Some (version c);
  receiver_count := rxs;
  receiver_of r c := (r <= version c)%nat;
}.

#[global] Instance chan_laws : WatchLaws Chan nat.
Proof.
  constructor; simpl.
  - by intros v c r [= <- <-].
  - by intros v [x n k]; simpl; intros ->.
  - intros v [x n [|k]] Hk; simpl in *; [done|]. eexists. split; [done|]. simpl.
    split; [done|]. split; [done|]. intros r Hr. rewrite decide_False by lia. split; [lia|done].
  - intros [x n k] c' r [= <- <-]. simpl. rewrite decide_True by done. auto 10.
  - auto 10.
  - intros r r' c Hr. case_decide; [done|]. intros [= <-]. by rewrite decide_True.
Qed.

(** ** [Shutdown] *)

Section Shutdown.
Context {Ch Rx : Type} `{WatchLaws Ch Rx}.

(** [Shutdown::new]: the receiver made with the channel is dropped at once. *)
Definition shutdown_new : Ch :=
  let '(tx, rx) := watch_channel false in watch_drop rx tx.

(** [trigger] ignores the result of [send]. *)
Definition trigger (tx : Ch) : Ch := fst (watch_send true tx).

Definition is_triggered (tx : Ch) : bool := watch_borrow tx.

(** The future of [cancelled]: not polled yet, waiting on its receiver, or
    resolved (or dropped). *)
Inductive Waiter :=
| WStart
| WWait (rx : Rx)
| WDone.

(** One poll of [while rx.changed().await.is_ok() { if *rx.borrow() { return; } }].
    A receiver that has just seen a change waits for the next one.  [changed]
    fails only when the sender is gone, and the future borrows it. *)
Definition wait_changed (rx : Rx) (tx : Ch) : Waiter * Ch :=
  match watch_changed rx tx with
  | None => (WWait rx, tx)
  | Some rx' => if watch_borrow tx then (WDone, watch_drop rx' tx) else (WWait rx', tx)
  end.

(** Poll the future of [cancelled]. *)
Definition poll (w : Waiter) (tx : Ch) : Waiter * Ch :=
  match w with
  | WStart =>
      let '(tx, rx) := watch_subscribe tx in
      if watch_borrow tx then (WDone, watch_drop rx tx) else wait_changed rx tx
  | WWait rx => wait_changed rx tx
  | WDone => (WDone, tx)
  end.

(** Drop the future, as [select!] does with the branches that lose. *)
Definition cancel (w : Waiter) (tx : Ch) : Waiter * Ch :=
  match w with
  | WWait rx => (WDone, watch_drop rx tx)
  | _ => (WDone, tx)
  end.

(** ** All tasks together *)

Record World := MkWorld { chan : Ch; waiters : list Waiter }.

Inductive Op := Spawn | Poll (i : nat) | Cancel (i : nat) | Trigger.

Definition on_waiter (f : Waiter -> Ch -> Waiter * Ch) (i : nat) (w : World) : World :=
  match waiters w !! i with
  | None => w
  | Some x => let '(x, tx) := f x (chan w) in MkWorld tx (<[i := x]> (waiters w))
  end.

Definition op_step (o : Op) (w : World) : World :=
  match o with
  | Spawn => MkWorld (chan w) (waiters w ++ [WStart])
  | Poll i => on_waiter poll i w
  | Cancel i => on_waiter cancel i w
  | Trigger => MkWorld (trigger (chan w)) (waiters w)
  end.

Definition ops_run (os : list Op) (w : World) : World := foldl (fun w o => op_step o w) w os.

Definition world_new : World := MkWorld shutdown_new [].

Definition waiting (x : Waiter) : bool := match x with WWait _ => true | _ => false end.

Definition count_waiting (xs : list Waiter) : nat := length (List.filter waiting xs).

(** The channel's receivers are those of the waiting futures, and once the
    value is [true] each of them has an unseen change. *)
Definition waiter_ok (tx : Ch) (x : Waiter) : Prop :=
  match x with
  | WWait rx => receiver_of rx tx /\ (watch_borrow tx = true -> is_Some (watch_changed rx tx))
  | _ => True
  end.

Record world_inv (w : World) : Prop := {
  wi_count : receiver_count (chan w) = count_waiting (waiters w);
  wi_ok : Forall (waiter_ok (chan w)) (waiters w);
}.

Lemma count_waiting_insert xs i x y :
  xs !! i = Some x ->
  (count_waiting (<[i := y]> xs) + Nat.b2n (waiting x) =
   count_waiting xs + Nat.b2n (waiting y))%nat.
Proof.
  unfold count_waiting. revert i; induction xs as [|z xs IH]; intros [|i] Hi; simplify_eq/=.
  - destruct (waiting x), (waiting y); simpl; lia.
  - specialize (IH i Hi). destruct (waiting z); simpl; lia.
Qed.

Lemma count_waiting_pos xs i rx : xs !! i = Some (WWait rx) -> count_waiting xs <> 0%nat.
Proof.
  intros Hi. pose proof (count_waiting_insert xs i _ WDone Hi) as Hc. simpl in Hc. lia.
Qed.

Lemma count_waiting_zero xs : count_waiting xs = 0%nat <-> Forall (fun x => waiting x = false) xs.
Proof.
  unfold count_waiting. induction xs as [|x xs IH]; simpl; [done|].
  rewrite Forall_cons. destruct (waiting x); simpl; naive_solver lia.
Qed.

(** A step of one future: what it does to the channel seen by the others. *)
Record step_ok (x y : Waiter) (tx tx' : Ch) : Prop := {
  so_borrow : watch_borrow tx' = watch_borrow tx;
  so_count : (receiver_count tx' + Nat.b2n (waiting x) =
              receiver_count tx + Nat.b2n (waiting y))%nat;
  so_self : waiter_ok tx' y;
  so_others r : receiver_of r tx ->
    receiver_of r tx' /\ watch_changed r tx' = watch_changed r tx;
}.

Lemma drop_step rx tx : receiver_of rx tx -> receiver_count tx <> 0%nat ->
  step_ok (WWait rx) WDone tx (watch_drop rx tx).
Proof.
  intros Hr Hc. destruct (drop_law rx tx Hr) as (Hb & Hn & Ho).
  constructor; simpl; [done|lia|done|done].
Qed.

Lemma wait_step rx tx y tx' :
  receiver_of rx tx -> receiver_count tx <> 0%nat ->
  (watch_borrow tx = true -> is_Some (watch_changed rx tx)) ->
  wait_changed rx tx = (y, tx') ->
  step_ok (WWait rx) y tx tx' /\ (watch_borrow tx = true -> y = WDone).
Proof.
  unfold wait_changed. intros Hr Hc Hb. destruct (watch_changed rx tx) as [rx'|] eqn:Hch.
  - destruct (changed_law rx rx' tx Hr Hch) as [Hr' Hn].
    destruct (watch_borrow tx) eqn:Hbt; intros [= <- <-].
    + split; [|done]. destruct (drop_step rx' tx Hr' Hc). by constructor.
    + split; [|done]. constructor; simpl; [done|lia| |done].
      split; [done|]. by rewrite Hbt.
  - intros [= <- <-]. split.
    + constructor; simpl; auto. by rewrite Hch.
    + intros H1. by destruct (Hb H1).
Qed.

Lemma poll_step x tx y tx' :
  waiter_ok tx x -> (waiting x = true -> receiver_count tx <> 0%nat) ->
  poll x tx = (y, tx') -> step_ok x y tx tx' /\ (watch_borrow tx = true -> y = WDone).
Proof.
  intros Hx Hc. destruct x as [|rx|]; simpl.
  - destruct (watch_subscribe tx) as [tx1 rx] eqn:Hs.
    destruct (subscribe_law _ _ _ Hs) as (Hb & Hn & Hr & Hch & Ho).
    destruct (watch_borrow tx1) eqn:Hb1.
    + intros [= <- <-]. destruct (drop_law rx tx1 Hr) as (Hb' & Hn' & Ho').
      split; [|done]. constructor; simpl; [congruence|lia|done|].
      intros r Hr0. destruct (Ho r Hr0) as [Hr1 <-]. by apply Ho'.
    + unfold wait_changed. rewrite Hch. intros [= <- <-]. split; [|congruence].
      constructor; simpl; [congruence|lia| |done]. split; [done|congruence].
  - destruct Hx as [Hr Hb]. apply wait_step; auto.
  - intros [= <- <-]. split; [|done]. by constructor.
Qed.

Lemma cancel_step x tx y tx' :
  waiter_ok tx x -> (waiting x = true -> receiver_count tx <> 0%nat) ->
  cancel x tx = (y, tx') -> step_ok x y tx tx'.
Proof.
  intros Hx Hc. destruct x as [|rx|]; simpl; intros [= <- <-]; [by constructor| |by constructor].
  destruct Hx. apply drop_step; auto.
Qed.

Lemma waiter_ok_others x tx tx' :
  watch_borrow tx' = watch_borrow tx ->
  (forall r, receiver_of r tx -> receiver_of r tx' /\ watch_changed r tx' = watch_changed r tx) ->
  waiter_ok tx x -> waiter_ok tx' x.
Proof.
  intros Hb Ho. destruct x as [|r|]; simpl; [done| |done].
  intros [Hr Hch]. destruct (Ho r Hr) as [Hr' ->]. by rewrite Hb.
Qed.

Lemma on_waiter_inv f i w :
  world_inv w ->
  (forall x y tx', waiters w !! i = Some x -> f x (chan w) = (y, tx') ->
    step_ok x y (chan w) tx') ->
  world_inv (on_waiter f i w) /\
  is_triggered (chan (on_waiter f i w)) = is_triggered (chan w).
Proof.
  intros [Hc Hok] Hf. unfold on_waiter. destruct (waiters w !! i) as [x|] eqn:Hi; [|done].
  destruct (f x (chan w)) as [y tx'] eqn:Hfx.
  destruct (Hf x y tx' eq_refl Hfx) as [Hb Hn Hs Ho]. split; [|done].
  pose proof (count_waiting_insert _ i x y Hi) as Hcw. constructor; simpl; [lia|].
  apply Forall_insert; [|done]. eapply Forall_impl; [done|]. intros z.
  by apply waiter_ok_others.
Qed.

Lemma wi_waiter w i x : world_inv w -> waiters w !! i = Some x ->
  waiter_ok (chan w) x /\ (waiting x = true -> receiver_count (chan w) <> 0%nat).
Proof.
  intros [Hc Hok] Hi. split; [by eapply Forall_lookup_1|].
  intros Hw. destruct x; try done. rewrite Hc. by eapply count_waiting_pos.
Qed.

Lemma trigger_closed tx : receiver_count tx = 0%nat -> trigger tx = tx.
Proof. intros H1. unfold trigger. by rewrite send_closed. Qed.

Lemma trigger_inv w : world_inv w -> world_inv (op_step Trigger w).
Proof.
  intros [Hc Hok]. destruct (decide (receiver_count (chan w) = 0%nat)) as [Hz|Hz].
  - constructor; simpl; rewrite trigger_closed by done; done.
  - destruct (send_open true (chan w) Hz) as (tx' & Hs & Hb & Hn & Hr).
    constructor; simpl; unfold trigger; rewrite Hs; simpl; [congruence|].
    eapply Forall_impl; [done|]. intros [|r|]; simpl; try done.
    intros [H1 _]. destruct (Hr r H1). auto.
Qed.

Lemma op_step_inv o w : world_inv w -> world_inv (op_step o w).
Proof.
  intros Hw. destruct o; simpl.
  - destruct Hw as [Hc Hok]. constructor; simpl.
    + rewrite Hc. unfold count_waiting. rewrite List.filter_app. simpl.
      by rewrite app_nil_r.
    + apply Forall_app. split; [done|]. by constructor.
  - apply on_waiter_inv; [done|]. intros x y tx' Hi Hp.
    destruct (wi_waiter w i x Hw Hi). by eapply poll_step.
  - apply on_waiter_inv; [done|]. intros x y tx' Hi Hp.
    destruct (wi_waiter w i x Hw Hi). by eapply cancel_step.
  - by apply trigger_inv.
Qed.

Lemma ops_run_inv os w : world_inv w -> world_inv (ops_run os w).
Proof. revert w; induction os as [|o os IH]; simpl; intros w; auto using op_step_inv. Qed.

Lemma world_new_inv : world_inv world_new.
Proof.
  unfold world_new, shutdown_new. destruct (watch_channel false) as [c r] eqn:Hc.
  destruct (channel_law false c r Hc) as (_ & H1 & Hr).
  destruct (drop_law r c Hr) as (_ & Hn & _). constructor; simpl; [|done]. by rewrite Hn, H1.
Qed.

Lemma op_step_triggered o w :
  world_inv w -> is_triggered (chan w) = true -> is_triggered (chan (op_step o w)) = true.
Proof.
  intros Hw Ht. destruct o; simpl; [done| | |].
  - rewrite (proj2 (on_waiter_inv poll i w Hw ltac:(intros x y tx' Hi Hp;
      destruct (wi_waiter w i x Hw Hi); by eapply poll_step))). done.
  - rewrite (proj2 (on_waiter_inv cancel i w Hw ltac:(intros x y tx' Hi Hp;
      destruct (wi_waiter w i x Hw Hi); by eapply cancel_step))). done.
  - destruct (decide (receiver_count (chan w) = 0%nat)) as [Hz|Hz];
      [by rewrite trigger_closed|].
    destruct (send_open true (chan w) Hz) as (tx' & Hs & Hb & _).
    unfold trigger. by rewrite Hs.
Qed.

Lemma ops_run_triggered os w :
  world_inv w -> is_triggered (chan w) = true -> is_triggered (chan (ops_run os w)) = true.
Proof.
  revert w; induction os as [|o os IH]; simpl; intros w; auto using op_step_triggered, op_step_inv.
Qed.

Lemma poll_triggered w i x :
  world_inv w -> is_triggered (chan w) = true -> waiters w !! i = Some x ->
  waiters (op_step (Poll i) w) !! i = Some WDone.
Proof.
  intros Hw Ht Hi. simpl. unfold on_waiter. rewrite Hi.
  destruct (poll x (chan w)) as [y tx'] eqn:Hp. simpl.
  destruct (wi_waiter w i x Hw Hi) as [Hx Hc].
  destruct (poll_step x (chan w) y tx' Hx Hc Hp) as [_ Hd]. rewrite (Hd Ht).
  rewrite list_lookup_insert_eq; [done|]. by eapply lookup_lt_Some.
Qed.

Lemma trigger_takes w :
  world_inv w ->
  is_triggered (chan (op_step Trigger w)) =
  is_triggered (chan w) || bool_decide (count_waiting (waiters w) <> 0%nat).
Proof.
  intros Hw. simpl. rewrite <- (wi_count w Hw).
  case_bool_decide as Hz.
  - destruct (send_open true (chan w) Hz) as (tx' & Hs & Hb & _).
    unfold trigger, is_triggered. rewrite Hs. simpl. rewrite Hb. by rewrite orb_true_r.
  - rewrite trigger_closed by lia. by rewrite orb_false_r.
Qed.

(** C29: once the shutdown is triggered it stays so whatever the tasks do, and
    every [cancelled] future, old or new, resolves at its next poll. *)
Theorem shutdown_sticky os os' i x :
  let w := ops_run os world_new in
  let w' := ops_run os' w in
  is_triggered (chan w) = true -> waiters w' !! i = Some x ->
  is_triggered (chan w') = true /\ waiters (op_step (Poll i) w') !! i = Some WDone.
Proof.
  intros w w' Ht Hi. assert (Hw : world_inv w) by (apply ops_run_inv, world_new_inv).
  assert (Ht' : is_triggered (chan w') = true) by (by apply ops_run_triggered).
  split; [done|]. eapply poll_triggered; [by apply ops_run_inv|done|done].
Qed.

(** C30: after any actions of the tasks, [trigger] takes effect exactly when the
    shutdown is already triggered or some [cancelled] future is waiting at that
    moment; with none waiting the signal is lost. *)
Theorem trigger_effective_iff os :
  let w := ops_run os world_new in
  is_triggered (chan (op_step Trigger w)) = true <->
  is_triggered (chan w) = true \/ exists i rx, waiters w !! i = Some (WWait rx).
Proof.
  intros w. assert (Hw : world_inv w) by (apply ops_run_inv, world_new_inv).
  rewrite (trigger_takes w Hw), orb_true_iff, bool_decide_eq_true.
  apply or_iff_compat_l. rewrite count_waiting_zero. split.
  - intros Hn. apply not_Forall_Exists in Hn; [|tc_solve].
    apply Exists_exists in Hn as (x & Hx & Hwx). apply list_elem_of_lookup in Hx as [i Hi].
    destruct x as [|rx|]; simpl in Hwx; try done. by exists i, rx.
  - intros (i & rx & Hi) Hall. eapply Forall_lookup_1 in Hall; [|done]. done.
Qed.

End Shutdown.

(** No [trigger] before the first [cancelled] has any effect: a task that
    starts afterwards waits on, although the shutdown was triggered. *)
Lemma trigger_before_subscribe_lost {Ch Rx} `{WatchLaws Ch Rx} :
  is_triggered (trigger shutdown_new) = false /\
  exists rx, waiters (ops_run [Trigger; Spawn; Poll 0] world_new) = [WWait rx].
Proof.
  assert (Hl : trigger shutdown_new = shutdown_new).
  { apply trigger_closed. apply (wi_count _ world_new_inv). }
  assert (Hf : is_triggered shutdown_new = false).
  { unfold shutdown_new, is_triggered. destruct (watch_channel false) as [c r] eqn:Hc.
    destruct (channel_law false c r Hc) as (Hb & _ & Hr).
    by rewrite (proj1 (drop_law r c Hr)). }
  split; [by rewrite Hl|]. cbn [ops_run foldl op_step world_new chan waiters].
  rewrite Hl. unfold on_waiter. simpl.
  destruct (watch_subscribe shutdown_new) as [tx rx] eqn:Hs.
  destruct (subscribe_law _ _ _ Hs) as (Hb & _ & _ & Hch & _).
  unfold is_triggered in Hf. rewrite Hb, Hf. unfold wait_changed. rewrite Hch. simpl. eauto.
Qed.

Lemma trigger_effective_iff_witness :
  is_triggered (chan (op_step Trigger (ops_run [Spawn; Poll 0] (@world_new Chan nat _)))) = true.
Proof.
  apply (proj2 (trigger_effective_iff (Ch := Chan) [Spawn; Poll 0])).
  right. exists 0%nat, 0%nat. reflexivity.
Defined.

Lemma shutdown_sticky_witness :
  let w : World := ops_run [Spawn; Poll 0; Trigger] (@world_new Chan nat _) in
  is_triggered (chan w) = true /\
  waiters (op_step (Poll 1) (ops_run [Spawn] w)) !! 1%nat = Some WDone.
Proof.
  split; [reflexivity|].
  apply (shutdown_sticky (Ch := Chan) [Spawn; Poll 0; Trigger] [Spawn] 1 WStart); reflexivity.
Defined.
