(* ===== verification/Stats.v ===== *)
(** * src/stats.rs: counters, the status dump and the heartbeat

    The counters are 64-bit atomics, which wrap; [ListenerStats] is the value
    shared by every task of a listener, and each operation below is one atomic
    step on it (the [last_error] mutex is never poisoned: nothing panics while
    it is held).  An [ActiveGuard] is counted by the task that owns it: making
    one is [on_accept], dropping it [drop_guard]. *)

From S2P Require Import Prelude Str.

Record ListenerStats := MkStats {
  st_name : str;
  st_proto : str;
  accepted : Z;
  active : Z;
  restarts : Z;
  errors : Z;
  last_error : option str;
}.

#[global] Instance ListenerStats_eq_dec : EqDecision ListenerStats.
Proof. solve_decision. Defined.

(** [ListenerStats::new] *)
Definition stats_new (name proto : str) : ListenerStats := MkStats name proto 0 0 0 0 None.

(** [fetch_add(1)] and [fetch_sub(1)] of an [AtomicU64] *)
Definition fetch_add (n : Z) : Z := wrap 64 (n + 1).
Definition fetch_sub (n : Z) : Z := wrap 64 (n - 1).

Definition on_accept (s : ListenerStats) : ListenerStats :=
  MkStats (st_name s) (st_proto s) (fetch_add (accepted s)) (fetch_add (active s))
    (restarts s) (errors s) (last_error s).

(** [Drop for ActiveGuard] *)
Definition drop_guard (s : ListenerStats) : ListenerStats :=
  MkStats (st_name s) (st_proto s) (accepted s) (fetch_sub (active s))
    (restarts s) (errors s) (last_error s).

Definition inc_restart (s : ListenerStats) : ListenerStats :=
  MkStats (st_name s) (st_proto s) (accepted s) (active s)
    (fetch_add (restarts s)) (errors s) (last_error s).

Definition inc_error (s : ListenerStats) : ListenerStats :=
  MkStats (st_name s) (st_proto s) (accepted s) (active s)
    (restarts s) (fetch_add (errors s)) (last_error s).

Definition set_last_error (e : str) (s : ListenerStats) : ListenerStats :=
  MkStats (st_name s) (st_proto s) (accepted s) (active s)
    (restarts s) (errors s) (Some e).

Definition summary (s : ListenerStats) : str :=
  let last := match last_error s with
    | Some e => ", last_error=" ++ [quote] ++ e ++ [quote]
    | None => []
    end in
  st_name s ++ " accepted=" ++ show_dec (accepted s) ++ " active=" ++ show_dec (active s)
    ++ " restarts=" ++ show_dec (restarts s) ++ " errors=" ++ show_dec (errors s) ++ last.

(** ** [Registry] *)

Abbreviation Registry := (list ListenerStats) (only parsing).

(** [+=] and [sum()] on [u64] in a release build *)
Definition sum_u64 (ns : list Z) : Z := foldl (fun t n => wrap 64 (t + n)) 0 ns.

(** The loop of [dump]: the totals so far and the lines logged. *)
Fixpoint dump_loop (total_active total_accepted : Z) (r : Registry) : Z * Z * list str :=
  match r with
  | [] => (total_active, total_accepted, [])
  | s :: r =>
      let '(a, c, lines) := dump_loop (wrap 64 (total_active + active s))
        (wrap 64 (total_accepted + accepted s)) r in
      (a, c, summary s :: lines)
  end.

(** [dump], as the list of lines it logs *)
Definition dump (r : Registry) : list str :=
  let '(total_active, total_accepted, lines) := dump_loop 0 0 r in
  [("--- status dump (" ++ show_dec (Z.of_nat (length r)) ++ " listeners) ---" : str)]
  ++ lines
  ++ [("totals: accepted=" ++ show_dec total_accepted ++ " active=" ++ show_dec total_active : str)].

Definition heartbeat_line (r : Registry) : str :=
  let active := sum_u64 (active <$> r) in
  let accepted := sum_u64 (accepted <$> r) in
  let restarts := sum_u64 (restarts <$> r) in
  "heartbeat: listeners=" ++ show_dec (Z.of_nat (length r)) ++ " accepted=" ++ show_dec accepted
    ++ " active=" ++ show_dec active ++ " restarts=" ++ show_dec restarts.

(** ** Counters modulo 2^64 *)

Lemma fetch_add_wrap n : fetch_add (wrap 64 n) = wrap 64 (n + 1).
Proof. apply wrap_add_l. Qed.

Lemma fetch_sub_wrap n : fetch_sub (wrap 64 n) = wrap 64 (n - 1).
Proof. unfold fetch_sub. apply (wrap_add_l 64 n (-1)). Qed.

#[export] Hint Rewrite fetch_add_wrap fetch_sub_wrap : gust.

Definition sum_Z (ns : list Z) : Z := foldr Z.add 0 ns.

Lemma sum_u64_from t ns :
  foldl (fun t n => wrap 64 (t + n)) (wrap 64 t) ns = wrap 64 (t + sum_Z ns).
Proof.
  revert t; induction ns as [|n ns IH]; intros t; simpl; [by rewrite Z.add_0_r|].
  by rewrite wrap_add_l, IH, Z.add_assoc.
Qed.

Lemma sum_u64_wrap ns : sum_u64 ns = wrap 64 (sum_Z ns).
Proof. apply (sum_u64_from 0). Qed.

Lemma dump_loop_totals r a c :
  dump_loop (wrap 64 a) (wrap 64 c) r =
  (wrap 64 (a + sum_Z (active <$> r)), wrap 64 (c + sum_Z (accepted <$> r)), summary <$> r).
Proof.
  revert a c; induction r as [|s r IH]; intros a c; simpl; [by rewrite !Z.add_0_r|].
  by rewrite !wrap_add_l, IH, !Z.add_assoc.
Qed.

(** A status dump is a title, one summary per listener in order, and the
    totals; it reports the same totals as the heartbeat line, and they are the
    sums of the counters modulo 2^64. *)
Lemma dump_heartbeat_totals r :
  let act := show_dec (wrap 64 (sum_Z (active <$> r))) in
  let acc := show_dec (wrap 64 (sum_Z (accepted <$> r))) in
  let res := show_dec (wrap 64 (sum_Z (restarts <$> r))) in
  let n := show_dec (Z.of_nat (length r)) in
  dump r =
    ("--- status dump (" ++ n ++ " listeners) ---" : str)
    :: (summary <$> r) ++ [("totals: accepted=" ++ acc ++ " active=" ++ act : str)] /\
  heartbeat_line r =
    "heartbeat: listeners=" ++ n ++ " accepted=" ++ acc ++ " active=" ++ act
      ++ " restarts=" ++ res.
Proof.
  intros act acc res n. split.
  - unfold dump. pose proof (dump_loop_totals r 0 0) as Hd. cbn [wrap] in Hd.
    change (wrap 64 0) with 0 in Hd. rewrite Hd. reflexivity.
  - unfold heartbeat_line. by rewrite !sum_u64_wrap.
Qed.

(** ** Guards and the gauge

    A listener's tasks use the counters in any order, but each guard is
    dropped once, after it was made: [live] guards are outstanding. *)

Inductive StatOp := Accept | DropGuard | IncRestart | IncError | SetLastError (e : str).

Definition stat_op (o : StatOp) : ListenerStats -> ListenerStats :=
  match o with
  | Accept => on_accept
  | DropGuard => drop_guard
  | IncRestart => inc_restart
  | IncError => inc_error
  | SetLastError e => set_last_error e
  end.

Inductive stat_trace : list StatOp -> nat -> Prop :=
| st_nil : stat_trace [] 0
| st_accept tr live : stat_trace tr live -> stat_trace (tr ++ [Accept]) (S live)
| st_drop tr live : stat_trace tr (S live) -> stat_trace (tr ++ [DropGuard]) live
| st_other tr live o : stat_trace tr live -> o <> Accept -> o <> DropGuard ->
    stat_trace (tr ++ [o]) live.

Definition stat_run (tr : list StatOp) (s : ListenerStats) : ListenerStats :=
  foldl (fun s o => stat_op o s) s tr.

Definition is_accept (o : StatOp) : bool := match o with Accept => true | _ => false end.

Definition accepts (tr : list StatOp) : nat := length (List.filter is_accept tr).

Lemma accepts_app tr tr' : accepts (tr ++ tr') = (accepts tr + accepts tr')%nat.
Proof. unfold accepts. by rewrite List.filter_app, length_app. Qed.

Lemma stat_run_snoc tr o s : stat_run (tr ++ [o]) s = stat_op o (stat_run tr s).
Proof. unfold stat_run. by rewrite foldl_app. Qed.

(** The gauge shows [live] guards, of [made] in all. *)
Record counted (live made : nat) (s : ListenerStats) : Prop := {
  cn_active : active s = wrap 64 (Z.of_nat live);
  cn_accepted : accepted s = wrap 64 (Z.of_nat made);
  cn_le : (live <= made)%nat;
}.

Lemma counted_new name proto : counted 0 0 (stats_new name proto).
Proof. by constructor. Qed.

Lemma counted_accept live made s : counted live made s -> counted (S live) (S made) (on_accept s).
Proof.
  intros [Ha Hc Hl]. constructor; simpl; [| |lia];
    [rewrite Ha|rewrite Hc]; rewrite fetch_add_wrap; f_equal; lia.
Qed.

Lemma counted_drop live made s : counted (S live) made s -> counted live made (drop_guard s).
Proof.
  intros [Ha Hc Hl]. constructor; simpl; [|done|lia].
  rewrite Ha, fetch_sub_wrap. f_equal; lia.
Qed.

Lemma counted_other live made o s :
  o <> Accept -> o <> DropGuard -> counted live made s -> counted live made (stat_op o s).
Proof. intros H1 H2 []. by destruct o. Qed.

#[export] Hint Resolve counted_new counted_accept counted_drop : gust.

(** Whatever a listener's tasks do, as long as a guard is dropped once and
    after it was made, the active gauge is the number of outstanding guards and
    [accepted] the number ever made, modulo 2^64: the gauge never underflows,
    and is 0 when every connection has ended. *)
Lemma active_gauge name proto tr live :
  stat_trace tr live ->
  let s := stat_run tr (stats_new name proto) in
  active s = wrap 64 (Z.of_nat live) /\ accepted s = wrap 64 (Z.of_nat (accepts tr)) /\
  (live <= accepts tr)%nat /\ (Z.of_nat (accepts tr) < 2 ^ 64 -> active s <= accepted s).
Proof.
  intros Htr s. assert (Hc : counted live (accepts tr) s).
  { induction Htr as [|tr live Htr IH|tr live Htr IH|tr live o Htr IH H1 H2];
      [apply counted_new|subst s; rewrite stat_run_snoc, accepts_app..].
    - rewrite Nat.add_1_r. by apply counted_accept.
    - rewrite Nat.add_0_r. by apply counted_drop.
    - assert (accepts [o] = 0%nat) as -> by (by destruct o).
      rewrite Nat.add_0_r. by apply counted_other. }
  destruct Hc as [Ha Hc Hl]. do 3 (split; [done|]). intros Hb.
  rewrite Ha, Hc, !wrap_small by (unfold fits; lia). lia.
Qed.
