(* ===== verification/Supervisor.v ===== *)
(** * src/supervisor.rs: restart a listener with exponential backoff

    [supervise] is a program over the calls [SupE]: the shutdown handle, the
    clock, the spawned serve task and the listener's counters.  The source's
    [loop] is cut after a number of iterations: [supervise n b] performs at most
    [n] and returns [Some] of the current backoff when it has not returned by
    then, so a statement for all [n] is one about the whole, endless loop. *)

From S2P Require Import Prelude Str Io Constants Stats.

(** The output of a joined task: [Result<io::Result<()>, JoinError>]. *)
Inductive Joined :=
| Finished (r : io_result unit)
| Panicked
| Aborted.

#[global] Instance Joined_eq_dec : EqDecision Joined.
Proof. solve_decision. Defined.

Inductive SupE : Type -> Type :=
| IsTriggered : SupE bool                                (* shutdown.is_triggered() *)
| Now : SupE Z                                           (* Instant::now() *)
| SpawnServe : SupE nat                                  (* tokio::spawn(serve()) *)
| SelectJoin (h : nat) : SupE (option Joined)            (* None: shutdown.cancelled() *)
| AbortTask (h : nat) : SupE unit                        (* handle.abort() *)
| ElapsedSince (t : Z) : SupE Z                          (* started.elapsed() *)
| Stat (o : StatOp) : SupE unit                          (* stats.... *)
| SelectSleep (ms : Z) : SupE bool.                      (* false: shutdown.cancelled() *)

(** The match on [outcome]: the error recorded, or [None] to return. *)
Definition failure (outcome : Joined) : option str :=
  match outcome with
  | Finished (Ok _) => None
  | Finished (Err e) => Some (err_msg e)
  | Panicked => Some ("panic" : str)
  | Aborted => None
  end.

(** One iteration of the loop: [Some] of the next backoff, or [None] to return. *)
Definition supervise_iter (backoff : Z) : prog SupE (option Z) :=
  await trig := call IsTriggered in
  if (trig : bool) then Ret None else
  await started := call Now in
  await handle := call SpawnServe in
  await selected := call (SelectJoin handle) in
  match (selected : option Joined) with
  | None => await _ := call (AbortTask handle) in Ret None
  | Some outcome =>
      match failure outcome with
      | None => Ret None
      | Some msg =>
          await _ := call (Stat (SetLastError msg)) in
          await trig := call IsTriggered in
          if (trig : bool) then Ret None else
          await elapsed := call (ElapsedSince started) in
          let backoff := if BACKOFF_HEALTHY <=? elapsed then BACKOFF_INITIAL else backoff in
          await _ := call (Stat IncRestart) in
          await slept := call (SelectSleep backoff) in
          if (slept : bool) then Ret (Some (Z.min (backoff * 2) BACKOFF_MAX)) else Ret None
      end
  end.

Fixpoint supervise_from (n : nat) (backoff : Z) : prog SupE (option Z) :=
  match n with
  | O => Ret (Some backoff)
  | S n =>
      await r := supervise_iter backoff in
      match r with
      | None => Ret None
      | Some backoff => supervise_from n backoff
      end
  end.

Definition supervise (n : nat) : prog SupE (option Z) := supervise_from n BACKOFF_INITIAL.

(** ** The calls of an iteration *)

Abbreviation log := (list (event SupE)).

Definition start_calls (t : Z) (h : nat) : log :=
  [Ev IsTriggered false; Ev Now t; Ev SpawnServe h].

Definition fail_calls (t : Z) (h : nat) (j : Joined) (msg : str) : log :=
  start_calls t h ++ [Ev (SelectJoin h) (Some j); Ev (Stat (SetLastError msg)) tt].

Definition delay (b el : Z) : Z := if BACKOFF_HEALTHY <=? el then BACKOFF_INITIAL else b.

Definition wait_calls (t : Z) (h : nat) (j : Joined) (msg : str) (el d : Z) (slept : bool) : log :=
  fail_calls t h j msg ++
  [Ev IsTriggered false; Ev (ElapsedSince t) el; Ev (Stat IncRestart) tt; Ev (SelectSleep d) slept].

Inductive iter_path (b : Z) : log -> option Z -> Prop :=
| ip_triggered : iter_path b [Ev IsTriggered true] None
| ip_cancelled t h :
    iter_path b (start_calls t h ++ [Ev (SelectJoin h) None; Ev (AbortTask h) tt]) None
| ip_clean t h j : failure j = None ->
    iter_path b (start_calls t h ++ [Ev (SelectJoin h) (Some j)]) None
| ip_fail_triggered t h j msg : failure j = Some msg ->
    iter_path b (fail_calls t h j msg ++ [Ev IsTriggered true]) None
| ip_fail_cancelled t h j msg el : failure j = Some msg ->
    iter_path b (wait_calls t h j msg el (delay b el) false) None
| ip_restart t h j msg el : failure j = Some msg ->
    iter_path b (wait_calls t h j msg el (delay b el) true)
      (Some (Z.min (delay b el * 2) BACKOFF_MAX)).

Lemma iter_run o b l :
  exists tr r, run (record o) (supervise_iter b) l = (r, l ++ tr) /\ iter_path b tr r.
Proof.
  unfold supervise_iter. rewrite run_record_call.
  destruct (o _ IsTriggered _); [by eauto using ip_triggered|].
  rewrite !run_record_call. destruct (o _ (SelectJoin _) _) as [j|] eqn:Hj; cbv iota beta.
  2: { rewrite run_record_call, <- !app_assoc. destruct (o _ (AbortTask _) _).
       do 2 eexists. split; [reflexivity|]. apply ip_cancelled. }
  destruct (failure j) as [msg|] eqn:Hf.
  2: { rewrite <- !app_assoc. do 2 eexists. split; [reflexivity|]. by apply ip_clean. }
  rewrite !run_record_call. destruct (o _ (Stat _) _), (o _ IsTriggered _) eqn:Ht; cbv iota.
  { rewrite <- !app_assoc. do 2 eexists. split; [reflexivity|]. by apply ip_fail_triggered. }
  rewrite !run_record_call. destruct (o _ (Stat IncRestart) _), (o _ (SelectSleep _) _) eqn:Hs;
    rewrite <- !app_assoc; do 2 eexists;
    (split; [reflexivity|]); [by apply ip_restart|by apply ip_fail_cancelled].
Qed.

Inductive sup_path : nat -> Z -> log -> option Z -> Prop :=
| sp_cut b : sup_path 0 b [] (Some b)
| sp_return n b tr : iter_path b tr None -> sup_path (S n) b tr None
| sp_again n b b' tr tr' r : iter_path b tr (Some b') -> sup_path n b' tr' r ->
    sup_path (S n) b (tr ++ tr') r.

Lemma supervise_from_run o n b l :
  exists tr r, run (record o) (supervise_from n b) l = (r, l ++ tr) /\ sup_path n b tr r.
Proof.
  revert b l; induction n as [|n IH]; intros b l; cbn [supervise_from].
  - exists [], (Some b). cbn [run]. rewrite app_nil_r. split; [done|constructor].
  - rewrite run_bind. destruct (iter_run o b l) as (tr & [b'|] & -> & Hp).
    + destruct (IH b' (l ++ tr)) as (tr' & r & -> & Hr).
      rewrite <- app_assoc. eauto using sp_again.
    + eauto using sp_return.
Qed.

Lemma supervise_run o n r l :
  run (record o) (supervise n) [] = (r, l) -> sup_path n BACKOFF_INITIAL l r.
Proof.
  intros Hr. destruct (supervise_from_run o n BACKOFF_INITIAL []) as (tr & r' & Hr' & Hp).
  unfold supervise in Hr. rewrite Hr in Hr'. by simplify_eq/=.
Qed.

(** ** Projections of the log *)

Definition sleeps (l : log) : list Z :=
  l ≫= fun ev => match ev_call ev with SelectSleep d => [d] | _ => [] end.

Definition healthy (l : log) : list bool :=
  l ≫= fun ev => match ev_call ev in SupE X return X -> list bool with
    | ElapsedSince _ => fun el => [BACKOFF_HEALTHY <=? el]
    | _ => fun _ => []
    end (ev_reply ev).

Definition spawns (l : log) : nat :=
  length (l ≫= fun ev => match ev_call ev with SpawnServe => [tt] | _ => [] end).

Definition stat_ops (l : log) : list StatOp :=
  l ≫= fun ev => match ev_call ev with Stat o => [o] | _ => [] end.

(** The failures seen, in order: errors by their text, and panics. *)
Definition failures (l : log) : list str :=
  l ≫= fun ev => match ev_call ev in SupE X return X -> list str with
    | SelectJoin _ => fun j => match j with
        | Some (Finished (Err e)) => [err_msg e]
        | Some Panicked => ["panic"%string : str]
        | _ => []
        end
    | _ => fun _ => []
    end (ev_reply ev).

(** The delay before each restart: doubled from [BACKOFF_INITIAL] up to
    [BACKOFF_MAX] with every failure in a row, [k] of them so far. *)
Fixpoint delays (k : Z) (hs : list bool) : list Z :=
  match hs with
  | [] => []
  | h :: hs =>
      let k := if h then 0 else k in
      Z.min (BACKOFF_INITIAL * 2 ^ k) BACKOFF_MAX :: delays (k + 1) hs
  end.

Lemma double_delay k : 0 <= k ->
  Z.min (Z.min (BACKOFF_INITIAL * 2 ^ k) BACKOFF_MAX * 2) BACKOFF_MAX =
  Z.min (BACKOFF_INITIAL * 2 ^ (k + 1)) BACKOFF_MAX.
Proof.
  intros Hk. rewrite Z.pow_add_r by lia. unfold BACKOFF_INITIAL, BACKOFF_MAX. lia.
Qed.

Lemma sup_path_delays n b l r k :
  0 <= k -> b = Z.min (BACKOFF_INITIAL * 2 ^ k) BACKOFF_MAX ->
  sup_path n b l r -> sleeps l = delays k (healthy l).
Proof.
  intros Hk Hb Hp. revert k Hk Hb.
  induction Hp as [b|n b tr Hi|n b b' tr tr' r Hi Hp IH]; intros k Hk Hb; [done| |].
  - inversion Hi; subst; try done. cbn. unfold delay. by destruct (_ <=? el).
  - inversion Hi as [| | | | |t h j msg el Hf]; subst. unfold sleeps, healthy. cbn.
    unfold delay in *. destruct (BACKOFF_HEALTHY <=? el) eqn:He; f_equal; try by rewrite Hb.
    + by apply (IH 1).
    + apply IH; [lia|]. by apply double_delay.
Qed.

(** C13: with any clock, serve task and shutdown, the pauses before restarts
    double from 100 ms up to 5 s with each failure in a row, and start over
    after a run of at least 10 s; each one is between those bounds. *)
Theorem backoff_schedule o n r l :
  run (record o) (supervise n) [] = (r, l) ->
  sleeps l = delays 0 (healthy l) /\
  Forall (fun d => BACKOFF_INITIAL <= d <= BACKOFF_MAX) (sleeps l).
Proof.
  intros Hr. apply supervise_run in Hr.
  assert (Hs : sleeps l = delays 0 (healthy l)) by (by eapply sup_path_delays).
  split; [done|]. rewrite Hs. generalize (healthy l). intros hs.
  assert (0 <= 0) as H0 by lia. revert H0. generalize 0 at 2 3. clear.
  induction hs as [|h hs IH]; intros k Hk; constructor.
  - assert (1 <= 2 ^ (if h then 0 else k)) by (apply Z.lt_pred_le, Z.pow_pos_nonneg; destruct h; lia).
    unfold BACKOFF_INITIAL, BACKOFF_MAX. lia.
  - apply IH. destruct h; lia.
Qed.

(** A world in which every serve task fails after [el] ms and nothing else
    happens. *)
Definition failing_oracle (el : Z) (j : Joined) : oracle SupE :=
  fun X e l => match e in SupE X return X with
  | IsTriggered => false
  | Now => 0
  | SpawnServe => length l
  | SelectJoin _ => Some j
  | AbortTask _ => tt
  | ElapsedSince _ => el
  | Stat _ => tt
  | SelectSleep _ => true
  end.

Lemma backoff_schedule_witness :
  sleeps (snd (run (record (failing_oracle 3 Panicked)) (supervise 8) [])) =
  [100; 200; 400; 800; 1600; 3200; 5000; 5000].
Proof.
  rewrite (proj1 (backoff_schedule (failing_oracle 3 Panicked) 8 _ _ (surjective_pairing _))).
  vm_compute. reflexivity.
Defined.

(** ** Restarts *)

(** An event after which the supervisor must not serve again. *)
Definition stop (ev : event SupE) : bool :=
  match ev_call ev in SupE X return X -> bool with
  | IsTriggered => fun b => b
  | SelectJoin _ => fun j => match j with
      | Some (Finished (Err _)) | Some Panicked => false
      | None | Some (Finished (Ok _)) | Some Aborted => true
      end
  | SelectSleep _ => negb
  | _ => fun _ => false
  end (ev_reply ev).

(** The calls made after the first such event. *)
Fixpoint after_stop (l : log) : option log :=
  match l with
  | [] => None
  | ev :: l => if stop ev then Some l else after_stop l
  end.

Lemma after_stop_app l l' : after_stop l = None -> after_stop (l ++ l') = after_stop l'.
Proof. induction l as [|ev l IH]; simpl; [done|]. by destruct (stop ev). Qed.

(** A serve task that ended: it failed, or it is a reason to stop. *)
Lemma failure_stop h j :
  match failure j with
  | Some msg => stop (Ev (SelectJoin h) (Some j)) = false /\
      failures [Ev (SelectJoin h) (Some j)] = [msg]
  | None => stop (Ev (SelectJoin h) (Some j)) = true /\ failures [Ev (SelectJoin h) (Some j)] = []
  end.
Proof. by destruct j as [[]| |]. Qed.

Lemma iter_path_stop b tr r :
  iter_path b tr r ->
  match r with
  | Some _ => after_stop tr = None /\ spawns tr = 1%nat /\ length (failures tr) = 1%nat
  | None => after_stop tr = Some [] \/
      exists t h, tr = start_calls t h ++ [Ev (SelectJoin h) None; Ev (AbortTask h) tt] /\
        after_stop tr = Some [Ev (AbortTask h) tt]
  end.
Proof.
  destruct 1 as [|t h|t h j Hf|t h j msg Hf|t h j msg el Hf|t h j msg el Hf];
    try pose proof (failure_stop h j) as Hj; try rewrite Hf in Hj; cbn in *.
  - by left.
  - right. by exists t, h.
  - left. by rewrite (proj1 Hj).
  - left. by rewrite (proj1 Hj).
  - left. by rewrite (proj1 Hj).
  - rewrite (proj1 Hj). destruct Hj as [_ Hj]. unfold failures in *. cbn in *.
    rewrite app_nil_r in *. by rewrite Hj.
Qed.

Lemma spawns_app l l' : spawns (l ++ l') = (spawns l + spawns l')%nat.
Proof. unfold spawns. by rewrite bind_app, length_app. Qed.

(** C12: in every environment the supervisor restarts the listener after each
    failure or panic, without limit, and returns exactly when it sees the
    shutdown or a clean end of the serve task; after that it starts nothing: it
    makes no call at all, except to abort the serve task that is running. *)
Theorem supervise_restarts o n r l :
  run (record o) (supervise n) [] = (r, l) ->
  match after_stop l with
  | None => is_Some r /\ spawns l = n /\ length (failures l) = n
  | Some post => r = None /\ (post = [] \/
      exists pre t h, l = pre ++ start_calls t h ++ [Ev (SelectJoin h) None; Ev (AbortTask h) tt] /\
        post = [Ev (AbortTask h) tt])
  end.
Proof.
  intros Hr. apply supervise_run in Hr. generalize dependent BACKOFF_INITIAL.
  intros b Hp. induction Hp as [b|n b tr Hi|n b b' tr tr' r Hi Hp IH]; [done| |].
  - destruct (iter_path_stop _ _ _ Hi) as [->|(t & h & Htr & ->)]; [by auto|].
    split; [done|]. right. by exists [], t, h.
  - destruct (iter_path_stop _ _ _ Hi) as (Hs & Hn & Hf). rewrite after_stop_app by done.
    destruct (after_stop tr') as [post|].
    + destruct IH as [-> [->|(pre & t & h & -> & ->)]]; (split; [done|]); [by left|].
      right. exists (tr ++ pre), t, h. by rewrite <- app_assoc.
    + destruct IH as (Hr' & Hn' & Hf'). split; [done|].
      rewrite spawns_app. unfold failures in *. rewrite bind_app, length_app. lia.
Qed.

Lemma supervise_restarts_witness :
  let l := snd (run (record (failing_oracle 3 Panicked)) (supervise 8) []) in
  spawns l = 8%nat /\ length (failures l) = 8%nat.
Proof.
  exact (proj2 (supervise_restarts (failing_oracle 3 Panicked) 8 _ _ (surjective_pairing _))).
Defined.

(** ** The listener's counters *)

Lemma stat_run_app tr tr' s : stat_run (tr ++ tr') s = stat_run tr' (stat_run tr s).
Proof. apply foldl_app. Qed.

(** The counters [s'] are [s] after [k] restarts and the errors [fs]. *)
Record supervised (k : nat) (fs : list str) (s s' : ListenerStats) : Prop := {
  su_restarts : restarts s' = wrap 64 (restarts s + Z.of_nat k);
  su_error : last_error s' = match last fs with Some m => Some m | None => last_error s end;
  su_rest : (accepted s', active s', errors s') = (accepted s, active s, errors s);
}.

Lemma supervised_app k k' fs fs' s s1 s2 :
  supervised k fs s s1 -> supervised k' fs' s1 s2 -> supervised (k + k') (fs ++ fs') s s2.
Proof.
  intros [Hr He Hx] [Hr' He' Hx']. constructor.
  - rewrite Hr', Hr, wrap_add_l. f_equal. lia.
  - rewrite He', He, last_app. by destruct (last fs').
  - congruence.
Qed.

Lemma supervised_fits k fs s s' : supervised k fs s s' -> fits 64 (restarts s').
Proof. intros [-> _ _]. by apply wrap_fits. Qed.

Lemma iter_path_stats b tr r s :
  fits 64 (restarts s) -> iter_path b tr r ->
  supervised (length (sleeps tr)) (failures tr) s (stat_run (stat_ops tr) s).
Proof.
  intros Hs. assert (H0 : restarts s = wrap 64 (restarts s + 0))
    by (rewrite Z.add_0_r, wrap_small; done).
  destruct 1 as [|t h|t h j Hf|t h j msg Hf|t h j msg el Hf|t h j msg el Hf]; [by constructor..| | | |];
    destruct j as [[]| |]; try done; try injection Hf as <-; by constructor.
Qed.

(** The supervisor counts one restart for each pause, keeps the message of
    the last failure as the listener's last error, and touches no other
    counter. *)
Lemma supervise_stats o n r l s :
  run (record o) (supervise n) [] = (r, l) -> fits 64 (restarts s) ->
  let s' := stat_run (stat_ops l) s in
  restarts s' = wrap 64 (restarts s + Z.of_nat (length (sleeps l))) /\
  last_error s' = match last (failures l) with Some m => Some m | None => last_error s end /\
  accepted s' = accepted s /\ active s' = active s /\ errors s' = errors s.
Proof.
  intros Hr Hs. apply supervise_run in Hr.
  assert (Hsup : supervised (length (sleeps l)) (failures l) s (stat_run (stat_ops l) s)).
  { generalize dependent BACKOFF_INITIAL. intros b Hp. revert s Hs.
    induction Hp as [b|n b tr Hi|n b b' tr tr' r Hi Hp IH]; intros s Hs.
    - constructor; [|done|done]. cbn. by rewrite Z.add_0_r, wrap_small.
    - by eapply iter_path_stats.
    - pose proof (iter_path_stats b tr _ s Hs Hi) as H1.
      specialize (IH _ (supervised_fits _ _ _ _ H1)).
      unfold sleeps, failures, stat_ops in *. rewrite !bind_app, stat_run_app, length_app.
      by eapply supervised_app. }
  destruct Hsup as [H1 H2 [= H3 H4 H5]]. auto.
Qed.
