(* ===== verification/Signals.v ===== *)
(** * src/signals.rs: SIGINT and SIGTERM stop the process, SIGUSR1 dumps

    [install] spawns two tasks.  Both are programs over the calls [SigE]; the
    second ends in a loop, given by its set-up and the body of the loop, and
    [usr1_task n] is the task cut after [n] rounds of it. *)

From S2P Require Import Prelude Io.

(** [tokio::signal::unix::SignalKind] *)
Inductive SignalKind := interrupt | terminate | user_defined1.

#[global] Instance SignalKind_eq_dec : EqDecision SignalKind.
Proof. solve_decision. Defined.

Inductive SigE : Type -> Type :=
| NewSignal (k : SignalKind) : SigE (io_result nat)   (* signal(kind): a stream *)
| SelectRecv (a b : nat) : SigE bool                  (* true: a.recv(), false: b.recv() *)
| Recv (s : nat) : SigE (option unit)                 (* s.recv() *)
| TriggerShutdown : SigE unit                         (* sd.trigger() *)
| RunDump : SigE unit.                                (* dump() *)

Definition shutdown_task : prog SigE unit :=
  await r := call (NewSignal interrupt) in
  match (r : io_result nat) with
  | Err _ => Ret tt
  | Ok sigint =>
      await r := call (NewSignal terminate) in
      match (r : io_result nat) with
      | Err _ => Ret tt
      | Ok sigterm =>
          await _ := call (SelectRecv sigint sigterm) in
          call TriggerShutdown
      end
  end.

(** Up to the loop: the stream to read, or [None] when the task returns. *)
Definition usr1_setup : prog SigE (option nat) :=
  await r := call (NewSignal user_defined1) in
  match (r : io_result nat) with
  | Err _ => Ret None
  | Ok sigusr1 => Ret (Some sigusr1)
  end.

(** [while sigusr1.recv().await.is_some() { dump(); }] *)
Definition usr1_iter (sigusr1 : nat) : prog SigE (option nat) :=
  await r := call (Recv sigusr1) in
  match (r : option unit) with
  | None => Ret None
  | Some _ => await _ := call RunDump in Ret (Some sigusr1)
  end.

Fixpoint usr1_loop (n : nat) (sigusr1 : nat) : prog SigE (option nat) :=
  match n with
  | O => Ret (Some sigusr1)
  | S n =>
      await r := usr1_iter sigusr1 in
      match r with None => Ret None | Some s => usr1_loop n s end
  end.

Definition usr1_task (n : nat) : prog SigE (option nat) :=
  await r := usr1_setup in
  match r with None => Ret None | Some s => usr1_loop n s end.

(** ** Properties *)

Definition is_trigger (ev : event SigE) : bool :=
  match ev_call ev with TriggerShutdown => true | _ => false end.

Definition is_dump (ev : event SigE) : bool :=
  match ev_call ev with RunDump => true | _ => false end.

(** A SIGUSR1 received: [recv] answered with a signal. *)
Definition is_usr1 (ev : event SigE) : bool :=
  match ev_call ev in SigE X return X -> bool with
  | Recv _ => fun r => match r with Some _ => true | None => false end
  | _ => fun _ => false
  end (ev_reply ev).

Definition is_failed_install (ev : event SigE) : bool :=
  match ev_call ev in SigE X return X -> bool with
  | NewSignal _ => fun r => negb (is_ok r)
  | _ => fun _ => false
  end (ev_reply ev).

Lemma usr1_loop_run o n s l :
  exists r tr, run (record o) (usr1_loop n s) l = (r, l ++ tr) /\
    tally is_dump tr = tally is_usr1 tr /\ tally is_failed_install tr = 0%nat /\
    (is_Some r -> tally is_usr1 tr = n).
Proof.
  revert l; induction n as [|n IH]; intros l; cbn [usr1_loop].
  - exists (Some s), []. cbn [run]. rewrite app_nil_r. auto.
  - unfold usr1_iter at 1. rewrite run_bind, run_record_call.
    destruct (o _ (Recv s) l) as [u|] eqn:Hr.
    + rewrite run_record_call. set (l1 := _ ++ [Ev RunDump _]). cbn [run].
      destruct (IH l1) as (r & tr & -> & Hd & Hf & Hn). unfold l1. rewrite <- !app_assoc.
      eexists r, _. split; [reflexivity|].
      rewrite !tally_app, Hd, Hf. split; [done|]. split; [done|].
      intros H1. rewrite (Hn H1). done.
    + cbn [run]. eexists None, _. split; [reflexivity|]. repeat split. by intros [? ?].
Qed.

(** C35: in every environment the first task triggers the shutdown exactly once
    when both of its handlers are installed, as its last call and only after a
    signal, and never when one of them fails to install; the SIGUSR1 task makes
    one dump per signal received, goes on as long as signals come, and makes none
    when its handler is not installed. *)
Theorem signals_wiring o n :
  let '(_, l) := run (record o) shutdown_task [] in
  let '(r, l') := run (record o) (usr1_task n) [] in
  (if decide (tally is_failed_install l = 0%nat)
   then exists a b w, l = [Ev (NewSignal interrupt) (Ok a); Ev (NewSignal terminate) (Ok b);
                           Ev (SelectRecv a b) w; Ev TriggerShutdown tt]
   else tally is_trigger l = 0%nat) /\
  tally is_dump l' = tally is_usr1 l' /\
  (if decide (tally is_failed_install l' = 0%nat)
   then is_Some r -> tally is_dump l' = n
   else tally is_dump l' = 0%nat /\ r = None).
Proof.
  destruct (run (record o) shutdown_task []) as [u l] eqn:H1.
  destruct (run (record o) (usr1_task n) []) as [r l'] eqn:H2. split.
  - unfold shutdown_task in H1. rewrite run_record_call in H1.
    destruct (o _ (NewSignal interrupt) _) as [a|e]; [|by injection H1 as <- <-].
    rewrite run_record_call in H1.
    destruct (o _ (NewSignal terminate) _) as [b|e]; [|by injection H1 as <- <-].
    rewrite run_record_call in H1. injection H1 as _ <-. rewrite decide_True by done. cbn [app].
    destruct (o unit _ _). by eauto.
  - unfold usr1_task, usr1_setup in H2. rewrite run_bind, run_record_call in H2.
    destruct (o _ (NewSignal user_defined1) _) as [s|e]; cbn [run app] in H2;
      [|by injection H2 as <- <-].
    destruct (usr1_loop_run o n s [Ev (NewSignal user_defined1) (Ok s)])
      as (r' & tr & Hr & Hd & Hf & Hn). rewrite Hr in H2. injection H2 as <- <-.
    cbn [app]. split; [exact Hd|]. change (tally is_failed_install _) with (tally is_failed_install tr).
    change (tally is_dump _) with (tally is_dump tr). rewrite Hf, Hd. exact Hn.
Qed.
