(* ===== verification/Heartbeat.v ===== *)
(** * The heartbeat tasks of src/app.rs and src/nat/linux.rs

    Both modes spawn a task that prints one line per interval until the
    shutdown; they differ in how the line is made.  [beat_iter] is the body
    of that loop for any program [beat] that makes the line, and [beat_loop n]
    its first [n] rounds. *)

From S2P Require Import Prelude Io Stats.

Inductive TimerE (E : Type -> Type) : Type -> Type :=
| SelectTick (secs : Z) : TimerE E bool     (* sleep(interval); false: shutdown.cancelled() *)
| BeatTriggered : TimerE E bool             (* shutdown.is_triggered() *)
| LogLine (line : str) : TimerE E unit      (* the line printed *)
| Work {X} (e : E X) : TimerE E X.          (* a call made for the line *)
Arguments SelectTick {E} secs.
Arguments BeatTriggered {E}.
Arguments LogLine {E} line.
Arguments Work {E X} e.

Fixpoint work {E A} (p : prog E A) : prog (TimerE E) A :=
  match p with
  | Ret a => Ret a
  | Vis e k => Vis (Work e) (fun x => work (k x))
  end.

Section Heartbeat.
Context {E : Type -> Type} (beat : prog E str).

(** One round; [false] is the [break]. *)
Definition beat_iter (secs : Z) : prog (TimerE E) bool :=
  await slept := call (SelectTick secs) in
  if negb slept then Ret false else
  await trig := call BeatTriggered in
  if (trig : bool) then Ret false else
  await line := work beat in
  await _ := call (LogLine line) in
  Ret true.

Fixpoint beat_loop (n : nat) (secs : Z) : prog (TimerE E) bool :=
  match n with
  | O => Ret true
  | S n =>
      await go := beat_iter secs in
      if (go : bool) then beat_loop n secs else Ret false
  end.

(** ** Properties *)

Definition is_line (ev : event (TimerE E)) : bool :=
  match ev_call ev with LogLine _ => true | _ => false end.

(** A full interval at the end of which the shutdown was not triggered. *)
Definition is_due (ev : event (TimerE E)) : bool :=
  match ev_call ev in TimerE _ X return X -> bool with
  | BeatTriggered => negb
  | _ => fun _ => false
  end (ev_reply ev).

Definition is_wait (ev : event (TimerE E)) : bool :=
  match ev_call ev with SelectTick _ => true | _ => false end.

(** The shutdown seen, in the wait or after it. *)
Definition sees_shutdown (ev : event (TimerE E)) : Prop :=
  match ev_call ev in TimerE _ X return X -> Prop with
  | SelectTick _ => fun slept => slept = false
  | BeatTriggered => fun trig => trig = true
  | _ => fun _ => False
  end (ev_reply ev).

(** Making the line neither waits nor prints. *)
Lemma work_run {A} o (p : prog E A) l :
  exists a tr, run (record o) (work p) l = (a, l ++ tr) /\
    Forall (fun ev => is_line ev = false /\ is_due ev = false /\ is_wait ev = false) tr.
Proof.
  revert l; induction p as [a|X e k IH]; intros l; cbn [work].
  - exists a, []. cbn [run]. by rewrite app_nil_r.
  - cbn [run record]. set (x := o _ _ l). destruct (IH x (l ++ [Ev (Work e) x])) as (a & tr & Hr & Hf).
    exists a, (Ev (Work e) x :: tr). rewrite Hr, <- app_assoc. split; [done|]. by constructor.
Qed.

Lemma beat_iter_run o secs l :
  exists go tr, run (record o) (beat_iter secs) l = (go, l ++ tr) /\
    tally is_wait tr = 1%nat /\
    if go : bool then tally is_line tr = 1%nat /\ tally is_due tr = 1%nat
    else tally is_line tr = 0%nat /\ tally is_due tr = 0%nat /\
      exists pre ev, tr = pre ++ [ev] /\ sees_shutdown ev.
Proof.
  unfold beat_iter. rewrite run_record_call.
  destruct (o _ (SelectTick secs) l) eqn:Hs; cbn [negb].
  2: { eexists false, _. split; [reflexivity|]. repeat split. by eexists [], _. }
  rewrite run_record_call. destruct (o _ BeatTriggered _) eqn:Ht.
  { rewrite <- app_assoc. eexists false, _. split; [reflexivity|]. repeat split. by eexists [_], _. }
  rewrite run_bind. destruct (work_run o beat ((l ++ [Ev (SelectTick secs) true]) ++
    [Ev BeatTriggered false])) as (line & tr & -> & Hf). rewrite run_record_call.
  rewrite <- !app_assoc. eexists true, _. split; [reflexivity|].
  rewrite !tally_app, !(tally_none _ tr); [done|..];
    (eapply Forall_impl; [exact Hf|]; naive_solver).
Qed.

(** In every environment the heartbeat task prints one line for each full
    interval at the end of which the shutdown was not triggered and none
    otherwise, waits once per round, goes on until it sees the shutdown, and then
    makes no further call. *)
Lemma heartbeat_lines o n secs r l :
  run (record o) (beat_loop n secs) [] = (r, l) ->
  tally is_line l = tally is_due l /\
  if r : bool then tally is_line l = n /\ tally is_wait l = n
  else (tally is_wait l = S (tally is_line l) /\ S (tally is_line l) <= n)%nat /\
    exists pre ev, l = pre ++ [ev] /\ sees_shutdown ev.
Proof.
  enough (H : forall l0, exists r tr, run (record o) (beat_loop n secs) l0 = (r, l0 ++ tr) /\
    tally is_line tr = tally is_due tr /\
    if r : bool then tally is_line tr = n /\ tally is_wait tr = n
    else (tally is_wait tr = S (tally is_line tr) /\ S (tally is_line tr) <= n)%nat /\
      exists pre ev, tr = pre ++ [ev] /\ sees_shutdown ev).
  { destruct (H []) as (r' & tr & Hr & Hx). rewrite Hr. by intros [= <- <-]. }
  clear. induction n as [|n IH]; intros l0; cbn [beat_loop].
  - exists true, []. cbn [run]. by rewrite app_nil_r.
  - rewrite run_bind. destruct (beat_iter_run o secs l0) as ([] & tr & -> & Hw & H1).
    + destruct (IH (l0 ++ tr)) as (r & tr' & -> & Hld & Hr). rewrite <- app_assoc.
      exists r, (tr ++ tr'). split; [done|]. rewrite !tally_app. split; [lia|].
      destruct r; [lia|]. destruct Hr as [Hn (pre & ev & -> & Hev)]. split; [lia|].
      exists (tr ++ pre), ev. by rewrite app_assoc.
    + cbn [run]. exists false, tr. split; [done|]. destruct H1 as (H1 & H2 & H3).
      split; [lia|]. split; [lia|done].
Qed.

End Heartbeat.

(** ** Userspace mode: [spawn_heartbeat] of src/app.rs *)

(** The registry's counters as they are when the line is made. *)
Inductive RegE : Type -> Type :=
| ReadRegistry : RegE Registry.

Definition app_beat : prog RegE str :=
  await reg := call ReadRegistry in Ret (heartbeat_line reg).

Definition app_heartbeat (n : nat) (secs : Z) : prog (TimerE RegE) bool := beat_loop app_beat n secs.
