(* ===== verification/Relay.v ===== *)
(** * src/relay.rs: the bidirectional relay

    [copy_one] is a loop around two waiting points, [read] and [write_all]; a
    [Copy] is its state at one of them and [copy_step] runs it to the next.
    [write_all] is the library's loop over [write], so a copy that is cancelled
    can have written a part of its chunk.  [transport] polls two copies, in the
    order [select!] and the sockets choose ([SelectFirst]), until one finishes.
    Loops take fuel; [None] means it ran out, and [transport_terminates] gives
    an amount that is enough. *)

From S2P Require Import Prelude Str Io Netopt.

Inductive CopyPc :=
| AtRead
| AtWrite (rem : list Z) (n : nat).

Record Copy := MkCopy { c_r : Fd; c_w : Fd; c_pc : CopyPc; c_total : Z }.

(** [write_all] when [write] accepts nothing *)
Definition write_zero : io_error := io_new WriteZero "write zero".

Definition copy_new (r w : Fd) : Copy := MkCopy r w AtRead 0.

(** Run a copy to its next waiting point, or to its result. *)
Definition copy_step (buf_size : Z) (c : Copy) : io (Copy + io_result Z) :=
  match c_pc c with
  | AtRead =>
      await r := call (ReadSome (c_r c) buf_size) in
      match (r : io_result (list Z)) with
      | Err e => Ret (inr (Err e))
      | Ok [] => Ret (inr (Ok (c_total c)))
      | Ok buf => Ret (inl (MkCopy (c_r c) (c_w c) (AtWrite buf (length buf)) (c_total c)))
      end
  | AtWrite rem n =>
      await r := call (WriteSome (c_w c) rem) in
      match (r : io_result nat) with
      | Err e => Ret (inr (Err e))
      | Ok 0%nat => Ret (inr (Err write_zero))
      | Ok k =>
          match drop k rem with
          | [] => Ret (inl (MkCopy (c_r c) (c_w c) AtRead (wrap 64 (c_total c + Z.of_nat n))))
          | rem => Ret (inl (MkCopy (c_r c) (c_w c) (AtWrite rem n) (c_total c)))
          end
      end
  end.

Fixpoint copy_loop (fuel : nat) (buf_size : Z) (c : Copy) : io (option (io_result Z)) :=
  match fuel with
  | O => Ret None
  | S fuel =>
      await x := copy_step buf_size c in
      match x with
      | inl c => copy_loop fuel buf_size c
      | inr r => Ret (Some r)
      end
  end.

Definition copy_one (fuel : nat) (r w : Fd) (buf_size : Z) : io (option (io_result Z)) :=
  copy_loop fuel buf_size (copy_new r w).

(** [r.map(|_| ())] *)
Definition discard (r : io_result Z) : io_result unit := let? _ := r in Ok tt.

Fixpoint transport_loop (fuel : nat) (buf_size : Z) (c1 c2 : Copy) : io (option (io_result unit)) :=
  match fuel with
  | O => Ret None
  | S fuel =>
      await first := call SelectFirst in
      if (first : bool) then
        await x := copy_step buf_size c1 in
        match x with
        | inl c1 => transport_loop fuel buf_size c1 c2
        | inr r => Ret (Some (discard r))
        end
      else
        await x := copy_step buf_size c2 in
        match x with
        | inl c2 => transport_loop fuel buf_size c1 c2
        | inr r => Ret (Some (discard r))
        end
  end.

Definition transport (fuel : nat) (a b : Fd) (buf_size : Z) : io (option (io_result unit)) :=
  transport_loop fuel buf_size (copy_new a b) (copy_new b a).

(** ** What passed through a socket, from the log *)

Abbreviation iolog := (list (event IoE)).

Definition read_of (f : Fd) (ev : event IoE) : list Z :=
  match ev_call ev in IoE X return X -> list Z with
  | ReadSome g _ => fun r => match r with
      | Ok bs => if decide (g = f) then bs else []
      | Err _ => []
      end
  | _ => fun _ => []
  end (ev_reply ev).

Definition written_of (f : Fd) (ev : event IoE) : list Z :=
  match ev_call ev in IoE X return X -> list Z with
  | WriteSome g bs => fun r => match r with
      | Ok k => if decide (g = f) then take k bs else []
      | Err _ => []
      end
  | _ => fun _ => []
  end (ev_reply ev).

(** The bytes read from [f] and those accepted by [f]. *)
Definition bytes_read (f : Fd) (l : iolog) : list Z := l ≫= read_of f.
Definition bytes_written (f : Fd) (l : iolog) : list Z := l ≫= written_of f.

(** Documented of [read] and [write]: neither reports more than it was given. *)
Class StreamOracle (o : oracle IoE) : Prop := {
  so_read f n l bs : o _ (ReadSome f n) l = Ok bs -> Z.of_nat (length bs) <= Z.max 0 n;
  so_write f bs l k : o _ (WriteSome f bs) l = Ok k -> (k <= length bs)%nat;
}.

Definition pending (c : Copy) : list Z := match c_pc c with AtRead => [] | AtWrite rem _ => rem end.

(** What a copy has read is what it has written, and what it still holds. *)
Record copy_inv (buf_size : Z) (c : Copy) (l : iolog) : Prop := {
  ci_data : bytes_read (c_r c) l = bytes_written (c_w c) l ++ pending c;
  ci_bound : Z.of_nat (length (pending c)) <= Z.max 0 buf_size;
  ci_total : match c_pc c with
    | AtRead => c_total c = wrap 64 (Z.of_nat (length (bytes_written (c_w c) l)))
    | AtWrite rem n => rem <> [] /\
        wrap 64 (c_total c + Z.of_nat n) =
        wrap 64 (Z.of_nat (length (bytes_written (c_w c) l) + length rem))
    end;
}.

Lemma bytes_read_snoc f l ev : bytes_read f (l ++ [ev]) = bytes_read f l ++ read_of f ev.
Proof. unfold bytes_read. rewrite bind_app. simpl. by rewrite app_nil_r. Qed.

Lemma bytes_written_snoc f l ev : bytes_written f (l ++ [ev]) = bytes_written f l ++ written_of f ev.
Proof. unfold bytes_written. rewrite bind_app. simpl. by rewrite app_nil_r. Qed.

#[export] Hint Rewrite bytes_read_snoc bytes_written_snoc : gust.

(** One step of a copy: it logs one event, on its own side of the sockets. *)
Inductive copy_move (buf_size : Z) (c : Copy) : event IoE -> Copy + io_result Z -> Prop :=
| cm_read bs : c_pc c = AtRead -> bs <> [] -> Z.of_nat (length bs) <= Z.max 0 buf_size ->
    copy_move buf_size c (Ev (ReadSome (c_r c) buf_size) (Ok bs))
      (inl (MkCopy (c_r c) (c_w c) (AtWrite bs (length bs)) (c_total c)))
| cm_eof : c_pc c = AtRead ->
    copy_move buf_size c (Ev (ReadSome (c_r c) buf_size) (Ok [])) (inr (Ok (c_total c)))
| cm_read_err e : c_pc c = AtRead ->
    copy_move buf_size c (Ev (ReadSome (c_r c) buf_size) (Err e)) (inr (Err e))
| cm_part rem n k : c_pc c = AtWrite rem n -> (0 < k < length rem)%nat ->
    copy_move buf_size c (Ev (WriteSome (c_w c) rem) (Ok k))
      (inl (MkCopy (c_r c) (c_w c) (AtWrite (drop k rem) n) (c_total c)))
| cm_whole rem n : c_pc c = AtWrite rem n -> rem <> [] ->
    copy_move buf_size c (Ev (WriteSome (c_w c) rem) (Ok (length rem)))
      (inl (MkCopy (c_r c) (c_w c) AtRead (wrap 64 (c_total c + Z.of_nat n))))
| cm_zero rem n : c_pc c = AtWrite rem n ->
    copy_move buf_size c (Ev (WriteSome (c_w c) rem) (Ok 0%nat)) (inr (Err write_zero))
| cm_write_err rem n e : c_pc c = AtWrite rem n ->
    copy_move buf_size c (Ev (WriteSome (c_w c) rem) (Err e)) (inr (Err e)).

Section Oracle.
Context (o : oracle IoE) `{!StreamOracle o} (buf_size : Z).

Lemma copy_step_run c l :
  exists ev x, run (record o) (copy_step buf_size c) l = (x, l ++ [ev]) /\
    copy_move buf_size c ev x.
Proof.
  unfold copy_step. destruct (c_pc c) as [|rem n] eqn:Hpc; rewrite run_record_call.
  - destruct (o _ (ReadSome _ _) l) as [[|b bs]|e] eqn:Ho; cbn [run];
      do 2 eexists; (split; [reflexivity|]); [by apply cm_eof| |by apply cm_read_err].
    apply cm_read; [done|done|]. by eapply so_read.
  - destruct (o _ (WriteSome _ _) l) as [[|k]|e] eqn:Ho;
      [by eauto using cm_zero| |by eauto using cm_write_err].
    pose proof (so_write _ _ _ _ Ho) as Hk. destruct (drop (S k) rem) as [|b rest] eqn:Hd.
    + assert (S k = length rem) as Hl.
      { apply (f_equal length) in Hd. rewrite length_drop in Hd. simpl in Hd. lia. }
      do 2 eexists. split; [reflexivity|]. rewrite Hl. apply cm_whole; [done|].
      intros ->. simpl in Hl. lia.
    + do 2 eexists. split; [reflexivity|]. rewrite <- Hd. apply cm_part; [done|].
      apply (f_equal length) in Hd. rewrite length_drop in Hd. simpl in Hd. lia.
Qed.

Lemma copy_inv_new r w : copy_inv buf_size (copy_new r w) [].
Proof. constructor; simpl; [done|lia|done]. Qed.

Lemma copy_move_inv c c' ev l :
  copy_inv buf_size c l -> copy_move buf_size c ev (inl c') -> copy_inv buf_size c' (l ++ [ev]).
Proof.
  intros [Hd Hb Ht] Hm. unfold pending in *.
  inversion Hm as [bs Hpc Hne Hl| | |rem n k Hpc Hk|rem n Hpc Hne| |]; subst;
    rewrite Hpc in *; constructor; unfold pending; simpl; autorewrite with gust;
    cbn [read_of written_of ev_call ev_reply]; rewrite ?decide_True, ?app_nil_r by done.
  - by rewrite Hd, app_nil_r.
  - lia.
  - split; [done|]. rewrite Ht, wrap_add_l. f_equal. lia.
  - by rewrite Hd, <- app_assoc, take_drop.
  - rewrite length_drop. lia.
  - destruct Ht as [_ ->]. split.
    + intros H0. apply (f_equal length) in H0. rewrite length_drop in H0. simpl in H0. lia.
    + rewrite length_app, length_take, length_drop. f_equal. lia.
  - by rewrite firstn_all.
  - lia.
  - rewrite firstn_all, length_app. apply Ht.
Qed.

(** Events that finish a copy with an error. *)
Definition failed (ev : event IoE) (e : io_error) : Prop :=
  match ev_call ev in IoE X return X -> Prop with
  | ReadSome _ _ => fun r => r = Err e
  | WriteSome _ _ => fun r => r = Err e \/ (r = Ok 0%nat /\ e = write_zero)
  | _ => fun _ => False
  end (ev_reply ev).

(** When a copy finishes nothing more is read or written; it holds nothing back
    at the end of its input. *)
Lemma copy_move_end c r ev l :
  copy_inv buf_size c l -> copy_move buf_size c ev (inr r) ->
  bytes_read (c_r c) (l ++ [ev]) = bytes_written (c_w c) (l ++ [ev]) ++ pending c /\
  match r with
  | Ok t => ev = Ev (ReadSome (c_r c) buf_size) (Ok []) /\ pending c = [] /\
      t = wrap 64 (Z.of_nat (length (bytes_written (c_w c) (l ++ [ev]))))
  | Err e => failed ev e
  end.
Proof.
  intros [Hd Hb Ht] Hm. unfold pending in *.
  inversion Hm as [|Hpc|e Hpc| | |rem n Hpc|rem n e Hpc]; subst; rewrite Hpc in *;
    autorewrite with gust; cbn [read_of written_of ev_call ev_reply failed];
    rewrite ?decide_True, ?take_0, ?app_nil_r in * by done; auto.
Qed.

Lemma copy_move_ends c c' ev : copy_move buf_size c ev (inl c') -> c_r c' = c_r c /\ c_w c' = c_w c.
Proof. by inversion 1. Qed.

Lemma copy_move_read_other c ev x f : copy_move buf_size c ev x -> f <> c_r c -> read_of f ev = [].
Proof.
  intros Hm Hf. inversion Hm; subst; cbn [read_of ev_call ev_reply]; try done;
    by rewrite decide_False.
Qed.

Lemma copy_move_written_other c ev x f :
  copy_move buf_size c ev x -> f <> c_w c -> written_of f ev = [].
Proof.
  intros Hm Hf. inversion Hm; subst; cbn [written_of ev_call ev_reply]; try done;
    by rewrite decide_False.
Qed.

(** A copy is not affected by events that touch neither of its sockets. *)
Lemma copy_inv_frame c l ev :
  copy_inv buf_size c l -> read_of (c_r c) ev = [] -> written_of (c_w c) ev = [] ->
  copy_inv buf_size c (l ++ [ev]).
Proof.
  intros [Hd Hb Ht] Hr Hw. constructor; autorewrite with gust;
    rewrite ?Hr, ?Hw, ?app_nil_r; done.
Qed.

(** ** One direction *)

Lemma copy_loop_run fuel c l r l' :
  copy_inv buf_size c l -> run (record o) (copy_loop fuel buf_size c) l = (Some r, l') ->
  exists p l0 ev, l' = l0 ++ [ev] /\
    bytes_read (c_r c) l' = bytes_written (c_w c) l' ++ p /\
    Z.of_nat (length p) <= Z.max 0 buf_size /\
    match r with
    | Ok t => ev = Ev (ReadSome (c_r c) buf_size) (Ok []) /\ p = [] /\
        t = wrap 64 (Z.of_nat (length (bytes_written (c_w c) l')))
    | Err e => failed ev e
    end.
Proof.
  revert c l; induction fuel as [|fuel IH]; intros c l Hi; cbn [copy_loop]; [done|].
  rewrite run_bind. destruct (copy_step_run c l) as (ev & [c'|r'] & -> & Hm).
  - intros Hr. destruct (copy_move_ends _ _ _ Hm) as [<- <-].
    eapply IH; [|done]. by eapply copy_move_inv.
  - intros [= -> <-]. destruct (copy_move_end _ _ _ _ Hi Hm) as [Hd Hr].
    exists (pending c), l, ev. repeat split; [done|apply Hi|done].
Qed.

End Oracle.

(** In every environment, when one direction of the relay finishes at the
    end of its input it has written exactly the bytes it read, in order, and
    returns their number; when it fails, the error is the one of its last call,
    what it wrote is a prefix of what it read, and it holds back at most one
    buffer. *)
Lemma copy_one_faithful o `{!StreamOracle o} fuel r w buf_size res l :
  run (record o) (copy_one fuel r w buf_size) [] = (Some res, l) ->
  exists p l0 ev, l = l0 ++ [ev] /\
    bytes_read r l = bytes_written w l ++ p /\ Z.of_nat (length p) <= Z.max 0 buf_size /\
    match res with
    | Ok t => ev = Ev (ReadSome r buf_size) (Ok []) /\ p = [] /\
        t = wrap 64 (Z.of_nat (length (bytes_written w l)))
    | Err e => failed ev e
    end.
Proof. intros Hr. by apply (copy_loop_run o buf_size fuel (copy_new r w) []); [apply copy_inv_new|]. Qed.

(** ** Both directions *)

Section Transport.
Context (o : oracle IoE) `{!StreamOracle o} (buf_size : Z).

(** [c1] copies from [a] to [b] and [c2] from [b] to [a]. *)
Record pair_inv (a b : Fd) (c1 c2 : Copy) (l : iolog) : Prop := {
  pi_ab : a <> b;
  pi_first : copy_inv buf_size c1 l;
  pi_second : copy_inv buf_size c2 l;
  pi_r1 : c_r c1 = a;
  pi_w1 : c_w c1 = b;
  pi_r2 : c_r c2 = b;
  pi_w2 : c_w c2 = a;
}.

Lemma pair_inv_sym a b c1 c2 l : pair_inv a b c1 c2 l -> pair_inv b a c2 c1 l.
Proof. intros []. by constructor. Qed.

(** The bytes moved so far: every step but the last moves at least one. *)
Definition moved (a b : Fd) (l : iolog) : nat :=
  length (bytes_read a l) + length (bytes_written b l) +
  (length (bytes_read b l) + length (bytes_written a l)).

Lemma moved_sym a b l : moved a b l = moved b a l.
Proof. unfold moved. lia. Qed.

Lemma pair_select a b c1 c2 l x :
  pair_inv a b c1 c2 l ->
  pair_inv a b c1 c2 (l ++ [Ev SelectFirst x]) /\
  moved a b (l ++ [Ev SelectFirst x]) = moved a b l.
Proof.
  intros [? H1 H2 ? ? ? ?]. split.
  - by constructor; try apply copy_inv_frame.
  - unfold moved. autorewrite with gust. cbn. by rewrite !app_nil_r.
Qed.

(** A move takes or gives at least one byte. *)
Lemma copy_move_bytes c c' ev :
  copy_move buf_size c ev (inl c') ->
  (0 < length (read_of (c_r c) ev) + length (written_of (c_w c) ev))%nat.
Proof.
  intros Hm. inversion Hm as [bs Hpc Hne| | |rem n k Hpc Hk|rem n Hpc Hne| |]; subst;
    unfold read_of, written_of; cbn; rewrite decide_True by done;
    rewrite ?length_take; [destruct bs|idtac|destruct rem]; cbn; done || lia.
Qed.

Lemma pair_move a b c1 c2 l ev c1' :
  pair_inv a b c1 c2 l -> copy_move buf_size c1 ev (inl c1') ->
  pair_inv a b c1' c2 (l ++ [ev]) /\ (S (moved a b l) <= moved a b (l ++ [ev]))%nat.
Proof.
  intros [Hab H1 H2 Hr1 Hw1 Hr2 Hw2] Hm. destruct (copy_move_ends _ _ _ _ Hm) as [Hr Hw]. split.
  - constructor; [done|by apply (copy_move_inv _ c1)| |congruence..].
    apply copy_inv_frame; [done| |].
    + eapply copy_move_read_other; [done|congruence].
    + eapply copy_move_written_other; [done|congruence].
  - unfold moved. autorewrite with gust. rewrite !length_app.
    pose proof (copy_move_bytes _ _ _ Hm) as Hb. rewrite Hr1, Hw1 in Hb. lia.
Qed.

(** The final state of the relay: what is held back in each direction. *)
Definition relayed (a b : Fd) (r : option (io_result unit)) (l : iolog) : Prop :=
  exists pa pb,
    bytes_read a l = bytes_written b l ++ pa /\ Z.of_nat (length pa) <= Z.max 0 buf_size /\
    bytes_read b l = bytes_written a l ++ pb /\ Z.of_nat (length pb) <= Z.max 0 buf_size /\
    match r with
    | None => True
    | Some (Ok _) => exists l0,
        (l = l0 ++ [Ev (ReadSome a buf_size) (Ok [])] /\ pa = []) \/
        (l = l0 ++ [Ev (ReadSome b buf_size) (Ok [])] /\ pb = [])
    | Some (Err e) => exists l0 ev, l = l0 ++ [ev] /\ failed ev e
    end.

Lemma relayed_none a b c1 c2 l : pair_inv a b c1 c2 l -> relayed a b None l.
Proof.
  intros [_ [Hd1 Hb1 _] [Hd2 Hb2 _] <- <- Hr2 Hw2]. rewrite Hr2, Hw2 in Hd2.
  by exists (pending c1), (pending c2).
Qed.

Lemma relayed_sym a b r l : relayed a b r l -> relayed b a r l.
Proof.
  intros (pa & pb & H1 & H2 & H3 & H4 & H5). exists pb, pa. do 4 (split; [done|]).
  destruct r as [[[]|e]|]; [|done|done]. destruct H5 as [l0 [H5|H5]]; eauto.
Qed.

Lemma pair_end a b c1 c2 l ev r :
  pair_inv a b c1 c2 l -> copy_move buf_size c1 ev (inr r) ->
  relayed a b (Some (discard r)) (l ++ [ev]).
Proof.
  intros [Hab H1 H2 Hr1 Hw1 Hr2 Hw2] Hm. destruct (copy_move_end _ _ _ _ _ H1 Hm) as [Hd Hr].
  assert (H2' : copy_inv buf_size c2 (l ++ [ev])).
  { apply copy_inv_frame; [done|eapply copy_move_read_other|eapply copy_move_written_other];
      (done || congruence). }
  destruct H2' as [Hd2 Hb2 _]. rewrite Hr1, Hw1 in Hd. rewrite Hr2, Hw2 in Hd2.
  exists (pending c1), (pending c2). split; [done|]. split; [apply H1|]. do 2 (split; [done|]).
  destruct r as [t|e]; cbn [discard result_bind]; [|by exists l, ev].
  exists l. left. destruct Hr as (-> & Hp & _). by rewrite Hr1.
Qed.

Lemma transport_loop_run fuel a b c1 c2 l r l' :
  pair_inv a b c1 c2 l ->
  run (record o) (transport_loop fuel buf_size c1 c2) l = (r, l') ->
  relayed a b r l' /\ (r = None -> (fuel + moved a b l <= moved a b l')%nat).
Proof.
  revert c1 c2 l; induction fuel as [|fuel IH]; intros c1 c2 l Hp; cbn [transport_loop].
  - intros [= <- <-]. split; [by eapply relayed_none|]. lia.
  - rewrite run_record_call. destruct (o _ SelectFirst l) eqn:Ho; rewrite run_bind;
      destruct (pair_select a b c1 c2 l (o _ SelectFirst l) Hp) as [Hp1 Hm1];
      rewrite Ho in Hp1, Hm1; rewrite <- Hm1;
      [destruct (copy_step_run o buf_size c1 (l ++ [Ev SelectFirst true])) as (ev & [c|x] & -> & Hm)
      |destruct (copy_step_run o buf_size c2 (l ++ [Ev SelectFirst false])) as (ev & [c|x] & -> & Hm)].
    + destruct (pair_move _ _ _ _ _ _ _ Hp1 Hm) as [Hp2 Hm2]. intros Hr.
      destruct (IH _ _ _ Hp2 Hr) as [? Hf]. split; [done|]. intros H0. specialize (Hf H0). lia.
    + intros [= <- <-]. split; [|done]. by eapply pair_end.
    + apply pair_inv_sym in Hp1. destruct (pair_move _ _ _ _ _ _ _ Hp1 Hm) as [Hp2 Hm2].
      rewrite !(moved_sym b a) in Hm2. apply pair_inv_sym in Hp2. intros Hr.
      destruct (IH _ _ _ Hp2 Hr) as [? Hf]. split; [done|]. intros H0. specialize (Hf H0). lia.
    + intros [= <- <-]. split; [|done]. apply relayed_sym. apply pair_inv_sym in Hp1.
      by eapply pair_end.
Qed.

Lemma pair_inv_new a b : a <> b -> pair_inv a b (copy_new a b) (copy_new b a) [].
Proof. intros Hab. by constructor; try apply copy_inv_new. Qed.

(** C2: in every environment, however the two directions interleave, at every
    moment and when the relay returns, the bytes written to each side are a
    prefix, in order, of those read from the other, less at most one buffer held
    back; it returns [Ok] at the first end of input, when that direction has
    delivered every byte it read, and an error only when its last call failed
    with it. *)
Theorem transport_faithful fuel a b r l :
  a <> b -> run (record o) (transport fuel a b buf_size) [] = (r, l) -> relayed a b r l.
Proof.
  intros Hab Hr. by eapply transport_loop_run; [apply pair_inv_new|].
Qed.

(** No peer sends more than [N] bytes before its end of input or an error. *)
Definition sends_at_most (N : nat) : Prop :=
  forall f n l bs, (length (bytes_read f l) <= N)%nat ->
    o _ (ReadSome f n) l = Ok bs -> (length (bytes_read f l ++ bs) <= N)%nat.

(** No recorded run reads more than the peers send. *)
Lemma record_read_bound {A} N (p : io A) :
  sends_at_most N ->
  forall f, (length (bytes_read f (snd (run (record o) p []))) <= N)%nat.
Proof.
  intros HN. apply (run_inv (record o) (fun l => forall f, length (bytes_read f l) <= N)%nat);
    [|simpl; lia].
  intros X e l Hl f. cbn [record snd]. rewrite bytes_read_snoc. specialize (Hl f).
  destruct e; try (cbn [read_of ev_call ev_reply]; rewrite app_nil_r; exact Hl).
  cbn [read_of ev_call ev_reply]. destruct (o _ (ReadSome _ _) l) as [bs|er] eqn:Ho;
    [|by rewrite app_nil_r]. case_decide as Hf; [subst; by eapply HN|by rewrite app_nil_r].
Qed.

(** C18: if neither peer ever sends more than [N] bytes before its end of input
    or an error, the relay returns after at most [4 N + 1] steps. *)
Theorem transport_terminates fuel a b N r l :
  a <> b ->
  sends_at_most N ->
  (4 * N < fuel)%nat ->
  run (record o) (transport fuel a b buf_size) [] = (r, l) -> is_Some r.
Proof.
  intros Hab HN Hf Hr. destruct r as [r|]; [done|]. exfalso.
  destruct (transport_loop_run _ _ _ _ _ _ _ _ (pair_inv_new a b Hab) Hr) as [Hrel Hm].
  specialize (Hm eq_refl). destruct Hrel as (pa & pb & H1 & _ & H2 & _).
  pose proof (record_read_bound N (transport fuel a b buf_size) HN) as Hb. rewrite Hr in Hb.
  pose proof (Hb a) as Ha. specialize (Hb b). simpl in Ha, Hb. unfold moved in Hm.
  apply (f_equal length) in H1, H2. rewrite length_app in H1, H2. lia.
Qed.

End Transport.

(** A pair of peers: [f] sends what [say f] holds, in pieces of at most
    [piece] bytes, then ends; writes take at most [piece] bytes too. *)
Definition peers (say : Fd -> list Z) (piece : nat) : oracle IoE :=
  fun X e l => match e in IoE X return X with
  | ReadSome f n =>
      Ok (take (Nat.min piece (Z.to_nat n)) (drop (length (bytes_read f l)) (say f)))
  | WriteSome _ bs => Ok (Nat.min piece (length bs))
  | SelectFirst => Nat.even (length l `div` 2)
  | e => ok_oracle _ e []
  end.

#[global] Instance peers_stream say piece : StreamOracle (peers say piece).
Proof.
  constructor; simpl.
  - intros f n l bs [= <-]. rewrite length_take. lia.
  - intros f bs l k [= <-]. lia.
Qed.

Lemma peers_finite say piece N :
  (forall f, length (say f) <= N)%nat -> sends_at_most (peers say piece) N.
Proof.
  intros Hs f n l bs Hl [= <-]. specialize (Hs f). rewrite length_app, length_take, length_drop. lia.
Qed.

Definition example_say (f : Fd) : list Z := if decide (f = 3%nat) then [1; 2; 3; 4; 5] else [7; 8; 9].

Lemma transport_faithful_witness :
  exists l : iolog, run (record (peers example_say 2)) (transport 20 3 4 1024) [] = (Some (Ok tt), l) /\
  relayed 1024 3 4 (Some (Ok tt)) l.
Proof.
  exists (snd (run (record (peers example_say 2)) (transport 20 3 4 1024) [])).
  split; [vm_compute; reflexivity|].
  apply (transport_faithful (peers example_say 2) 1024 20); [lia|vm_compute; reflexivity].
Defined.

Lemma transport_terminates_witness :
  is_Some (fst (run (record (peers example_say 2)) (transport 21 3 4 1024) [])).
Proof.
  eapply (transport_terminates (peers example_say 2) 1024 21 3 4 5);
    [lia| |lia|apply surjective_pairing].
  apply peers_finite. intros f. unfold example_say. case_decide; simpl; lia.
Defined.
