(* ===== verification/Tcp.v ===== *)
(** * src/forward/tcp.rs: accept, dial, relay

    [handle_conn] is a program; the accept loop of [serve] and the connection
    tasks it spawns interleave, so they are a state, [Serve], and a step
    function on the events of the outside, [serve_step].  [None] is a step that
    cannot happen in that state. *)

From S2P Require Import Prelude Str Ip Io Constants Netopt Config Socks5 Chain Stats Relay Supervisor.

(** [Context] of src/runtime.rs *)
Record Context := MkContext {
  ctx_buf_size : Z;
  dialer : Dialer;
  ctx_mark : option Z;
  ctx_sock : SockOpts;
}.

(** The context [run_userspace] of src/app.rs makes *)
Definition context_of (cfg : Config) : Context :=
  MkContext (buf_size cfg) (MkDialer (chain cfg) (mark cfg) (sock cfg)) (mark cfg) (sock cfg).

(** [&targets[i]]; [None] is the panic of an index or a remainder out of range. *)
Definition pick_target (targets : list str) (rr : Z) : option (str * Z) :=
  if (length targets =? 1)%nat then
    t ← targets !! 0%nat; Some (t, rr)
  else if (length targets =? 0)%nat then None
  else
    let i := rr mod Z.of_nat (length targets) in
    t ← targets !! Z.to_nat i; Some (t, wrap 64 (rr + 1)).

Definition dial_failed (target : str) (e : io_error) : io_error :=
  io_new (err_kind e) ("dial " ++ target ++ " failed: " ++ err_msg e).

(** [fuel] bounds the relay only; the outer [option] is the panic of [dial]. *)
Definition handle_conn (fuel : nat) (client : Fd) (ctx : Context) (target : str) :
    option (io (option (io_result unit))) :=
  connect ← dialer_connect (dialer ctx) target;
  Some (
    await r := tune_accepted client (ctx_sock ctx) in
    match r with
    | Err e => Ret (Some (Err e))
    | Ok _ =>
        await r := prog_map_err (dial_failed target) connect in
        match r with
        | Err e => Ret (Some (Err e))
        | Ok backend => transport fuel client backend (ctx_buf_size ctx)
        end
    end).

(** ** The accept loop and its tasks *)

Inductive TaskPhase := Spawned | Running | Done.

#[global] Instance TaskPhase_eq_dec : EqDecision TaskPhase.
Proof. solve_decision. Defined.

Record Task := MkTask { t_client : Fd; t_target : str; t_phase : TaskPhase }.

Definition set_phase (p : TaskPhase) (t : Task) : Task := MkTask (t_client t) (t_target t) p.

Record Serve := MkServe {
  sv_stats : ListenerStats;
  sv_rr : Z;
  sv_tasks : list Task;
  sv_paused : bool;                      (* in the sleep after an accept error *)
  sv_result : option (io_result unit);
}.

Inductive ServeEv :=
| EvCancelled                            (* shutdown.cancelled() resolves *)
| EvAccept (r : io_result Fd)            (* listener.accept() *)
| EvPauseOver                            (* sleep(50 ms) *)
| EvTaskStart (i : nat)                  (* the first poll of a connection task *)
| EvTaskEnd (i : nat) (j : Joined).      (* its handle_conn returns or panics *)

#[global] Instance ServeEv_eq_dec : EqDecision ServeEv.
Proof. solve_decision. Defined.

Definition bind_failed (spec : ListenerSpec) (e : io_error) : io_error :=
  io_new (err_kind e) ("bind " ++ bind_addr spec ++ " failed: " ++ err_msg e).

(** [TcpListener::bind] and the state before the loop *)
Definition serve_start (spec : ListenerSpec) (stats : ListenerStats) (bound : io_result unit) :
    Serve :=
  MkServe stats 0 [] false (match bound with
    | Ok _ => None
    | Err e => Some (Err (bind_failed spec e))
    end).

Definition serve_step (spec : ListenerSpec) (ev : ServeEv) (s : Serve) : option Serve :=
  match ev, sv_result s, sv_paused s with
  | EvCancelled, None, false =>
      Some (MkServe (sv_stats s) (sv_rr s) (sv_tasks s) false (Some (Ok tt)))
  | EvAccept (Err e), None, false =>
      Some (MkServe (inc_error (sv_stats s)) (sv_rr s) (sv_tasks s) true None)
  | EvPauseOver, None, true =>
      Some (MkServe (sv_stats s) (sv_rr s) (sv_tasks s) false None)
  | EvAccept (Ok client), None, false =>
      '(target, rr) ← pick_target (targets spec) (sv_rr s);
      Some (MkServe (sv_stats s) rr (sv_tasks s ++ [MkTask client target Spawned]) false None)
  | EvTaskStart i, r, paused =>
      t ← sv_tasks s !! i;
      if decide (t_phase t = Spawned) then
        Some (MkServe (on_accept (sv_stats s)) (sv_rr s)
          (<[i := set_phase Running t]> (sv_tasks s)) paused r)
      else None
  | EvTaskEnd i j, r, paused =>
      t ← sv_tasks s !! i;
      if decide (t_phase t = Running) then
        let stats := match j with Finished (Err _) => inc_error (sv_stats s) | _ => sv_stats s end in
        Some (MkServe (drop_guard stats) (sv_rr s) (<[i := set_phase Done t]> (sv_tasks s)) paused r)
      else None
  | _, _, _ => None
  end.

Fixpoint serve_run (spec : ListenerSpec) (evs : list ServeEv) (s : Serve) : option Serve :=
  match evs with
  | [] => Some s
  | ev :: evs => s ← serve_step spec ev s; serve_run spec evs s
  end.

(** ** Round robin *)

Definition index (ts : list str) (rr : Z) : nat := Z.to_nat (rr mod Z.of_nat (length ts)).

Definition advance (ts : list str) (rr : Z) : Z :=
  if (length ts =? 1)%nat then rr else wrap 64 (rr + 1).

Lemma index_lt ts rr : ts <> [] -> (index ts rr < length ts)%nat.
Proof.
  intros Hne. unfold index. assert (0 < Z.of_nat (length ts)) by (destruct ts; [done|simpl; lia]).
  pose proof (Z.mod_pos_bound rr _ H). lia.
Qed.

Lemma pick_target_eq ts rr :
  ts <> [] -> exists t, ts !! index ts rr = Some t /\ pick_target ts rr = Some (t, advance ts rr).
Proof.
  intros Hne. destruct (lookup_lt_is_Some_2 ts (index ts rr) (index_lt ts rr Hne)) as [t Ht].
  exists t. split; [done|]. unfold pick_target, advance.
  destruct ts as [|t0 [|t1 ts]]; [done| |].
  - unfold index in Ht. simpl in Ht. rewrite Z.mod_1_r in Ht. by simplify_eq/=.
  - unfold index in Ht. cbn [length Nat.eqb] in *. by rewrite Ht.
Qed.

Lemma pick_target_Some ts rr t rr' :
  pick_target ts rr = Some (t, rr') -> ts <> [] /\ ts !! index ts rr = Some t /\ rr' = advance ts rr.
Proof.
  intros Hp. assert (ts <> []) as Hne by (by intros ->).
  destruct (pick_target_eq ts rr Hne) as (t' & Ht & Hp'). by simplify_eq.
Qed.

(** The targets of [n] connections in a row. *)
Fixpoint picks (n : nat) (ts : list str) (rr : Z) : option (list str) :=
  match n with
  | O => Some []
  | S n =>
      '(t, rr) ← pick_target ts rr;
      l ← picks n ts rr;
      Some (t :: l)
  end.

Lemma picks_lookup n ts rr :
  ts <> [] -> 0 <= rr -> rr + Z.of_nat n <= 2 ^ 64 ->
  exists l, picks n ts rr = Some l /\ length l = n /\
    forall i, (i < n)%nat -> l !! i = ts !! index ts (rr + Z.of_nat i).
Proof.
  intros Hne. revert rr; induction n as [|n IH]; intros rr H0 Hw; simpl.
  - exists []. repeat split. lia.
  - destruct (pick_target_eq ts rr Hne) as (t & Ht & ->). simpl.
    destruct (decide (n = 0%nat)) as [->|Hn0].
    { exists [t]. repeat split. intros [|i] Hlt; simpl; [by rewrite Z.add_0_r|lia]. }
    assert (Ha : advance ts rr = rr /\ length ts = 1%nat \/ advance ts rr = rr + 1).
    { unfold advance. destruct (Nat.eqb_spec (length ts) 1); [by left|right].
      apply wrap_small. unfold fits. lia. }
    destruct (IH (advance ts rr)) as (l & -> & Hn & Hi); [lia|lia|].
    exists (t :: l). repeat split; [simpl; lia|].
    intros [|i] Hlt; simpl; [by rewrite Z.add_0_r|].
    rewrite Hi by lia. f_equal. destruct Ha as [[-> Hl]| ->].
    + unfold index. by rewrite Hl, !Z.mod_1_r.
    + f_equal. lia.
Qed.

Lemma index_add ts rr i :
  ts <> [] -> 0 <= rr -> (i < length ts)%nat ->
  index ts (rr + Z.of_nat i) =
  if decide (index ts rr + i < length ts)%nat then (index ts rr + i)%nat
  else (index ts rr + i - length ts)%nat.
Proof.
  intros Hne H0 Hi. unfold index. set (n := Z.of_nat (length ts)).
  assert (0 < n) by (unfold n; lia). pose proof (Z.mod_pos_bound rr n H) as Hm.
  rewrite <- Zplus_mod_idemp_l. case_decide.
  - rewrite Z.mod_small; lia.
  - replace (rr mod n + Z.of_nat i) with (rr mod n + Z.of_nat i - n + 1 * n) by lia.
    rewrite Z_mod_plus_full, Z.mod_small; lia.
Qed.

(** Over any run of as many connections as there are targets (the counter
    not wrapping), every target is picked once: the picks are the target list,
    rotated to the counter's position. *)
Lemma round_robin_fair ts rr :
  ts <> [] -> 0 <= rr -> rr + Z.of_nat (length ts) <= 2 ^ 64 ->
  picks (length ts) ts rr = Some (drop (index ts rr) ts ++ take (index ts rr) ts).
Proof.
  intros Hne H0 Hw. destruct (picks_lookup (length ts) ts rr Hne H0 Hw) as (l & -> & Hn & Hi).
  f_equal. pose proof (index_lt ts rr Hne) as Hk. apply list_eq. intros i.
  destruct (decide (i < length ts)%nat) as [Hlt|Hge].
  - rewrite Hi, index_add by done. case_decide as Hd.
    + rewrite lookup_app_l by (rewrite length_drop; lia). by rewrite lookup_drop.
    + rewrite lookup_app_r by (rewrite length_drop; lia).
      rewrite length_drop, lookup_take_lt by lia. f_equal. lia.
  - rewrite !lookup_ge_None_2; [done| |lia]. rewrite length_app, length_drop, length_take. lia.
Qed.

(** ** The accept loop *)

Definition in_phase (p : TaskPhase) (ts : list Task) : nat :=
  length (List.filter (fun t => bool_decide (t_phase t = p)) ts).

Definition started (ts : list Task) : nat :=
  length (List.filter (fun t => bool_decide (t_phase t <> Spawned)) ts).

Lemma filter_insert_length {A} (f : A -> bool) xs i x y :
  xs !! i = Some x ->
  (length (List.filter f (<[i := y]> xs)) + Nat.b2n (f x) =
   length (List.filter f xs) + Nat.b2n (f y))%nat.
Proof.
  revert i; induction xs as [|z xs IH]; intros [|i] Hi; simplify_eq/=.
  - destruct (f x), (f y); simpl; lia.
  - specialize (IH i Hi). destruct (f z); simpl; lia.
Qed.

(** Events that count as errors. *)
Definition is_error (ev : ServeEv) : bool :=
  match ev with
  | EvAccept (Err _) | EvTaskEnd _ (Finished (Err _)) => true
  | _ => false
  end.

Record serve_inv (spec : ListenerSpec) (errs : nat) (s : Serve) : Prop := {
  si_gauge : counted (in_phase Running (sv_tasks s)) (started (sv_tasks s)) (sv_stats s);
  si_errors : errors (sv_stats s) = wrap 64 (Z.of_nat errs);
  si_rr : length (targets spec) = 1%nat \/
    sv_rr s = wrap 64 (Z.of_nat (length (sv_tasks s)));
  si_targets : forall k t, sv_tasks s !! k = Some t ->
    targets spec !! index (targets spec) (wrap 64 (Z.of_nat k)) = Some (t_target t);
}.

Lemma index_one ts rr rr' : length ts = 1%nat -> index ts rr = index ts rr'.
Proof. intros Hl. unfold index. by rewrite Hl, !Z.mod_1_r. Qed.

Lemma serve_accept_inv spec errs s client t rr' :
  serve_inv spec errs s -> pick_target (targets spec) (sv_rr s) = Some (t, rr') ->
  serve_inv spec errs
    (MkServe (sv_stats s) rr' (sv_tasks s ++ [MkTask client t Spawned]) false None).
Proof.
  intros [Hg He Hr Ht] Hp. apply pick_target_Some in Hp as (Hne & Hpt & ->).
  constructor; simpl.
  - unfold in_phase, started. rewrite !List.filter_app. simpl. by rewrite !app_nil_r.
  - done.
  - destruct (decide (length (targets spec) = 1%nat)) as [|Hl]; [by left|right].
    destruct Hr as [Hr|Hr]; [done|]. unfold advance.
    rewrite (proj2 (Nat.eqb_neq _ _) Hl), length_app, Hr, wrap_add_l. f_equal. simpl. lia.
  - intros k t' Hk. apply lookup_snoc_Some in Hk as [[_ Hk]|[-> <-]]; [by apply Ht|].
    simpl. destruct Hr as [Hr|Hr]; [by rewrite (index_one _ _ (sv_rr s))|by rewrite <- Hr].
Qed.

(** A task changes phase: what the counts of tasks become. *)
Lemma phase_count ts i t p q :
  ts !! i = Some t ->
  (in_phase p (<[i := set_phase q t]> ts) + Nat.b2n (bool_decide (t_phase t = p)) =
   in_phase p ts + Nat.b2n (bool_decide (q = p)))%nat.
Proof. apply (filter_insert_length (fun t => bool_decide (t_phase t = p)) ts i t (set_phase q t)). Qed.

Lemma started_count ts i t q :
  ts !! i = Some t ->
  (started (<[i := set_phase q t]> ts) + Nat.b2n (bool_decide (t_phase t <> Spawned)) =
   started ts + Nat.b2n (bool_decide (q <> Spawned)))%nat.
Proof. apply (filter_insert_length (fun t => bool_decide (t_phase t <> Spawned)) ts i t (set_phase q t)). Qed.

Lemma phase_targets spec (ts : list Task) i t q :
  ts !! i = Some t ->
  (forall k t, ts !! k = Some t ->
    targets spec !! index (targets spec) (wrap 64 (Z.of_nat k)) = Some (t_target t)) ->
  forall k t', <[i := set_phase q t]> ts !! k = Some t' ->
    targets spec !! index (targets spec) (wrap 64 (Z.of_nat k)) = Some (t_target t').
Proof.
  intros Hi Hall k t' Hk. apply list_lookup_insert_Some in Hk as [(-> & <- & _)|[_ Hk]].
  - by apply (Hall k t).
  - by apply (Hall k).
Qed.

(** The counters after a step, other connections ([live] of [made]) being
    counted in them too. *)
Lemma serve_step_counted spec ev s s' live made :
  serve_step spec ev s = Some s' ->
  counted (live + in_phase Running (sv_tasks s)) (made + started (sv_tasks s)) (sv_stats s) ->
  counted (live + in_phase Running (sv_tasks s')) (made + started (sv_tasks s')) (sv_stats s').
Proof.
  unfold serve_step. intros Hp Hg. destruct ev as [|[client|e]| |i|i j].
  - destruct (sv_result s), (sv_paused s); try done. by injection Hp as <-.
  - destruct (sv_result s), (sv_paused s); try done. apply bind_Some in Hp as ([t rr] & _ & [= <-]). simpl.
    unfold in_phase, started. rewrite !List.filter_app. simpl. by rewrite !app_nil_r.
  - destruct (sv_result s), (sv_paused s); try done. injection Hp as <-. by apply (counted_other _ _ IncError).
  - destruct (sv_result s), (sv_paused s); try done. by injection Hp as <-.
  - apply bind_Some in Hp as (t & Hi & Hp). case_decide as Hph; [|done]. injection Hp as <-.
    pose proof (phase_count _ i t Running Running Hi) as Hc.
    pose proof (started_count _ i t Running Hi) as Hn. rewrite Hph in *. simpl in *.
    replace (in_phase _ _) with (S (in_phase Running (sv_tasks s))) by lia.
    replace (started _) with (S (started (sv_tasks s))) by lia.
    rewrite !Nat.add_succ_r. by apply counted_accept.
  - apply bind_Some in Hp as (t & Hi & Hp). case_decide as Hph; [|done]. injection Hp as <-.
    pose proof (phase_count _ i t Running Done Hi) as Hc.
    pose proof (started_count _ i t Done Hi) as Hn. rewrite Hph in *. simpl in *.
    replace (started (sv_tasks s)) with (started (<[i:=set_phase Done t]> (sv_tasks s))) in Hg by lia.
    replace (in_phase Running (sv_tasks s))
      with (S (in_phase Running (<[i:=set_phase Done t]> (sv_tasks s)))) in Hg by lia.
    rewrite Nat.add_succ_r in Hg. apply counted_drop.
    destruct j as [[]| |]; [done|by apply (counted_other _ _ IncError)|done|done].
Qed.

Lemma serve_step_stats spec ev s s' :
  serve_step spec ev s = Some s' ->
  errors (sv_stats s') = (if is_error ev then fetch_add (errors (sv_stats s)) else errors (sv_stats s)) /\
  restarts (sv_stats s') = restarts (sv_stats s) /\
  last_error (sv_stats s') = last_error (sv_stats s).
Proof.
  unfold serve_step. destruct ev as [|[client|e]| |i|i j].
  - destruct (sv_result s), (sv_paused s); try done. by intros [= <-].
  - destruct (sv_result s), (sv_paused s); try done. intros Hp. by apply bind_Some in Hp as ([t rr] & _ & [= <-]).
  - destruct (sv_result s), (sv_paused s); try done. by intros [= <-].
  - destruct (sv_result s), (sv_paused s); try done. by intros [= <-].
  - intros Hp. apply bind_Some in Hp as (t & _ & Hp). case_decide; [|done]. by injection Hp as <-.
  - intros Hp. apply bind_Some in Hp as (t & _ & Hp). case_decide; [|done]. injection Hp as <-.
    by destruct j as [[]| |].
Qed.

Lemma serve_step_inv spec errs ev s s' :
  serve_inv spec errs s -> serve_step spec ev s = Some s' ->
  serve_inv spec (errs + Nat.b2n (is_error ev)) s'.
Proof.
  intros Hs Hp. pose proof Hs as [Hg He Hr Ht].
  pose proof (serve_step_counted _ _ _ _ 0 0 Hp Hg) as Hg'.
  assert (He' : errors (sv_stats s') = wrap 64 (Z.of_nat (errs + Nat.b2n (is_error ev)))).
  { rewrite (proj1 (serve_step_stats _ _ _ _ Hp)), He. destruct (is_error ev); simpl.
    - rewrite fetch_add_wrap. f_equal. lia.
    - by rewrite Nat.add_0_r. }
  revert Hp Hg' He'. unfold serve_step. destruct ev as [|[client|e]| |i|i j].
  - destruct (sv_result s), (sv_paused s); try done. intros [= <-] Hg' He'. by constructor.
  - destruct (sv_result s), (sv_paused s); try done. intros Hp. apply bind_Some in Hp as ([t rr] & Hp & [= <-]).
    intros _ _. rewrite Nat.add_0_r. by apply serve_accept_inv.
  - destruct (sv_result s), (sv_paused s); try done. intros [= <-] Hg' He'. by constructor.
  - destruct (sv_result s), (sv_paused s); try done. intros [= <-] Hg' He'. by constructor.
  - intros Hp. apply bind_Some in Hp as (t & Hi & Hp). case_decide as Hph; [|done].
    injection Hp as <-. intros Hg' He'.
    constructor; simpl; [done|done|by rewrite length_insert|by apply phase_targets].
  - intros Hp. apply bind_Some in Hp as (t & Hi & Hp). case_decide as Hph; [|done].
    injection Hp as <-. intros Hg' He'.
    constructor; simpl; [done|done|by rewrite length_insert|by apply phase_targets].
Qed.

Definition count_errors (evs : list ServeEv) : nat := length (List.filter is_error evs).

Lemma serve_run_inv spec errs evs s s' :
  serve_inv spec errs s -> serve_run spec evs s = Some s' ->
  serve_inv spec (errs + count_errors evs) s'.
Proof.
  revert errs s; induction evs as [|ev evs IH]; intros errs s Hs; simpl.
  - intros [= <-]. by rewrite Nat.add_0_r.
  - intros Hr. apply bind_Some in Hr as (s1 & H1 & Hr).
    pose proof (serve_step_inv _ _ _ _ _ Hs H1) as Hs1. specialize (IH _ _ Hs1 Hr).
    unfold count_errors in *. simpl. destruct (is_error ev); simpl in *;
      [|by rewrite Nat.add_0_r in IH].
    by rewrite <- Nat.add_assoc in IH.
Qed.

Lemma serve_start_inv spec nm pr : serve_inv spec 0 (serve_start spec (stats_new nm pr) (Ok tt)).
Proof. constructor; [apply counted_new|done|by right|done]. Qed.

(** C17: whatever the order in which connections arrive, start, end, fail or
    panic, the listener's gauge is the number of connections being handled,
    [accepted] the number of those started, [errors] that of failed accepts and
    of connections that ended with an error, and the k-th connection goes to
    target k modulo the number of targets (counters modulo 2^64). *)
Theorem tcp_serve_counts spec nm pr evs s :
  serve_run spec evs (serve_start spec (stats_new nm pr) (Ok tt)) = Some s ->
  active (sv_stats s) = wrap 64 (Z.of_nat (in_phase Running (sv_tasks s))) /\
  accepted (sv_stats s) = wrap 64 (Z.of_nat (started (sv_tasks s))) /\
  errors (sv_stats s) = wrap 64 (Z.of_nat (count_errors evs)) /\
  forall k t, sv_tasks s !! k = Some t ->
    targets spec !! index (targets spec) (wrap 64 (Z.of_nat k)) = Some (t_target t).
Proof.
  intros Hr. destruct (serve_run_inv _ _ _ _ _ (serve_start_inv spec nm pr) Hr)
    as [[Ha Hc _] He _ Ht]. auto.
Qed.

Definition example_spec : ListenerSpec :=
  MkListener Tcp ":80" 80 ["a:1"%string : str; "b:2"%string : str] true "tcp://:80".

Definition example_events : list ServeEv :=
  [EvAccept (Ok 5%nat); EvAccept (Err (io_other "EMFILE")); EvTaskStart 0; EvPauseOver;
   EvAccept (Ok 6%nat); EvTaskStart 1; EvTaskEnd 0 (Finished (Err (io_other "reset")))].

Lemma tcp_serve_counts_witness :
  exists s, serve_run example_spec example_events
    (serve_start example_spec (stats_new "tcp://:80" "tcp") (Ok tt)) = Some s /\
  active (sv_stats s) = 1 /\ accepted (sv_stats s) = 2 /\ errors (sv_stats s) = 2.
Proof.
  eexists. split; [vm_compute; reflexivity|].
  edestruct (tcp_serve_counts example_spec "tcp://:80" "tcp" example_events)
    as (Ha & Hc & He & _); [vm_compute; reflexivity|].
  split; [exact Ha|]. split; [exact Hc|exact He].
Defined.

(** ** The loop goes on until the shutdown *)

Lemma serve_run_snoc spec evs ev s :
  serve_run spec (evs ++ [ev]) s = (s ← serve_run spec evs s; serve_step spec ev s).
Proof.
  revert s; induction evs as [|e evs IH]; intros s; simpl.
  - by destruct (serve_step spec ev s).
  - destruct (serve_step spec e s); simpl; [apply IH|done].
Qed.

Lemma serve_step_result spec ev s s' :
  serve_step spec ev s = Some s' ->
  sv_result s' = match ev with EvCancelled => Some (Ok tt) | _ => sv_result s end /\
  (ev = EvCancelled -> sv_result s = None).
Proof.
  unfold serve_step. destruct ev as [|[c|e]| |i|i j].
  - destruct (sv_result s), (sv_paused s); try done. by intros [= <-].
  - destruct (sv_result s), (sv_paused s); try done. intros Hp. by apply bind_Some in Hp as ([] & _ & [= <-]).
  - destruct (sv_result s), (sv_paused s); try done. by intros [= <-].
  - destruct (sv_result s), (sv_paused s); try done. by intros [= <-].
  - intros Hp. apply bind_Some in Hp as (t & _ & Hp). case_decide; [|done]. by injection Hp as <-.
  - intros Hp. apply bind_Some in Hp as (t & _ & Hp). case_decide; [|done]. by injection Hp as <-.
Qed.

(** The state after the pause, if the loop is in one. *)
Definition awake (spec : ListenerSpec) (s : Serve) : option Serve :=
  if sv_paused s then serve_step spec EvPauseOver s else Some s.

(** C26: once bound, the accept loop ends only when the shutdown is seen, and
    then with [Ok]; until then, once the pause after an accept error is over if
    it is in one, it accepts every connection and survives every accept error
    with one more such pause, and no choice of a target panics. *)
Theorem tcp_serve_survives spec stats evs s :
  listener_ok spec -> serve_run spec evs (serve_start spec stats (Ok tt)) = Some s ->
  sv_result s = (if decide (EvCancelled ∈ evs) then Some (Ok tt) else None) /\
  (EvCancelled ∉ evs -> exists s1, awake spec s = Some s1 /\
    forall r, exists s', serve_step spec (EvAccept r) s1 = Some s' /\
      sv_result s' = None /\ sv_paused s' = negb (is_ok r)).
Proof.
  intros Hok Hr.
  assert (Hres : sv_result s = (if decide (EvCancelled ∈ evs) then Some (Ok tt) else None)).
  { revert s Hr. induction evs as [|ev evs IH] using rev_ind; intros s Hr.
    - injection Hr as <-. by rewrite decide_False by set_solver.
    - rewrite serve_run_snoc in Hr. apply bind_Some in Hr as (s1 & Hs1 & Hr).
      specialize (IH s1 Hs1). apply serve_step_result in Hr as [-> _].
      destruct ev; rewrite ?IH; repeat case_decide; set_solver. }
  split; [done|]. intros Hn. rewrite decide_False in Hres by done.
  assert (exists s1, awake spec s = Some s1 /\ sv_result s1 = None /\ sv_paused s1 = false)
    as (s1 & Hs1 & Hr1 & Hp1).
  { unfold awake. destruct (sv_paused s) eqn:Hp; [|by eauto].
    cbn [serve_step]. rewrite Hres, Hp. by eexists. }
  exists s1. split; [done|]. intros r. unfold serve_step. rewrite Hr1, Hp1.
  destruct r as [client|e]; [|eauto].
  destruct (pick_target_eq (targets spec) (sv_rr s1) (lo_targets spec Hok)) as (t & _ & ->).
  simpl. eauto.
Qed.

Lemma tcp_serve_survives_witness :
  exists s, serve_run example_spec example_events
    (serve_start example_spec (stats_new "tcp://:80" "tcp") (Ok tt)) = Some s /\
  sv_result s = None.
Proof.
  eexists. split; [vm_compute; reflexivity|].
  refine (proj1 (tcp_serve_survives example_spec (stats_new "tcp://:80" "tcp") example_events _ _ _)).
  - constructor; [done| |split; [discriminate|reflexivity]].
    constructor; [by exists "a", 1|]. constructor; [by exists "b", 2|constructor].
  - vm_compute. reflexivity.
Defined.

(** ** One connection *)

Lemma dialer_connect_total d t : is_Some (dialer_connect d t).
Proof. unfold dialer_connect, dial. destruct (d_chain d); eauto. Qed.

(** The calls made before the relay starts: socket options of the client, then
    the dial. *)
Definition set_up (client : Fd) (ctx : Context) (target : str) (connect : io (io_result Fd)) :
    io (io_result Fd) :=
  await? _ := tune_accepted client (ctx_sock ctx) in
  prog_map_err (dial_failed target) connect.

Lemma handle_conn_eq fuel client ctx target :
  exists connect p, dialer_connect (dialer ctx) target = Some connect /\
    handle_conn fuel client ctx target = Some p /\
    forall S (h : handler IoE S) s, run h p s =
      match run h (set_up client ctx target connect) s with
      | (Err e, s') => (Some (Err e), s')
      | (Ok backend, s') => run h (transport fuel client backend (ctx_buf_size ctx)) s'
      end.
Proof.
  destruct (dialer_connect_total (dialer ctx) target) as [connect Hc].
  unfold handle_conn. rewrite Hc. do 2 eexists. split; [done|]. split; [done|].
  intros S h s. unfold set_up. rewrite run_bind, run_bind_ok.
  destruct (run h (tune_accepted _ _) s) as [[u|e] s1]; [|done].
  rewrite run_bind. by destruct (run h (prog_map_err _ _) s1) as [[fd|e] s2].
Qed.

(** C24: a connection handler never panics; it tunes the client's socket, dials
    the target and only then relays, so its first error is returned, a dial
    error naming the target; from there on every byte passes between the client
    and the dialed stream in order, as the relay promises. *)
Theorem handle_conn_relays o `{!StreamOracle o} fuel client ctx target :
  exists connect p, dialer_connect (dialer ctx) target = Some connect /\
    handle_conn fuel client ctx target = Some p /\
    let '(r, l) := run (record o) p [] in
    match run (record o) (set_up client ctx target connect) [] with
    | (Err e, l0) => r = Some (Err e) /\ l = l0
    | (Ok backend, l0) => client <> backend ->
        exists l1, l = l0 ++ l1 /\ relayed (ctx_buf_size ctx) client backend r l1
    end.
Proof.
  destruct (handle_conn_eq fuel client ctx target) as (connect & p & Hc & Hp & Hrun).
  exists connect, p. split; [done|]. split; [done|]. rewrite Hrun.
  destruct (run (record o) (set_up _ _ _ _) []) as [[backend|e] l0]; [|done].
  pose proof (run_record_shift o (transport fuel client backend (ctx_buf_size ctx)) l0 []) as Hs.
  rewrite app_nil_r in Hs. rewrite Hs. set (o' := fun X e l => o X e (l0 ++ l)).
  destruct (run (record o') _ []) as [r l1] eqn:Hr. intros Hne. exists l1. split; [done|].
  assert (StreamOracle o') by (destruct StreamOracle0; constructor; unfold o'; eauto).
  by apply (transport_loop_run o' _ fuel client backend _ _ [] r l1 (pair_inv_new _ _ _ Hne)).
Qed.

Definition example_ctx : Context := MkContext 1024 (MkDialer [] None default_opts) None default_opts.

Lemma handle_conn_relays_witness :
  exists p l1, handle_conn 40 9 example_ctx "1.2.3.4:80" = Some p /\
    relayed 1024 9 3 (fst (run (record (peers example_say 2)) p [])) l1.
Proof.
  destruct (handle_conn_relays (peers example_say 2) 40 9 example_ctx "1.2.3.4:80")
    as (connect & p & Hc & Hp & Hrun). exists p.
  assert (Hup : fst (run (record (peers example_say 2))
    (set_up 9 example_ctx "1.2.3.4:80" connect) []) = Ok 3%nat).
  { injection Hc as <-. vm_compute. reflexivity. }
  destruct (run (record (peers example_say 2)) p []) as [r l].
  destruct (run _ (set_up _ _ _ _) []) as [x l0]. simpl in Hup. subst x.
  destruct (Hrun ltac:(done)) as (l1 & _ & Hrel). by exists l1.
Defined.
