(* ===== verification/Tunnel.v ===== *)
(** * A connection end to end

    A client, the connection handler of src/forward/tcp.rs with the dialer, the
    SOCKS5 client and the relay it runs, a chain of proxies and a target behind
    them.  [Tunnel] is the whole of it: the proxies ([Net] of Chain.v), what the
    client has left to send and has received, and what the target has received;
    the target's own bytes come out of the last proxy.  [tunnel] answers every call
    of the handler, in pieces and in an order that [pick] chooses. *)

From S2P Require Import Prelude Str Ip Io Interference Constants Netopt Config Stats Socks5 Chain Relay Tcp.

Record Tunnel := MkTunnel {
  tn_net : Net;
  tn_time : nat;              (* calls of the relay so far *)
  tn_up : list Z;             (* sent by the client, not read yet *)
  tn_down : list Z;           (* received by the client *)
  tn_target : list Z;         (* received by the target *)
}.

Definition set_net (n : Net) (s : Tunnel) : Tunnel :=
  MkTunnel n (tn_time s) (tn_up s) (tn_down s) (tn_target s).

(** Some of [cap] bytes, at least one if there are any. *)
Definition portion (c cap : nat) : nat := match cap with O => 0%nat | S m => S (c mod S m) end.

Lemma portion_bound c cap : (portion c cap <= cap)%nat /\ ((0 < cap)%nat -> (0 < portion c cap)%nat).
Proof.
  destruct cap as [|m]; cbn [portion]; [lia|]. pose proof (Nat.mod_upper_bound c (S m)). lia.
Qed.

(** The bytes of the target that the last proxy has handed on and nobody has read. *)
Definition unread (n : Net) : list Z := outbuf (cur n).

Definition set_unread (bs : list Z) (n : Net) : Net :=
  MkNet (reached n) (MkSrv (phase (cur n)) (inbuf (cur n)) bs) (cur_cfg n) (next n).

(** The last proxy relays. *)
Definition open (n : Net) : Prop := (exists d p, phase (cur n) = PRelay d p) /\ next n = [].

Section Tunnel.
Context (pick : nat -> nat) (client : Fd).

Definition read_part (n : Z) (s : Tunnel) (src : list Z) : nat :=
  portion (pick (tn_time s)) (Nat.min (Z.to_nat n) (length src)).

Definition tunnel_read (f : Fd) (n : Z) (s : Tunnel) : io_result (list Z) * Tunnel :=
  if decide (f = client) then
    let k := read_part n s (tn_up s) in
    (Ok (take k (tn_up s)),
     MkTunnel (tn_net s) (S (tn_time s)) (drop k (tn_up s)) (tn_down s) (tn_target s))
  else
    let src := unread (tn_net s) in
    let k := read_part n s src in
    (Ok (take k src),
     MkTunnel (set_unread (drop k src) (tn_net s)) (S (tn_time s)) (tn_up s) (tn_down s) (tn_target s)).

Definition tunnel_write (f : Fd) (bs : list Z) (s : Tunnel) : io_result nat * Tunnel :=
  let k := portion (pick (tn_time s)) (length bs) in
  let bs := take k bs in
  (Ok k,
   if decide (f = client) then
     MkTunnel (tn_net s) (S (tn_time s)) (tn_up s) (tn_down s ++ bs) (tn_target s)
   else match phase (cur (tn_net s)), next (tn_net s) with
   | PRelay _ _, [] =>
       MkTunnel (tn_net s) (S (tn_time s)) (tn_up s) (tn_down s) (tn_target s ++ bs)
   | _, _ =>
       MkTunnel (net_write bs (tn_net s)) (S (tn_time s)) (tn_up s) (tn_down s) (tn_target s)
   end).

Definition tunnel : handler IoE Tunnel :=
  fun X e s => match e in IoE X return X * Tunnel with
  | ReadSome f n => tunnel_read f n s
  | WriteSome f bs => tunnel_write f bs s
  | SelectFirst =>
      (Nat.even (pick (tn_time s)),
       MkTunnel (tn_net s) (S (tn_time s)) (tn_up s) (tn_down s) (tn_target s))
  | e => let '(x, n) := net_handler _ e (tn_net s) in (x, set_net n s)
  end.

(** ** Before the relay, only the proxies are involved *)

Definition relay_free (X : Type) (e : IoE X) : Prop :=
  match e with ReadSome _ _ | WriteSome _ _ | SelectFirst => False | _ => True end.

Lemma run_relay_free {A} (p : io A) s :
  shape relay_free (fun _ => True) p ->
  run tunnel p s = let '(a, n) := run net_handler p (tn_net s) in (a, set_net n s).
Proof.
  revert s; induction p as [a|X e k IH]; intros s Hp; [by destruct s|].
  destruct Hp as [He Hk]. cbn [run].
  assert (Hs : tunnel X e s = let '(x, n) := net_handler X e (tn_net s) in (x, set_net n s))
    by (by destruct e).
  rewrite Hs. destruct (net_handler X e (tn_net s)) as [x n]. rewrite IH by done.
  change (tn_net (set_net n s)) with n. by destruct (run net_handler (k x) n).
Qed.

End Tunnel.

Abbreviation relay_free_prog p := (shape relay_free (fun _ => True) p).

Lemma rf_bind {A B} (p : io A) (f : A -> io B) :
  relay_free_prog p -> (forall a, relay_free_prog (f a)) -> relay_free_prog (bind p f).
Proof. intros Hp Hf. apply shape_bind. by eapply shape_mono; [|exact Hp]. Qed.

Lemma rf_bind_ok {A B} (p : io (io_result A)) (f : A -> io (io_result B)) :
  relay_free_prog p -> (forall a, relay_free_prog (f a)) -> relay_free_prog (bind_ok p f).
Proof. intros Hp Hf. apply rf_bind; [done|]. by intros [a|e]. Qed.

Lemma rf_timeout {A} ms (p : io A) : relay_free_prog p -> relay_free_prog (timeout ms p).
Proof.
  induction p as [a|X e k IH]; [done|]. intros [He Hk]. split; [done|].
  intros []; [done|]. split; [done|]. intros x. by apply IH.
Qed.

Ltac relay_free_tac :=
  repeat first
    [ progress intros | apply rf_timeout | apply rf_bind_ok | apply rf_bind
    | done | (split; [exact I|intros; exact I]) | case_match ].

Lemma rf_tune_accepted client opts : relay_free_prog (tune_accepted client opts).
Proof. unfold tune_accepted, when, when_some. relay_free_tac. Qed.

Lemma rf_dial_one sa ms mark opts : relay_free_prog (dial_one sa ms mark opts).
Proof. unfold dial_one, when, when_some. relay_free_tac. Qed.

Lemma rf_dial_tcp addr ms mark opts : relay_free_prog (dial_tcp addr ms mark opts).
Proof.
  unfold dial_tcp. case_match; [apply rf_dial_one|]. apply rf_bind_ok; [relay_free_tac|]. intros addrs.
  generalize (None : option io_error). induction addrs as [|sa addrs IH]; intros last; [done|].
  cbn [dial_all]. apply rf_bind; [apply rf_dial_one|]. intros [fd|e]; [done|]. apply IH.
Qed.

Lemma rf_connect stream host port user pass : relay_free_prog (connect stream host port user pass).
Proof. unfold connect, negotiate_method, user_pass_auth, send_connect, encode_addr. relay_free_tac. Qed.

Lemma rf_negotiate_hops stream hops target : relay_free_prog (negotiate_hops stream hops target).
Proof.
  induction hops as [|hop hops IH]; [done|]. cbn [negotiate_hops]. apply rf_bind_ok; [done|].
  intros [host port]. apply rf_bind; [apply rf_timeout, rf_connect|]. by intros [[[]|e]|].
Qed.

Lemma rf_set_up client ctx target connect :
  dialer_connect (dialer ctx) target = Some connect -> relay_free_prog (set_up client ctx target connect).
Proof.
  intros Hc. apply rf_bind_ok; [apply rf_tune_accepted|]. intros _. apply rf_bind; [|done].
  unfold dialer_connect, dial in Hc.
  destruct (d_chain (dialer ctx)) as [|hop hops]; injection Hc as <-; [apply rf_dial_tcp|].
  apply rf_bind_ok; [apply rf_dial_tcp|]. intros fd. apply rf_bind_ok; [apply (rf_negotiate_hops fd (hop :: hops))|done].
Qed.

(** ** The calls of the relay *)

(** Reads and non-empty writes of the two sockets. *)
Definition relay_call (a b : Fd) (X : Type) (e : IoE X) : Prop :=
  match e with
  | ReadSome f _ => f = a \/ f = b
  | WriteSome f bs => (f = a \/ f = b) /\ bs <> []
  | SelectFirst => True
  | _ => False
  end.

Definition copies (a b : Fd) (c : Copy) : Prop :=
  (c_r c = a \/ c_r c = b) /\ (c_w c = a \/ c_w c = b) /\
  match c_pc c with AtRead => True | AtWrite rem _ => rem <> [] end.

Lemma copy_step_shape a b buf_size c :
  copies a b c ->
  shape (relay_call a b) (fun x => match x with inl c' => copies a b c' | inr _ => True end)
    (copy_step buf_size c).
Proof.
  intros (Hr & Hw & Hpc). unfold copy_step. destruct (c_pc c) as [|rem n]; (split; [done|]).
  - intros [[|x bs]|e]; cbn; [done| |done]. by split_and!.
  - intros [[|k]|e]; cbn -[drop]; [done| |done]. destruct (drop (S k) rem) eqn:Hd; by split_and!.
Qed.

Lemma transport_shape a b fuel buf_size c1 c2 :
  copies a b c1 -> copies a b c2 ->
  shape (relay_call a b) (fun _ => True) (transport_loop fuel buf_size c1 c2).
Proof.
  revert c1 c2; induction fuel as [|fuel IH]; intros c1 c2 H1 H2; [done|]. cbn [transport_loop].
  split; [done|]. intros []; cbn [bind]; apply (shape_bind _ _ (copy_step buf_size _));
    (eapply shape_mono; [|by apply copy_step_shape]); intros [c|r] Hc; try done; by apply IH.
Qed.

(** An invariant kept by the calls a program makes. *)
Lemma run_inv_shape {E A S} (h : handler E S) (C : forall X, E X -> Prop) (I : S -> Prop) R (p : prog E A) s :
  (forall X e s, C X e -> I s -> I (snd (h X e s))) -> shape C R p -> I s -> I (snd (run h p s)).
Proof.
  intros Hh. revert s; induction p as [a|X e k IH]; intros s Hp Hs; [done|]. destruct Hp as [He Hk].
  cbn [run]. specialize (Hh X e s He Hs). destruct (h X e s) as [x s']. by apply IH.
Qed.

(** ** What the log says of the tunnel *)

Section Relay.
Context (pick : nat -> nat) (client backend : Fd) (Hne : client <> backend).
Context (s0 : Tunnel) (Hopen : open (tn_net s0)).

#[local] Instance tunnel_stream : StreamOracle (observed (tunnel pick client) s0).
Proof.
  constructor; unfold observed; cbn.
  - intros f n l bs. unfold tunnel_read, read_part. case_decide; cbn; intros [= <-];
      rewrite length_take;
      match goal with |- context [portion ?c ?m] => pose proof (portion_bound c m) end; lia.
  - intros f bs l k [= <-]. apply portion_bound.
Qed.

(** The end of input of a socket was read. *)
Definition eof_of (f : Fd) (ev : event IoE) : Prop :=
  match ev_call ev in IoE X return X -> Prop with
  | ReadSome g n => fun r => g = f /\ 0 < n /\ r = Ok []
  | _ => fun _ => False
  end (ev_reply ev).

(** The state after a log of the relay's calls. *)
Record tunnel_inv (l : iolog) : Prop := {
  ti_up : tn_up s0 = bytes_read client l ++ tn_up (after (tunnel pick client) s0 l);
  ti_down : tn_down (after (tunnel pick client) s0 l) = tn_down s0 ++ bytes_written client l;
  ti_target : tn_target (after (tunnel pick client) s0 l) = tn_target s0 ++ bytes_written backend l;
  ti_unread : unread (tn_net s0) =
    bytes_read backend l ++ unread (tn_net (after (tunnel pick client) s0 l));
  ti_net : exists bs, tn_net (after (tunnel pick client) s0 l) = set_unread bs (tn_net s0);
  ti_works : Forall (fun ev => forall e, ~ failed ev e) l;
  ti_eof_up : Exists (eof_of client) l -> tn_up (after (tunnel pick client) s0 l) = [];
  ti_eof_down : Exists (eof_of backend) l -> unread (tn_net (after (tunnel pick client) s0 l)) = [];
}.

Lemma tunnel_inv_nil : tunnel_inv [].
Proof.
  constructor; cbn; rewrite ?app_nil_r; try done; try (by intros ?%Exists_nil).
  exists (unread (tn_net s0)). by destruct (tn_net s0) as [? [] ? ?].
Qed.

(** What one call does to the tunnel, as its event says. *)
Record tunnel_move (ev : event IoE) (s s' : Tunnel) : Prop := {
  tm_up : tn_up s = read_of client ev ++ tn_up s';
  tm_down : tn_down s' = tn_down s ++ written_of client ev;
  tm_target : tn_target s' = tn_target s ++ written_of backend ev;
  tm_unread : unread (tn_net s) = read_of backend ev ++ unread (tn_net s');
  tm_net : exists bs, tn_net s' = set_unread bs (tn_net s);
  tm_works e : ~ failed ev e;
  tm_eof_up : eof_of client ev -> tn_up s' = [];
  tm_eof_down : eof_of backend ev -> unread (tn_net s') = [];
}.

(** A read of nothing, into room for something, is the end. *)
Lemma take_nothing (src : list Z) n s :
  0 < n -> Ok (take (read_part pick n s src) src) = Ok ([] : list Z) :> io_result (list Z) ->
  drop (read_part pick n s src) src = [].
Proof.
  intros Hn [= Ht]. unfold read_part in *.
  pose proof (portion_bound (pick (tn_time s)) (Nat.min (Z.to_nat n) (length src))) as [_ Hp].
  destruct src as [|x src]; [apply drop_nil|]. cbn [length] in *.
  destruct (portion _ _); [ospecialize (Hp _); lia|done].
Qed.

Lemma tunnel_call X (e : IoE X) s :
  relay_call client backend X e -> open (tn_net s) ->
  let '(x, s') := tunnel pick client X e s in tunnel_move (Ev e x) s s'.
Proof.
  assert (Hsame : forall n, exists bs, n = set_unread bs n)
    by (intros n; exists (unread n); by destruct n as [? [] ? ?]).
  intros Hc [(d & p & Hph) Hnx].
  destruct e as [| | | | | | | | | | | | | | | |f n|f bs|]; try done; cbn [tunnel relay_call] in *.
  - unfold tunnel_read. destruct Hc as [->| ->].
    + rewrite decide_True by done. constructor; cbn; rewrite ?decide_True, ?decide_False, ?app_nil_r by done;
        try done; [by rewrite take_drop|..].
      * intros (_ & Hn & Hr). by eapply take_nothing.
      * by intros (-> & _).
    + rewrite decide_False by done. constructor; cbn; rewrite ?decide_True, ?decide_False, ?app_nil_r by done;
        try done; [by rewrite take_drop|by eexists|..].
      * by intros (-> & _).
      * intros (_ & Hn & Hr). by eapply take_nothing.
  - destruct Hc as [Hf Hbs]. unfold tunnel_write. rewrite Hph, Hnx.
    pose proof (portion_bound (pick (tn_time s)) (length bs)) as [_ Hpos].
    assert (Hk : portion (pick (tn_time s)) (length bs) <> 0%nat) by (destruct bs; cbn in *; [done|lia]).
    destruct Hf as [->| ->]; [rewrite decide_True by done|rewrite decide_False by done];
      (constructor; cbn; rewrite ?decide_True, ?decide_False, ?app_nil_r by done; try done);
      try (by intros e [?|[[= ?] _]]); by intros [].
  - constructor; cbn; rewrite ?app_nil_r; done || (by intros []) || by intros ? [].
Qed.

Lemma tunnel_inv_step X (e : IoE X) l :
  relay_call client backend X e -> tunnel_inv l ->
  tunnel_inv (snd (record (observed (tunnel pick client) s0) X e l)).
Proof.
  intros Hc [Hup Hdn Htg Hun [bs0 Hnet] Hw Heu Hed]. cbn [record snd].
  set (s := after (tunnel pick client) s0 l) in *.
  assert (Ho : open (tn_net s)) by (by rewrite Hnet).
  pose proof (tunnel_call X e s Hc Ho) as Hm. unfold observed. fold s.
  destruct (tunnel pick client X e s) as [x s'] eqn:Hst. cbn [fst].
  assert (Ha : after (tunnel pick client) s0 (l ++ [Ev e x]) = s').
  { rewrite after_snoc. cbn [ev_call ev_type]. fold s. by rewrite Hst. }
  destruct Hm as [Mup Mdn Mtg Mun [bs1 Mnet] Mw Meu Med].
  constructor; rewrite ?Ha; autorewrite with gust.
  - by rewrite Hup, Mup, app_assoc.
  - by rewrite Mdn, Hdn, app_assoc.
  - by rewrite Mtg, Htg, app_assoc.
  - by rewrite Hun, Mun, app_assoc.
  - exists bs1. by rewrite Mnet, Hnet.
  - apply Forall_app. split; [done|]. by constructor.
  - rewrite Exists_app, Exists_cons, Exists_nil. intros [He|[He|[]]]; [|by apply Meu].
    rewrite (Heu He) in Mup. by apply symmetry, app_nil in Mup as [_ ?].
  - rewrite Exists_app, Exists_cons, Exists_nil. intros [He|[He|[]]]; [|by apply Med].
    rewrite (Hed He) in Mun. by apply symmetry, app_nil in Mun as [_ ?].
Qed.

(** The relay has moved no more bytes than there were. *)
Lemma tunnel_moved l :
  tunnel_inv l ->
  (length (bytes_read client l) <= length (tn_up s0))%nat /\
  (length (bytes_read backend l) <= length (unread (tn_net s0)))%nat.
Proof.
  intros [-> _ _ -> _ _ _ _]. rewrite !length_app. lia.
Qed.

(** The relay run in the tunnel. *)
Lemma tunnel_relays buf_size fuel r s' :
  0 < buf_size -> (2 * (length (tn_up s0) + length (unread (tn_net s0))) < fuel)%nat ->
  tn_down s0 = [] -> tn_target s0 = [] ->
  run (tunnel pick client) (transport fuel client backend buf_size) s0 = (r, s') ->
  r = Some (Ok tt) /\ (exists bs, tn_net s' = set_unread bs (tn_net s0)) /\
  tn_target s' `prefix_of` tn_up s0 /\ tn_down s' `prefix_of` unread (tn_net s0) /\
  (tn_target s' = tn_up s0 \/ tn_down s' = unread (tn_net s0)).
Proof.
  intros Hb Hf Hd Ht Hrun. change s0 with (after (tunnel pick client) s0 []) in Hrun.
  rewrite run_observed in Hrun. set (o := observed (tunnel pick client) s0) in *.
  destruct (run (record o) (transport fuel client backend buf_size) []) as [r0 l] eqn:Hr.
  injection Hrun as -> <-.
  destruct (transport_loop_run o buf_size _ _ _ _ _ _ _ _ (pair_inv_new buf_size client backend Hne) Hr)
    as [(pa & pb & Ha & _ & Hbk & _ & Hres) Hfuel].
  assert (Hi : tunnel_inv l).
  { replace l with (snd (run (record o) (transport fuel client backend buf_size) [])) by (by rewrite Hr).
    eapply run_inv_shape; [exact tunnel_inv_step| |exact tunnel_inv_nil].
    apply transport_shape; unfold copies; cbn; auto. }
  destruct (tunnel_moved l Hi) as [Hma Hmb]. destruct Hi as [Hup Hdn Htg Hun Hnet Hw Heu Hed].
  rewrite Hd in Hdn. rewrite Ht in Htg. cbn [app] in Hdn, Htg. rewrite Hdn, Htg.
  assert (Hok : r = Some (Ok tt)).
  { destruct r as [[[]|e]|]; [done| |].
    - destruct Hres as (l0 & ev & -> & Hev). apply Forall_app in Hw as [_ Hw].
      apply Forall_cons in Hw as [Hw _]. by destruct (Hw e).
    - specialize (Hfuel eq_refl). unfold moved in Hfuel. apply (f_equal length) in Ha, Hbk.
      rewrite length_app in Ha, Hbk. cbn in Hfuel. lia. }
  subst r. split; [done|]. split; [done|]. split; [|split].
  - rewrite Hup, Ha. rewrite <- app_assoc. by apply prefix_app_r.
  - rewrite Hun, Hbk. rewrite <- app_assoc. by apply prefix_app_r.
  - destruct Hres as [l0 [[-> ->]|[-> ->]]]; [left|right].
    + rewrite app_nil_r in Ha. rewrite Hup, Heu, app_nil_r, Ha; [done|].
      apply Exists_app. right. by constructor.
    + rewrite app_nil_r in Hbk. rewrite Hun, Hed, app_nil_r, Hbk; [done|].
      apply Exists_app. right. by constructor.
Qed.

End Relay.

(** ** The whole connection *)

Lemma tune_accepted_net client opts n : run net_handler (tune_accepted client opts) n = (Ok tt, n).
Proof.
  unfold tune_accepted, when, when_some.
  by destruct (nodelay opts), (rcvbuf opts), (sndbuf opts).
Qed.

(** What a connection ends with: the client's bytes at the target and the target's
    at the client, [down] being what the target had to say. *)
Record carried (up down : list Z) (s : Tunnel) : Prop := {
  ca_up : tn_target s `prefix_of` up;
  ca_down : tn_down s `prefix_of` down;
  ca_all : tn_target s = up \/ tn_down s = down;
}.

Lemma connection_carries pick client ctx target fuel connect p n n' fd up r s :
  dialer_connect (dialer ctx) target = Some connect -> handle_conn fuel client ctx target = Some p ->
  run net_handler connect n = (Ok fd, n') -> open n' -> client <> fd ->
  0 < ctx_buf_size ctx -> (2 * (length up + length (unread n')) < fuel)%nat ->
  run (tunnel pick client) p (MkTunnel n 0 up [] []) = (r, s) ->
  r = Some (Ok tt) /\ (exists bs, tn_net s = set_unread bs n') /\ carried up (unread n') s.
Proof.
  intros Hc Hp Hdial Ho Hne Hb Hf Hrun.
  destruct (handle_conn_eq fuel client ctx target) as (connect' & p' & Hc' & Hp' & Hr).
  assert (connect' = connect) as -> by congruence. assert (p' = p) as -> by congruence.
  rewrite Hr, run_relay_free in Hrun by (by apply rf_set_up). unfold set_up in Hrun.
  rewrite run_bind_ok in Hrun. cbn [tn_net] in Hrun. rewrite tune_accepted_net in Hrun.
  unfold prog_map_err in Hrun. rewrite run_bind, Hdial in Hrun. cbn [run map_err] in Hrun.
  destruct (tunnel_relays pick client fd Hne (MkTunnel n' 0 up [] []) Ho (ctx_buf_size ctx) fuel r s
    Hb Hf eq_refl eq_refl Hrun) as (Hok & Hnet & H1 & H2 & H3).
  split; [done|]. split; [done|]. by constructor.
Qed.

(** C1: a connection end to end through a chain of granting proxies, whatever the
    order and the pieces in which the bytes come and go, and if the target speaks
    first: the proxies are asked, in order, for the hops behind them and last for
    the target; the handler returns [Ok]; the target has received a prefix of what
    the client sent and the client a prefix of what the target sent, nothing of
    the handshakes among it, and one of the two everything. *)
Theorem tunnel_end_to_end pick client ctx target fuel hop0 hops cfg0 cfgs cfg d0 ds fd up p :
  d_chain (dialer ctx) = hop0 :: hops -> handle_conn fuel client ctx target = Some p ->
  let n := MkNet [] fresh_srv cfg0 cfgs in
  run net_handler (dial_tcp (addr hop0) DIAL_TIMEOUT (d_mark (dialer ctx)) (d_sock (dialer ctx))) n =
    (Ok fd, n) -> client <> fd ->
  grants hop0 cfg0 -> Forall2 grants hops cfgs -> hushed cfg0 cfgs -> last (cfg0 :: cfgs) = Some cfg ->
  Forall2 dest_pair (hop_targets (hop0 :: hops) target) (d0 :: ds) ->
  0 < ctx_buf_size ctx -> (2 * (length up + length (app cfg)) < fuel)%nat ->
  let '(r, s) := run (tunnel pick client) p (MkTunnel n 0 up [] []) in
  r = Some (Ok tt) /\ carried up (app cfg) s /\
  exists d, phase (cur (tn_net s)) = PRelay (fst d) (snd d) /\ reached (tn_net s) ++ [d] = d0 :: ds.
Proof.
  intros Hch Hp n Hdial Hne H0 Hall Hq Hl Hd Hb Hf.
  destruct (run (tunnel pick client) p (MkTunnel n 0 up [] [])) as [r s] eqn:Hrun.
  rewrite hop_targets_cons in Hd. inversion Hd as [|? ? ? ? Hd0 Hds]; subst.
  destruct (negotiate_hops_run fd hop0 hops cfg0 cfgs target [] d0 ds H0 Hall Hq Hd0 Hds)
    as (re & d & c & Hneg & Hre & Hlc).
  assert (c = cfg) as -> by congruence. fold n in Hneg.
  set (n' := MkNet re (MkSrv (PRelay (fst d) (snd d)) [] (app cfg)) cfg []) in *.
  assert (exists connect, dialer_connect (dialer ctx) target = Some connect /\
    run net_handler connect n = (Ok fd, n')) as (connect & Hc & Hcn).
  { unfold dialer_connect, dial. rewrite Hch. eexists. split; [done|].
    by rewrite run_bind_ok, Hdial, run_bind_ok, Hneg. }
  assert (Ho : open n') by (split; [by do 2 eexists|done]).
  destruct (connection_carries pick client ctx target fuel connect p n n' fd up r s Hc Hp Hcn Ho Hne Hb
    Hf Hrun) as (Hr & [bs Hnet] & Hca).
  split; [done|]. split; [done|]. exists d. by rewrite Hnet.
Qed.

(** Two proxies with a greeting target behind them. *)
Definition chained_ctx : Context := MkContext 2 (MkDialer example_hops None default_opts) None default_opts.

Lemma tunnel_end_to_end_witness :
  exists p s, handle_conn 40 9 chained_ctx "1.2.3.4:9090" = Some p /\
    run (tunnel (fun t => t * t + t / 3)%nat 9) p
      (MkTunnel (MkNet [] fresh_srv example_server0 [example_server1]) 0 [1; 2; 3; 4; 5] [] []) =
    (Some (Ok tt), s) /\ carried [1; 2; 3; 4; 5] [72; 73] s.
Proof.
  eexists.
  pose proof (tunnel_end_to_end (fun t => t * t + t / 3)%nat 9 chained_ctx "1.2.3.4:9090" 40
    (MkHop "10.0.0.1:1080" (Some ("u" : str)) (Some ("p" : str))) [MkHop "hop2:1080" None None]
    example_server0 [example_server1] example_server1 (DDomain [104; 111; 112; 50], 1080)
    [(DIpv4 [1; 2; 3; 4], 9090)] 3 [1; 2; 3; 4; 5] _ eq_refl eq_refl eq_refl ltac:(lia)
    (proj1 example_grants) ltac:(constructor; [apply example_grants|constructor]) (conj eq_refl I)
    eq_refl example_dests ltac:(reflexivity) ltac:(cbn; lia)) as Hend.
  destruct (run _ _ _) as [r s] eqn:Hr. destruct Hend as (-> & Hca & _).
  exists s. split; [reflexivity|]. split; [exact Hr|exact Hca].
Defined.
