(* ===== verification/Udp.v ===== *)
(** * src/forward/udp.rs: datagram forwarding with a session per client

    [bind_connected] and [new_session] are programs.  The receive loop of
    [serve] and the reverse tasks of the sessions share the session map and one
    activity clock per session, so they are a state, [UdpServe], and a step
    function on the events of the outside, [udp_step]; [None] is a step that
    cannot happen in that state.  A task runs from one [await] to the next: the
    loop waits for a datagram, for the socket of a new session, for a send and in
    the pause after an error; a reverse task in its [select!] and for a send.
    The runtime has several threads, so a reverse task that has left its loop is
    interrupted twice more, before it takes the lock of the map and before it
    drops its guard: another thread may look its session up, or replace it, in
    between. *)

From S2P Require Import Prelude Str Ip Io Constants Netopt Config Stats Relay Supervisor Tcp.

(** ** Opening a session *)

Definition unspecified_v4 : SocketAddr := SockAddr (V4 (Ipv4 0 0 0 0)) 0 0.
Definition unspecified_v6 : SocketAddr := SockAddr (V6 (Ipv6 [0; 0; 0; 0; 0; 0; 0; 0])) 0 0.

Definition bind_any (sa : SocketAddr) : SocketAddr :=
  if is_ipv4 (sa_ip sa) then unspecified_v4 else unspecified_v6.

Definition bind_connected (sa : SocketAddr) (mark : option Z) : io (io_result Fd) :=
  await? sock := call (SocketNew (for_address sa) DGRAM UDP) in
  await? _ := call (SetNonblocking sock true) in
  await? _ := when_some mark (fun m => call (SetMark sock m)) in
  await? _ := call (Bind sock (bind_any sa)) in
  await? _ := call (Connect sock sa) in
  call (FromStd sock).

Fixpoint bind_first (addrs : list SocketAddr) (mark : option Z) (last_err : option io_error) :
    io (io_result Fd) :=
  match addrs with
  | [] => Ret (Err (default (io_other "no target address") last_err))
  | sa :: addrs =>
      await r := bind_connected sa mark in
      match r with
      | Ok out => Ret (Ok out)
      | Err e => bind_first addrs mark (Some e)
      end
  end.

Definition new_session (target : str) (mark : option Z) : io (io_result Fd) :=
  match parse_socket_addr target with
  | Some sa => bind_connected sa mark
  | None =>
      await? addrs := call (LookupHost target) in
      bind_first addrs mark None
  end.

(** The text parsed by [bind_any] is that of these addresses. *)
Lemma bind_any_parses :
  parse_socket_addr "0.0.0.0:0" = Some unspecified_v4 /\
  parse_socket_addr "[::]:0" = Some unspecified_v6.
Proof. by vm_compute. Qed.

(** What opening a session asks of the system, in order. *)
Definition session_calls (sa : SocketAddr) (mark : option Z) (sock : Fd) :
    list {X : Type & IoE X} :=
  [existT _ (SocketNew (for_address sa) DGRAM UDP); existT _ (SetNonblocking sock true)] ++
  opt_call mark (SetMark sock) ++
  [existT _ (Bind sock (bind_any sa)); existT _ (Connect sock sa); existT _ (FromStd sock)].

Lemma bind_connected_calls o sa mark fd l0 l :
  run (record o) (bind_connected sa mark) l0 = (Ok fd, l) ->
  exists sock evs, l = l0 ++ evs /\ calls evs = session_calls sa mark sock.
Proof.
  unfold bind_connected. intros H.
  apply run_ok_inv in H as (sock & H). apply run_ok_inv in H as ([] & H).
  apply run_when_some in H as (evs & H & He).
  apply run_ok_inv in H as ([] & H). apply run_ok_inv in H as ([] & H).
  cbn in H. injection H as Hfd <-. exists sock. rewrite <- !app_assoc.
  eexists. split; [reflexivity|]. unfold calls, session_calls in *.
  repeat (rewrite fmap_cons || rewrite fmap_app). rewrite He. reflexivity.
Qed.

(** Failed attempts log only calls of their own. *)
Lemma bind_first_run o mark last addrs fd l0 l :
  run (record o) (bind_first addrs mark last) l0 = (Ok fd, l) ->
  exists sa l1 sock evs, sa ∈ addrs /\ l = l0 ++ l1 ++ evs /\ calls evs = session_calls sa mark sock.
Proof.
  revert last l0; induction addrs as [|sa addrs IH]; intros last l0; cbn [bind_first]; [done|].
  rewrite run_bind. destruct (run (record o) (bind_connected sa mark) l0) as [[out|e] l1] eqn:Hb.
  - intros [= -> <-]. destruct (bind_connected_calls _ _ _ _ _ _ Hb) as (sock & evs & -> & Hc).
    exists sa, [], sock, evs. split; [by left|done].
  - intros H. destruct (IH _ _ H) as (sa' & l2 & sock & evs & Hin & -> & Hc).
    pose proof (run_record_prefix o (bind_connected sa mark) l0) as [tr Htr].
    rewrite Hb in Htr. simpl in Htr. subst l1.
    exists sa', (tr ++ l2), sock, evs. split; [by right|]. by rewrite <- !app_assoc.
Qed.

(** A new session's socket, in whatever way the system answered, is one of
    the right family for one of the target's addresses, marked before it is
    bound to the unspecified address of that family and connected to the target;
    an [IP:port] literal is not resolved. *)
Lemma new_session_calls o target mark fd l :
  run (record o) (new_session target mark) [] = (Ok fd, l) ->
  exists sa l0 sock evs, l = l0 ++ evs /\ calls evs = session_calls sa mark sock /\
    match parse_socket_addr target with
    | Some sa' => sa = sa' /\ l0 = []
    | None => exists addrs, o _ (LookupHost target) [] = Ok addrs /\ sa ∈ addrs
    end.
Proof.
  unfold new_session. destruct (parse_socket_addr target) as [sa|].
  - intros H. destruct (bind_connected_calls _ _ _ _ _ _ H) as (sock & evs & -> & Hc).
    by exists sa, [], sock, evs.
  - rewrite run_record_ok. destruct (o _ (LookupHost target) []) as [addrs|e] eqn:Ho; [|done].
    intros H. destruct (bind_first_run _ _ _ _ _ _ _ H) as (sa & l1 & sock & evs & Hin & -> & Hc).
    exists sa, ([Ev (LookupHost target) (Ok addrs)] ++ l1), sock, evs. rewrite <- app_assoc. eauto.
Qed.

(** ** The receive loop and the reverse tasks *)

(** [targets[i].clone()], as in src/forward/tcp.rs with a plain counter *)
Definition udp_pick_target (targets : list str) (rr : Z) : option (str * Z) :=
  if (length targets =? 1)%nat then
    t ← targets !! 0%nat; Some (t, rr)
  else if (length targets =? 0)%nat then None
  else
    t ← targets !! Z.to_nat (rr mod Z.of_nat (length targets));
    Some (t, wrap 64 (rr + 1)).

(** [last_activity] is a cell shared by the map's entry, the loop and the
    reverse task: an index into [us_clocks]. *)
Record Session := MkSession { s_out : Fd; s_last : nat }.

(** A reverse task: spawned, waiting in its [select!] with the timer armed at a
    time, sending a reply to its client, out of its loop with its session still
    in the map, with its session removed, or ended. *)
Inductive RevPhase :=
| RSpawned
| RWaiting (armed : Z)
| RSending (data : list Z)
| RClosing
| RRemoved
| REnded.

Record Reverse := MkReverse {
  rv_peer : SocketAddr;
  rv_out : Fd;
  rv_last : nat;
  rv_phase : RevPhase;
}.

Inductive LoopPc :=
| LRecv                                                        (* in select! *)
| LPause                                                       (* sleep(50 ms) *)
| LOpen (peer : SocketAddr) (data : list Z) (target : str)     (* new_session(..).await *)
| LSend (peer : SocketAddr) (out : Fd) (data : list Z)         (* out.send(..).await *)
| LDone.

Record UdpServe := MkUdp {
  us_now : Z;                              (* mono_ms() *)
  us_stats : ListenerStats;
  us_rr : Z;
  us_pc : LoopPc;
  us_sessions : gmap SocketAddr Session;
  us_clocks : list Z;
  us_tasks : list Reverse;
  us_sent : list (SocketAddr * Fd * list Z); (* by out.send, of which client *)
  us_replies : list (SocketAddr * list Z);   (* by listener.send_to *)
}.

Inductive UdpEv :=
| UTick (d : Z)                                       (* time passes *)
| UCancelled                                          (* shutdown.cancelled() *)
| URecv (r : io_result (list Z * SocketAddr))         (* listener.recv_from *)
| UPauseOver                                          (* sleep(50 ms) *)
| UOpened (r : io_result Fd)                          (* new_session *)
| USent (r : io_result unit)                          (* out.send *)
| RStart (i : nat)                                    (* a reverse task's first poll *)
| RRecv (i : nat) (r : io_result (list Z))            (* out.recv *)
| RSent (i : nat) (r : io_result unit)                (* listener.send_to *)
| RTimer (i : nat)                                    (* sleep(UDP_TTL) *)
| RRemove (i : nat)                                   (* sessions.lock().remove *)
| RDrop (i : nat).                                    (* the guard is dropped *)

Definition lookup_session (sessions : gmap SocketAddr Session) (peer : SocketAddr) :
    option (Fd * nat) :=
  (fun s => (s_out s, s_last s)) <$> sessions !! peer.

Definition set_rev (p : RevPhase) (t : Reverse) : Reverse :=
  MkReverse (rv_peer t) (rv_out t) (rv_last t) p.

(** [sessions.lock().unwrap().remove(&peer)] *)
Definition end_session (i : nat) (t : Reverse) (s : UdpServe) : UdpServe :=
  MkUdp (us_now s) (us_stats s) (us_rr s) (us_pc s)
    (delete (rv_peer t) (us_sessions s)) (us_clocks s) (<[i := set_rev RRemoved t]> (us_tasks s))
    (us_sent s) (us_replies s).

(** The task's end, which drops [_guard]. *)
Definition end_task (i : nat) (t : Reverse) (s : UdpServe) : UdpServe :=
  MkUdp (us_now s) (drop_guard (us_stats s)) (us_rr s) (us_pc s) (us_sessions s) (us_clocks s)
    (<[i := set_rev REnded t]> (us_tasks s)) (us_sent s) (us_replies s).

(** Another phase of a reverse task. *)
Definition to_phase (p : RevPhase) (i : nat) (t : Reverse) (s : UdpServe) : UdpServe :=
  MkUdp (us_now s) (us_stats s) (us_rr s) (us_pc s) (us_sessions s) (us_clocks s)
    (<[i := set_rev p t]> (us_tasks s)) (us_sent s) (us_replies s).

(** Back to the top of the reverse loop: a new [select!] with a new timer. *)
Definition rearm (i : nat) (t : Reverse) (s : UdpServe) : UdpServe :=
  to_phase (RWaiting (us_now s)) i t s.

(** [last.store(mono_ms())] *)
Definition touch (last : nat) (s : UdpServe) : UdpServe :=
  MkUdp (us_now s) (us_stats s) (us_rr s) (us_pc s) (us_sessions s)
    (<[last := us_now s]> (us_clocks s)) (us_tasks s) (us_sent s) (us_replies s).

(** [out.send(..)] returns; an error is only logged *)
Definition send (peer : SocketAddr) (out : Fd) (data : list Z) (r : io_result unit)
    (s : UdpServe) : UdpServe :=
  MkUdp (us_now s) (us_stats s) (us_rr s) LRecv (us_sessions s) (us_clocks s) (us_tasks s)
    (us_sent s ++ (if is_ok r then [(peer, out, data)] else [])) (us_replies s).

Definition reply (peer : SocketAddr) (data : list Z) (s : UdpServe) : UdpServe :=
  MkUdp (us_now s) (us_stats s) (us_rr s) (us_pc s) (us_sessions s) (us_clocks s) (us_tasks s)
    (us_sent s) (us_replies s ++ [(peer, data)]).

Definition set_loop (stats : ListenerStats) (rr : Z) (pc : LoopPc) (s : UdpServe) : UdpServe :=
  MkUdp (us_now s) stats rr pc (us_sessions s) (us_clocks s) (us_tasks s)
    (us_sent s) (us_replies s).

(** The new session: its cell, its entry, its guard and its reverse task. *)
Definition open_session (peer : SocketAddr) (out : Fd) (s : UdpServe) : UdpServe :=
  let last := length (us_clocks s) in
  MkUdp (us_now s) (on_accept (us_stats s)) (us_rr s) (us_pc s)
    (<[peer := MkSession out last]> (us_sessions s)) (us_clocks s ++ [us_now s])
    (us_tasks s ++ [MkReverse peer out last RSpawned]) (us_sent s) (us_replies s).

Definition pass (d : Z) (s : UdpServe) : UdpServe :=
  MkUdp (us_now s + d) (us_stats s) (us_rr s) (us_pc s) (us_sessions s) (us_clocks s)
    (us_tasks s) (us_sent s) (us_replies s).

(** [mono_ms().saturating_sub(last.load()) >= ttl_ms] *)
Definition idle (s : UdpServe) (last : nat) : Z :=
  Z.max 0 (us_now s - default 0 (us_clocks s !! last)).

(** A poll of a reverse task. *)
Definition rev_step (ev : UdpEv) (s : UdpServe) : option UdpServe :=
  match ev with
  | RStart i =>
      t ← us_tasks s !! i;
      match rv_phase t with
      | RSpawned => Some (rearm i t s)
      | _ => None
      end
  | RRecv i r =>
      t ← us_tasks s !! i;
      match rv_phase t with
      | RWaiting _ =>
          match r with
          | Ok data => Some (to_phase (RSending data) i t (touch (rv_last t) s))
          | Err e => Some (to_phase RClosing i t s)
          end
      | _ => None
      end
  | RSent i r =>
      t ← us_tasks s !! i;
      match rv_phase t with
      | RSending data =>
          match r with
          | Ok _ => Some (rearm i t (reply (rv_peer t) data s))
          | Err e => Some (to_phase RClosing i t s)
          end
      | _ => None
      end
  | RTimer i =>
      t ← us_tasks s !! i;
      match rv_phase t with
      | RWaiting armed =>
          if decide (armed + UDP_TTL <= us_now s) then
            if UDP_TTL <=? idle s (rv_last t) then Some (to_phase RClosing i t s)
            else Some (rearm i t s)
          else None
      | _ => None
      end
  | RRemove i =>
      t ← us_tasks s !! i;
      match rv_phase t with
      | RClosing => Some (end_session i t s)
      | _ => None
      end
  | RDrop i =>
      t ← us_tasks s !! i;
      match rv_phase t with
      | RRemoved => Some (end_task i t s)
      | _ => None
      end
  | _ => None
  end.

(** A poll of the receive loop or of a reverse task, or time passing. *)
Definition udp_step (spec : ListenerSpec) (ev : UdpEv) (s : UdpServe) : option UdpServe :=
  match ev with
  | UTick d => if decide (0 <= d) then Some (pass d s) else None
  | UCancelled =>
      match us_pc s with
      | LRecv => Some (set_loop (us_stats s) (us_rr s) LDone s)
      | _ => None
      end
  | URecv r =>
      match us_pc s, r with
      | LRecv, Err e => Some (set_loop (inc_error (us_stats s)) (us_rr s) LPause s)
      | LRecv, Ok (data, peer) =>
          match lookup_session (us_sessions s) peer with
          | Some (out, last) =>
              Some (touch last (set_loop (us_stats s) (us_rr s) (LSend peer out data) s))
          | None =>
              '(target, rr) ← udp_pick_target (targets spec) (us_rr s);
              Some (set_loop (us_stats s) rr (LOpen peer data target) s)
          end
      | _, _ => None
      end
  | UPauseOver =>
      match us_pc s with
      | LPause => Some (set_loop (us_stats s) (us_rr s) LRecv s)
      | _ => None
      end
  | UOpened r =>
      match us_pc s, r with
      | LOpen peer data _, Ok out =>
          let last := length (us_clocks s) in
          let s := open_session peer out s in
          Some (touch last (set_loop (us_stats s) (us_rr s) (LSend peer out data) s))
      | LOpen _ _ _, Err e => Some (set_loop (inc_error (us_stats s)) (us_rr s) LRecv s)
      | _, _ => None
      end
  | USent r =>
      match us_pc s with
      | LSend peer out data => Some (send peer out data r s)
      | _ => None
      end
  | _ => rev_step ev s
  end.

(** [UdpSocket::bind] and the state before the loop *)
Definition udp_start (spec : ListenerSpec) (stats : ListenerStats) (now : Z)
    (bound : io_result unit) : io_result UdpServe :=
  match bound with
  | Ok _ => Ok (MkUdp now stats 0 LRecv ∅ [] [] [] [])
  | Err e => Err (io_new (err_kind e) ("bind " ++ bind_addr spec ++ " failed: " ++ err_msg e))
  end.

(** States reached by steps that satisfy [P]. *)
Inductive reach (spec : ListenerSpec) (P : UdpEv -> UdpServe -> Prop) (s0 : UdpServe) :
    UdpServe -> Prop :=
| reach_start : reach spec P s0 s0
| reach_step s ev s' : reach spec P s0 s -> P ev s -> udp_step spec ev s = Some s' ->
    reach spec P s0 s'.

(** ** Sessions and reverse tasks *)

(** The steps that happen, one constructor per path of the code between two
    waits. *)
Inductive udp_case (spec : ListenerSpec) (s : UdpServe) : UdpEv -> UdpServe -> Prop :=
| uc_tick d : 0 <= d -> udp_case spec s (UTick d) (pass d s)
| uc_cancel : us_pc s = LRecv ->
    udp_case spec s UCancelled (set_loop (us_stats s) (us_rr s) LDone s)
| uc_recv_err e : us_pc s = LRecv ->
    udp_case spec s (URecv (Err e)) (set_loop (inc_error (us_stats s)) (us_rr s) LPause s)
| uc_hit data peer out last : us_pc s = LRecv -> us_sessions s !! peer = Some (MkSession out last) ->
    udp_case spec s (URecv (Ok (data, peer)))
      (touch last (set_loop (us_stats s) (us_rr s) (LSend peer out data) s))
| uc_miss data peer target rr : us_pc s = LRecv -> us_sessions s !! peer = None ->
    udp_pick_target (targets spec) (us_rr s) = Some (target, rr) ->
    udp_case spec s (URecv (Ok (data, peer))) (set_loop (us_stats s) rr (LOpen peer data target) s)
| uc_resume : us_pc s = LPause ->
    udp_case spec s UPauseOver (set_loop (us_stats s) (us_rr s) LRecv s)
| uc_open peer data target out : us_pc s = LOpen peer data target ->
    udp_case spec s (UOpened (Ok out)) (touch (length (us_clocks s))
      (set_loop (on_accept (us_stats s)) (us_rr s) (LSend peer out data) (open_session peer out s)))
| uc_open_err peer data target e : us_pc s = LOpen peer data target ->
    udp_case spec s (UOpened (Err e)) (set_loop (inc_error (us_stats s)) (us_rr s) LRecv s)
| uc_send peer out data r : us_pc s = LSend peer out data ->
    udp_case spec s (USent r) (send peer out data r s)
| uc_start i t : us_tasks s !! i = Some t -> rv_phase t = RSpawned ->
    udp_case spec s (RStart i) (rearm i t s)
| uc_out i t armed data : us_tasks s !! i = Some t -> rv_phase t = RWaiting armed ->
    udp_case spec s (RRecv i (Ok data)) (to_phase (RSending data) i t (touch (rv_last t) s))
| uc_out_err i t armed e : us_tasks s !! i = Some t -> rv_phase t = RWaiting armed ->
    udp_case spec s (RRecv i (Err e)) (to_phase RClosing i t s)
| uc_reply i t data : us_tasks s !! i = Some t -> rv_phase t = RSending data ->
    udp_case spec s (RSent i (Ok tt)) (rearm i t (reply (rv_peer t) data s))
| uc_reply_err i t data e : us_tasks s !! i = Some t -> rv_phase t = RSending data ->
    udp_case spec s (RSent i (Err e)) (to_phase RClosing i t s)
| uc_timer i t armed : us_tasks s !! i = Some t -> rv_phase t = RWaiting armed ->
    armed + UDP_TTL <= us_now s ->
    udp_case spec s (RTimer i)
      (if UDP_TTL <=? idle s (rv_last t) then to_phase RClosing i t s else rearm i t s)
| uc_remove i t : us_tasks s !! i = Some t -> rv_phase t = RClosing ->
    udp_case spec s (RRemove i) (end_session i t s)
| uc_drop i t : us_tasks s !! i = Some t -> rv_phase t = RRemoved ->
    udp_case spec s (RDrop i) (end_task i t s).

Lemma udp_step_case spec ev s s' : udp_step spec ev s = Some s' -> udp_case spec s ev s'.
Proof.
  destruct ev as [d| |r| |r|r|i|i r|i r|i|i|i]; cbn [udp_step rev_step]; intros H.
  - case_decide; [|done]. injection H as <-. by constructor.
  - destruct (us_pc s) eqn:Hpc; try done. injection H as <-. by constructor.
  - destruct (us_pc s) eqn:Hpc; try by destruct r.
    destruct r as [[data peer]|e]; [|injection H as <-; by constructor].
    unfold lookup_session in H. destruct (us_sessions s !! peer) as [[out last]|] eqn:Hl; cbn in H.
    + injection H as <-. by constructor.
    + apply bind_Some in H as ([t rr] & Ht & [= <-]). by constructor.
  - destruct (us_pc s) eqn:Hpc; try done. injection H as <-. by constructor.
  - destruct (us_pc s) eqn:Hpc; try by destruct r.
    destruct r; injection H as <-; by econstructor.
  - destruct (us_pc s) eqn:Hpc; try done. injection H as <-. by constructor.
  - apply bind_Some in H as (t & Hi & H). destruct (rv_phase t) eqn:Hph; try done.
    injection H as <-. by constructor.
  - apply bind_Some in H as (t & Hi & H). destruct (rv_phase t) eqn:Hph; try done.
    destruct r; injection H as <-; by econstructor.
  - apply bind_Some in H as (t & Hi & H). destruct (rv_phase t) eqn:Hph; try done.
    destruct r as [[]|e]; injection H as <-; by econstructor.
  - apply bind_Some in H as (t & Hi & H). destruct (rv_phase t) eqn:Hph; try done.
    case_decide; [|done].
    replace s' with (if UDP_TTL <=? idle s (rv_last t) then to_phase RClosing i t s else rearm i t s)
      by (destruct (_ <=? _); congruence).
    by econstructor.
  - apply bind_Some in H as (t & Hi & H). destruct (rv_phase t) eqn:Hph; try done.
    injection H as <-. by constructor.
  - apply bind_Some in H as (t & Hi & H). destruct (rv_phase t) eqn:Hph; try done.
    injection H as <-. by constructor.
Qed.

(** The task's session is in the map. *)
Definition listed (t : Reverse) : bool :=
  match rv_phase t with RRemoved | REnded => false | _ => true end.

(** The task holds its guard. *)
Definition live (t : Reverse) : bool := match rv_phase t with REnded => false | _ => true end.

Definition entry (t : Reverse) : SocketAddr * Session :=
  (rv_peer t, MkSession (rv_out t) (rv_last t)).

(** The map entries of the reverse tasks. *)
Definition entries (ts : list Reverse) : list (SocketAddr * Session) :=
  entry <$> List.filter listed ts.

Lemma entries_app ts ts' : entries (ts ++ ts') = entries ts ++ entries ts'.
Proof. unfold entries. by rewrite List.filter_app, fmap_app. Qed.

(** Replacing a task: split the list around it. *)
Lemma entries_middle ts i t t' :
  ts !! i = Some t -> exists l1 l2,
    entries ts = entries l1 ++ entries [t] ++ entries l2 /\
    entries (<[i := t']> ts) = entries l1 ++ entries [t'] ++ entries l2.
Proof.
  intros Hi. exists (take i ts), (drop (S i) ts). rewrite <- !entries_app. split.
  - f_equal. symmetry. by apply take_drop_middle.
  - f_equal. apply insert_take_drop. by eapply lookup_lt_Some.
Qed.

Lemma entries_keep ts i t p :
  ts !! i = Some t -> listed (set_rev p t) = listed t ->
  entries (<[i := set_rev p t]> ts) = entries ts.
Proof.
  intros Hi Hl. destruct (entries_middle ts i t (set_rev p t) Hi) as (l1 & l2 & -> & ->).
  unfold entries. cbn [List.filter]. rewrite Hl. by destruct (listed t).
Qed.

Lemma entries_end ts i t :
  ts !! i = Some t -> listed t = true ->
  entries ts ≡ₚ entry t :: entries (<[i := set_rev RRemoved t]> ts).
Proof.
  intros Hi Hl. destruct (entries_middle ts i t (set_rev RRemoved t) Hi) as (l1 & l2 & -> & ->).
  unfold entries at 2 5. cbn [List.filter]. rewrite Hl. simpl.
  symmetry. apply Permutation_middle.
Qed.

(** The guards the reverse tasks hold. *)
Definition guards (ts : list Reverse) : nat := length (List.filter live ts).

Lemma guards_app ts ts' : guards (ts ++ ts') = (guards ts + guards ts')%nat.
Proof. unfold guards. by rewrite List.filter_app, length_app. Qed.

Lemma guards_middle ts i t t' :
  ts !! i = Some t -> exists n,
    guards ts = (guards [t] + n)%nat /\ guards (<[i := t']> ts) = (guards [t'] + n)%nat.
Proof.
  intros Hi. exists (guards (take i ts) + guards (drop (S i) ts))%nat. split.
  - rewrite <- (take_drop_middle _ _ _ Hi) at 1.
    rewrite guards_app, (guards_app [t] (drop (S i) ts) : guards (t :: _) = _). lia.
  - rewrite insert_take_drop by (by eapply lookup_lt_Some).
    rewrite guards_app, (guards_app [t'] (drop (S i) ts) : guards (t' :: _) = _). lia.
Qed.

Lemma guards_keep ts i t p :
  ts !! i = Some t -> live t = true -> p <> REnded -> guards (<[i := set_rev p t]> ts) = guards ts.
Proof.
  intros Hi Hl Hp. destruct (guards_middle ts i t (set_rev p t) Hi) as (n & -> & ->).
  unfold guards. cbn [List.filter]. rewrite Hl. by destruct p.
Qed.

Lemma guards_end ts i t :
  ts !! i = Some t -> live t = true -> guards ts = S (guards (<[i := set_rev REnded t]> ts)).
Proof.
  intros Hi Hl. destruct (guards_middle ts i t (set_rev REnded t) Hi) as (n & -> & ->).
  unfold guards. cbn [List.filter]. by rewrite Hl.
Qed.

(** ** The counters, whatever other connections they count

    [others] of [made] connections are those of other serve tasks. *)

Definition counted_with (others made : nat) (s : UdpServe) : Prop :=
  counted (others + guards (us_tasks s)) (made + length (us_tasks s)) (us_stats s).

Lemma live_phase t p : rv_phase t = p -> p <> REnded -> live t = true.
Proof. unfold live. intros <-. by destruct (rv_phase t). Qed.

Lemma listed_phase t p : rv_phase t = p -> p <> RRemoved -> p <> REnded -> listed t = true.
Proof. unfold listed. intros <-. by destruct (rv_phase t). Qed.

#[local] Hint Extern 2 (live _ = true) => eapply live_phase; [eassumption|discriminate] : core.
#[local] Hint Extern 2 (listed _ = true) =>
  eapply listed_phase; [eassumption|discriminate|discriminate] : core.

Lemma counted_phase others made p i t s :
  us_tasks s !! i = Some t -> live t = true -> p <> REnded -> counted_with others made s ->
  counted_with others made (to_phase p i t s).
Proof.
  intros Hi Hl Hp. unfold counted_with. cbn [to_phase us_tasks us_stats].
  by rewrite guards_keep, length_insert.
Qed.

Lemma counted_end others made i t s :
  us_tasks s !! i = Some t -> live t = true -> counted_with others made s ->
  counted_with others made (end_task i t s).
Proof.
  intros Hi Hl. unfold counted_with. cbn [end_task us_tasks us_stats].
  rewrite length_insert, (guards_end _ i t Hi Hl), Nat.add_succ_r. apply counted_drop.
Qed.

Lemma udp_step_counted spec ev s s' others made :
  udp_step spec ev s = Some s' -> counted_with others made s -> counted_with others made s'.
Proof.
  intros Hs Hc. destruct (udp_step_case _ _ _ _ Hs); try done.
  - by apply (counted_other _ _ IncError).
  - unfold counted_with. cbn [touch set_loop open_session us_tasks us_stats].
    rewrite guards_app, length_app. cbn.
    rewrite !Nat.add_1_r, !Nat.add_succ_r. by apply counted_accept.
  - by apply (counted_other _ _ IncError).
  - apply counted_phase; auto.
  - apply counted_phase; auto.
  - apply counted_phase; auto.
  - apply (counted_phase _ _ _ i t (reply _ _ s)); auto.
  - apply counted_phase; auto.
  - destruct (_ <=? _); apply counted_phase; auto.
  - apply (counted_phase others made RRemoved i t s); auto.
  - apply counted_end; auto.
Qed.

(** Events that count as errors. *)
Definition udp_error (ev : UdpEv) : bool :=
  match ev with URecv (Err _) | UOpened (Err _) => true | _ => false end.

Lemma udp_step_stats spec ev s s' :
  udp_step spec ev s = Some s' ->
  errors (us_stats s') = (if udp_error ev then fetch_add (errors (us_stats s)) else errors (us_stats s)) /\
  restarts (us_stats s') = restarts (us_stats s) /\
  last_error (us_stats s') = last_error (us_stats s) /\
  (us_pc s' = LDone <-> us_pc s = LDone \/ ev = UCancelled).
Proof.
  intros Hs. destruct (udp_step_case _ _ _ _ Hs); cbn; try destruct (_ <=? _); cbn;
    split_and!; try done; split; intros; destruct_or?; try done; auto; congruence.
Qed.

Record udp_inv (s : UdpServe) : Prop := {
  ui_nodup : NoDup (entries (us_tasks s)).*1;
  ui_map : us_sessions s = list_to_map (entries (us_tasks s));
  ui_gauge : counted_with 0 0 s;
  ui_open : forall peer data t, us_pc s = LOpen peer data t -> us_sessions s !! peer = None;
  ui_cells : Forall (fun t => rv_last t < length (us_clocks s))%nat (us_tasks s);
}.

Lemma cells_insert (ts : list Reverse) i t p n :
  ts !! i = Some t -> Forall (fun t => rv_last t < n)%nat ts ->
  Forall (fun t => rv_last t < n)%nat (<[i := set_rev p t]> ts).
Proof.
  intros Hi Hall. apply Forall_insert; [done|]. exact (Forall_lookup_1 _ _ _ _ Hall Hi).
Qed.

Lemma udp_inv_touch last s : udp_inv s -> udp_inv (touch last s).
Proof. intros []. constructor; simpl; rewrite ?length_insert; done. Qed.

Lemma udp_inv_loop stats rr pc s :
  udp_inv s -> counted_with 0 0 (set_loop stats rr pc s) ->
  (forall peer data t, pc = LOpen peer data t -> us_sessions s !! peer = None) ->
  udp_inv (set_loop stats rr pc s).
Proof. intros []. by constructor. Qed.

Lemma udp_inv_phase p i t s :
  udp_inv s -> counted_with 0 0 (to_phase p i t s) -> us_tasks s !! i = Some t ->
  listed (set_rev p t) = listed t -> udp_inv (to_phase p i t s).
Proof.
  intros [H1 H2 H3 H4 H5] Hc Hi Hl. constructor; simpl; rewrite ?(entries_keep _ i t) by done; try done.
  by apply cells_insert.
Qed.

Lemma udp_inv_end i t s :
  udp_inv s -> counted_with 0 0 (end_session i t s) -> us_tasks s !! i = Some t -> listed t = true ->
  udp_inv (end_session i t s).
Proof.
  intros [H1 H2 H3 H4 H5] Hc Hi Hl. pose proof (entries_end _ i t Hi Hl) as Hp.
  assert (Hnd : NoDup (entry t :: entries (<[i:=set_rev RRemoved t]> (us_tasks s))).*1)
    by (by rewrite <- Hp). constructor; [..|done| |]; simpl.
  - by apply NoDup_cons in Hnd as [_ Hnd].
  - rewrite H2, (list_to_map_proper _ _ H1 Hp). simpl. apply NoDup_cons in Hnd as [Hni _].
    apply delete_insert_id, not_elem_of_list_to_map_1. exact Hni.
  - intros peer data t' Hpc. apply lookup_delete_None. right. by eapply H4.
  - by apply cells_insert.
Qed.

Lemma udp_inv_end_task i t s :
  udp_inv s -> counted_with 0 0 (end_task i t s) -> us_tasks s !! i = Some t -> rv_phase t = RRemoved ->
  udp_inv (end_task i t s).
Proof.
  intros [H1 H2 H3 H4 H5] Hc Hi Hl. constructor; simpl; rewrite ?(entries_keep _ i t); try done;
    try (unfold listed; by rewrite Hl). by apply cells_insert.
Qed.

Lemma udp_inv_open peer data t out s :
  udp_inv s -> us_pc s = LOpen peer data t ->
  let s' := set_loop (on_accept (us_stats s)) (us_rr s) (LSend peer out data) (open_session peer out s) in
  counted_with 0 0 s' -> udp_inv s'.
Proof.
  intros [H1 H2 H3 H4 H5] Hpc s' Hc. specialize (H4 _ _ _ Hpc).
  assert (Hni : peer ∉ (entries (us_tasks s)).*1).
  { apply (not_elem_of_list_to_map_2 (M := gmap SocketAddr)). by rewrite <- H2. }
  set (new := MkReverse peer out (length (us_clocks s)) RSpawned).
  assert (Hp : entries (us_tasks s ++ [new]) ≡ₚ entry new :: entries (us_tasks s))
    by (rewrite entries_app; symmetry; apply Permutation_cons_append).
  assert (Hnd : NoDup (entries (us_tasks s ++ [new])).*1)
    by (rewrite Hp; by apply NoDup_cons).
  constructor; [..|done| |]; simpl; fold new.
  - done.
  - by rewrite H2, (list_to_map_proper _ _ Hnd Hp).
  - done.
  - rewrite length_app. simpl. apply Forall_app. split; [|constructor; [unfold new; simpl; lia|constructor]].
    eapply Forall_impl; [done|]. simpl. lia.
Qed.

Lemma udp_step_inv spec ev s s' : udp_inv s -> udp_step spec ev s = Some s' -> udp_inv s'.
Proof.
  intros Hs H. pose proof (udp_step_counted _ _ _ _ 0 0 H (ui_gauge s Hs)) as Hc.
  destruct (udp_step_case _ _ _ _ H) as
    [d|Hpc|e Hpc|data peer out last Hpc Hl|data peer target rr Hpc Hl|Hpc|peer data target out Hpc
    |peer data target e Hpc|peer out data r Hpc|i t Hi Hph|i t a data Hi Hph|i t a e Hi Hph
    |i t data Hi Hph|i t data e Hi Hph|i t a Hi Hph|i t Hi Hph|i t Hi Hph].
  - by destruct Hs.
  - by apply udp_inv_loop.
  - by apply udp_inv_loop.
  - by apply udp_inv_touch, udp_inv_loop.
  - apply udp_inv_loop; [done..|]. by intros ??? [= <- _ _].
  - by apply udp_inv_loop.
  - by eapply udp_inv_touch, udp_inv_open.
  - by apply udp_inv_loop.
  - destruct Hs. by constructor.
  - apply udp_inv_phase; [done..|]. by rewrite (listed_phase t _ Hph).
  - apply udp_inv_phase; [by apply udp_inv_touch|done..|]. by rewrite (listed_phase t _ Hph).
  - apply udp_inv_phase; [done..|]. by rewrite (listed_phase t _ Hph).
  - apply (udp_inv_phase _ i t (reply _ _ s)); [by destruct Hs|done..|]. by rewrite (listed_phase t _ Hph).
  - apply udp_inv_phase; [done..|]. by rewrite (listed_phase t _ Hph).
  - destruct (_ <=? _); (apply udp_inv_phase; [done..|]; by rewrite (listed_phase t _ Hph)).
  - apply udp_inv_end; auto.
  - by apply udp_inv_end_task.
Qed.

Lemma udp_start_inv spec nm pr now s :
  udp_start spec (stats_new nm pr) now (Ok tt) = Ok s -> udp_inv s.
Proof. intros [= <-]. constructor; try done. apply NoDup_nil_2. Qed.

Lemma reach_inv spec P s0 s : udp_inv s0 -> reach spec P s0 s -> udp_inv s.
Proof. intros H0. induction 1; [done|]. by eapply udp_step_inv. Qed.

Definition any_step (ev : UdpEv) (s : UdpServe) : Prop := True.

Lemma elem_of_entries ts peer sess :
  (peer, sess) ∈ entries ts <->
  exists i t, ts !! i = Some t /\ listed t = true /\ entry t = (peer, sess).
Proof.
  unfold entries. rewrite list_elem_of_fmap. split.
  - intros (t & He & Ht). apply list_elem_of_In, List.filter_In in Ht as [Ht Hl].
    apply list_elem_of_In, list_elem_of_lookup in Ht as [i Hi]. by exists i, t.
  - intros (i & t & Hi & Hl & He). exists t. split; [done|].
    apply list_elem_of_In, List.filter_In. split; [|done].
    apply list_elem_of_In. by eapply list_elem_of_lookup_2.
Qed.

Lemma elem_of_peers ts i t :
  ts !! i = Some t -> listed t = true -> rv_peer t ∈ (entries ts).*1.
Proof.
  intros Hi Hl. apply list_elem_of_fmap. exists (entry t). split; [done|].
  apply elem_of_entries. by exists i, t.
Qed.

Lemma listed_unique ts i j t u :
  NoDup (entries ts).*1 -> ts !! i = Some t -> ts !! j = Some u ->
  listed t = true -> listed u = true -> rv_peer t = rv_peer u -> i = j.
Proof.
  revert i j; induction ts as [|v ts IH]; intros i j Hnd Hi Hj Ht Hu Hp; [done|].
  unfold entries in Hnd. cbn [List.filter] in Hnd. fold (entries ts) in Hnd.
  assert (Hts : NoDup (entries ts).*1).
  { destruct (listed v); [|done]. by apply NoDup_cons in Hnd as [_ ?]. }
  destruct i as [|i], j as [|j]; simplify_eq/=; [done| | |f_equal; eauto];
    [rewrite Ht in Hnd|rewrite Hu in Hnd]; apply NoDup_cons in Hnd as [[] _]; simpl.
  - rewrite Hp. by eapply elem_of_peers.
  - rewrite <- Hp. by eapply elem_of_peers.
Qed.

(** The session is removed and the guard is not dropped yet. *)
Definition removed (t : Reverse) : bool := match rv_phase t with RRemoved => true | _ => false end.

Lemma guards_split ts : guards ts = (length (entries ts) + length (List.filter removed ts))%nat.
Proof.
  unfold guards, entries. rewrite length_fmap. induction ts as [|t ts IH]; [done|]. cbn [List.filter].
  unfold live at 1, listed at 1, removed at 1. destruct (rv_phase t); cbn; lia.
Qed.

(** C10: whatever the order of datagrams, replies, timers and failures, and
    however a task that closes its session and the loop interleave, the session
    map holds exactly the sessions whose reverse task has not removed its own,
    one per client, with that task's socket and clock; the active gauge is the
    number of sessions in the map and of the tasks just past the removal, and
    [accepted] the number ever opened. *)
Theorem udp_sessions_live spec nm pr now s0 s :
  udp_start spec (stats_new nm pr) now (Ok tt) = Ok s0 -> reach spec any_step s0 s ->
  (forall peer sess, us_sessions s !! peer = Some sess <->
    exists i t, us_tasks s !! i = Some t /\ listed t = true /\ entry t = (peer, sess)) /\
  (forall i j t u, us_tasks s !! i = Some t -> us_tasks s !! j = Some u ->
    listed t = true -> listed u = true -> rv_peer t = rv_peer u -> i = j) /\
  active (us_stats s) =
    wrap 64 (Z.of_nat (size (us_sessions s) + length (List.filter removed (us_tasks s)))) /\
  accepted (us_stats s) = wrap 64 (Z.of_nat (length (us_tasks s))).
Proof.
  intros H0 Hr. apply udp_start_inv in H0.
  destruct (reach_inv _ _ _ _ H0 Hr) as [H1 H2 [Ha Hc _] _ _].
  assert (Hm : forall peer sess, us_sessions s !! peer = Some sess <->
    exists i t, us_tasks s !! i = Some t /\ listed t = true /\ entry t = (peer, sess)).
  { intros peer sess. rewrite H2, <- elem_of_entries. symmetry. by apply elem_of_list_to_map. }
  split; [done|]. split; [|split; [|done]].
  - intros i j t u. by apply listed_unique.
  - rewrite Ha. cbn [Nat.add]. rewrite guards_split, H2. do 3 f_equal. symmetry.
    by apply map_size_list_to_map.
Qed.

(** Run a list of events; used to exhibit states. *)
Fixpoint udp_run (spec : ListenerSpec) (evs : list UdpEv) (s : UdpServe) : option UdpServe :=
  match evs with
  | [] => Some s
  | ev :: evs => s ← udp_step spec ev s; udp_run spec evs s
  end.

Lemma udp_run_reach spec evs s0 s s' :
  reach spec any_step s0 s -> udp_run spec evs s = Some s' -> reach spec any_step s0 s'.
Proof.
  revert s; induction evs as [|ev evs IH]; intros s Hs; simpl; [by intros [= <-]|].
  intros H. apply bind_Some in H as (s1 & H1 & H). eapply IH; [|done]. by eapply reach_step.
Qed.

Definition udp_spec : ListenerSpec :=
  MkListener Udp ":53" 53 ["1.1.1.1:53"%string : str; "8.8.8.8:53"%string : str] true "udp://:53".

Definition client_a : SocketAddr := SockAddr (V4 (Ipv4 10 0 0 1)) 4000 0.
Definition client_b : SocketAddr := SockAddr (V4 (Ipv4 10 0 0 2)) 4000 0.

Definition udp_initial : UdpServe :=
  MkUdp 0 (stats_new "udp://:53" "udp") 0 LRecv ∅ [] [] [] [].

Definition udp_events : list UdpEv :=
  [URecv (Ok ([1], client_a)); UOpened (Ok 7%nat); RStart 0; USent (Ok tt);
   RRecv 0 (Ok [10]); URecv (Ok ([2], client_b)); RSent 0 (Ok tt);
   UOpened (Ok 8%nat); RStart 1; USent (Err (io_other "refused")); UTick 100;
   URecv (Ok ([3], client_a)); USent (Ok tt); RRecv 1 (Err (io_other "refused")); RRemove 1].

Lemma udp_sessions_live_witness :
  match udp_run udp_spec udp_events udp_initial with
  | Some s => active (us_stats s) =
      wrap 64 (Z.of_nat (size (us_sessions s) + length (List.filter removed (us_tasks s))))
  | None => False
  end.
Proof.
  destruct (udp_run udp_spec udp_events udp_initial) as [s|] eqn:Hr; [|vm_compute in Hr; done].
  refine (proj1 (proj2 (proj2 (udp_sessions_live udp_spec "udp://:53" "udp" 0 udp_initial s _ _)))).
  - reflexivity.
  - eapply (udp_run_reach _ udp_events); [apply reach_start|exact Hr].
Defined.

(** ** Forwarding a datagram *)

Lemma udp_pick_target_eq ts rr : udp_pick_target ts rr = pick_target ts rr.
Proof. reflexivity. Qed.

(** In [s1] the datagram is about to be sent on the socket, whose clock has been
    set to the present, and the loop goes back to receiving after the send. *)
Definition sends_next (spec : ListenerSpec) (peer : SocketAddr) (out : Fd) (data : list Z)
    (last : nat) (s s1 : UdpServe) : Prop :=
  us_clocks s1 !! last = Some (us_now s) /\
  forall r, exists s2, udp_step spec (USent r) s1 = Some s2 /\ us_pc s2 = LRecv /\
    us_sessions s2 = us_sessions s1 /\
    us_sent s2 = us_sent s ++ (if is_ok r then [(peer, out, data)] else []).

(** C22: a datagram received by a valid listener is always forwarded: its
    client's session, when there is one, has its clock reset and its socket is
    asked to send the datagram; otherwise the loop opens a session to the next
    target in turn, and when that succeeds the session is entered in the map and
    its socket is asked to send that same datagram first; when it fails one error
    is counted and no session is left behind.  The loop then receives again,
    whatever the send gave, the datagram being sent if it gave no error. *)
Theorem udp_datagram spec nm pr now s0 s data peer :
  listener_ok spec ->
  udp_start spec (stats_new nm pr) now (Ok tt) = Ok s0 -> reach spec any_step s0 s ->
  us_pc s = LRecv ->
  exists s1, udp_step spec (URecv (Ok (data, peer))) s = Some s1 /\
  match us_sessions s !! peer with
  | Some sess =>
      sends_next spec peer (s_out sess) data (s_last sess) s s1 /\ us_sessions s1 = us_sessions s
  | None => exists t,
      targets spec !! index (targets spec) (us_rr s) = Some t /\ us_pc s1 = LOpen peer data t /\
      us_sessions s1 = us_sessions s /\
      forall r, exists s2, udp_step spec (UOpened r) s1 = Some s2 /\
        match r with
        | Ok out => exists last, sends_next spec peer out data last s s2 /\
            us_sessions s2 = <[peer := MkSession out last]> (us_sessions s)
        | Err _ => us_pc s2 = LRecv /\ us_sessions s2 = us_sessions s /\
            errors (us_stats s2) = fetch_add (errors (us_stats s))
        end
  end.
Proof.
  intros Hok H0 Hr Hpc. apply udp_start_inv in H0.
  destruct (reach_inv _ _ _ _ H0 Hr) as [H1 H2 _ _ H5].
  cbn [udp_step]. rewrite Hpc. unfold lookup_session.
  destruct (us_sessions s !! peer) as [sess|] eqn:Hl; simpl.
  - eexists. split; [done|]. simpl. split; [|done]. split; [|by eauto].
    apply list_lookup_insert_eq. rewrite H2 in Hl. apply elem_of_list_to_map_2 in Hl.
    apply elem_of_entries in Hl as (i & t & Hi & _ & [= _ <-]).
    exact (Forall_lookup_1 _ _ _ _ H5 Hi).
  - rewrite udp_pick_target_eq.
    destruct (pick_target_eq (targets spec) (us_rr s) (lo_targets _ Hok)) as (t & Ht & ->).
    simpl. eexists. split; [done|]. exists t. simpl. do 3 (split; [done|]).
    intros [out|e]; eexists; (split; [done|]); [|done].
    exists (length (us_clocks s)). split; [|done]. split; [|by eauto].
    apply list_lookup_insert_eq. simpl. rewrite length_app. simpl. lia.
Qed.

Lemma udp_datagram_witness :
  exists s1, udp_step udp_spec (URecv (Ok ([9], client_a))) udp_initial = Some s1 /\
    us_pc s1 = LOpen client_a [9] "1.1.1.1:53".
Proof.
  eexists. split; [vm_compute; reflexivity|].
  destruct (udp_datagram udp_spec "udp://:53" "udp" 0 udp_initial udp_initial [9] client_a)
    as (s1 & Hs & Hm).
  - constructor; [done| |split; [discriminate|reflexivity]].
    constructor; [by exists "1.1.1.1", 53|]. constructor; [by exists "8.8.8.8", 53|constructor].
  - reflexivity.
  - apply reach_start.
  - reflexivity.
  - vm_compute in Hs. injection Hs as <-. destruct Hm as (t & Ht & Hpc & _).
    vm_compute in Ht. injection Ht as <-. exact Hpc.
Defined.

(** ** Reaping idle sessions *)

(** Timers are punctual: time does not pass a session's deadline before its
    timer runs, nor while a spawned task has not been polled, a reply is being
    sent or a task that has left its loop waits for the map. *)
Definition punctual (ev : UdpEv) (s : UdpServe) : Prop :=
  match ev with
  | UTick d => Forall (fun t => match rv_phase t with
      | RSpawned | RSending _ | RClosing => d = 0
      | RWaiting armed => us_now s + d <= armed + UDP_TTL
      | RRemoved | REnded => True
      end) (us_tasks s)
  | _ => True
  end.

(** A running task was armed less than a [UDP_TTL] after its last activity,
    which was at time [v]. *)
Definition phase_timed (now v : Z) (p : RevPhase) : Prop :=
  match p with
  | RSpawned | RSending _ => v = now
  | RWaiting armed => armed <= now <= armed + UDP_TTL /\ armed - v < UDP_TTL
  | RClosing => now - v < 2 * UDP_TTL
  | RRemoved | REnded => True
  end.

Definition timed (now : Z) (clocks : list Z) (t : Reverse) : Prop :=
  exists v, clocks !! rv_last t = Some v /\ v <= now /\ phase_timed now v (rv_phase t).

Lemma phase_timed_bound now v t :
  listed t = true -> v <= now -> phase_timed now v (rv_phase t) -> now - v < 2 * UDP_TTL.
Proof. unfold listed, UDP_TTL. destruct (rv_phase t); cbn; unfold UDP_TTL; lia || done. Qed.

Definition timed_inv (s : UdpServe) : Prop := Forall (timed (us_now s) (us_clocks s)) (us_tasks s).

Lemma timed_touch now clocks last t : timed now clocks t -> timed now (<[last := now]> clocks) t.
Proof.
  intros (v & Hv & Hle & Hph). destruct (decide (last = rv_last t)) as [->|Hne].
  - exists now. split; [apply list_lookup_insert_eq; by eapply lookup_lt_Some|].
    split; [lia|]. destruct (rv_phase t); cbn in *; unfold UDP_TTL in *; lia || done.
  - exists v. rewrite list_lookup_insert_ne by done. done.
Qed.

Lemma timed_inv_touch last s : timed_inv s -> timed_inv (touch last s).
Proof. intros H. eapply Forall_impl; [exact H|]. intros t. apply timed_touch. Qed.

Lemma timed_phase now clocks t p :
  timed now clocks t ->
  (forall v, clocks !! rv_last t = Some v -> v <= now -> phase_timed now v (rv_phase t) ->
    phase_timed now v p) ->
  timed now clocks (set_rev p t).
Proof.
  intros (v & Hv & Hle & Ht) Hp. exists v. split; [done|]. split; [done|]. by apply Hp.
Qed.

Lemma timed_inv_rearm i t s :
  timed_inv s -> us_tasks s !! i = Some t ->
  us_now s - default 0 (us_clocks s !! rv_last t) < UDP_TTL -> timed_inv (rearm i t s).
Proof.
  intros Hs Hi Hidle. apply Forall_insert; [done|]. simpl.
  apply timed_phase; [exact (Forall_lookup_1 _ _ _ _ Hs Hi)|].
  intros v Hv Hle _. rewrite Hv in Hidle. simpl in *. unfold UDP_TTL in *. lia.
Qed.

(** A task leaves its loop, or comes nearer to its end. *)
Lemma timed_inv_close p i t s s' :
  timed_inv s -> us_tasks s !! i = Some t ->
  (p = RClosing /\ listed t = true \/ p = RRemoved \/ p = REnded) ->
  us_now s' = us_now s -> us_clocks s' = us_clocks s ->
  us_tasks s' = <[i := set_rev p t]> (us_tasks s) -> timed_inv s'.
Proof.
  intros Hs Hi Hp Hn Hc Ht. unfold timed_inv. rewrite Hn, Hc, Ht. clear Hn Hc Ht s'.
  apply Forall_insert; [done|]. simpl.
  apply timed_phase; [exact (Forall_lookup_1 _ _ _ _ Hs Hi)|]. intros v _ Hle Ht.
  destruct Hp as [[-> Hl]|[->| ->]]; [|done|done]. by eapply phase_timed_bound.
Qed.

Lemma timed_tick now clocks t d :
  0 <= d -> timed now clocks t ->
  match rv_phase t with
  | RSpawned | RSending _ | RClosing => d = 0
  | RWaiting armed => now + d <= armed + UDP_TTL
  | RRemoved | REnded => True
  end -> timed (now + d) clocks t.
Proof.
  intros Hd (v & Hv & Hle & Hph) Hp. exists v. split; [done|]. split; [lia|].
  destruct (rv_phase t); cbn in *; lia || done.
Qed.

Lemma timed_inv_open peer out s :
  timed_inv s -> timed_inv (open_session peer out s).
Proof.
  intros Hs. apply Forall_app. split.
  - eapply Forall_impl; [exact Hs|]. intros t (v & Hv & H). exists v.
    split; [by apply lookup_app_l_Some|done].
  - constructor; [|constructor]. exists (us_now s). simpl.
    split; [by rewrite lookup_app_r, Nat.sub_diag|]. split; [lia|done].
Qed.

(** The clock of a task that has just been touched, and of one whose phase
    requires it. *)
Lemma timed_inv_sending i t data s :
  timed_inv s -> us_tasks s !! i = Some t ->
  timed_inv (to_phase (RSending data) i t (touch (rv_last t) s)).
Proof.
  intros Hs Hi. pose proof (timed_inv_touch (rv_last t) s Hs) as Ht.
  apply Forall_insert; [done|]. cbn. apply timed_phase; [exact (Forall_lookup_1 _ _ _ _ Ht Hi)|].
  intros v Hv _ _. destruct (Forall_lookup_1 _ _ _ _ Hs Hi) as (w & Hw & _).
  rewrite list_lookup_insert_eq in Hv by (by eapply lookup_lt_Some). congruence.
Qed.

Lemma timed_inv_fresh i t s :
  timed_inv s -> us_tasks s !! i = Some t ->
  match rv_phase t with RSpawned | RSending _ => True | _ => False end ->
  timed_inv (rearm i t s).
Proof.
  intros Hs Hi Hph. apply timed_inv_rearm; [done..|].
  destruct (Forall_lookup_1 _ _ _ _ Hs Hi) as (v & -> & _ & Hx).
  destruct (rv_phase t); try done; cbn in *; unfold UDP_TTL; lia.
Qed.

Lemma udp_step_timed spec ev s s' :
  timed_inv s -> punctual ev s -> udp_step spec ev s = Some s' -> timed_inv s'.
Proof.
  intros Hs Hp H. destruct (udp_step_case _ _ _ _ H) as
    [d Hd| | |data peer out last| | |peer data target out Hpc| | |i t Hi Hph|i t a data Hi Hph|i t a e Hi Hph
    |i t data Hi Hph|i t data e Hi Hph|i t a Hi Hph|i t Hi Hph|i t Hi Hph]; try done.
  - unfold timed_inv in *. simpl in *. rewrite Forall_forall in Hp, Hs |- *.
    intros t Ht. apply timed_tick; auto. exact (Hp t Ht).
  - by apply (timed_inv_touch last s).
  - apply (timed_inv_touch _ (open_session peer out s)). by apply timed_inv_open.
  - apply timed_inv_fresh; [done..|]. by rewrite Hph.
  - by apply timed_inv_sending.
  - apply (timed_inv_close RClosing i t s); auto.
  - apply (timed_inv_fresh i t (reply _ _ s)); [done..|]. by rewrite Hph.
  - apply (timed_inv_close RClosing i t s); auto.
  - destruct (UDP_TTL <=? idle s (rv_last t)) eqn:Hidle; [apply (timed_inv_close RClosing i t s); auto|].
    apply timed_inv_rearm; [done..|]. unfold idle in Hidle. lia.
  - apply (timed_inv_close RRemoved i t s); auto.
  - apply (timed_inv_close REnded i t s); auto.
Qed.

(** C23: with punctual timers no session stays in the map for [2 UDP_TTL] (two
    minutes) without a datagram in either direction. *)
Theorem udp_idle_bound spec nm pr now s0 s peer sess :
  udp_start spec (stats_new nm pr) now (Ok tt) = Ok s0 -> reach spec punctual s0 s ->
  us_sessions s !! peer = Some sess -> idle s (s_last sess) < 2 * UDP_TTL.
Proof.
  intros H0 Hr Hl.
  assert (Hi : udp_inv s) by (eapply reach_inv; [by eapply udp_start_inv|done]).
  assert (Ht : timed_inv s).
  { clear Hl Hi. induction Hr as [|s1 ev s2 _ IH Hp Hst]; [|by eapply udp_step_timed].
    injection H0 as <-. constructor. }
  rewrite (ui_map s Hi) in Hl. apply elem_of_list_to_map_2, elem_of_entries in Hl
    as (i & t & Hti & Hlive & [= _ <-]).
  destruct (Forall_lookup_1 _ _ _ _ Ht Hti) as (v & Hv & Hle & Hph).
  pose proof (phase_timed_bound _ _ _ Hlive Hle Hph). unfold idle. simpl. rewrite Hv. simpl. lia.
Qed.

(** A session's timer never ends a session with activity within the last
    [UDP_TTL], and always ends one that has been idle for that long. *)
Lemma udp_timer_reaps spec s s' i t :
  us_tasks s !! i = Some t -> udp_step spec (RTimer i) s = Some s' ->
  exists t', us_tasks s' !! i = Some t' /\
    rv_phase t' = (if UDP_TTL <=? idle s (rv_last t) then RClosing else RWaiting (us_now s)).
Proof.
  cbn [udp_step rev_step]. intros Hi H. rewrite Hi in H. cbn in H. destruct (rv_phase t); try done.
  case_decide; [|done]. destruct (_ <=? _); injection H as <-; cbn;
    rewrite list_lookup_insert_eq by (by eapply lookup_lt_Some); by eexists.
Qed.

#[global] Instance punctual_dec ev s : Decision (punctual ev s).
Proof.
  destruct ev; simpl; try apply _. apply Forall_dec. intros t. destruct (rv_phase t); apply _.
Defined.

Fixpoint punctual_run (spec : ListenerSpec) (evs : list UdpEv) (s : UdpServe) : option UdpServe :=
  match evs with
  | [] => Some s
  | ev :: evs =>
      if decide (punctual ev s) then s ← udp_step spec ev s; punctual_run spec evs s else None
  end.

Lemma punctual_run_reach spec evs s0 s s' :
  reach spec punctual s0 s -> punctual_run spec evs s = Some s' -> reach spec punctual s0 s'.
Proof.
  revert s; induction evs as [|ev evs IH]; intros s Hs; simpl; [by intros [= <-]|].
  case_decide; [|done]. intros H1. apply bind_Some in H1 as (s1 & H1 & Hr).
  eapply IH; [|done]. by eapply reach_step.
Qed.

(** A datagram just after the timer was armed: the timer finds the session a
    little short of [UDP_TTL] idle and is armed for as long again. *)
Definition idle_events : list UdpEv :=
  [URecv (Ok ([1], client_a)); UOpened (Ok 7%nat); USent (Ok tt); RStart 0; UTick 1;
   URecv (Ok ([2], client_a)); USent (Ok tt); UTick 59999; RTimer 0; UTick 59999].

Lemma udp_idle_bound_witness :
  match punctual_run udp_spec idle_events udp_initial with
  | Some s => idle s 0 < 2 * UDP_TTL
  | None => False
  end.
Proof.
  destruct (punctual_run udp_spec idle_events udp_initial) as [s|] eqn:Hr;
    [|vm_compute in Hr; done].
  refine (udp_idle_bound udp_spec "udp://:53" "udp" 0 udp_initial s client_a (MkSession 7 0) _ _ _).
  - reflexivity.
  - eapply (punctual_run_reach _ idle_events); [apply reach_start|exact Hr].
  - vm_compute in Hr. injection Hr as <-. reflexivity.
Defined.

(** A session can outlive [UDP_TTL] of inactivity: with punctual timers,
    one is still in the map after 119998 ms without a datagram. *)
Lemma udp_idle_exceeds_ttl :
  exists s, reach udp_spec punctual udp_initial s /\
    us_sessions s !! client_a = Some (MkSession 7 0) /\ idle s 0 = 119998.
Proof.
  destruct (punctual_run udp_spec idle_events udp_initial) as [s|] eqn:Hr;
    [|vm_compute in Hr; done].
  exists s. split; [eapply (punctual_run_reach _ idle_events); [apply reach_start|exact Hr]|].
  vm_compute in Hr. injection Hr as <-. split; reflexivity.
Qed.
