(* ===== verification/UdpFlow.v ===== *)
(** * Datagrams end to end

    What the receive loop and the reverse tasks of Udp.v deliver, against what
    they received: the datagrams sent to the targets are those received from the
    clients, in order, each on a socket of its own client's session; the replies
    a client gets are those its own sessions received, in order.  A datagram is
    lost only where the code gives it up: an outbound socket that cannot be
    opened, or a send that fails. *)

From S2P Require Import Prelude Str Ip Io Config Stats Udp.

(** [l] is [l'], or what is left of it after losses. *)
Definition within {A} (lossy : bool) (l l' : list A) : Prop :=
  if lossy then sublist l l' else l = l'.

Lemma within_trans {A} b b' (l m l' x : list A) :
  within b l l' -> within b' m (l ++ x) -> within (b || b') m (l' ++ x).
Proof.
  destruct b, b'; cbn; intros H1 H2; subst; try done.
  - etrans; [done|]. by apply sublist_app.
  - by apply sublist_app.
Qed.

(** ** From the clients to the targets *)

(** The datagrams received, with their clients. *)
Definition received (evs : list UdpEv) : list (SocketAddr * list Z) :=
  omap (fun ev => match ev with URecv (Ok (data, peer)) => Some (peer, data) | _ => None end) evs.

(** The datagrams sent to a target, with their clients. *)
Definition forwarded (s : UdpServe) : list (SocketAddr * list Z) :=
  (fun '(peer, _, data) => (peer, data)) <$> us_sent s.

(** The datagram the loop has received and not sent yet. *)
Definition in_hand (s : UdpServe) : list (SocketAddr * list Z) :=
  match us_pc s with
  | LOpen peer data _ | LSend peer _ data => [(peer, data)]
  | _ => []
  end.

(** The loop gives up the datagram in hand. *)
Definition dropped (ev : UdpEv) : bool :=
  match ev with UOpened (Err _) | USent (Err _) => true | _ => false end.

Lemma forward_step spec ev s s' :
  udp_case spec s ev s' ->
  within (dropped ev) (forwarded s' ++ in_hand s') ((forwarded s ++ in_hand s) ++ received [ev]).
Proof.
  unfold forwarded, in_hand. intros H.
  destruct H as [| | | | | | | |peer out data r Hpc| | | | | |i t a| |]; cbn -[app];
    repeat match goal with Hpc : us_pc s = _ |- _ => rewrite Hpc; clear Hpc end; cbn -[app];
    rewrite ?app_nil_r; try done.
  - by apply sublist_inserts_r.
  - destruct r; cbn -[app]; rewrite fmap_app, ?app_nil_r; [done|]. by apply sublist_inserts_r.
  - by destruct (_ <=? _).
Qed.

(** ** From the targets to the clients *)

Definition for_client {A} (c peer : SocketAddr) (x : A) : option A :=
  if decide (peer = c) then Some x else None.

(** The datagrams received by the sessions of client [c]. *)
Definition answers (c : SocketAddr) (tasks : list Reverse) (evs : list UdpEv) : list (list Z) :=
  omap (fun ev => match ev with
    | RRecv i (Ok data) => t ← tasks !! i; for_client c (rv_peer t) data
    | _ => None
    end) evs.

Definition replies (c : SocketAddr) (s : UdpServe) : list (list Z) :=
  omap (fun '(peer, data) => for_client c peer data) (us_replies s).

(** The reply a session of client [c] is sending. *)
Definition sending (c : SocketAddr) (t : Reverse) : option (list Z) :=
  match rv_phase t with RSending data => for_client c (rv_peer t) data | _ => None end.

Definition pending (c : SocketAddr) (s : UdpServe) : list (list Z) := omap (sending c) (us_tasks s).

(** A reverse task gives up the reply it is sending. *)
Definition unsent (ev : UdpEv) : bool := match ev with RSent _ (Err _) => true | _ => false end.

Lemma omap_insert_same {A B} (f : A -> option B) (l : list A) i x y :
  l !! i = Some x -> f y = f x -> omap f (<[i := y]> l) = omap f l.
Proof.
  revert i; induction l as [|z l IH]; intros [|i] Hi Hf; simplify_eq/=; [by rewrite Hf|].
  by rewrite (IH i).
Qed.

Lemma omap_insert_only {A B} (f : A -> option B) (l : list A) i x y :
  l !! i = Some x -> (forall j z, l !! j = Some z -> f z <> None -> j = i) ->
  omap f (<[i := y]> l) = option_list (f y).
Proof.
  assert (Hnone : forall k : list A, (forall j z, k !! j = Some z -> f z = None) -> omap f k = []).
  { induction k as [|z k IH]; intros Hk; cbn; [done|]. rewrite (Hk 0%nat z eq_refl).
    apply IH. intros j. apply (Hk (S j)). }
  revert i; induction l as [|z l IH]; intros [|i] Hi Ho; simplify_eq/=.
  - rewrite Hnone; [by destruct (f y)|]. intros j z Hj.
    destruct (f z) eqn:Hz; [|done]. specialize (Ho (S j) z Hj). rewrite Hz in Ho. by ospecialize (Ho _).
  - destruct (f z) eqn:Hz.
    + specialize (Ho 0%nat z eq_refl). rewrite Hz in Ho. by ospecialize (Ho _).
    + apply IH; [done|]. intros j u Hj Hu. specialize (Ho (S j) u Hj Hu). by injection Ho.
Qed.

(** A running session of client [c] is the only one that can be sending to it. *)
Lemma pending_only c s i t t' :
  udp_inv s -> us_tasks s !! i = Some t -> listed t = true -> rv_peer t = c ->
  omap (sending c) (<[i := t']> (us_tasks s)) = option_list (sending c t').
Proof.
  intros Hs Hi Hl Hc. eapply omap_insert_only; [done|]. intros j u Hj Hu.
  unfold sending, for_client in Hu. destruct (rv_phase u) eqn:Hph; try done.
  case_decide; [|done]. eapply listed_unique; [by apply (ui_nodup s)|done..| |done|congruence].
  by eapply listed_phase.
Qed.

Lemma pending_now c s i t :
  udp_inv s -> us_tasks s !! i = Some t -> listed t = true -> rv_peer t = c ->
  pending c s = option_list (sending c t).
Proof.
  intros Hs Hi Hl Hc. rewrite <- (pending_only c s i t t Hs Hi Hl Hc). unfold pending.
  by rewrite list_insert_id.
Qed.

(** A session changes phase: nothing changes for the other clients. *)
Lemma pending_other c s i t p :
  us_tasks s !! i = Some t -> rv_peer t <> c ->
  omap (sending c) (<[i := set_rev p t]> (us_tasks s)) = pending c s.
Proof.
  intros Hi Hc. eapply omap_insert_same; [done|]. unfold sending, for_client. cbn.
  destruct p, (rv_phase t); by rewrite ?decide_False by done.
Qed.

(** A session that is not sending, and will not be. *)
Lemma pending_idle c s i t p :
  us_tasks s !! i = Some t -> sending c t = None -> (forall d, p <> RSending d) ->
  omap (sending c) (<[i := set_rev p t]> (us_tasks s)) = pending c s.
Proof.
  intros Hi Ht Hp. eapply omap_insert_same; [done|]. rewrite Ht. unfold sending. cbn.
  destruct p; try done. by destruct (Hp data).
Qed.

(** The end of a reply, sent or given up. *)
Lemma pending_done c s i t data p :
  udp_inv s -> us_tasks s !! i = Some t -> rv_phase t = RSending data -> (forall d, p <> RSending d) ->
  pending c s = omap (sending c) (<[i := set_rev p t]> (us_tasks s)) ++
    option_list (for_client c (rv_peer t) data).
Proof.
  intros Hs Hi Hph Hp. assert (listed t = true) by (by eapply listed_phase). unfold for_client.
  case_decide as Hc.
  - rewrite (pending_now c s i t), (pending_only c s i t) by done. unfold sending, for_client.
    rewrite Hph, decide_True by done. cbn. destruct p; try done. by destruct (Hp data0).
  - by rewrite pending_other, app_nil_r.
Qed.

Lemma pending_starts c s i t a data :
  udp_inv s -> us_tasks s !! i = Some t -> rv_phase t = RWaiting a ->
  omap (sending c) (<[i := set_rev (RSending data) t]> (us_tasks s)) =
    pending c s ++ option_list (for_client c (rv_peer t) data).
Proof.
  intros Hs Hi Hph. assert (listed t = true) by (by eapply listed_phase). unfold for_client.
  case_decide as Hc.
  - rewrite (pending_now c s i t), (pending_only c s i t) by done. unfold sending, for_client.
    rewrite Hph. cbn. by rewrite decide_True.
  - by rewrite pending_other, app_nil_r.
Qed.

Lemma omap_single {A B} (f : A -> option B) x : omap f [x] = option_list (f x).
Proof. cbn. by destruct (f x). Qed.

Lemma reply_step spec ev s s' c :
  udp_inv s -> udp_case spec s ev s' ->
  within (unsent ev) (replies c s' ++ pending c s')
    ((replies c s ++ pending c s) ++ answers c (us_tasks s') [ev]).
Proof.
  intros Hs H. unfold answers. rewrite omap_single.
  destruct H as [| | | | | |peer data target out| | |i t Hi Hph|i t a data Hi Hph
    |i t a e Hi Hph|i t data Hi Hph|i t data e Hi Hph|i t a Hi Hph|i t Hi Hph|i t Hi Hph];
    cbn [unsent option_list within];
    rewrite ?app_nil_r; try done.
  - unfold pending. cbn. by rewrite omap_app, app_nil_r.
  - unfold pending at 1. cbn. rewrite (pending_idle c s); [done..| |done].
    unfold sending. by rewrite Hph.
  - cbn [to_phase touch us_tasks]. rewrite list_lookup_insert_eq by (by eapply lookup_lt_Some).
    cbn [option_bind mbind set_rev rv_peer]. unfold pending at 1. cbn [to_phase touch us_tasks].
    rewrite (pending_starts c s i t a) by done. by rewrite app_assoc.
  - unfold pending at 1. cbn. rewrite (pending_idle c s); [done..| |done].
    unfold sending. by rewrite Hph.
  - rewrite (pending_done c s i t data (RWaiting (us_now s))) by done. unfold replies, pending.
    cbn [rearm to_phase reply us_tasks us_replies us_now].
    rewrite omap_app, omap_single, <- app_assoc. f_equal.
    unfold for_client. case_decide; [|by rewrite app_nil_r].
    rewrite (pending_only c s i t) by (done || by eapply listed_phase). done.
  - rewrite (pending_done c s i t data RClosing) by done. rewrite app_assoc.
    by apply sublist_inserts_r.
  - assert (Ht : sending c t = None) by (unfold sending; by rewrite Hph).
    unfold pending at 1. destruct (_ <=? _); cbn; by rewrite (pending_idle c s).
  - unfold pending at 1. cbn. rewrite (pending_idle c s); [done..| |done].
    unfold sending. by rewrite Hph.
  - unfold pending at 1. cbn. rewrite (pending_idle c s); [done..| |done].
    unfold sending. by rewrite Hph.
Qed.

(** ** The sessions' addresses and sockets never change *)

Definition ids (tasks : list Reverse) : list (SocketAddr * Fd) :=
  (fun t => (rv_peer t, rv_out t)) <$> tasks.

Lemma ids_set p i t (tasks : list Reverse) :
  tasks !! i = Some t -> ids (<[i := set_rev p t]> tasks) = ids tasks.
Proof.
  intros Hi. unfold ids. rewrite list_fmap_insert. apply list_insert_id.
  by rewrite list_lookup_fmap, Hi.
Qed.

Lemma ids_step spec ev s s' :
  udp_case spec s ev s' -> exists new, ids (us_tasks s') = ids (us_tasks s) ++ new.
Proof.
  assert (Hsame : forall l, l = ids (us_tasks s) -> exists new, l = ids (us_tasks s) ++ new)
    by (intros l ->; exists []; by rewrite app_nil_r).
  intros H. destruct H; try (apply Hsame; cbn; by rewrite ?ids_set).
  - eexists. cbn. unfold ids. by rewrite fmap_app.
  - apply Hsame. destruct (_ <=? _); cbn; by rewrite ids_set.
Qed.

(** Sessions a datagram is received on, and the sockets datagrams are sent on. *)
Record ids_inv (evs : list UdpEv) (s : UdpServe) : Prop := {
  id_recv i r : RRecv i r ∈ evs -> (i < length (us_tasks s))%nat;
  id_sent peer out data : (peer, out, data) ∈ us_sent s -> (peer, out) ∈ ids (us_tasks s);
  id_hand peer out data : us_pc s = LSend peer out data -> (peer, out) ∈ ids (us_tasks s);
}.

Lemma ids_length tasks : length (ids tasks) = length tasks.
Proof. apply length_fmap. Qed.

Lemma session_id s peer sess :
  udp_inv s -> us_sessions s !! peer = Some sess -> (peer, s_out sess) ∈ ids (us_tasks s).
Proof.
  intros Hs Hl. rewrite (ui_map s Hs) in Hl.
  apply elem_of_list_to_map_2, elem_of_entries in Hl as (i & t & Hi & _ & [= <- <-]).
  apply list_elem_of_fmap. exists t. split; [done|]. by eapply list_elem_of_lookup_2.
Qed.

Lemma ids_inv_step spec evs ev s s' :
  udp_inv s -> udp_case spec s ev s' -> ids_inv evs s -> ids_inv (evs ++ [ev]) s'.
Proof.
  intros Hs H [Hr Ht Hh]. destruct (ids_step _ _ _ _ H) as [new Hids].
  assert (Hlen : (length (us_tasks s) <= length (us_tasks s'))%nat)
    by (rewrite <- !ids_length, Hids, length_app; lia).
  assert (Hmono : forall x, x ∈ ids (us_tasks s) -> x ∈ ids (us_tasks s'))
    by (intros x Hx; rewrite Hids; apply elem_of_app; by left).
  constructor.
  - intros i r Hin. apply elem_of_app in Hin as [Hin|Hin]; [specialize (Hr _ _ Hin); lia|].
    apply list_elem_of_singleton in Hin as <-.
    eapply Nat.lt_le_trans; [|exact Hlen]. clear Hids Hlen Hmono. by inversion H; subst; eapply lookup_lt_Some.
  - intros peer out data Hin. apply Hmono. destruct H; try (by eapply Ht).
    + cbn in Hin. apply elem_of_app in Hin as [Hin|Hin]; [by eapply Ht|].
      destruct r; cbn in Hin; [|by apply elem_of_nil in Hin].
      apply list_elem_of_singleton in Hin as [= -> -> ->]. by eapply Hh.
    + by destruct (_ <=? _); eapply Ht.
  - intros peer out data Hpc. destruct H as [| | |data' peer' out' cell _ Hl| | | | | | | | | | | | |];
      try done; try (apply Hmono; by eapply Hh).
    + injection Hpc as -> -> ->. apply Hmono. by apply (session_id s peer (MkSession out cell)).
    + injection Hpc as -> -> ->. cbn. unfold ids. rewrite fmap_app. apply elem_of_app. right.
      by apply list_elem_of_singleton.
    + apply Hmono. destruct (_ <=? _); by eapply Hh.
Qed.

(** What the past events gave a client does not depend on later sessions. *)
Lemma answers_stable c evs s tasks new :
  ids_inv evs s -> ids tasks = ids (us_tasks s) ++ new ->
  answers c tasks evs = answers c (us_tasks s) evs.
Proof.
  intros [Hr _ _] Hids. unfold answers.
  assert (Hid : forall (ts : list Reverse) i (d : list Z),
    (t ← ts !! i; for_client c (rv_peer t) d) = ('(p, _) ← ids ts !! i; for_client c p d)).
  { intros ts i d. unfold ids. rewrite list_lookup_fmap. by destruct (ts !! i). }
  apply list_omap_ext, Forall_Forall2_diag, Forall_forall. intros ev Hj.
  destruct ev as [| | | | | | |i [data|e]| | | |]; try done.
  rewrite !Hid, Hids, lookup_app_l; [done|]. rewrite ids_length. by eapply Hr.
Qed.

(** ** A run *)

Record flow_inv (evs : list UdpEv) (s : UdpServe) : Prop := {
  fl_udp : udp_inv s;
  fl_ids : ids_inv evs s;
  fl_forward : within (existsb dropped evs) (forwarded s ++ in_hand s) (received evs);
  fl_reply c : within (existsb unsent evs) (replies c s ++ pending c s) (answers c (us_tasks s) evs);
}.

Lemma flow_step spec evs ev s s' :
  flow_inv evs s -> udp_step spec ev s = Some s' -> flow_inv (evs ++ [ev]) s'.
Proof.
  intros [Hu Hi Hf Hr] Hst. pose proof (udp_step_case _ _ _ _ Hst) as Hc.
  constructor.
  - by eapply udp_step_inv.
  - by eapply ids_inv_step.
  - rewrite existsb_app. cbn. rewrite orb_false_r. unfold received. rewrite omap_app.
    eapply within_trans; [done|]. by eapply forward_step.
  - intros c. rewrite existsb_app. cbn. rewrite orb_false_r.
    destruct (ids_step _ _ _ _ Hc) as [new Hids]. unfold answers. rewrite omap_app.
    fold (answers c (us_tasks s') evs). rewrite (answers_stable _ _ _ _ _ Hi Hids).
    eapply within_trans; [done|]. by eapply reply_step.
Qed.

Lemma flow_run spec evs evs' s s' :
  flow_inv evs s -> udp_run spec evs' s = Some s' -> flow_inv (evs ++ evs') s'.
Proof.
  revert evs s; induction evs' as [|ev evs' IH]; intros evs s Hs; cbn.
  - intros [= <-]. by rewrite app_nil_r.
  - intros H. apply bind_Some in H as (s1 & H1 & H).
    replace (evs ++ ev :: evs') with ((evs ++ [ev]) ++ evs') by (by rewrite <- app_assoc).
    eapply IH; [|done]. by eapply flow_step.
Qed.

Lemma flow_start spec nm pr now s0 :
  udp_start spec (stats_new nm pr) now (Ok tt) = Ok s0 -> flow_inv [] s0.
Proof.
  intros H0. pose proof (udp_start_inv _ _ _ _ _ H0) as Hu. injection H0 as <-.
  constructor; [done| |done|done].
  constructor; cbn; [by intros ?? ?%elem_of_nil|by intros ??? ?%elem_of_nil|done].
Qed.

(** C11: clients are kept apart, whatever the order of datagrams, replies, timers
    and failures: the datagrams sent to the targets, with the one in hand, are
    those received from the clients, in their order, each sent on the socket of
    a session of its own client; the replies sent to a client, with the one being
    sent, are those its own sessions' sockets received, in their order.  Nothing
    is duplicated, and a datagram is missing only if a session could not be
    opened or a send failed. *)
Theorem udp_isolated spec nm pr now s0 evs s :
  udp_start spec (stats_new nm pr) now (Ok tt) = Ok s0 -> udp_run spec evs s0 = Some s ->
  within (existsb dropped evs) (forwarded s ++ in_hand s) (received evs) /\
  (forall peer out data, (peer, out, data) ∈ us_sent s ->
    exists t, t ∈ us_tasks s /\ rv_peer t = peer /\ rv_out t = out) /\
  (forall c, within (existsb unsent evs) (replies c s ++ pending c s) (answers c (us_tasks s) evs)).
Proof.
  intros H0 Hr. destruct (flow_run _ [] _ _ _ (flow_start _ _ _ _ _ H0) Hr) as [_ Hi Hf Ha].
  split; [done|]. split; [|done]. intros peer out data Hin.
  apply (id_sent _ _ Hi) in Hin. apply list_elem_of_fmap in Hin as (t & [= -> ->] & Ht).
  by exists t.
Qed.

(** Two clients, one send that fails: the second client's datagram is missing,
    the first one's are there and so is its reply. *)
Lemma udp_isolated_witness :
  match udp_run udp_spec udp_events udp_initial with
  | Some s => forwarded s = [(client_a, [1]); (client_a, [3])] /\
      sublist (forwarded s) (received udp_events) /\
      replies client_a s = [[10]] /\ replies client_a s = answers client_a (us_tasks s) udp_events
  | None => False
  end.
Proof.
  destruct (udp_run udp_spec udp_events udp_initial) as [s|] eqn:Hr; [|vm_compute in Hr; done].
  pose proof (udp_isolated udp_spec "udp://:53" "udp" 0 udp_initial udp_events s eq_refl Hr)
    as (Hf & _ & Ha). specialize (Ha client_a). vm_compute in Hr. injection Hr as <-.
  cbn in Hf, Ha. split; [reflexivity|]. split; [exact Hf|]. split; [reflexivity|exact Ha].
Defined.

(** ** A session that closes while a datagram comes in *)

(** The timer finds the session idle and its task leaves the loop; before it has
    removed the session, a datagram finds it in the map. *)
Definition closing_events : list UdpEv :=
  [URecv (Ok ([1], client_a)); UOpened (Ok 7%nat); USent (Ok tt); RStart 0; UTick 60000; RTimer 0;
   URecv (Ok ([2], client_a)); RRemove 0; USent (Ok tt); RDrop 0].

(** Such a datagram is sent, but on a socket nobody reads any more: the answer to
    it is lost, and the client's next datagram opens a session. *)
Lemma udp_closing_race :
  exists s, udp_run udp_spec closing_events udp_initial = Some s /\
    forwarded s = received closing_events /\ forallb (fun t => negb (live t)) (us_tasks s) = true /\
    us_sessions s = ∅ /\ active (us_stats s) = 0.
Proof. eexists. split; [vm_compute; reflexivity|]. by vm_compute. Qed.
