(* ===== verification/Nftables.v ===== *)
(** * src/nat/nftables.rs: the ruleset text and the calls to [nft]

    NAT mode is a set of programs over the calls [NatE]: the [nft] process, the
    files under /proc, name resolution and the wait for the shutdown.  What
    [nft] does with a ruleset is not code of this repository; only the text it
    is given is defined here. *)

From S2P Require Import Prelude Str Ip Io Config.

Definition TABLE : str := "gust".

Record NatRule := MkRule {
  r_proto : Protocol;
  dport : Z;
  dest_ip : IpAddr;
  dest_port : Z;
  comment : str;
}.

#[global] Instance NatRule_eq_dec : EqDecision NatRule.
Proof. solve_decision. Defined.

Record NftOutcome := MkOutcome { success : bool; stdout : str; stderr : str }.

Inductive NatE : Type -> Type :=
| SpawnNft (args : list str) (piped : bool) : NatE (io_result nat)      (* cmd.spawn() *)
| WriteStdin (child : nat) (input : str) : NatE (io_result unit)        (* stdin.write_all *)
| WaitOutput (child : nat) : NatE (io_result (bool * str * str))        (* wait_with_output *)
| ReadToString (path : str) : NatE (io_result str)                      (* fs::read_to_string *)
| WriteFile (path : str) (content : str) : NatE (io_result unit)        (* fs::write *)
| GetEuid : NatE Z                                                      (* libc::geteuid() *)
| LookupIp (host : str) : NatE (io_result (list SocketAddr))            (* lookup_host((host, 0)) *)
| NatSignals : NatE unit                                                (* signals::install(.., dump_status) *)
| NatHeartbeat (secs : Z) : NatE unit                                   (* spawn_heartbeat *)
| UntilShutdown : NatE unit.                                            (* shutdown.cancelled() *)

Definition run_nft (args : list str) (input : option str) : prog NatE (io_result NftOutcome) :=
  await? child := prog_map_err (fun e => io_new (err_kind e)
      ("failed to run `nft` (is the nftables package installed?): " ++ err_msg e))
    (call (SpawnNft args (match input with Some _ => true | None => false end))) in
  await? _ := match input with
    | Some inp => call (WriteStdin child inp)
    | None => Ret (Ok tt)
    end in
  await? (ok, out, err) := call (WaitOutput child) in
  Ret (Ok (MkOutcome ok (from_utf8_lossy out) (from_utf8_lossy err))).

Definition ensure_available : prog NatE (io_result unit) :=
  await? out := run_nft ["--version"%string : str] None in
  if success out then Ret (Ok tt)
  else Ret (Err (io_other ("`nft --version` failed: " ++ trim (stderr out)))).

(** ** The ruleset *)

Definition proto_str (p : Protocol) : str := match p with Tcp => "tcp" | Udp => "udp" end.

Definition format_dest (ip : IpAddr) (port : Z) : str :=
  match ip with
  | V4 v4 => show_ipv4 v4 ++ ":" ++ show_dec port
  | V6 v6 => "[" ++ show_ipv6 v6 ++ "]:" ++ show_dec port
  end.

Definition rule_line (r : NatRule) : str :=
  "        " ++ proto_str (r_proto r) ++ " dport " ++ show_dec (dport r) ++ " counter comment "
    ++ [quote] ++ comment r ++ [quote] ++ " dnat to " ++ format_dest (dest_ip r) (dest_port r)
    ++ [newline].

Definition build_table (family : str) (rules : list NatRule) : str :=
  "table " ++ family ++ " " ++ TABLE ++ " {" ++ [newline]
  ++ "    chain prerouting {" ++ [newline]
  ++ "        type nat hook prerouting priority dstnat; policy accept;" ++ [newline]
  ++ mjoin (rule_line <$> rules)
  ++ "    }" ++ [newline]
  ++ "    chain postrouting {" ++ [newline]
  ++ "        type nat hook postrouting priority srcnat; policy accept;" ++ [newline]
  ++ "        ct status dnat counter masquerade fully-random" ++ [newline]
  ++ "    }" ++ [newline]
  ++ "}" ++ [newline].

Definition build_ruleset (rules : list NatRule) : str :=
  let v4 := List.filter (fun r => is_ipv4 (dest_ip r)) rules in
  let v6 := List.filter (fun r => is_ipv6 (dest_ip r)) rules in
  (match v4 with [] => [] | _ => build_table "ip" v4 end)
  ++ (match v6 with [] => [] | _ => build_table "ip6" v6 end).

(** ** Operations on the table *)

Definition apply_ruleset (ruleset : str) : prog NatE (io_result unit) :=
  await? out := run_nft ["-f"%string : str; "-"%string : str] (Some ruleset) in
  if success out then Ret (Ok tt)
  else Ret (Err (io_other ("nft apply failed: " ++ trim (stderr out)))).

(** What [delete_table] logs; the caller is told nothing. *)
Inductive DeleteLog := Deleted | AlreadyAbsent | DeleteError (e : str) | CouldNotRun (e : io_error).

Definition delete_args (family : str) : list str :=
  ["delete"%string : str; "table"%string : str; family; TABLE].

(** The patterns are ASCII, so ASCII lower case decides as [to_lowercase]. *)
Definition delete_table (family : str) : prog NatE DeleteLog :=
  await r := run_nft (delete_args family) None in
  Ret (match r with
    | Ok out =>
        if success out then Deleted
        else
          let e := to_ascii_lowercase (stderr out) in
          if contains_str "no such file" e || contains_str "does not exist" e
          then AlreadyAbsent else DeleteError (trim (stderr out))
    | Err e => CouldNotRun e
    end).

Definition list_json : prog NatE (option str) :=
  await r := run_nft ["-j"%string : str; "list"%string : str; "table"%string : str;
                      "ip"%string : str; TABLE] None in
  Ret (match r with
    | Ok out => if success out then Some (stdout out) else None
    | Err _ => None
    end).

(** ** Reading the ruleset back *)

(** What a reader of the ruleset language sees: tables of chains of statements.
    A base chain begins with its hook. *)
Inductive NftStmt :=
| SHook (hook priority : str)
| SDnat (p : Protocol) (port : Z) (comment : str) (dest : SocketAddr)
| SMasquerade.

Record NftChain := MkChain { ch_name : str; ch_stmts : list NftStmt }.
Record NftTable := MkTable { tb_family : str; tb_name : str; tb_chains : list NftChain }.

Definition decode_hook (l : str) : option NftStmt :=
  l ← strip_prefix_str "type nat hook " l;
  i ← find_char " " l;
  prio ← strip_prefix_str " priority " (drop i l);
  j ← find_char ";" prio;
  if decide (drop j prio = "; policy accept;") then Some (SHook (take i l) (take j prio)) else None.

Definition decode_proto (s : str) : option Protocol :=
  if decide (s = "tcp") then Some Tcp else if decide (s = "udp") then Some Udp else None.

Definition decode_dnat (l : str) : option NftStmt :=
  i ← find_char " " l;
  p ← decode_proto (take i l);
  l ← strip_prefix_str " dport " (drop i l);
  i ← find_char " " l;
  port ← parse_u16 (take i l);
  l ← strip_prefix_str " counter comment " (drop i l);
  l ← strip_prefix quote l;
  i ← find_char quote l;
  dest ← strip_prefix_str " dnat to " (drop (S i) l);
  sa ← parse_socket_addr dest;
  Some (SDnat p port (take i l) sa).

Definition decode_stmt (l : str) : option NftStmt :=
  if decide (l = "ct status dnat counter masquerade fully-random") then Some SMasquerade
  else if starts_with "type " l then decode_hook l else decode_dnat l.

Inductive NftLine := LTable (family name : str) | LChain (name : str) | LStmt (s : NftStmt)
| LEndChain | LEndTable | LBlank.

(** The lines, told apart by their indentation. *)
Definition decode_line (l : str) : option NftLine :=
  if decide (l = []) then Some LBlank
  else if decide (l = "}") then Some LEndTable
  else if decide (l = "    }") then Some LEndChain
  else match strip_prefix_str "        " l, strip_prefix_str "    chain " l with
  | Some st, _ => LStmt <$> decode_stmt st
  | None, Some c =>
      i ← find_char " " c;
      if decide (drop i c = " {") then Some (LChain (take i c)) else None
  | None, None =>
      t ← strip_prefix_str "table " l;
      i ← find_char " " t;
      let name := drop (S i) t in
      j ← find_char " " name;
      if decide (drop j name = " {") then Some (LTable (take i t) (take j name)) else None
  end.

(** The tables read, the open table and the open chain. *)
Definition reading : Type := list NftTable * option NftTable * option NftChain.

Definition read_line (l : NftLine) (st : reading) : option reading :=
  match l, st with
  | LBlank, _ => Some st
  | LTable f n, (ts, None, None) => Some (ts, Some (MkTable f n []), None)
  | LChain n, (ts, Some t, None) => Some (ts, Some t, Some (MkChain n []))
  | LStmt s, (ts, Some t, Some c) => Some (ts, Some t, Some (MkChain (ch_name c) (ch_stmts c ++ [s])))
  | LEndChain, (ts, Some t, Some c) =>
      Some (ts, Some (MkTable (tb_family t) (tb_name t) (tb_chains t ++ [c])), None)
  | LEndTable, (ts, Some t, None) => Some (ts ++ [t], None, None)
  | _, _ => None
  end.

Fixpoint read_lines (ls : list str) (st : reading) : option reading :=
  match ls with
  | [] => Some st
  | l :: ls => x ← decode_line l; st ← read_line x st; read_lines ls st
  end.

(** Reading a text from some point on. *)
Definition read_text (s : str) (st : reading) : option reading := read_lines (split_char newline s) st.

(** Every line must be understood and every brace closed. *)
Definition decode_ruleset (s : str) : option (list NftTable) :=
  match read_text s ([], None, None) with
  | Some (ts, None, None) => Some ts
  | _ => None
  end.

(** What the ruleset of some rules must say. *)
Definition dnat_of (r : NatRule) : NftStmt :=
  SDnat (r_proto r) (dport r) (comment r) (SockAddr (dest_ip r) (dest_port r) 0).

Definition nat_table (family : str) (rules : list NatRule) : NftTable :=
  MkTable family "gust"
    [MkChain "prerouting" (SHook "prerouting" "dstnat" :: (dnat_of <$> rules));
     MkChain "postrouting" [SHook "postrouting" "srcnat"; SMasquerade]].

Definition tables_for (rules : list NatRule) : list NftTable :=
  let v4 := List.filter (fun r => match dest_ip r with V4 _ => true | V6 _ => false end) rules in
  let v6 := List.filter (fun r => match dest_ip r with V4 _ => false | V6 _ => true end) rules in
  match v4 with [] => [] | _ => [nat_table "ip" v4] end ++
  match v6 with [] => [] | _ => [nat_table "ip6" v6] end.

(** A rule whose text is one line and whose comment ends at its quote. *)
Record rule_ok (r : NatRule) : Prop := {
  rk_dport : fits 16 (dport r);
  rk_ip : wf_ip (dest_ip r);
  rk_port : fits 16 (dest_port r);
  rk_quote : absent quote (comment r);
  rk_newline : absent newline (comment r);
}.

Lemma strip_prefix_str_app pat s : strip_prefix_str pat (pat ++ s) = Some s.
Proof. unfold strip_prefix_str. by rewrite starts_with_app, drop_app_length. Qed.

(** A field ends at the first character of the text after it. *)
Lemma find_char_field c s lit lit' rest :
  lit = c :: lit' -> absent c s -> find_char c (s ++ lit ++ rest) = Some (length s).
Proof. intros ->. apply (find_char_app c s (lit' ++ rest)). Qed.

Lemma show_dec_lacks c n : 0 <= n -> to_digit 10 c = None -> absent c (show_dec n).
Proof. by apply show_uint_absent. Qed.

(** The statement of a rule, without its indentation. *)
Definition rule_body (r : NatRule) : str :=
  proto_str (r_proto r) ++ " dport " ++ show_dec (dport r) ++ " counter comment "
    ++ [quote] ++ comment r ++ [quote] ++ " dnat to " ++ format_dest (dest_ip r) (dest_port r).

Lemma rule_line_body r : rule_line r = ("        " ++ rule_body r) ++ [newline].
Proof. unfold rule_line, rule_body. by rewrite <- !app_assoc. Qed.

Lemma decode_rule_body r : rule_ok r -> decode_dnat (rule_body r) = Some (dnat_of r).
Proof.
  intros [Hd Hip Hp Hq _]. unfold decode_dnat, rule_body, dnat_of.
  rewrite (find_char_field " " _ " dport " "dport ") by (by destruct (r_proto r); by_decision).
  cbn [mbind option_bind]. rewrite take_app_length, drop_app_length.
  assert (Hpr : decode_proto (proto_str (r_proto r)) = Some (r_proto r)) by (by destruct (r_proto r)).
  rewrite Hpr. cbn [mbind option_bind]. rewrite strip_prefix_str_app. cbn [mbind option_bind].
  rewrite (find_char_field " " _ " counter comment " "counter comment ");
    [|done|apply show_dec_lacks; [unfold fits in Hd; lia|done]].
  cbn [mbind option_bind].
  rewrite take_app_length, drop_app_length, parse_u16_show, strip_prefix_str_app by done.
  cbn [mbind option_bind strip_prefix app]. rewrite Ascii.eqb_refl. cbn [mbind option_bind].
  rewrite (find_char_app quote) by done. cbn [mbind option_bind].
  rewrite take_app_length, drop_S_length_app, strip_prefix_str_app. cbn [mbind option_bind].
  change format_dest with show_socket_addr. by rewrite parse_show_socket_addr.
Qed.

Lemma decode_rule_line r : rule_ok r -> decode_line ("        " ++ rule_body r) = Some (LStmt (dnat_of r)).
Proof.
  intros Hr. unfold decode_line. rewrite strip_prefix_str_app. rewrite !decide_False by done.
  unfold decode_stmt. rewrite decode_rule_body by done.
  unfold rule_body. destruct (r_proto r); rewrite decide_False by done; reflexivity.
Qed.

Lemma outside_newline : outside newline.
Proof. by repeat split. Qed.

Lemma format_dest_newline ip port : wf_ip ip -> fits 16 port -> absent newline (format_dest ip port).
Proof.
  intros Hip Hp. pose proof (show_ip_absent newline ip outside_newline Hip) as Ha.
  assert (absent newline (show_dec port)) by (apply show_dec_lacks; [unfold fits in Hp; lia|done]).
  destruct ip; cbn [format_dest show_ip] in *; rewrite !absent_app;
    repeat split; try done; by_decision.
Qed.

Lemma rule_body_newline r : rule_ok r -> absent newline ("        " ++ rule_body r).
Proof.
  intros [Hd Hi Hp _ Hn]. unfold rule_body. rewrite !absent_app.
  split_and!; [by_decision| |by_decision| |by_decision|by_decision|done|by_decision|by_decision|].
  - by destruct (r_proto r); by_decision.
  - apply show_dec_lacks; [unfold fits in Hd; lia|done].
  - by apply format_dest_newline.
Qed.

Lemma read_text_line l x rest st :
  absent newline l -> decode_line l = Some x ->
  read_text (l ++ [newline] ++ rest) st = st ← read_line x st; read_text rest st.
Proof.
  intros Hl Hd. unfold read_text. change (l ++ [newline] ++ rest) with (l ++ newline :: rest).
  rewrite split_char_cons by done. cbn [read_lines]. by rewrite Hd.
Qed.

Lemma read_text_rules rs rest ts t c :
  Forall rule_ok rs ->
  read_text (mjoin (rule_line <$> rs) ++ rest) (ts, Some t, Some c) =
  read_text rest (ts, Some t, Some (MkChain (ch_name c) (ch_stmts c ++ (dnat_of <$> rs)))).
Proof.
  intros Hrs. revert c; induction Hrs as [|r rs Hr _ IH]; intros [n st].
  - cbn. by rewrite app_nil_r.
  - change (mjoin (rule_line <$> r :: rs)) with (rule_line r ++ mjoin (rule_line <$> rs)).
    rewrite rule_line_body, <- !app_assoc, app_assoc.
    rewrite (read_text_line _ (LStmt (dnat_of r))) by (by apply rule_body_newline || apply decode_rule_line).
    cbn [read_line mbind option_bind ch_name ch_stmts]. rewrite IH. cbn [ch_name ch_stmts fmap list_fmap].
    by rewrite <- app_assoc.
Qed.

(** Read a line given in full. *)
Ltac read_tac x :=
  rewrite (read_text_line _ x) by first [by_decision|reflexivity];
  cbn [read_line mbind option_bind ch_name ch_stmts tb_family tb_name tb_chains].

Lemma read_text_table family rs rest ts :
  family = "ip" \/ family = "ip6" -> Forall rule_ok rs ->
  read_text (build_table family rs ++ rest) (ts, None, None) =
  read_text rest (ts ++ [nat_table family rs], None, None).
Proof.
  intros Hf Hrs. unfold build_table. rewrite <- !app_assoc.
  rewrite (app_assoc "table "), (app_assoc _ " "), (app_assoc _ TABLE), (app_assoc _ " {").
  rewrite (read_text_line _ (LTable family "gust"))
    by (destruct Hf as [-> | ->]; first [by_decision|reflexivity]).
  cbn [read_line mbind option_bind]. read_tac (LChain "prerouting").
  read_tac (LStmt (SHook "prerouting" "dstnat")). rewrite read_text_rules by done.
  read_tac LEndChain. read_tac (LChain "postrouting").
  read_tac (LStmt (SHook "postrouting" "srcnat")). read_tac (LStmt SMasquerade).
  read_tac LEndChain. read_tac LEndTable. done.
Qed.

Lemma read_text_table_if family rs rest ts :
  family = "ip" \/ family = "ip6" -> Forall rule_ok rs ->
  read_text (match rs with [] => [] | _ => build_table family rs end ++ rest) (ts, None, None) =
  read_text rest (ts ++ match rs with [] => [] | _ => [nat_table family rs] end, None, None).
Proof.
  intros Hf Hrs. destruct rs as [|r rs]; [by rewrite app_nil_r|]. by apply read_text_table.
Qed.

Lemma read_build_ruleset rules :
  Forall rule_ok rules -> read_text (build_ruleset rules) ([], None, None) = Some (tables_for rules, None, None).
Proof.
  intros Hall.
  assert (Hf : forall f, Forall rule_ok (List.filter f rules)).
  { intros f. rewrite Forall_forall in *. intros r Hr.
    apply Hall. rewrite list_elem_of_In in *. by apply List.filter_In in Hr as [? _]. }
  unfold build_ruleset. rewrite read_text_table_if by (by left || apply Hf).
  rewrite <- (app_nil_r (match List.filter (fun r => is_ipv6 _) rules with [] => _ | _ => _ end)).
  rewrite read_text_table_if by (by right || apply Hf). reflexivity.
Qed.

(** C19: the ruleset handed to [nft] says what the rules say.  Read back by a
    reader of tables, chains and statements that rejects any line it does not
    know, it is a table [gust] of family [ip] if there are IPv4 destinations and
    then one of family [ip6] if there are IPv6 ones, with exactly one DNAT
    statement per rule, in order, in the chain at the prerouting hook (its
    protocol, port, comment and destination), and a masquerade statement in the
    chain at the postrouting hook of each. *)
Theorem ruleset_decodes rules :
  Forall rule_ok rules -> decode_ruleset (build_ruleset rules) = Some (tables_for rules).
Proof. intros Hall. unfold decode_ruleset. by rewrite (read_build_ruleset rules Hall). Qed.

Definition example_rules : list NatRule :=
  [MkRule Tcp 8080 (V4 (Ipv4 1 2 3 4)) 443 "gust:tcp:8080->1.2.3.4:443";
   MkRule Udp 5353 (V6 (Ipv6 [0x2001; 0xdb8; 0; 0; 0; 0; 0; 1])) 53 "gust:udp:5353->[2001:db8::1]:53"].

Lemma ruleset_decodes_witness :
  decode_ruleset (build_ruleset example_rules) = Some (tables_for example_rules).
Proof.
  apply (ruleset_decodes example_rules).
  constructor; [|constructor; [|constructor]]; constructor;
    by_decision.
Defined.
