(* ===== verification/Json.v ===== *)
(** * JSON text

    The status report reads the JSON that [nft -j] prints with a library that is
    not part of the sources.  This file says what the sources rely on: the
    documents of RFC 8259 as a data type, [json], and the texts of a document as
    a relation, [document], for the part of the grammar a listing uses (integers
    rather than fractions, strings without \u escapes).  The class [Json] is the
    library's interface and [JsonLaws] its documented behaviour on such texts.
    The reader [from_text] is an instance: it shows that the laws can hold, and
    it runs the listings of the unit tests. *)

From S2P Require Import Prelude Str.

Inductive json :=
| JNull
| JBool (b : bool)
| JInt (n : Z)
| JStr (s : str)
| JArr (vs : list json)
| JObj (kvs : list (str * json)).

(** How deep arrays and objects are nested. *)
Fixpoint depth (j : json) : nat :=
  match j with
  | JArr vs => S (max_list (map depth vs))
  | JObj kvs => S (max_list (map (fun kv => depth (snd kv)) kvs))
  | _ => 0
  end.

(** ** Texts *)

Definition is_ws (c : ascii) : bool :=
  let v := byte_val c in (v =? 32) || (v =? 9) || (v =? 10) || (v =? 13).

Definition blank (w : str) : Prop := forallb is_ws w = true.

Definition backslash : ascii := "\".

(** A byte of a string that stands for itself. *)
Definition plain_char (c : ascii) : bool :=
  (32 <=? byte_val c) && negb (Ascii.eqb c quote) && negb (Ascii.eqb c backslash).

Definition unescape (e : ascii) : option ascii :=
  if Ascii.eqb e quote then Some quote
  else if Ascii.eqb e backslash then Some backslash
  else if Ascii.eqb e "/" then Some "/"%char
  else if Ascii.eqb e "b" then Some (byte_of 8)
  else if Ascii.eqb e "f" then Some (byte_of 12)
  else if Ascii.eqb e "n" then Some (byte_of 10)
  else if Ascii.eqb e "r" then Some (byte_of 13)
  else if Ascii.eqb e "t" then Some (byte_of 9)
  else None.

Inductive chars : str -> str -> Prop :=
| ch_nil : chars [] []
| ch_plain c s w : plain_char c = true -> chars s w -> chars (c :: s) (c :: w)
| ch_escape c e s w : unescape e = Some c -> chars s w -> chars (c :: s) (backslash :: e :: w).

Definition quoted (w : str) : str := quote :: w ++ [quote].

Inductive value_text : json -> str -> Prop :=
| vt_null : value_text JNull "null"
| vt_bool b : value_text (JBool b) (show_bool b)
| vt_int n : - 2 ^ 63 <= n < 2 ^ 64 -> value_text (JInt n) (show_int n)
| vt_str s w : chars s w -> value_text (JStr s) (quoted w)
| vt_empty_arr w : blank w -> value_text (JArr []) (("["%char :: w) ++ "]")
| vt_arr vs w : elements_text vs w -> value_text (JArr vs) (("["%char :: w) ++ "]")
| vt_empty_obj w : blank w -> value_text (JObj []) (("{"%char :: w) ++ "}")
| vt_obj kvs w : members_text kvs w -> value_text (JObj kvs) (("{"%char :: w) ++ "}")
with elements_text : list json -> str -> Prop :=
| et_last v w1 w w2 : blank w1 -> value_text v w -> blank w2 -> elements_text [v] (w1 ++ w ++ w2)
| et_more v w1 w w2 vs ws : blank w1 -> value_text v w -> blank w2 -> elements_text vs ws ->
    elements_text (v :: vs) (w1 ++ w ++ w2 ++ "," ++ ws)
with members_text : list (str * json) -> str -> Prop :=
| mt_last k v w1 kw w2 w3 w w4 : blank w1 -> chars k kw -> blank w2 -> blank w3 -> value_text v w ->
    blank w4 -> members_text [(k, v)] (w1 ++ quoted kw ++ w2 ++ ":" ++ w3 ++ w ++ w4)
| mt_more k v w1 kw w2 w3 w w4 kvs ws : blank w1 -> chars k kw -> blank w2 -> blank w3 ->
    value_text v w -> blank w4 -> members_text kvs ws ->
    members_text ((k, v) :: kvs) (w1 ++ quoted kw ++ w2 ++ ":" ++ w3 ++ w ++ w4 ++ "," ++ ws).

Definition document (j : json) (text : str) : Prop :=
  exists w1 w w2, text = w1 ++ w ++ w2 /\ blank w1 /\ value_text j w /\ blank w2.

(** ** The library's interface *)

Class Json (V : Type) := {
  from_str : str -> option V;
  get : V -> str -> option V;
  value_as_array : V -> option (list V);
  value_as_str : V -> option str;
  value_as_u64 : V -> option Z;
}.

(** The reader takes documents nested less than 128 deep. *)
Definition recursion_limit : nat := 128.

Class JsonLaws (V : Type) `{Json V} := {
  of_json : json -> V;
  from_str_document j text : document j text -> (depth j < recursion_limit)%nat ->
    from_str text = Some (of_json j);
  get_obj kvs k : NoDup kvs.*1 ->
    get (of_json (JObj kvs)) k = of_json <$> (list_to_map kvs : gmap str json) !! k;
  as_array_arr vs : value_as_array (of_json (JArr vs)) = Some (of_json <$> vs);
  as_str_str s : value_as_str (of_json (JStr s)) = Some s;
  as_u64_int n : fits 64 n -> value_as_u64 (of_json (JInt n)) = Some n;
}.

(** ** A reader *)

Fixpoint skip_ws (s : str) : str :=
  match s with
  | c :: r => if is_ws c then skip_ws r else s
  | [] => []
  end.

(** The rest of a string after its opening quote. *)
Fixpoint read_chars (s : str) : option (str * str) :=
  match s with
  | [] => None
  | c :: r =>
      if Ascii.eqb c quote then Some ([], r)
      else if Ascii.eqb c backslash then
        match r with
        | e :: r => c ← unescape e; '(k, r) ← read_chars r; Some (c :: k, r)
        | [] => None
        end
      else if plain_char c then '(k, r) ← read_chars r; Some (c :: k, r)
      else None
  end.

Definition is_digit (c : ascii) : bool := in_range 48 57 (byte_val c).

Fixpoint span_digits (s : str) : str * str :=
  match s with
  | c :: r => if is_digit c then let '(ds, r) := span_digits r in (c :: ds, r) else ([], s)
  | [] => ([], [])
  end.

(** Without leading zeros. *)
Definition read_number (max : Z) (ds : str) : option Z :=
  n ← digits_checked 10 max 0 ds;
  if bool_decide (ds = show_dec n) then Some n else None.

(** What cannot follow an integer. *)
Definition continues (s : str) : bool :=
  match s with
  | c :: _ => is_digit c || one_of [c] ["."; "e"; "E"]%string
  | [] => false
  end.

Definition read_int (s : str) : option (json * str) :=
  match s with
  | c :: r =>
      let '(ds, rest) := span_digits (if Ascii.eqb c "-" then r else s) in
      if continues rest then None else
      if Ascii.eqb c "-" then n ← read_number (2 ^ 63) ds; Some (JInt (- n), rest)
      else n ← read_number (2 ^ 64 - 1) ds; Some (JInt n, rest)
  | [] => None
  end.

Definition expect (c : ascii) (s : str) : option str :=
  match skip_ws s with
  | d :: r => if Ascii.eqb c d then Some r else None
  | [] => None
  end.

Definition read_literal (w : str) (v : json) (s : str) : option (json * str) :=
  r ← strip_prefix_str w s; Some (v, r).

Fixpoint read_value (fuel : nat) (s : str) : option (json * str) :=
  match fuel with
  | O => None
  | S fuel =>
      match skip_ws s with
      | [] => None
      | c :: r =>
          if Ascii.eqb c quote then '(k, r) ← read_chars r; Some (JStr k, r)
          else if Ascii.eqb c "[" then
            match expect "]" r with
            | Some r => Some (JArr [], r)
            | None => '(vs, r) ← read_elements fuel r; Some (JArr vs, r)
            end
          else if Ascii.eqb c "{" then
            match expect "}" r with
            | Some r => Some (JObj [], r)
            | None => '(kvs, r) ← read_members fuel r; Some (JObj kvs, r)
            end
          else if Ascii.eqb c "n" then read_literal "null" JNull (c :: r)
          else if Ascii.eqb c "t" then read_literal "true" (JBool true) (c :: r)
          else if Ascii.eqb c "f" then read_literal "false" (JBool false) (c :: r)
          else read_int (c :: r)
      end
  end
with read_elements (fuel : nat) (s : str) : option (list json * str) :=
  match fuel with
  | O => None
  | S fuel =>
      '(v, r) ← read_value fuel s;
      match expect "," r with
      | Some r => '(vs, r) ← read_elements fuel r; Some (v :: vs, r)
      | None => r ← expect "]" r; Some ([v], r)
      end
  end
with read_members (fuel : nat) (s : str) : option (list (str * json) * str) :=
  match fuel with
  | O => None
  | S fuel =>
      r ← expect quote s;
      '(k, r) ← read_chars r;
      r ← expect ":" r;
      '(v, r) ← read_value fuel r;
      match expect "," r with
      | Some r => '(kvs, r) ← read_members fuel r; Some ((k, v) :: kvs, r)
      | None => r ← expect "}" r; Some ([(k, v)], r)
      end
  end.

(** Every call of the reader but the two inside an array or object eats a byte. *)
Definition from_text (s : str) : option json :=
  '(v, r) ← read_value (2 * length s + 2) s;
  match skip_ws r with [] => Some v | _ => None end.

(** ** The reader reads every text of a document *)

Lemma skip_ws_blank w s : blank w -> skip_ws (w ++ s) = skip_ws s.
Proof.
  unfold blank. induction w as [|c w IH]; [done|]. cbn. rewrite andb_true_iff. intros [-> Hw].
  by apply IH.
Qed.

Lemma skip_ws_all w : blank w -> skip_ws w = [].
Proof. intros Hw. rewrite <- (app_nil_r w). by rewrite skip_ws_blank. Qed.

Lemma skip_ws_stop w c s : blank w -> is_ws c = false -> skip_ws (w ++ c :: s) = c :: s.
Proof. intros Hw Hc. rewrite skip_ws_blank by done. cbn. by rewrite Hc. Qed.

Lemma expect_eq c w d s :
  blank w -> is_ws d = false -> expect c (w ++ d :: s) = if Ascii.eqb c d then Some s else None.
Proof. intros Hw Hd. unfold expect. by rewrite skip_ws_stop. Qed.

Lemma chars_read s w rest : chars s w -> read_chars (w ++ quote :: rest) = Some (s, rest).
Proof.
  induction 1 as [|c s w Hc _ IH|c e s w He _ IH]; [done| |].
  - pose proof Hc as Hp. unfold plain_char in Hp.
    apply andb_true_iff in Hp as [[_ Hq%negb_true_iff]%andb_true_iff Hb%negb_true_iff].
    cbn [app read_chars]. by rewrite Hq, Hb, Hc, IH.
  - cbn [app read_chars]. rewrite He, IH. done.
Qed.

Lemma eqb_class (p : ascii -> bool) c d : p c = true -> p d = false -> Ascii.eqb c d = false.
Proof. intros Hc Hd. apply Ascii.eqb_neq. intros ->. congruence. Qed.

Lemma digits_is_digit n : 0 <= n -> Forall (fun c => is_digit c = true) (show_dec n).
Proof.
  intros Hn. eapply Forall_impl; [by apply (show_uint_class 10)|].
  intros c (d & Hd & ->). unfold digit_char, is_digit, in_range.
  rewrite (proj2 (Z.ltb_lt _ _)), byte_val_of by lia. lia.
Qed.

Lemma span_digits_app ds rest :
  Forall (fun c => is_digit c = true) ds -> continues rest = false ->
  span_digits (ds ++ rest) = (ds, rest).
Proof.
  intros Hds Hr. induction Hds as [|c ds Hc _ IH]; cbn.
  - destruct rest as [|c rest]; [done|]. cbn in Hr |- *. apply orb_false_iff in Hr as [-> _]. done.
  - by rewrite Hc, IH.
Qed.

Lemma read_number_show max n : 0 <= n <= max -> read_number max (show_dec n) = Some n.
Proof.
  intros Hn. unfold read_number, show_dec. rewrite (show_uint_checked 10) by lia. cbn [mbind option_bind].
  by rewrite bool_decide_true.
Qed.

Lemma show_dec_cons n : 0 <= n -> exists c ds, show_dec n = c :: ds /\ is_digit c = true.
Proof.
  intros Hn. pose proof (digits_is_digit n Hn) as Hd. pose proof (show_uint_nonempty 10 n) as Hne.
  unfold show_dec in *. destruct (show_uint 10 n) as [|c ds]; [done|]. inversion Hd; subst. by eauto.
Qed.

Lemma read_int_show n rest :
  - 2 ^ 63 <= n < 2 ^ 64 -> continues rest = false -> read_int (show_int n ++ rest) = Some (JInt n, rest).
Proof.
  intros Hn Hr. unfold show_int. destruct (Z.ltb_spec n 0).
  - cbn -[digits_checked read_number]. rewrite span_digits_app by (done || apply digits_is_digit; lia).
    rewrite Hr, read_number_show by lia. cbn. by rewrite Z.opp_involutive.
  - destruct (show_dec_cons n ltac:(lia)) as (c & ds & Hs & Hc).
    assert (Hsp : span_digits (show_dec n ++ rest) = (show_dec n, rest))
      by (apply span_digits_app; [apply digits_is_digit; lia|done]).
    assert (Hrd : read_number (2 ^ 64 - 1) (show_dec n) = Some n) by (apply read_number_show; lia).
    rewrite Hs in Hsp, Hrd |- *. unfold read_int. cbn [app] in Hsp |- *.
    rewrite (eqb_class is_digit c "-") by done. cbv match. by rewrite Hsp, Hr, Hrd.
Qed.

Lemma continues_ws d s : is_ws d = true -> continues (d :: s) = false.
Proof.
  unfold is_ws. cbv zeta. rewrite !orb_true_iff, !Z.eqb_eq. rewrite <- (byte_of_val d) at 5.
  by intros [[[->| ->]| ->]| ->].
Qed.

Lemma continues_blank w s : blank w -> continues s = false -> continues (w ++ s) = false.
Proof.
  unfold blank. destruct w as [|d w]; [done|]. cbn [forallb app]. intros [Hd _]%andb_true_iff _.
  by apply continues_ws.
Qed.

(** A value's text begins with a byte that is neither blank nor a bracket that
    closes. *)
Lemma value_text_head v w :
  value_text v w -> exists c r, w = c :: r /\ is_ws c = false /\ Ascii.eqb "]" c = false.
Proof.
  assert (Hdig : forall c, is_digit c = true -> is_ws c = false /\ Ascii.eqb "]" c = false).
  { intros c Hc. split; [unfold is_digit, in_range, is_ws in *; lia|].
    rewrite Ascii.eqb_sym. by apply (eqb_class is_digit). }
  inversion 1 as [|[]|n Hn| | | | |]; subst; try (by eexists _, _).
  unfold show_int. case_match; [by eexists _, _|].
  destruct (show_dec_cons n ltac:(lia)) as (c & ds & -> & Hc). eauto.
Qed.

Scheme value_text_mut := Minimality for value_text Sort Prop
  with elements_text_mut := Minimality for elements_text Sort Prop
  with members_text_mut := Minimality for members_text Sort Prop.
Combined Scheme json_text_ind from value_text_mut, elements_text_mut, members_text_mut.

Definition reads_value (v : json) (w : str) : Prop :=
  forall fuel w1 rest, blank w1 -> (2 * length w + 1 <= fuel)%nat -> continues rest = false ->
    read_value fuel (w1 ++ w ++ rest) = Some (v, rest).

Definition reads_elements (vs : list json) (w : str) : Prop :=
  forall fuel rest, (2 * length w + 2 <= fuel)%nat ->
    read_elements fuel (w ++ "]"%char :: rest) = Some (vs, rest) /\
    expect "]" (w ++ "]"%char :: rest) = None.

Definition reads_members (kvs : list (str * json)) (w : str) : Prop :=
  forall fuel rest, (2 * length w + 2 <= fuel)%nat ->
    read_members fuel (w ++ "}"%char :: rest) = Some (kvs, rest) /\
    expect "}" (w ++ "}"%char :: rest) = None.

(** The reader's dispatch on the first byte of a value. *)
Lemma read_value_head fuel w1 c r :
  blank w1 -> is_ws c = false ->
  read_value (S fuel) (w1 ++ c :: r) = read_value (S fuel) (c :: r).
Proof.
  intros Hw Hc. cbn [read_value]. rewrite (skip_ws_stop w1) by done.
  cbn [skip_ws]. by rewrite Hc.
Qed.

Lemma reads_literal (l : str) v c s :
  l = c :: s -> is_ws c = false ->
  (forall fuel rest, read_value (S fuel) (l ++ rest) = read_literal l v (l ++ rest)) -> reads_value v l.
Proof.
  intros Hl Hc Hv [|fuel] w1 rest Hw Hf _; [lia|]. rewrite Hl at 1. cbn [app].
  rewrite read_value_head by done. change (c :: s ++ rest) with ((c :: s) ++ rest). rewrite <- Hl, Hv.
  unfold read_literal, strip_prefix_str. rewrite starts_with_app. cbn. by rewrite drop_app_length.
Qed.

Lemma reads_int n : - 2 ^ 63 <= n < 2 ^ 64 -> reads_value (JInt n) (show_int n).
Proof.
  intros Hn [|fuel] w1 rest Hw Hf Hr; [lia|]. pose proof (read_int_show n rest Hn Hr) as Hi.
  assert (Hh : exists c r, show_int n = c :: r /\ (c = "-"%char \/ is_digit c = true)).
  { unfold show_int. case_match; [by eauto|].
    destruct (show_dec_cons n ltac:(lia)) as (c & ds & -> & Hc). eauto. }
  destruct Hh as (c & r & Hs & Hc). rewrite Hs in Hi |- *. cbn [app] in Hi |- *.
  set (p c := is_digit c || Ascii.eqb c "-").
  assert (Hp : p c = true) by (unfold p; destruct Hc as [->|Hc]; [done|by rewrite Hc]).
  assert (Hws : is_ws c = false).
  { destruct Hc as [->|Hc]; [done|]. unfold is_digit, in_range, is_ws in *. lia. }
  cbn [read_value]. rewrite skip_ws_stop by done. by rewrite !(eqb_class p c).
Qed.

Lemma reads_str s w : chars s w -> reads_value (JStr s) (quoted w).
Proof.
  intros Hs [|fuel] w1 rest Hw Hf _; [lia|]. unfold quoted. cbn [app]. rewrite <- app_assoc.
  cbn [app read_value]. rewrite skip_ws_stop by done. cbn -[read_chars]. by rewrite (chars_read s).
Qed.

Lemma read_value_arr fuel w1 r :
  blank w1 -> read_value (S fuel) (w1 ++ "["%char :: r) =
    match expect "]" r with
    | Some r => Some (JArr [], r)
    | None => '(vs, r) ← read_elements fuel r; Some (JArr vs, r)
    end.
Proof. intros Hw. cbn [read_value]. by rewrite skip_ws_stop. Qed.

Lemma read_value_obj fuel w1 r :
  blank w1 -> read_value (S fuel) (w1 ++ "{"%char :: r) =
    match expect "}" r with
    | Some r => Some (JObj [], r)
    | None => '(kvs, r) ← read_members fuel r; Some (JObj kvs, r)
    end.
Proof. intros Hw. cbn [read_value]. by rewrite skip_ws_stop. Qed.

Lemma reads_empty_arr w : blank w -> reads_value (JArr []) (("["%char :: w) ++ "]").
Proof.
  intros Hb [|fuel] w1 rest Hw Hf _; [lia|]. rewrite <- app_assoc. cbn [app].
  rewrite read_value_arr by done. cbn [app String.list_ascii_of_string]. by rewrite expect_eq.
Qed.

Lemma reads_empty_obj w : blank w -> reads_value (JObj []) (("{"%char :: w) ++ "}").
Proof.
  intros Hb [|fuel] w1 rest Hw Hf _; [lia|]. rewrite <- app_assoc. cbn [app].
  rewrite read_value_obj by done. cbn [app String.list_ascii_of_string]. by rewrite expect_eq.
Qed.

Lemma reads_arr vs w : reads_elements vs w -> reads_value (JArr vs) (("["%char :: w) ++ "]").
Proof.
  intros He [|fuel] w1 rest Hw Hf _; [lia|]. rewrite length_app in Hf. cbn in Hf.
  destruct (He fuel rest ltac:(lia)) as [Hr Hn]. rewrite <- app_assoc. cbn [app].
  rewrite read_value_arr by done. cbn [app String.list_ascii_of_string]. by rewrite Hn, Hr.
Qed.

Lemma reads_obj kvs w : reads_members kvs w -> reads_value (JObj kvs) (("{"%char :: w) ++ "}").
Proof.
  intros He [|fuel] w1 rest Hw Hf _; [lia|]. rewrite length_app in Hf. cbn in Hf.
  destruct (He fuel rest ltac:(lia)) as [Hr Hn]. rewrite <- app_assoc. cbn [app].
  rewrite read_value_obj by done. cbn [app String.list_ascii_of_string]. by rewrite Hn, Hr.
Qed.

Lemma expect_head c w1 v w rest :
  blank w1 -> value_text v w -> c = "]"%char -> expect c (w1 ++ w ++ rest) = None.
Proof.
  intros Hw Hv ->. destruct (value_text_head v w Hv) as (d & r & -> & Hd & Hn). cbn [app].
  rewrite expect_eq by done. by rewrite Hn.
Qed.

Lemma reads_last v w1 w w2 :
  blank w1 -> value_text v w -> reads_value v w -> blank w2 -> reads_elements [v] (w1 ++ w ++ w2).
Proof.
  intros H1 Hv Hr H2 [|fuel] rest Hf; [lia|]. rewrite !length_app in Hf. rewrite <- !app_assoc.
  split; [|by eapply expect_head]. cbn [read_elements]. rewrite Hr by (done || lia || by apply continues_blank).
  cbn [mbind option_bind]. by rewrite !expect_eq.
Qed.

Lemma reads_more v w1 w w2 vs ws :
  blank w1 -> value_text v w -> reads_value v w -> blank w2 -> reads_elements vs ws ->
  reads_elements (v :: vs) (w1 ++ w ++ w2 ++ "," ++ ws).
Proof.
  intros H1 Hv Hr H2 Hvs [|fuel] rest Hf; [lia|]. rewrite !length_app in Hf. cbn in Hf.
  rewrite <- !app_assoc. split; [|by eapply expect_head]. cbn [read_elements].
  rewrite Hr by (done || lia || by apply continues_blank). cbn [mbind option_bind].
  cbn [app String.list_ascii_of_string]. rewrite expect_eq by done. cbn [Ascii.eqb Bool.eqb].
  by rewrite (proj1 (Hvs fuel rest ltac:(lia))).
Qed.

(** A member up to its value. *)
Lemma read_members_key fuel k w1 kw w2 r :
  blank w1 -> chars k kw -> blank w2 ->
  read_members (S fuel) (w1 ++ quoted kw ++ w2 ++ ":" ++ r) =
    ('(v, r) ← read_value fuel r;
     match expect "," r with
     | Some r => '(kvs, r) ← read_members fuel r; Some ((k, v) :: kvs, r)
     | None => r ← expect "}" r; Some ([(k, v)], r)
     end) /\
  expect "}" (w1 ++ quoted kw ++ w2 ++ ":" ++ r) = None.
Proof.
  intros H1 Hk H2. unfold quoted. cbn [app]. rewrite <- app_assoc. cbn [app String.list_ascii_of_string].
  split; [|by rewrite expect_eq]. cbn [read_members]. rewrite expect_eq by done.
  rewrite Ascii.eqb_refl. cbn [mbind option_bind]. rewrite (chars_read k) by done.
  cbn [mbind option_bind]. by rewrite expect_eq.
Qed.

Lemma quoted_length w : length (quoted w) = S (S (length w)).
Proof. unfold quoted. cbn. rewrite length_app. cbn. lia. Qed.

Lemma reads_last_member k v w1 kw w2 w3 w w4 :
  blank w1 -> chars k kw -> blank w2 -> blank w3 -> reads_value v w -> blank w4 ->
  reads_members [(k, v)] (w1 ++ quoted kw ++ w2 ++ ":" ++ w3 ++ w ++ w4).
Proof.
  intros H1 Hk H2 H3 Hr H4 [|fuel] rest Hf; [lia|]. rewrite !length_app, quoted_length in Hf.
  rewrite <- !app_assoc. destruct (read_members_key fuel k w1 kw w2 (w3 ++ w ++ w4 ++ "}"%char :: rest)
    H1 Hk H2) as [-> ->]. split; [|done].
  rewrite Hr by (done || lia || by apply continues_blank). cbn [mbind option_bind].
  by rewrite !expect_eq.
Qed.

Lemma reads_more_members k v w1 kw w2 w3 w w4 kvs ws :
  blank w1 -> chars k kw -> blank w2 -> blank w3 -> reads_value v w -> blank w4 ->
  reads_members kvs ws ->
  reads_members ((k, v) :: kvs) (w1 ++ quoted kw ++ w2 ++ ":" ++ w3 ++ w ++ w4 ++ "," ++ ws).
Proof.
  intros H1 Hk H2 H3 Hr H4 Hm [|fuel] rest Hf; [lia|]. rewrite !length_app, quoted_length in Hf.
  cbn in Hf. rewrite <- !app_assoc.
  destruct (read_members_key fuel k w1 kw w2 (w3 ++ w ++ w4 ++ "," ++ ws ++ "}"%char :: rest)
    H1 Hk H2) as [-> ->]. split; [|done].
  rewrite Hr by (done || lia || by apply continues_blank). cbn [mbind option_bind].
  cbn [app String.list_ascii_of_string]. rewrite expect_eq by done. cbn [Ascii.eqb Bool.eqb].
  by rewrite (proj1 (Hm fuel rest ltac:(lia))).
Qed.

Lemma texts_read :
  (forall v w, value_text v w -> value_text v w /\ reads_value v w) /\
  (forall vs w, elements_text vs w -> reads_elements vs w) /\
  (forall kvs w, members_text kvs w -> reads_members kvs w).
Proof.
  apply json_text_ind.
  - split; [constructor|]. by eapply reads_literal.
  - intros []; (split; [constructor|]); by eapply reads_literal.
  - intros n Hn. split; [by constructor|]. by apply reads_int.
  - intros s w Hs. split; [by constructor|]. by apply reads_str.
  - intros w Hw. split; [by constructor|]. by apply reads_empty_arr.
  - intros vs w Ht Hr. split; [by constructor|]. by apply reads_arr.
  - intros w Hw. split; [by constructor|]. by apply reads_empty_obj.
  - intros kvs w Ht Hr. split; [by constructor|]. by apply reads_obj.
  - intros v w1 w w2 H1 _ [Hv Hr] H2. by apply reads_last.
  - intros v w1 w w2 vs ws H1 _ [Hv Hr] H2 _ Hvs. by apply reads_more.
  - intros k v w1 kw w2 w3 w w4 H1 Hk H2 H3 _ [_ Hr] H4. by apply reads_last_member.
  - intros k v w1 kw w2 w3 w w4 kvs ws H1 Hk H2 H3 _ [_ Hr] H4 _ Hm. by apply reads_more_members.
Qed.

(** The reader gives back the document of every text of it. *)
Lemma from_text_document j text : document j text -> from_text text = Some j.
Proof.
  intros (w1 & w & w2 & -> & H1 & Hv & H2). unfold from_text.
  destruct (proj1 texts_read j w Hv) as [_ Hr].
  rewrite Hr; [|done|rewrite !length_app; lia|].
  - cbn [mbind option_bind]. by rewrite skip_ws_all.
  - rewrite <- (app_nil_r w2). by apply continues_blank.
Qed.

(** ** The instance *)

#[local] Instance text_json : Json json := {
  from_str := from_text;
  get v k := match v with JObj kvs => (list_to_map kvs : gmap str json) !! k | _ => None end;
  value_as_array v := match v with JArr vs => Some vs | _ => None end;
  value_as_str v := match v with JStr s => Some s | _ => None end;
  value_as_u64 v := match v with JInt n => if decide (0 <= n < 2 ^ 64) then Some n else None | _ => None end;
}.

#[local] Instance text_json_laws : JsonLaws json.
Proof.
  refine {| of_json := id |}.
  - intros j text Hd _. by apply from_text_document.
  - intros kvs k _. cbn. by rewrite option_fmap_id.
  - intros vs. cbn. by rewrite list_fmap_id.
  - done.
  - intros n Hn. cbn. by rewrite decide_True.
Defined.

(** ** Every document has a text *)

Fixpoint print (j : json) : str :=
  match j with
  | JNull => "null"
  | JBool b => show_bool b
  | JInt n => show_int n
  | JStr s => quoted s
  | JArr vs => ("["%char :: join_char "," (map print vs)) ++ "]"
  | JObj kvs =>
      ("{"%char :: join_char "," (map (fun kv => quoted (fst kv) ++ ":" ++ print (snd kv)) kvs)) ++ "}"
  end.

(** Integers in range, and strings of bytes that need no escape. *)
Fixpoint printable (j : json) : bool :=
  match j with
  | JInt n => bool_decide (- 2 ^ 63 <= n < 2 ^ 64)
  | JStr s => forallb plain_char s
  | JArr vs => forallb printable vs
  | JObj kvs => forallb (fun kv => forallb plain_char (fst kv) && printable (snd kv)) kvs
  | _ => true
  end.

Lemma plain_chars s : forallb plain_char s = true -> chars s s.
Proof.
  induction s as [|c s IH]; [constructor|]. cbn [forallb]. intros [Hc Hs]%andb_true_iff.
  constructor; [done|]. by apply IH.
Qed.

Lemma elements_print vs :
  vs <> [] -> Forall (fun v => value_text v (print v)) vs ->
  elements_text vs (join_char "," (map print vs)).
Proof.
  intros Hne Hall. induction Hall as [|v vs Hv Hvs IH]; [done|]. cbn [map].
  destruct vs as [|v' vs].
  - cbn. rewrite <- (app_nil_r (print v)). by apply (et_last v []).
  - apply (et_more v [] (print v) []); [done..|]. by apply IH.
Qed.

Lemma members_print kvs :
  kvs <> [] -> Forall (fun kv => chars (fst kv) (fst kv) /\ value_text (snd kv) (print (snd kv))) kvs ->
  members_text kvs (join_char "," (map (fun kv => quoted (fst kv) ++ ":" ++ print (snd kv)) kvs)).
Proof.
  intros Hne Hall. induction Hall as [|[k v] kvs [Hk Hv] Hkvs IH]; [done|]. cbn [map fst snd].
  destruct kvs as [|kv kvs].
  - cbn [map join_char]. rewrite <- (app_nil_r (print v)). by apply (mt_last k v [] k [] []).
  - pose proof (mt_more k v [] k [] [] (print v) [] (kv :: kvs) _ eq_refl Hk eq_refl eq_refl Hv eq_refl
      (IH ltac:(done))) as Hm. cbn [app] in Hm. cbn [map join_char]. rewrite <- app_assoc. exact Hm.
Qed.

Lemma print_text n j : (depth j <= n)%nat -> printable j = true -> value_text j (print j).
Proof.
  revert j; induction n as [|n IH]; intros [|b|i|s|vs|kvs] Hn Hp; cbn [depth] in Hn; try lia;
    cbn [printable] in Hp; try (constructor; done || by apply plain_chars || by apply bool_decide_eq_true in Hp).
  - destruct vs as [|v vs]; [by apply (vt_empty_arr [])|]. apply vt_arr, elements_print; [done|].
    apply Forall_forall. intros x Hx. apply IH.
    + apply le_S_n. etrans; [|exact Hn]. apply le_n_S, (max_list_elem_of_le (depth x)).
      by apply (list_elem_of_fmap_2 depth).
    + rewrite forallb_forall in Hp. by apply Hp, list_elem_of_In.
  - destruct kvs as [|kv kvs]; [by apply (vt_empty_obj [])|]. apply vt_obj, members_print; [done|].
    apply Forall_forall. intros x Hx. rewrite forallb_forall in Hp.
    specialize (Hp x (proj1 (list_elem_of_In _ _) Hx)). apply andb_true_iff in Hp as [Hk Hp].
    split; [by apply plain_chars|]. apply IH; [|done]. apply le_S_n. etrans; [|exact Hn].
    apply le_n_S, (max_list_elem_of_le (depth (snd x))). by apply (list_elem_of_fmap_2 (fun kv => depth (snd kv))).
Qed.

Lemma print_document j : printable j = true -> document j (print j).
Proof.
  intros Hp. exists [], (print j), []. split; [by rewrite app_nil_r|]. split; [done|].
  split; [|done]. by eapply print_text.
Qed.
