(* ===== verification/Status.v ===== *)
(** * src/nat/status.rs: counters out of [nft]'s JSON listing

    [parse_counters] over the JSON library's interface of Json.v, and what it
    gives on the text of any listing. *)

From S2P Require Import Prelude Str Json.

Record CounterStat := MkCounter { ct_comment : str; packets : Z; bytes : Z }.

#[global] Instance CounterStat_eq_dec : EqDecision CounterStat.
Proof. solve_decision. Defined.

Section Parse.
Context {V : Type} `{Json V}.

(** The loop over a rule's expressions: the first counter. *)
Fixpoint first_counter (comment : str) (exprs : list V) : option CounterStat :=
  match exprs with
  | [] => None
  | e :: exprs =>
      match get e "counter" with
      | Some counter =>
          let packets := default 0 (get counter "packets" ≫= value_as_u64) in
          let bytes := default 0 (get counter "bytes" ≫= value_as_u64) in
          Some (MkCounter comment packets bytes)
      | None => first_counter comment exprs
      end
  end.

(** One item of the listing: [None] is [continue]. *)
Definition item_counter (item : V) : option CounterStat :=
  rule ← get item "rule";
  let comment := default [] (get rule "comment" ≫= value_as_str) in
  if starts_with "gust:" comment then
    exprs ← get rule "expr" ≫= value_as_array;
    first_counter comment exprs
  else None.

Fixpoint items_loop (items : list V) : list CounterStat :=
  match items with
  | [] => []
  | item :: items =>
      match item_counter item with
      | Some c => c :: items_loop items
      | None => items_loop items
      end
  end.

Definition parse_counters (json : str) : list CounterStat :=
  match from_str json with
  | None => []
  | Some root =>
      match get root "nftables" ≫= value_as_array with
      | None => []
      | Some items => items_loop items
      end
  end.
End Parse.

(** ** The listing *)

(** A rule of the listing: its comment, its other members, and its expressions
    around the first counter. *)
Record Listed := MkListed {
  li_comment : option str;
  li_members : list (str * json);
  li_before : list (list (str * json));
  li_packets : Z;
  li_bytes : Z;
  li_after : list json;
}.

(** The metainfo, table and chain items, and the rules. *)
Inductive Item := Other (members : list (str * json)) | Rule (r : Listed).

Definition counter_json (r : Listed) : json :=
  JObj [("counter" : str, JObj [("packets" : str, JInt (li_packets r));
                                ("bytes" : str, JInt (li_bytes r))])].

Definition rule_members (r : Listed) : list (str * json) :=
  li_members r ++
  (match li_comment r with Some c => [("comment" : str, JStr c)] | None => [] end) ++
  [("expr" : str, JArr ((JObj <$> li_before r) ++ [counter_json r] ++ li_after r))].

Definition item_json (i : Item) : json :=
  match i with
  | Other members => JObj members
  | Rule r => JObj [("rule" : str, JObj (rule_members r))]
  end.

Definition item_ok (i : Item) : Prop :=
  match i with
  | Other members => NoDup members.*1 /\ (("rule" : str) ∉ members.*1)
  | Rule r => NoDup (rule_members r).*1 /\ (("comment" : str) ∉ (li_members r).*1) /\
      Forall (fun kvs => NoDup kvs.*1 /\ (("counter" : str) ∉ kvs.*1)) (li_before r) /\
      fits 64 (li_packets r) /\ fits 64 (li_bytes r)
  end.

(** The listing, with other members [top] beside the items. *)
Definition listing_members (top : list (str * json)) (items : list Item) : list (str * json) :=
  top ++ [("nftables" : str, JArr (item_json <$> items))].

(** The counters of the rules marked with a [gust:] comment. *)
Definition ours (i : Item) : option CounterStat :=
  match i with
  | Rule (MkListed (Some c) _ _ p b _) =>
      if starts_with "gust:" c then Some (MkCounter c p b) else None
  | _ => None
  end.

Section Listing.
Context {V : Type} `{JsonLaws V}.

Lemma get_here (kvs : list (str * json)) k v :
  NoDup kvs.*1 -> (k, v) ∈ kvs -> get (of_json (JObj kvs)) k = Some (of_json v).
Proof. intros Hnd Hin. rewrite get_obj by done. by rewrite (elem_of_list_to_map_1 _ _ _ Hnd Hin). Qed.

Lemma get_absent (kvs : list (str * json)) k :
  NoDup kvs.*1 -> k ∉ kvs.*1 -> get (of_json (JObj kvs)) k = None.
Proof. intros Hnd Hin. rewrite get_obj by done. by rewrite (not_elem_of_list_to_map_1 _ _ Hin). Qed.

Lemma first_counter_skip c (before : list (list (str * json))) rest :
  Forall (fun kvs => NoDup kvs.*1 /\ (("counter" : str) ∉ kvs.*1)) before ->
  first_counter c ((of_json <$> (JObj <$> before)) ++ rest) = first_counter c rest.
Proof.
  induction 1 as [|kvs before [Hnd Hni] _ IH]; [done|]. cbn. by rewrite get_absent.
Qed.

Lemma first_counter_json c r rest :
  fits 64 (li_packets r) -> fits 64 (li_bytes r) ->
  first_counter c (of_json (counter_json r) :: rest) = Some (MkCounter c (li_packets r) (li_bytes r)).
Proof.
  intros Hp Hb. cbn [first_counter]. unfold counter_json.
  rewrite (get_here _ "counter" (JObj [("packets" : str, JInt (li_packets r));
    ("bytes" : str, JInt (li_bytes r))])); [|by apply NoDup_singleton|by left].
  assert (Hnd : NoDup [("packets" : str, JInt (li_packets r)); ("bytes" : str, JInt (li_bytes r))].*1)
    by by_decision.
  rewrite (get_here _ "packets" (JInt (li_packets r)) Hnd) by (by left).
  rewrite (get_here _ "bytes" (JInt (li_bytes r)) Hnd) by (right; by left).
  cbn [mbind option_bind]. by rewrite !as_u64_int.
Qed.

Lemma item_counter_json i : item_ok i -> item_counter (of_json (item_json i)) = ours i.
Proof.
  destruct i as [members|r]; unfold item_counter; cbn [item_json item_ok].
  - intros [Hnd Hni]. by rewrite get_absent.
  - intros (Hnd & Hc & Hbef & Hp & Hb).
    rewrite (get_here _ "rule" (JObj (rule_members r))) by (apply NoDup_singleton || by left).
    cbn [mbind option_bind].
    rewrite (get_here (rule_members r) "expr"
      (JArr ((JObj <$> li_before r) ++ [counter_json r] ++ li_after r)) Hnd) by set_solver.
    cbn [mbind option_bind]. rewrite as_array_arr, fmap_app. cbn [mbind option_bind].
    rewrite first_counter_skip by done. cbn [app fmap list_fmap]. rewrite first_counter_json by done.
    destruct r as [[c|] ms bef p b aft]; cbn [li_comment ours] in *.
    + rewrite (get_here _ "comment" (JStr c) Hnd) by set_solver.
      cbn [mbind option_bind]. by rewrite as_str_str.
    + rewrite get_absent; [done|done|]. unfold rule_members. cbn. rewrite fmap_app. set_solver.
Qed.

(** C37: from any text of the listing of a table, whatever other items, rules,
    members and expressions it holds, the status report gets the counters of
    exactly the rules with a [gust:] comment, in order: the packets and bytes of
    the rule's first counter. *)
Theorem parse_counters_listing text top items :
  let listing := JObj (listing_members top items) in
  document listing text -> (depth listing < recursion_limit)%nat ->
  NoDup (listing_members top items).*1 -> Forall item_ok items ->
  parse_counters text = omap ours items.
Proof.
  intros listing Hd Hl Hnd Hall. unfold parse_counters. rewrite (from_str_document listing) by done.
  unfold listing. rewrite (get_here _ "nftables" (JArr (item_json <$> items)) Hnd)
    by (unfold listing_members; set_solver).
  cbn [mbind option_bind]. rewrite as_array_arr. clear listing Hd Hl Hnd.
  induction Hall as [|i items Hi _ IH]; [done|]. cbn [fmap list_fmap items_loop].
  rewrite item_counter_json by done. cbn [omap list_omap]. destruct (ours i); [by f_equal|done].
Qed.
End Listing.

(** ** A listing *)

#[local] Existing Instances text_json text_json_laws.

Definition sample_items : list Item :=
  [Other [("metainfo" : str, JObj [("version" : str, JStr "1.0.9")])];
   Rule (MkListed (Some ("gust:tcp:8080->1.2.3.4:443" : str))
     [("family" : str, JStr "ip"); ("handle" : str, JInt 4)]
     [[("match" : str, JObj [("right" : str, JInt 8080)])]] 10 840
     [JObj [("dnat" : str, JObj [("addr" : str, JStr "1.2.3.4")])]]);
   Rule (MkListed None [("family" : str, JStr "ip")] [] 7 560 [JNull])].

Lemma parse_counters_listing_witness :
  parse_counters (print (JObj (listing_members [] sample_items))) =
  [MkCounter "gust:tcp:8080->1.2.3.4:443" 10 840].
Proof.
  refine (parse_counters_listing _ [] sample_items _ _ _ _).
  - apply print_document. reflexivity.
  - apply Nat.ltb_lt. reflexivity.
  - by_decision.
  - constructor; [|constructor; [|constructor; [|constructor]]]; cbn [item_ok li_members li_before].
    + split; by_decision.
    + split; [by_decision|]. split; [by_decision|]. split; [|split; by_decision].
      constructor; [split; by_decision|constructor].
    + split; [by_decision|]. split; [by_decision|]. split; [constructor|split; by_decision].
Defined.
