(* ===== verification/Nat.v ===== *)
(** * src/nat/linux.rs and src/nat/mod.rs: NAT mode

    [nat_run] is [linux::run]: the preflight checks and the installation of the
    rules ([nat_setup]), the wait for the shutdown, and the cleanup.  What they do
    to the machine is in Machine.v. *)

From S2P Require Import Prelude Str Ip Io Netopt Config Stats Heartbeat Nftables Json Status.

Definition IPV4_FWD : str := "/proc/sys/net/ipv4/ip_forward".

(** ** Rules from the configuration *)

(** The loop of [resolve_ip] over the addresses found. *)
Fixpoint prefer_v4 (fallback : option IpAddr) (sas : list SocketAddr) : io_result IpAddr :=
  match sas with
  | [] => ok_or fallback (io_new NotFound "no address found")
  | sa :: sas =>
      match sa_ip sa with
      | V4 a => Ok (V4 a)
      | V6 a => prefer_v4 (Some (V6 a)) sas
      end
  end.

Definition resolve_ip (host : str) : prog NatE (io_result IpAddr) :=
  match parse_ip host with
  | Some ip => Ret (Ok ip)
  | None =>
      await? sas := call (LookupIp host) in
      Ret (prefer_v4 None sas)
  end.

Definition rule_comment (l : ListenerSpec) (ip : IpAddr) (port : Z) : str :=
  "gust:" ++ as_str (proto l) ++ ":" ++ show_dec (listen_port l) ++ "->" ++ show_ip ip ++ ":"
    ++ show_dec port.

(** The body of the loop of [build_rules]. *)
Definition rule_of (l : ListenerSpec) : prog NatE (result NatRule str) :=
  match targets l with
  | [target] =>
      await? (host, port) := lift (map_err err_msg (split_host_port target)) in
      await? ip := prog_map_err (fun e => "NAT target `" ++ host
          ++ "` could not be resolved to an IP: " ++ err_msg e) (resolve_ip host) in
      Ret (Ok (MkRule (proto l) (listen_port l) ip port (rule_comment l ip port)))
  | ts =>
      Ret (Err ("NAT mode requires exactly one destination per -L; `" ++ name l ++ "` has "
        ++ show_dec (Z.of_nat (length ts))
        ++ " (round-robin DNAT is not supported in NAT mode)"))
  end.

Fixpoint build_rules (ls : list ListenerSpec) : prog NatE (result (list NatRule) str) :=
  match ls with
  | [] => Ret (Ok [])
  | l :: ls =>
      await? r := rule_of l in
      await? rs := build_rules ls in
      Ret (Ok (r :: rs))
  end.

(** ** [ip_forward] *)

Definition read_ip_forward : prog NatE (io_result bool) :=
  await? s := call (ReadToString IPV4_FWD) in
  Ret (Ok (bool_decide (trim s = "1"))).

Definition fwd_text (v : bool) : str := (if v then "1" else "0") ++ [newline].

Definition write_ip_forward (v : bool) : prog NatE (io_result unit) :=
  call (WriteFile IPV4_FWD (fwd_text v)).

Definition forward_off : str :=
  "net.ipv4.ip_forward is 0, but NAT forwarding to a remote backend needs it set to 1."
  ++ [newline]
  ++ "  Persistent fix:  echo 'net.ipv4.ip_forward=1' | sudo tee /etc/sysctl.d/99-gust.conf && sudo sysctl --system"
  ++ [newline]
  ++ "  Or pass --set-ip-forward to have gust set it for this run (restored on exit).".

Definition ensure_ip_forward (set : bool) : prog NatE (result (option bool) str) :=
  await? cur := prog_map_err (fun e => "cannot read " ++ IPV4_FWD ++ ": " ++ err_msg e)
    read_ip_forward in
  if (cur : bool) then Ret (Ok None)
  else if set then
    await? _ := prog_map_err (fun e => "cannot set " ++ IPV4_FWD ++ "=1: " ++ err_msg e)
      (write_ip_forward true) in
    Ret (Ok (Some false))
  else Ret (Err forward_off).

(** ** Capabilities *)

Definition CAP_NET_ADMIN : Z := 12.

(** The loop over the lines of /proc/self/status. *)
Fixpoint cap_eff (ls : list str) : bool :=
  match ls with
  | [] => false
  | line :: ls =>
      match strip_prefix_str "CapEff:" line with
      | Some hex =>
          match parse_unsigned_radix 16 u64_max (trim hex) with
          | Some bits => Z.land (Z.shiftr bits CAP_NET_ADMIN) 1 =? 1
          | None => cap_eff ls
          end
      | None => cap_eff ls
      end
  end.

Definition has_net_admin : prog NatE bool :=
  await euid := call GetEuid in
  if euid =? 0 then Ret true else
  await r := call (ReadToString "/proc/self/status") in
  Ret (match r with Ok s => cap_eff (lines s) | Err _ => false end).

(** ** The cleanup guard *)

Record NatState := MkNat { armed : bool; restore_fwd : option bool }.

Definition cleanup (st : NatState) : prog NatE NatState :=
  if armed st then
    await _ := delete_table "ip" in
    await _ := delete_table "ip6" in
    match restore_fwd st with
    | Some prev => await _ := write_ip_forward prev in Ret (MkNat false None)
    | None => Ret (MkNat false None)
    end
  else Ret st.

(** [Drop for NatState] *)
Definition nat_drop (st : NatState) : prog NatE unit :=
  await _ := cleanup st in Ret tt.

(** ** [run] *)

(** Steps 1 to 5: the guard, or the exit code. *)
Definition nat_setup (cfg : Config) : prog NatE (result NatState Z) :=
  await avail := ensure_available in
  match avail with
  | Err _ => Ret (Err 1)
  | Ok _ =>
      await admin := has_net_admin in
      if negb admin then Ret (Err 1) else
      await r := build_rules (listeners cfg) in
      match r with
      | Err _ => Ret (Err 2)
      | Ok rules =>
          await r := ensure_ip_forward (set_ip_forward cfg) in
          match r with
          | Err _ => Ret (Err 1)
          | Ok restore =>
              await _ := delete_table "ip" in
              await _ := delete_table "ip6" in
              await r := apply_ruleset (build_ruleset rules) in
              match r with
              | Err _ =>
                  match restore with
                  | Some prev => await _ := write_ip_forward prev in Ret (Err 1)
                  | None => Ret (Err 1)
                  end
              | Ok _ => Ret (Ok (MkNat true restore))
              end
          end
      end
  end.

(** The exit code; the guard is dropped at the end of its scope. *)
Definition nat_run (cfg : Config) : prog NatE Z :=
  await r := nat_setup cfg in
  match r with
  | Err code => Ret code
  | Ok st =>
      await _ := call NatSignals in
      await _ := call (NatHeartbeat (heartbeat cfg)) in
      await _ := call UntilShutdown in
      await st := cleanup st in
      await _ := nat_drop st in
      Ret 0
  end.

(** [gust --nat-cleanup], its messages apart *)
Definition cleanup_main : prog NatE Z :=
  await r := ensure_available in
  match r with
  | Err _ => Ret 1
  | Ok _ =>
      await _ := delete_table "ip" in
      await _ := delete_table "ip6" in
      Ret 0
  end.

(** ** Status *)

Section Status.
Context {V : Type} `{Json V}.

(** The lines logged by [dump_status]. *)
Definition dump_status : prog NatE (list str) :=
  await r := list_json in
  Ret (match r with
    | Some json =>
        let stats := parse_counters json in
        [("--- NAT status (" ++ show_dec (Z.of_nat (length stats)) ++ " tunnels) ---" : str)]
        ++ ((fun s => ct_comment s ++ " packets=" ++ show_dec (packets s) ++ " bytes="
              ++ show_dec (bytes s) : str) <$> stats)
    | None => ["NAT status unavailable (table missing or nft error)"%string : str]
    end).

Definition nat_heartbeat : prog NatE str :=
  await r := list_json in
  Ret (match r with
    | Some json =>
        let stats := parse_counters json in
        "heartbeat(nat): tunnels=" ++ show_dec (Z.of_nat (length stats))
          ++ " packets=" ++ show_dec (sum_u64 (packets <$> stats))
          ++ " bytes=" ++ show_dec (sum_u64 (bytes <$> stats))
    | None => "heartbeat(nat): table missing"%string : str
    end).

(** [spawn_heartbeat]: the loop of Heartbeat.v with this line. *)
Definition nat_heartbeat_task (n : nat) (secs : Z) : prog (TimerE NatE) bool :=
  beat_loop nat_heartbeat n secs.
End Status.

(** ** The guard *)

(** The cleanup is idempotent: in every environment a second [cleanup] of
    the same guard, as its [Drop] makes, performs no call at all. *)
Lemma cleanup_idempotent {S} (h : handler NatE S) st s :
  let '(st1, s1) := run h (cleanup st) s in
  run h (cleanup st1) s1 = (st1, s1) /\ armed st1 = false.
Proof.
  unfold cleanup at 1. destruct (armed st) eqn:Ha; [|cbn [run]; unfold cleanup; by rewrite Ha].
  repeat (rewrite run_bind; match goal with |- context [run h (delete_table ?f) ?s] =>
    destruct (run h (delete_table f) s) end).
  destruct (restore_fwd st) as [prev|]; [|done]. try rewrite run_bind.
  try match goal with |- context [run h (write_ip_forward prev) ?s] =>
    destruct (run h (write_ip_forward prev) s) end. done.
Qed.

(** ** The rules of a configuration *)

(** The address taken from those a name resolves to: the first IPv4 one, else the
    last one. *)
Definition chosen (sas : list SocketAddr) (ip : IpAddr) : Prop :=
  match List.find (fun ip => match ip with V4 _ => true | V6 _ => false end) (sa_ip <$> sas) with
  | Some ip' => ip = ip'
  | None => last (sa_ip <$> sas) = Some ip
  end.

(** The NAT rule a listener asks for, given the names that were looked up for it
    with the addresses found: none for a literal address, else its target's. *)
Definition rule_for (l : ListenerSpec) (found : list (str * list SocketAddr)) (r : NatRule) : Prop :=
  exists target host port,
    targets l = [target] /\ split_host_port target = Ok (host, port) /\
    match parse_ip host with
    | Some ip => dest_ip r = ip /\ found = []
    | None => exists sas, found = [(host, sas)] /\ chosen sas (dest_ip r)
    end /\
    r = MkRule (proto l) (listen_port l) (dest_ip r) port
      ("gust:" ++ (match proto l with Tcp => "tcp" | Udp => "udp" end) ++ ":" ++ show_dec (listen_port l)
        ++ "->" ++ show_ip (dest_ip r) ++ ":" ++ show_dec port).

(** These names were looked up, with these answers. *)
Definition lookups (found : list (str * list SocketAddr)) : list (event NatE) :=
  (fun '(host, sas) => Ev (LookupIp host) (Ok sas)) <$> found.

Lemma prefer_v4_spec fb sas ip :
  prefer_v4 fb sas = Ok ip <->
  match List.find (fun ip => match ip with V4 _ => true | V6 _ => false end) (sa_ip <$> sas) with
  | Some ip' => ip = ip'
  | None => match last (sa_ip <$> sas) with Some ip' => ip = ip' | None => fb = Some ip end
  end.
Proof.
  revert fb; induction sas as [|sa sas IH]; intros fb; cbn [prefer_v4].
  - destruct fb; cbn; naive_solver.
  - cbn [fmap list_fmap List.find]. destruct (sa_ip sa) as [a|a]; cbn; [naive_solver|].
    rewrite IH, last_cons. destruct (List.find _ _); [done|]. destruct (last _); naive_solver.
Qed.

Lemma prefer_v4_chosen sas ip : prefer_v4 None sas = Ok ip <-> chosen sas ip.
Proof.
  rewrite prefer_v4_spec. unfold chosen. destruct (List.find _ _); [done|]. destruct (last _); naive_solver.
Qed.

Lemma path_resolve host l ip :
  path (resolve_ip host) l (Ok ip) <->
  match parse_ip host with
  | Some ip' => ip = ip' /\ l = []
  | None => exists sas, l = lookups [(host, sas)] /\ chosen sas ip
  end.
Proof.
  unfold resolve_ip. destruct (parse_ip host) as [ip'|]; [cbn; naive_solver|].
  rewrite path_bind_ok. split.
  - intros (sas & l1 & l2 & -> & ->%path_call & -> & Hp). exists sas. by apply prefer_v4_chosen in Hp.
  - intros (sas & -> & Hp). exists sas, (lookups [(host, sas)]), [].
    split; [done|]. split; [by apply path_call|]. split; [done|]. by apply prefer_v4_chosen.
Qed.

Lemma rule_comment_text l ip port :
  rule_comment l ip port = "gust:" ++ (match proto l with Tcp => "tcp" | Udp => "udp" end) ++ ":"
    ++ show_dec (listen_port l) ++ "->" ++ show_ip ip ++ ":" ++ show_dec port.
Proof. unfold rule_comment. by destruct (proto l). Qed.

Lemma path_rule_of l lg r :
  path (rule_of l) lg (Ok r) <-> exists found, rule_for l found r /\ lg = lookups found.
Proof.
  unfold rule_of, rule_for. destruct (targets l) as [|t [|]]; [cbn; naive_solver| |cbn; naive_solver].
  rewrite path_bind_ok. split.
  - intros ([host port] & l1 & l2 & -> & [-> Hs] & H).
    destruct (split_host_port t) as [[host' port']|] eqn:Ht; [|done]. injection Hs as -> ->.
    apply path_bind_ok in H as (ip & l3 & l4 & -> & H%path_map_err%path_resolve & -> & Hr).
    injection Hr as <-. rewrite app_nil_r.
    destruct (parse_ip host) as [ip'|] eqn:Hp.
    + destruct H as [-> ->]. exists []. split; [|done]. exists t, host, port.
      rewrite Hp, <- rule_comment_text. done.
    + destruct H as (sas & -> & Hc). exists [(host, sas)]. split; [|done]. exists t, host, port.
      rewrite Hp, <- rule_comment_text. by eauto 6.
  - intros (found & (t' & host & port & [= <-] & Hs & Hip & Hr) & ->).
    exists (host, port), [], (lookups found). split; [done|]. rewrite Hs. split; [done|].
    apply path_bind_ok. exists (dest_ip r), (lookups found), []. rewrite app_nil_r. split; [done|].
    split; [|split; [done|by rewrite rule_comment_text, <- Hr]].
    apply path_map_err, path_resolve. destruct (parse_ip host).
    + by destruct Hip as [-> ->].
    + destruct Hip as (sas & -> & Hc). by exists sas.
Qed.

Lemma lookups_app f1 f2 : lookups (f1 ++ f2) = lookups f1 ++ lookups f2.
Proof. unfold lookups. apply fmap_app. Qed.

Lemma path_build_rules ls lg rules :
  path (build_rules ls) lg (Ok rules) <->
  exists founds, Forall3 rule_for ls founds rules /\ lg = lookups (mjoin founds).
Proof.
  revert lg rules; induction ls as [|l ls IH]; intros lg rules; cbn [build_rules].
  - split.
    + intros [-> [= <-]]. exists []. by split; [constructor|].
    + intros (founds & Hf & ->). inv Hf. done.
  - rewrite path_bind_ok. split.
    + intros (r & l1 & l2 & -> & (found & Hr & ->)%path_rule_of & H).
      apply path_bind_ok in H as (rs & l3 & l4 & -> & (founds & Hrs & ->)%IH & -> & [= <-]).
      exists (found :: founds). split; [by constructor|]. cbn. by rewrite lookups_app, app_nil_r.
    + intros (founds & Hf & ->). inversion Hf as [|? found r ? founds' rs Hr Hrs]; subst.
      exists r, (lookups found), (lookups (mjoin founds')). split; [apply lookups_app|].
      split; [apply path_rule_of; eauto|]. apply path_bind_ok.
      exists rs, (lookups (mjoin founds')), []. rewrite app_nil_r. split; [done|].
      split; [apply IH; eauto|done].
Qed.

(** C31: [build_rules] succeeds with [rules] exactly when there is one rule per
    listener, in order, each sending the listener's port and protocol to the port
    of its only target and the target's address: the literal itself, without a
    look-up, or else the first IPv4 address (or failing that the last one) of the
    answer that the one look-up of the name gave.  Nothing else is asked of the
    system. *)
Theorem nat_rules_faithful o cfg rules log :
  run (record o) (build_rules (listeners cfg)) [] = (Ok rules, log) <->
  replies o [] log /\
  exists founds, Forall3 rule_for (listeners cfg) founds rules /\ log = lookups (mjoin founds).
Proof. rewrite run_path_nil, path_build_rules. naive_solver. Qed.

(** ** From the configuration to the ruleset *)

(** A resolver only returns addresses. *)
Definition resolves_wf (o : oracle NatE) : Prop :=
  forall host l sas, o _ (LookupIp host) l = Ok sas -> Forall (fun sa => wf_ip (sa_ip sa)) sas.

Definition found_wf (found : list (str * list SocketAddr)) : Prop :=
  Forall (fun '(_, sas) => Forall (fun sa => wf_ip (sa_ip sa)) sas) found.

Lemma replies_found_wf o l0 found : resolves_wf o -> replies o l0 (lookups found) -> found_wf found.
Proof.
  intros Hw. revert l0; induction found as [|[host sas] found IH]; intros l0; cbn; [constructor|].
  intros [Hr Hl]. constructor; [by eapply Hw|by eapply IH].
Qed.

Lemma chosen_wf sas ip : chosen sas ip -> Forall (fun sa => wf_ip (sa_ip sa)) sas -> wf_ip ip.
Proof.
  unfold chosen. intros Hc Hall. apply (Forall_fmap sa_ip wf_ip) in Hall. rewrite Forall_forall in Hall.
  destruct (List.find _ _) as [ip'|] eqn:Hf.
  - subst. apply List.find_some in Hf as [Hin _]. apply Hall. by apply list_elem_of_In.
  - apply Hall. by apply last_Some_elem_of.
Qed.

Lemma comment_absent l ip port c :
  wf_ip ip -> 0 <= listen_port l -> 0 <= port -> outside c ->
  absent c "gust:" -> absent c "tcp" -> absent c "udp" -> absent c "->" ->
  absent c (rule_comment l ip port).
Proof.
  intros Hip Hl Hp Hc H1 H2 H3 H4. unfold rule_comment. destruct Hc as (Hh & Hd & Hdot & Hcol).
  assert (absent c ":") by (apply absent_cons; split; [done|constructor]).
  rewrite !absent_app. split_and!; try done; try (by apply show_dec_lacks).
  - by destruct (proto l).
  - by apply show_ip_absent.
Qed.

Lemma rule_for_ok l found r : listener_ok l -> rule_for l found r -> found_wf found -> rule_ok r.
Proof.
  intros Hl (t & host & port & _ & Hs & Hip & Hr) Hw. rewrite <- rule_comment_text in Hr.
  pose proof (lo_port l Hl) as Hp. apply split_host_port_fits in Hs. unfold fits in Hp, Hs.
  assert (wf_ip (dest_ip r)).
  { destruct (parse_ip host) as [ip|] eqn:Hpi.
    - destruct Hip as [-> _]. by eapply parse_ip_wf.
    - destruct Hip as (sas & -> & Hc). inversion Hw as [|? ? Hsas _]; subst. exact (chosen_wf _ _ Hc Hsas). }
  rewrite Hr. constructor; cbn; [done|done|done|..];
    (apply comment_absent; [done|lia|lia|by repeat split|by_decision..]).
Qed.

Lemma rules_for_ok ls founds rules :
  Forall listener_ok ls -> Forall3 rule_for ls founds rules -> found_wf (mjoin founds) -> Forall rule_ok rules.
Proof.
  intros Hls Hf. induction Hf as [|l found r ls founds rs Hr _ IH]; intros Hw; [constructor|].
  inversion Hls; subst. apply Forall_app in Hw as [Hw1 Hw2].
  constructor; [by eapply rule_for_ok|by apply IH].
Qed.

(** C38: from a configuration to the ruleset: for every accepted configuration and
    resolver, when the rules can be built then the text made from them for [nft]
    reads back as the tables, chains and statements of exactly the rules the
    listeners ask for. *)
Theorem nat_ruleset_faithful o cfg rules log :
  config_ok cfg -> resolves_wf o ->
  run (record o) (build_rules (listeners cfg)) [] = (Ok rules, log) ->
  decode_ruleset (build_ruleset rules) = Some (tables_for rules) /\
  exists founds, Forall3 rule_for (listeners cfg) founds rules /\ log = lookups (mjoin founds).
Proof.
  intros Hok Hw Hr. apply run_path_nil in Hr as [(founds & Hf & ->)%path_build_rules Hrep].
  split; [|by exists founds]. unfold decode_ruleset. rewrite read_build_ruleset; [done|].
  apply (rules_for_ok _ _ _ (co_each cfg Hok) Hf). by eapply replies_found_wf.
Qed.

Definition nat_config : Config :=
  MkConfig [MkListener Tcp ":8080" 8080 ["1.2.3.4:443"%string : str] true "tcp://:8080";
            MkListener Udp ":5353" 5353 ["dns.example:53"%string : str] true "udp://:5353"] []
    Nat None true 32768 60 false None default_opts.

(** Names resolve to an IPv6 and an IPv4 address. *)
Definition some_addrs : list SocketAddr :=
  [SockAddr (V6 (Ipv6 [0x2001; 0xdb8; 0; 0; 0; 0; 0; 1])) 0 0; SockAddr (V4 (Ipv4 9 9 9 9)) 0 0].

Definition resolver : oracle NatE :=
  fun X e _ => match e in NatE X return X with
    | SpawnNft _ _ => Err (io_new NotFound "not found")
    | WriteStdin _ _ | WriteFile _ _ => Ok tt
    | WaitOutput _ => Ok (true, [], [])
    | ReadToString _ => Ok []
    | GetEuid => 0
    | LookupIp _ => Ok some_addrs
    | NatSignals | NatHeartbeat _ | UntilShutdown => tt
    end.

Lemma nat_config_ok : config_ok nat_config.
Proof.
  constructor; cbn; try done.
  - constructor; [|constructor; [|constructor]];
      (constructor; cbn; [done| |split; [discriminate|reflexivity]]; constructor; [|constructor]).
    + by exists "1.2.3.4", 443.
    + by exists "dns.example", 53.
  - apply (bool_decide_unpack _). vm_compute. exact I.
Qed.

Lemma nat_ruleset_faithful_witness :
  exists rules, fst (run (record resolver) (build_rules (listeners nat_config)) []) = Ok rules /\
    decode_ruleset (build_ruleset rules) = Some (tables_for rules) /\
    dest_ip <$> rules = [V4 (Ipv4 1 2 3 4); V4 (Ipv4 9 9 9 9)].
Proof.
  eexists. split; [vm_compute; reflexivity|].
  edestruct (nat_ruleset_faithful resolver nat_config) as [Hd _].
  - exact nat_config_ok.
  - intros host l sas [= <-]. repeat constructor; cbn; lia.
  - vm_compute. reflexivity.
  - split; [exact Hd|reflexivity].
Defined.

(** ** Listeners told apart only by their bind address *)

(** A rule does not carry the bind address: listeners for the same protocol and
    port have rules that match the same packets. *)
Lemma nat_bind_host_ignored l1 l2 f1 f2 r1 r2 :
  rule_for l1 f1 r1 -> rule_for l2 f2 r2 ->
  proto l1 = proto l2 -> listen_port l1 = listen_port l2 ->
  r_proto r1 = r_proto r2 /\ dport r1 = dport r2.
Proof. intros (t1 & h1 & p1 & _ & _ & _ & ->) (t2 & h2 & p2 & _ & _ & _ & ->). done. Qed.

Definition two_binds : Cli.RawArgs :=
  Cli.MkRawArgs ["tcp://10.0.0.1:80/1.2.3.4:443"%string : str;
                 "tcp://10.0.0.2:80/5.6.7.8:443"%string : str]
    [] None true false false None None None None None None false false false.

(** Such configurations are accepted. *)
Lemma two_binds_accepted :
  exists cfg, build_config two_binds = Some (Ok cfg) /\ length (listeners cfg) = 2%nat.
Proof. eexists. split; [vm_compute; reflexivity|reflexivity]. Qed.
