(* ===== verification/Machine.v ===== *)
(** * The machine NAT mode works on

    The calls of NAT mode act on a machine: the [gust] tables of the kernel,
    [ip_forward], and the [nft] processes started.  [mstep] is what each call may
    do to it, the documented behaviour of [nft] and of the files under /proc; a
    handler whose calls are such steps is a [Machine].  Calls may fail, and what a
    failed call leaves behind may be unknown, or happen only later: the machine
    keeps a record of such failures ([Fault]), and a process that was lost may do
    its work at any time after.  The tables and [ip_forward] are changed by no
    other program meanwhile.

    The specifications of the programs of Nat.v are weakest preconditions over
    [mstep] (Interference.v), so they hold while the status tasks run [nft] too;
    [kernel] is an instance. *)

From S2P Require Import Prelude Str Ip Io Interference Netopt Config Nftables Json Nat.
From Stdlib Require Import RelationClasses Morphisms.

(** The families gust has tables in. *)
Definition families : gset str := {["ip" : str; "ip6" : str]}.

(** A failure that can leave the machine other than it should be: the last
    deletion of a table failed, or may have; a process that was to delete a table
    was lost and may still do it; one that was given a ruleset, or a part of it, was
    lost and may have loaded it or still do; a write of [ip_forward] failed. *)
Inductive Fault := FDelete (fam : str) | FLate (fam : str) | FLoad | FForward.

#[global] Instance Fault_eq_dec : EqDecision Fault.
Proof. solve_decision. Defined.

(** The families that have a [gust] table, the value of [ip_forward], the [nft]
    processes ever started with their arguments and input; and two records: the
    names resolved with their addresses, and the failures that still matter. *)
Record Mach := MkMach {
  ma_tables : gset str;
  ma_fwd : Z;
  ma_children : gmap nat (list str * str);
  ma_lookups : list (str * list SocketAddr);
  ma_faults : list Fault;
}.

Definition add_child (c : nat) (args : list str) (a : Mach) : Mach :=
  MkMach (ma_tables a) (ma_fwd a) (<[c := (args, [])]> (ma_children a)) (ma_lookups a) (ma_faults a).

Definition give_input (c : nat) (input : str) (a : Mach) : Mach :=
  MkMach (ma_tables a) (ma_fwd a) (alter (fun '(args, _) => (args, input)) c (ma_children a))
    (ma_lookups a) (ma_faults a).

Definition set_tables (ts : gset str) (a : Mach) : Mach :=
  MkMach ts (ma_fwd a) (ma_children a) (ma_lookups a) (ma_faults a).

Definition set_fwd (v : Z) (a : Mach) : Mach :=
  MkMach (ma_tables a) v (ma_children a) (ma_lookups a) (ma_faults a).

Definition add_lookup (host : str) (sas : list SocketAddr) (a : Mach) : Mach :=
  MkMach (ma_tables a) (ma_fwd a) (ma_children a) (ma_lookups a ++ [(host, sas)]) (ma_faults a).

Definition add_faults (fs : list Fault) (a : Mach) : Mach :=
  MkMach (ma_tables a) (ma_fwd a) (ma_children a) (ma_lookups a) (ma_faults a ++ fs).

(** The table is known to be gone. *)
Definition deleted (fam : str) (a : Mach) : Mach :=
  MkMach (ma_tables a ∖ {[fam]}) (ma_fwd a) (ma_children a) (ma_lookups a)
    (List.filter (fun f => bool_decide (f <> FDelete fam)) (ma_faults a)).

(** What an [nft] command line asks for. *)
Inductive NftCmd := CDelete (fam : str) | CLoad | CQuery | COther.

#[global] Instance NftCmd_eq_dec : EqDecision NftCmd.
Proof. solve_decision. Defined.

Definition nft_cmd (args : list str) : NftCmd :=
  match args with
  | [a; b; fam; t] =>
      if bool_decide (a = "delete" /\ b = "table" /\ fam ∈ families /\ t = TABLE)
      then CDelete fam else COther
  | [a; b] => if bool_decide (a = "-f" /\ b = "-") then CLoad else COther
  | [a] => if bool_decide (a = "--version") then CQuery else COther
  | a :: b :: _ => if bool_decide (a = "-j" /\ b = "list") then CQuery else COther
  | [] => COther
  end.

(** The machine after [nft] was waited for and reported [ok]; [loads] gives the
    families whose table a ruleset declares.  A command is one transaction: when it
    fails it has changed nothing.  The deletion of a table fails when there is
    none, and may be refused when there is. *)
Definition nft_done (loads : str -> gset str) (cmd : NftCmd) (input : str) (ok : bool) (a a' : Mach) : Prop :=
  match cmd with
  | CDelete fam =>
      a' = if ok then deleted fam a
           else if decide (fam ∈ ma_tables a) then add_faults [FDelete fam] a else deleted fam a
  | CLoad => a' = if ok then set_tables (ma_tables a ∪ loads input) a else a
  | CQuery => a' = a
  | COther => exists ts, a' = set_tables ts a
  end.

(** ... after its input could not be written, or it could not be waited for: what
    it did or will do is not known. *)
Definition nft_lost (cmd : NftCmd) (a a' : Mach) : Prop :=
  match cmd with
  | CDelete fam => a' = add_faults [FDelete fam; FLate fam] a
  | CLoad => a' = add_faults [FLoad] a
  | CQuery => a' = a
  | COther => exists ts, a' = set_tables ts a
  end.

(** ... when it could not be started. *)
Definition nft_unrun (cmd : NftCmd) (a : Mach) : Mach :=
  match cmd with CDelete fam => add_faults [FDelete fam] a | _ => a end.

(** What a call does, with its reply.  The work of a process that is waited for is
    placed at the wait, as main looks at nothing in between.  /proc shows
    [ip_forward] as a decimal number and is written one; a failed write may have
    had any effect. *)
Definition mstep (loads : str -> gset str) X (e : NatE X) (a : Mach) (x : X) (a' : Mach) : Prop :=
  match e in NatE X return X -> Prop with
  | SpawnNft args _ => fun r => match r with
      | Ok c => ma_children a !! c = None /\ a' = add_child c args a
      | Err _ => a' = nft_unrun (nft_cmd args) a
      end
  | WriteStdin c input => fun r => match ma_children a !! c with
      | Some (args, _) => if is_ok r then a' = give_input c input a else nft_lost (nft_cmd args) a a'
      | None => a' = a
      end
  | WaitOutput c => fun r => match ma_children a !! c with
      | Some (args, input) => match r with
          | Ok (ok, _, _) => nft_done loads (nft_cmd args) input ok a a'
          | Err _ => nft_lost (nft_cmd args) a a'
          end
      | None => a' = a
      end
  | ReadToString path => fun r => a' = a /\
      (path = IPV4_FWD -> forall t, r = Ok t -> t = show_int (ma_fwd a) ++ [newline])
  | WriteFile path text => fun r =>
      if decide (path = IPV4_FWD) then
        exists v, a' = set_fwd v (if is_ok r then a else add_faults [FForward] a) /\
          (is_ok r = true -> forall n, - 2 ^ 31 <= n < 2 ^ 31 -> text = show_int n ++ [newline] -> v = n)
      else a' = a
  | LookupIp host => fun r => a' = match r with Ok sas => add_lookup host sas a | Err _ => a end
  | _ => fun _ => a' = a
  end x.

(** ** What a failure is to blame for *)

(** There may be a table that should not be. *)
Definition may_stay (F : list Fault) (fam : str) : Prop :=
  fam ∈ families /\ (FDelete fam ∈ F \/ FLoad ∈ F).

(** One may appear, or vanish, at any time. *)
Definition may_appear (F : list Fault) (fam : str) : Prop := fam ∈ families /\ FLoad ∈ F.
Definition may_vanish (F : list Fault) (fam : str) : Prop := fam ∈ families /\ FLate fam ∈ F.

(** The tables are these, but for some that are there too and some that are not. *)
Definition nearly (more less : str -> Prop) (T T' : gset str) : Prop :=
  forall fam, (fam ∈ T' -> fam ∈ T \/ more fam) /\ (fam ∈ T -> fam ∈ T' \/ less fam).

#[global] Instance nearly_preorder more less : PreOrder (nearly more less).
Proof.
  split; [intros T fam; auto|]. intros T1 T2 T3 H1 H2 fam. destruct (H1 fam), (H2 fam).
  split; naive_solver.
Qed.

(** ** Interference *)

(** What happens beside main: the status tasks start processes, and lost ones do
    their work. *)
Record calm (a a' : Mach) : Prop := {
  ca_tables : nearly (may_appear (ma_faults a)) (may_vanish (ma_faults a)) (ma_tables a) (ma_tables a');
  ca_fwd : ma_fwd a' = ma_fwd a;
  ca_children : ma_children a ⊆ ma_children a';
  ca_lookups : ma_lookups a' = ma_lookups a;
  ca_faults : ma_faults a' = ma_faults a;
}.

#[global] Instance calm_preorder : PreOrder calm.
Proof.
  split; [by constructor|]. intros a1 a2 a3 [H1 H2 H3 H4 H5] [G1 G2 G3 G4 G5].
  constructor; [|congruence|by etrans|congruence..]. rewrite H5 in G1. by etransitivity.
Qed.

(** A machine: its calls are such steps, while it runs the processes left over. *)
Class Machine {S : Type} (h : handler NatE S) := {
  m_abs : S -> Mach;
  m_loads : str -> gset str;
}.

Class MachineLaws {S : Type} (h : handler NatE S) `{!Machine h} : Prop := {
  ml_step X (e : NatE X) s x s' : h X e s = (x, s') ->
    exists a1 a2, calm (m_abs s) a1 /\ mstep m_loads X e a1 x a2 /\ calm a2 (m_abs s');
  ml_loads rules : m_loads (build_ruleset rules) ⊆ families;
}.

(** What any call does: a process keeps its arguments. *)
Definition grows (a a' : Mach) : Prop :=
  forall c args input, ma_children a !! c = Some (args, input) ->
    exists input', ma_children a' !! c = Some (args, input').

#[global] Instance grows_preorder : PreOrder grows.
Proof.
  split; [by intros a c args input Hc; eauto|].
  intros a1 a2 a3 H1 H2 c args input Hc. destruct (H1 c args input Hc) as [i2 Hc2]. by eapply H2.
Qed.

Lemma calm_grows a a' : calm a a' -> grows a a'.
Proof. intros [_ _ Hc _ _] c args input Hl. exists input. by eapply lookup_weaken. Qed.

Lemma grows_children a a' : ma_children a' = ma_children a -> grows a a'.
Proof. intros Hb c args input Hc. rewrite Hb. eauto. Qed.

Lemma nft_done_children loads cmd input ok a a' :
  nft_done loads cmd input ok a a' -> ma_children a' = ma_children a.
Proof.
  destruct cmd; cbn; [|by destruct ok; intros ->|by intros ->|by intros [ts ->]].
  intros ->. destruct ok; [done|]. by case_decide.
Qed.

Lemma nft_lost_children cmd a a' : nft_lost cmd a a' -> ma_children a' = ma_children a.
Proof. by destruct cmd; cbn; [intros ->..|intros [ts ->]]. Qed.

Lemma mstep_grows loads X (e : NatE X) a x a' : mstep loads X e a x a' -> grows a a'.
Proof.
  destruct e as [args piped|c input|c|path|path text| |host| |secs|]; cbn; intros H;
    try (by subst; apply grows_children).
  - destruct x as [c|e].
    + destruct H as [Hc ->]. intros c' args' input Hc'. exists input. cbn.
      rewrite lookup_insert_ne; [done|]. congruence.
    + subst. apply grows_children. by destruct (nft_cmd args).
  - destruct (ma_children a !! c) as [[args i]|] eqn:Hc; [|by subst; apply grows_children].
    destruct (is_ok x); [|by apply grows_children; eapply nft_lost_children].
    subst. intros c' args' input' Hc'. cbn. destruct (decide (c = c')) as [->|Hne].
    + exists input. rewrite lookup_alter_eq, Hc'. done.
    + exists input'. by rewrite lookup_alter_ne.
  - destruct (ma_children a !! c) as [[args i]|]; [|by subst; apply grows_children].
    apply grows_children. destruct x as [[[ok out] err]|e]; eauto using nft_done_children, nft_lost_children.
  - destruct H as [-> _]. by apply grows_children.
  - case_decide; [|by subst; apply grows_children]. destruct H as (v & -> & _).
    apply grows_children. by destruct (is_ok x).
  - subst. apply grows_children. by destruct x.
Qed.

(** ** How main changes the machine *)

(** Since [a], [found] was looked up, [ip_forward] is now [v], the tables of [X]
    were removed and then those of [Y] added, as far as no failure is to blame.  A
    table that a failure was to blame for before still is, unless it was changed. *)
Record evolves (found : list (str * list SocketAddr)) (v : Z) (X Y : gset str) (a a' : Mach) : Prop := {
  ev_fwd : ma_fwd a' = v;
  ev_lookups : ma_lookups a' = ma_lookups a ++ found;
  ev_tables : nearly (may_stay (ma_faults a')) (may_vanish (ma_faults a'))
    (ma_tables a ∖ X ∪ Y) (ma_tables a');
  ev_stay fam : may_stay (ma_faults a) fam -> may_stay (ma_faults a') fam \/ fam ∈ X ∪ Y;
  ev_vanish fam : may_vanish (ma_faults a) fam -> may_vanish (ma_faults a') fam;
}.

(** The machine is as it was, processes apart. *)
Definition same (a a' : Mach) : Prop := evolves [] (ma_fwd a) ∅ ∅ a a'.

Lemma calm_same a a' : calm a a' -> same a a'.
Proof.
  intros [Ht Hf _ Hl HF]. constructor; rewrite ?HF; [done|by rewrite app_nil_r| |by auto|by auto].
  intros fam. destruct (Ht fam) as [H1 H2]. unfold may_stay, may_appear in *. set_solver.
Qed.

(** One after the other. *)
Lemma evolves_then L1 v1 X1 Y1 L2 v2 X2 Y2 a a1 a2 :
  evolves L1 v1 X1 Y1 a a1 -> evolves L2 v2 X2 Y2 a1 a2 ->
  evolves (L1 ++ L2) v2 (X1 ∪ X2) (Y1 ∖ X2 ∪ Y2) a a2.
Proof.
  intros [_ K1 T1 S1 D1] [V2 K2 T2 S2 D2]. constructor; [done|by rewrite K2, K1, app_assoc|..].
  - intros fam. destruct (T1 fam) as [Hup1 Hlo1], (T2 fam) as [Hup2 Hlo2].
    specialize (S2 fam). specialize (D2 fam).
    rewrite !elem_of_union, !elem_of_difference, ?elem_of_union in *.
    destruct (decide (fam ∈ X2)); tauto.
  - intros fam Hs. destruct (S1 fam Hs) as [H1|H1]; [destruct (S2 fam H1)|]; [by left|right; set_solver|].
    destruct (decide (fam ∈ X2)); right; set_solver.
  - auto.
Qed.

Lemma evolves_eq L L' v v' X X' Y Y' a a' :
  evolves L v X Y a a' -> L = L' -> v = v' -> X ≡ X' -> Y ≡ Y' -> evolves L' v' X' Y' a a'.
Proof. by intros H <- <- <-%leibniz_equiv <-%leibniz_equiv. Qed.

(** What comes before changed nothing. *)
Lemma same_then L v X Y a a1 a2 : same a a1 -> evolves L v X Y a1 a2 -> evolves L v X Y a a2.
Proof.
  intros H1 H2. eapply evolves_eq; [exact (evolves_then _ _ _ _ _ _ _ _ _ _ _ H1 H2)|done|done|set_solver..].
Qed.

(** What comes after changed nothing. *)
Lemma evolves_same L v X Y a a1 a2 : evolves L v X Y a a1 -> same a1 a2 -> evolves L v X Y a a2.
Proof.
  intros H1 H2. eapply evolves_eq; [exact (evolves_then _ _ _ _ _ _ _ _ _ _ _ H1 H2)|apply app_nil_r| |set_solver..].
  apply (ev_fwd _ _ _ _ _ _ H1).
Qed.

Lemma same_trans a1 a2 a3 : same a1 a2 -> same a2 a3 -> same a1 a3.
Proof. apply evolves_same. Qed.

Lemma evolves_calm L v X Y a a1 a2 : evolves L v X Y a a1 -> calm a1 a2 -> evolves L v X Y a a2.
Proof. intros H1 H2. eapply evolves_same; [exact H1|by apply calm_same]. Qed.

Lemma same_refl a : same a a.
Proof. by apply calm_same. Qed.

Create HintDb machine.
#[global] Hint Resolve evolves_calm evolves_same same_trans calm_same same_refl : machine.

Ltac same_tac := cbn beta in *; solve [eauto with machine].

(** ** Specifications *)

Section Main.
Context (loads : str -> gset str) (Hloads : forall rules, loads (build_ruleset rules) ⊆ families).

(** Programs of main, with the status tasks beside it. *)
Definition mwp {A} : prog NatE A -> (A -> Mach -> Prop) -> Mach -> Prop :=
  wp (mstep loads) calm (fun _ _ => True).

Lemma mwp_seq {A B} (P : A -> Mach -> Prop) (p : prog NatE A) (f : A -> prog NatE B) Q a :
  mwp p P a -> (forall x a', P x a' -> mwp (f x) Q a') -> mwp (bind p f) Q a.
Proof. apply wp_seq, _. Qed.

Lemma mwp_seq_ok {A B Er} (P : result A Er -> Mach -> Prop) (p : prog NatE (result A Er))
    (f : A -> prog NatE (result B Er)) Q a :
  mwp p P a -> (forall x a', P (Ok x) a' -> mwp (f x) Q a') ->
  (forall e a' a'', P (Err e) a' -> calm a' a'' -> Q (Err e) a'') -> mwp (bind_ok p f) Q a.
Proof. apply wp_seq_ok, _. Qed.

Lemma mwp_map_err {A Er Er'} (f : Er -> Er') (p : prog NatE (result A Er)) Q a :
  mwp p (fun r a => forall a', calm a a' -> Q (map_err f r) a') a -> mwp (prog_map_err f p) Q a.
Proof. apply wp_map_err, _. Qed.

Lemma mwp_mono {A} (p : prog NatE A) (Q Q' : A -> Mach -> Prop) a :
  (forall x a, Q x a -> Q' x a) -> mwp p Q a -> mwp p Q' a.
Proof. apply wp_mono. Qed.

Lemma mwp_ret {A} (x : A) (Q : A -> Mach -> Prop) a : (forall a', calm a a' -> Q x a') -> mwp (Ret x) Q a.
Proof. done. Qed.

Lemma mwp_call {X} (e : NatE X) (Q : X -> Mach -> Prop) a :
  (forall a1 x a2 a3, calm a a1 -> mstep loads X e a1 x a2 -> calm a2 a3 -> Q x a3) ->
  mwp (call e) Q a.
Proof. intros HQ a1 x a2 H1 H2. split; [done|]. intros a3 H4. by eapply HQ. Qed.

(** ** Running [nft] *)

(** The tables that a command removes and adds. *)
Definition removes (cmd : NftCmd) : gset str := match cmd with CDelete fam => {[fam]} | _ => ∅ end.

Definition adds (cmd : NftCmd) (input : str) (ok : bool) : gset str :=
  match cmd with CLoad => if ok then loads input else ∅ | _ => ∅ end.

Lemma nft_cmd_delete args fam : nft_cmd args = CDelete fam -> fam ∈ families.
Proof.
  unfold nft_cmd. repeat (case_match; try done). intros [= <-].
  match goal with H : bool_decide _ = true |- _ => apply bool_decide_eq_true in H; apply H end.
Qed.

(** Nothing is changed but for new failures. *)
Lemma faults_evolve fs X a :
  (forall fam, fam ∈ X -> fam ∈ families /\ FDelete fam ∈ fs) ->
  evolves [] (ma_fwd a) X ∅ a (add_faults fs a).
Proof.
  intros HX. constructor; cbn; [done|by rewrite app_nil_r|..].
  - intros fam. destruct (decide (fam ∈ X)) as [Hin|Hin]; [|set_solver].
    unfold may_stay. specialize (HX fam Hin). set_solver.
  - unfold may_stay. set_solver.
  - unfold may_vanish. set_solver.
Qed.

Lemma same_evolve a : evolves [] (ma_fwd a) ∅ ∅ a a.
Proof. apply same_refl. Qed.

Lemma deleted_evolve fam a : evolves [] (ma_fwd a) {[fam]} ∅ a (deleted fam a).
Proof.
  assert (HF : forall f, f <> FDelete fam -> f ∈ ma_faults a -> f ∈ ma_faults (deleted fam a)).
  { intros f Hf Hin. rewrite list_elem_of_In in *. cbn. apply List.filter_In.
    split; [done|]. by apply bool_decide_eq_true. }
  constructor; [done|cbn; by rewrite app_nil_r|intros fam'; cbn; set_solver|..]; intros fam' [Hin Hf].
  - destruct (decide (fam' = fam)) as [->|Hne]; [right; set_solver|left]. split; [done|].
    destruct Hf as [Hf|Hf]; [left|right]; apply HF; congruence.
  - split; [done|]. by apply HF.
Qed.

Lemma load_evolve ts a : evolves [] (ma_fwd a) ∅ ts a (set_tables (ma_tables a ∪ ts) a).
Proof. constructor; cbn; [done|by rewrite app_nil_r|intros fam; set_solver|by auto|by auto]. Qed.

Lemma done_evolves args input ok a a' :
  nft_cmd args <> COther -> nft_done loads (nft_cmd args) input ok a a' ->
  evolves [] (ma_fwd a) (removes (nft_cmd args)) (adds (nft_cmd args) input ok) a a'.
Proof.
  intros Hc. destruct (nft_cmd args) as [fam| | |] eqn:Hcmd; cbn; [|intros ->..|done].
  - apply nft_cmd_delete in Hcmd. intros ->. destruct ok; [apply deleted_evolve|].
    case_decide; [apply faults_evolve; set_solver|apply deleted_evolve].
  - destruct ok; [apply load_evolve|apply same_evolve].
  - apply same_evolve.
Qed.

Lemma lost_evolves args input a a' :
  nft_cmd args <> COther -> nft_lost (nft_cmd args) a a' ->
  evolves [] (ma_fwd a) (removes (nft_cmd args)) (adds (nft_cmd args) input false) a a'.
Proof.
  intros Hc. destruct (nft_cmd args) as [fam| | |] eqn:Hcmd; cbn; [|intros ->..|done].
  - apply nft_cmd_delete in Hcmd. intros ->. apply faults_evolve; set_solver.
  - apply faults_evolve; set_solver.
  - apply same_evolve.
Qed.

Lemma unrun_evolves args input a :
  evolves [] (ma_fwd a) (removes (nft_cmd args)) (adds (nft_cmd args) input false) a
    (nft_unrun (nft_cmd args) a).
Proof.
  destruct (nft_cmd args) as [fam| | |] eqn:Hcmd; cbn; [|apply same_evolve..].
  apply nft_cmd_delete in Hcmd. apply faults_evolve; set_solver.
Qed.

(** A process of main, with what it was given. *)
Definition started (c : nat) (args : list str) (input : str) (a a' : Mach) : Prop :=
  same a a' /\ ma_children a' !! c = Some (args, input).

Lemma started_calm c args input a a1 a2 :
  started c args input a a1 -> calm a1 a2 -> started c args input a a2.
Proof.
  intros [Hs Hc] Hr. split; [same_tac|]. eapply lookup_weaken; [exact Hc|apply Hr].
Qed.

Definition succeeded (r : io_result NftOutcome) : bool :=
  match r with Ok out => success out | Err _ => false end.

(** The tables after [nft], whether it could be run or not. *)
Definition nft_ran (args : list str) (input : option str) (a : Mach) (r : io_result NftOutcome) (a' : Mach) :
    Prop :=
  evolves [] (ma_fwd a) (removes (nft_cmd args)) (adds (nft_cmd args) (default [] input) (succeeded r)) a a'.

(** What [nft] does after main brought it on its way. *)
Lemma ran_then X Y a a1 a2 a3 :
  same a a1 -> evolves [] (ma_fwd a1) X Y a1 a2 -> calm a2 a3 -> evolves [] (ma_fwd a) X Y a a3.
Proof.
  intros H1 H2 H3. rewrite <- (ev_fwd _ _ _ _ _ _ H1). eapply evolves_calm; [|exact H3]. by eapply same_then.
Qed.

Lemma children_same a a' :
  ma_tables a' = ma_tables a -> ma_fwd a' = ma_fwd a -> ma_lookups a' = ma_lookups a ->
  ma_faults a' = ma_faults a -> same a a'.
Proof.
  intros Ht Hf Hl HF. constructor; rewrite ?Ht, ?HF, ?app_nil_r; [done|done|intros fam; set_solver|by auto|by auto].
Qed.

Lemma wait_spec c args input a a1 :
  nft_cmd args <> COther -> started c args input a a1 ->
  mwp (call (WaitOutput c)) (fun r a' => evolves [] (ma_fwd a) (removes (nft_cmd args))
    (adds (nft_cmd args) input (match r with Ok (ok, _, _) => ok | Err _ => false end)) a a') a1.
Proof.
  intros Hcmd Hst. apply mwp_call. intros a2 r a3 a4 Hr2 Hm Hr4.
  destruct (started_calm _ _ _ _ _ _ Hst Hr2) as [Hs Hc]. cbn in Hm. rewrite Hc in Hm.
  eapply ran_then; [exact Hs| |exact Hr4].
  destruct r as [[[ok out] err]|e]; [by apply done_evolves|by apply lost_evolves].
Qed.

Lemma spawn_spec args piped a :
  mwp (call (SpawnNft args piped)) (fun r a' => match r with
    | Ok c => started c args [] a a'
    | Err _ => forall input,
        evolves [] (ma_fwd a) (removes (nft_cmd args)) (adds (nft_cmd args) input false) a a'
    end) a.
Proof.
  apply mwp_call. intros a1 r a2 a3 H1 Hm H3. destruct r as [c|e]; cbn in Hm.
  - destruct Hm as [_ ->]. eapply started_calm; [|exact H3]. split; [|cbn; by rewrite lookup_insert_eq].
    eapply evolves_same; [by apply calm_same|]. by apply children_same.
  - subst a2. intros input. eapply ran_then; [by apply calm_same| |exact H3]. apply unrun_evolves.
Qed.

Lemma input_spec c args input a a1 :
  nft_cmd args <> COther -> started c args [] a a1 ->
  mwp (match input with Some inp => call (WriteStdin c inp) | None => Ret (Ok tt) end)
    (fun r a' => match r with
      | Ok _ => started c args (default [] input) a a'
      | Err _ => evolves [] (ma_fwd a) (removes (nft_cmd args))
          (adds (nft_cmd args) (default [] input) false) a a'
      end) a1.
Proof.
  intros Hcmd Hst. destruct input as [inp|]; [|apply mwp_ret; intros a2 Hr2; by eapply started_calm].
  apply mwp_call. intros a2 r a3 a4 Hr2 Hm Hr4.
  destruct (started_calm _ _ _ _ _ _ Hst Hr2) as [Hs Hc]. cbn in Hm. rewrite Hc in Hm.
  destruct r as [u|e]; cbn in Hm.
  - subst a3. eapply started_calm; [|exact Hr4]. split; [|cbn; by rewrite lookup_alter_eq, Hc].
    eapply evolves_same; [exact Hs|]. by apply children_same.
  - eapply ran_then; [exact Hs|by apply lost_evolves|exact Hr4].
Qed.

Lemma run_nft_spec args input a :
  nft_cmd args <> COther -> mwp (run_nft args input) (nft_ran args input a) a.
Proof.
  intros Hcmd. unfold run_nft.
  apply (mwp_seq_ok (fun r a' => match r with
    | Ok c => started c args [] a a'
    | Err _ => nft_ran args input a (Err (io_other [])) a'
    end)).
  - apply mwp_map_err. eapply mwp_mono; [|apply spawn_spec]. intros [c|e] a1 H1 a2 H2.
    + by eapply started_calm.
    + eapply evolves_calm; [apply H1|exact H2].
  - intros c a1 Hst. eapply mwp_seq_ok; [eapply (input_spec c args input); [exact Hcmd|exact Hst]| |].
    + intros u a2 Hst2. eapply mwp_seq_ok; [eapply wait_spec; [exact Hcmd|exact Hst2]| |].
      * intros [[ok out] err] a3 H3. apply mwp_ret. intros a4 H4. exact (evolves_calm _ _ _ _ _ _ _ H3 H4).
      * intros e a3 a4 H3 H4. exact (evolves_calm _ _ _ _ _ _ _ H3 H4).
    + intros e a2 a3 H2 H3. exact (evolves_calm _ _ _ _ _ _ _ H2 H3).
  - intros e a1 a2 H1 H2. exact (evolves_calm _ _ _ _ _ _ _ H1 H2).
Qed.

(** ** The operations on the tables *)

Lemma delete_spec fam a :
  fam ∈ families -> mwp (delete_table fam) (fun _ a' => evolves [] (ma_fwd a) {[fam]} ∅ a a') a.
Proof.
  intros Hf. assert (Hc : nft_cmd (delete_args fam) = CDelete fam)
    by (cbn; by rewrite bool_decide_true).
  eapply mwp_seq; [apply run_nft_spec; by rewrite Hc|]. intros r a1 H1. apply mwp_ret. intros a2 H2.
  unfold nft_ran in H1. rewrite Hc in H1. by eapply evolves_calm.
Qed.

Lemma delete_both_spec {A} (k : prog NatE A) Q L v X Y a0 a :
  evolves L v X Y a0 a ->
  (forall a', evolves L v (X ∪ families) (Y ∖ families) a0 a' -> mwp k Q a') ->
  mwp (await _ := delete_table "ip" in await _ := delete_table "ip6" in k) Q a.
Proof.
  intros H0 Hk. eapply mwp_seq; [apply delete_spec; unfold families; set_solver|]. intros d1 a1 H1.
  eapply mwp_seq; [apply delete_spec; unfold families; set_solver|]. intros d2 a2 H2. apply Hk.
  pose proof (evolves_then _ _ _ _ _ _ _ _ _ _ _ H0 (evolves_then _ _ _ _ _ _ _ _ _ _ _ H1 H2)) as H3.
  eapply evolves_eq; [exact H3|by rewrite !app_nil_r| |unfold families; set_solver..].
  rewrite (ev_fwd _ _ _ _ _ _ H1). apply H0.
Qed.

Lemma apply_spec ruleset L v X a0 a :
  evolves L v X ∅ a0 a ->
  mwp (apply_ruleset ruleset) (fun r a' =>
    evolves L v X (if is_ok r then loads ruleset else ∅) a0 a') a.
Proof.
  intros H0.
  assert (Ht : forall ok a', evolves [] (ma_fwd a) (removes CLoad) (adds CLoad ruleset ok) a a' ->
    evolves L v X (if ok then loads ruleset else ∅) a0 a').
  { intros ok a' H1. eapply evolves_eq; [exact (evolves_then _ _ _ _ _ _ _ _ _ _ _ H0 H1)|..].
    - apply app_nil_r.
    - apply H0.
    - cbn. set_solver.
    - cbn. destruct ok; set_solver. }
  eapply mwp_seq_ok; [apply run_nft_spec; done| |].
  - intros out a1 H1. apply Ht in H1. cbn in H1. destruct (success out); apply mwp_ret; intros a2 H2; same_tac.
  - intros e a1 a2 H1 H2. apply Ht in H1. cbn in H1. same_tac.
Qed.

(** ** Programs that leave the machine as it is *)

Definition quiet {A} (p : prog NatE A) : Prop := forall a, mwp p (fun _ a' => same a a') a.

Lemma quiet_ret {A} (x : A) : quiet (Ret x).
Proof. intros a a' Hr. by apply calm_same. Qed.

Lemma quiet_bind {A B} (p : prog NatE A) (f : A -> prog NatE B) :
  quiet p -> (forall x, quiet (f x)) -> quiet (bind p f).
Proof.
  intros Hp Hf a. eapply mwp_seq; [apply Hp|]. intros x a1 H1. eapply mwp_mono; [|apply Hf].
  intros y a2 H2. exact (same_trans _ _ _ H1 H2).
Qed.

Lemma quiet_bind_ok {A B Er} (p : prog NatE (result A Er)) (f : A -> prog NatE (result B Er)) :
  quiet p -> (forall x, quiet (f x)) -> quiet (bind_ok p f).
Proof. intros Hp Hf. apply quiet_bind; [done|]. intros []; [apply Hf|apply quiet_ret]. Qed.

(** A call that changes nothing. *)
Definition harmless X (e : NatE X) : Prop :=
  match e with
  | SpawnNft _ _ | WriteStdin _ _ | WaitOutput _ | WriteFile _ _ | LookupIp _ => False
  | _ => True
  end.

Lemma quiet_call {X} (e : NatE X) : harmless X e -> quiet (call e).
Proof.
  intros He a. apply mwp_call. intros a1 x a2 a3 H1 Hm H3.
  assert (a2 = a1) as -> by (destruct e; try done; cbn in Hm; by destruct Hm). same_tac.
Qed.

Lemma quiet_available : quiet ensure_available.
Proof.
  apply quiet_bind_ok; [|intros out; destruct (success out); apply quiet_ret].
  intros a. by apply run_nft_spec.
Qed.

Lemma quiet_net_admin : quiet has_net_admin.
Proof.
  apply quiet_bind; [by apply quiet_call|]. intros u. destruct (u =? 0); [apply quiet_ret|].
  apply quiet_bind; [by apply quiet_call|]. intros r. apply quiet_ret.
Qed.

(** ** Looking up names *)

Definition is_lookup X (e : NatE X) : Prop := match e with LookupIp _ => True | _ => False end.

(** The look-ups of a log that were answered. *)
Definition found_of (l : list (event NatE)) : list (str * list SocketAddr) :=
  l ≫= fun ev => match ev_call ev in NatE X return X -> list (str * list SocketAddr) with
    | LookupIp host => fun r => match r with Ok sas => [(host, sas)] | Err _ => [] end
    | _ => fun _ => []
    end (ev_reply ev).

Lemma found_of_lookups found : found_of (lookups found) = found.
Proof.
  induction found as [|[host sas] found IH]; [done|].
  unfold found_of in *. cbn. f_equal. exact IH.
Qed.

Lemma lookup_spec {A} (p : prog NatE A) a :
  made_of is_lookup p ->
  mwp p (fun r a' => exists l, path p l r /\ evolves (found_of l) (ma_fwd a) ∅ ∅ a a') a.
Proof.
  revert a; induction p as [x|X e k IH]; intros a.
  - intros _ a' H. exists []. split; [done|]. by apply calm_same.
  - intros [He Hk] a1 x a2 H1 Hm. split; [done|]. eapply mwp_mono; [|apply IH, Hk].
    intros r a3 (l & Hp & H3). exists (Ev e x :: l). split; [by exists x, l|].
    assert (H2 : evolves (found_of [Ev e x]) (ma_fwd a) ∅ ∅ a a2).
    { destruct e; try done. cbn in Hm. subst a2. apply calm_same in H1 as [Hf Hl Ht Hs Hv].
      rewrite app_nil_r in Hl. unfold found_of. destruct x; constructor; cbn; rewrite ?app_nil_r, ?Hl; done. }
    eapply evolves_eq; [exact (evolves_then _ _ _ _ _ _ _ _ _ _ _ H2 H3)| |apply H2|set_solver..].
    unfold found_of. cbn. by rewrite app_nil_r.
Qed.

Lemma lookup_rules ls : made_of is_lookup (build_rules ls).
Proof. induction ls as [|l ls IH]; cbn [build_rules]; made_tac. Qed.

(** The rules that can be installed are those of the listeners, with the addresses
    that were found. *)
Lemma build_rules_spec ls a :
  mwp (build_rules ls) (fun r a' => exists found, evolves found (ma_fwd a) ∅ ∅ a a' /\
    forall rules, r = Ok rules -> exists founds, Forall3 rule_for ls founds rules /\ found = mjoin founds) a.
Proof.
  eapply mwp_mono; [|apply lookup_spec, lookup_rules]. intros r a' (l & Hp & Ha). exists (found_of l).
  split; [done|]. intros rules ->. apply path_build_rules in Hp as (founds & Hf & ->).
  exists founds. split; [done|]. apply found_of_lookups.
Qed.

(** ** [ip_forward] *)

Lemma show_int_one n : show_int n = "1" <-> n = 1.
Proof.
  split; [|by intros ->]. intros Hn. unfold show_int in Hn. destruct (n <? 0) eqn:Hs; [done|].
  apply Z.ltb_ge in Hs. pose proof (show_uint_checked 10 ltac:(lia) n n ltac:(lia)) as Hp.
  unfold show_dec in Hn. rewrite Hn in Hp.
  change (digits_checked 10 n 0 "1") with (if 0 <=? n then if 1 <=? n then Some 1 else None else None) in Hp.
  repeat (case_match; try done). congruence.
Qed.

Lemma read_fwd_spec a :
  mwp read_ip_forward (fun r a' => same a a' /\ forall b, r = Ok b -> b = bool_decide (ma_fwd a = 1)) a.
Proof.
  apply (mwp_seq_ok (fun r a' => same a a' /\ forall t, r = Ok t -> t = show_int (ma_fwd a) ++ [newline])).
  - apply mwp_call. intros a1 r a2 a3 H1 [-> Hr] H3. split; [same_tac|]. intros t ->.
    rewrite <- (ca_fwd _ _ H1). by apply Hr.
  - intros t a1 [H1 Ht]. apply mwp_ret. intros a2 H2. split; [same_tac|]. intros b [= <-].
    apply bool_decide_ext. rewrite (Ht t eq_refl), trim_line by (apply show_int_nonempty || apply show_int_graphic).
    apply show_int_one.
  - intros e a1 a2 [H1 _] H2. split; [same_tac|done].
Qed.

Lemma write_fwd_spec b L v X Y a0 a :
  evolves L v X Y a0 a ->
  mwp (write_ip_forward b) (fun r a' => exists v', evolves L v' X Y a0 a' /\
    if is_ok r then v' = Z.b2z b else FForward ∈ ma_faults a') a.
Proof.
  intros H0. apply mwp_call. intros a1 r a2 a3 H1 Hm H3. cbn in Hm. destruct Hm as (v' & -> & Hv).
  exists v'. assert (H2 : evolves [] v' ∅ ∅ a1 (set_fwd v' (if is_ok r then a1 else add_faults [FForward] a1))).
  { pose proof (faults_evolve (if is_ok r then [] else [FForward]) ∅ a1) as [_ Hl Ht Hs Hd]; [set_solver|].
    destruct (is_ok r); constructor; cbn in *; rewrite ?app_nil_r in *; try done. }
  split.
  - eapply evolves_calm; [|exact H3]. eapply evolves_eq;
      [exact (evolves_then _ _ _ _ _ _ _ _ _ _ _ (evolves_calm _ _ _ _ _ _ _ H0 H1) H2)
      |apply app_nil_r|done|set_solver..].
  - destruct (is_ok r).
    + by apply Hv; [done|destruct b; cbn; lia|destruct b].
    + rewrite (ca_faults _ _ H3). cbn. set_solver.
Qed.

Lemma ensure_fwd_spec set L v X Y a0 a :
  evolves L v X Y a0 a ->
  mwp (ensure_ip_forward set) (fun r a' => match r with
    | Ok None => v = 1 /\ evolves L 1 X Y a0 a'
    | Ok (Some b) => v <> 1 /\ b = false /\ evolves L 1 X Y a0 a'
    | Err _ => exists v', evolves L v' X Y a0 a' /\ (v' = v \/ FForward ∈ ma_faults a')
    end) a.
Proof.
  intros H0. pose proof (ev_fwd _ _ _ _ _ _ H0) as Hv.
  apply (mwp_seq_ok (fun r a' => same a a' /\ forall b, r = Ok b -> b = bool_decide (v = 1))).
  - apply mwp_map_err. rewrite <- Hv. eapply mwp_mono; [|apply read_fwd_spec].
    intros r a1 [H1 Hb] a2 H2. split; [same_tac|]. intros b. destruct r; [|done]. intros [= <-]. by apply Hb.
  - intros b a1 [H1 Hb]. rewrite (Hb b eq_refl).
    assert (H01 : evolves L v X Y a0 a1) by same_tac.
    case_bool_decide as Hone; [|destruct set].
    + apply mwp_ret. intros a2 H2. split; [done|]. rewrite <- Hone. same_tac.
    + apply (mwp_seq_ok (fun r a' => exists v', evolves L v' X Y a0 a' /\
        if is_ok r then v' = 1 else FForward ∈ ma_faults a')).
      * apply mwp_map_err. eapply mwp_mono; [|exact (write_fwd_spec true L v X Y a0 a1 H01)].
        intros r a2 (v' & H2 & Hr) a3 H3. exists v'. split; [same_tac|].
        destruct r; cbn in *; [done|]. by rewrite (ca_faults _ _ H3).
      * intros u a2 (v' & H2 & Hr). cbn in Hr. subst v'. apply mwp_ret. intros a3 H3.
        split; [done|]. split; [done|]. same_tac.
      * intros e a2 a3 (v' & H2 & Hr) H3. cbn in Hr. exists v'. split; [same_tac|]. right.
        by rewrite (ca_faults _ _ H3).
    + apply mwp_ret. intros a2 H2. exists v. split; [same_tac|by left].
  - intros e a1 a2 [H1 _] H2. exists v. split; [same_tac|by left].
Qed.

(** ** Set-up and cleanup *)

(** What a set-up leaves behind: the guard that knows what to restore, forwarding
    on, and the tables of the rules of the listeners, with the addresses that the
    names were resolved to. *)
Definition installed (cfg : Config) (a0 a : Mach) : Prop :=
  exists rules founds, Forall3 rule_for (listeners cfg) founds rules /\
    evolves (mjoin founds) 1 families (loads (build_ruleset rules)) a0 a.

Definition guard (a0 : Mach) : NatState :=
  MkNat true (if decide (ma_fwd a0 = 1) then None else Some false).

(** [ip_forward] is as it was; any value but 1 may have become 0. *)
Definition fwd_back (old new : Z) : Prop := new = old \/ old <> 1 /\ new = 0.

(** What the end of a run leaves behind: [ip_forward] as it was unless a write of
    it failed; no [gust] table that was not there before, unless a failure is to
    blame for it; and the tables of other families. *)
Record untouched (a0 a : Mach) : Prop := {
  un_fwd : FForward ∈ ma_faults a \/ fwd_back (ma_fwd a0) (ma_fwd a);
  un_new fam : fam ∈ ma_tables a -> fam ∈ ma_tables a0 \/ may_stay (ma_faults a) fam;
  un_other fam : fam ∉ families -> (fam ∈ ma_tables a <-> fam ∈ ma_tables a0);
}.

(** ... and of a clean one: no [gust] table at all, unless a failure is to blame. *)
Record restored (a0 a : Mach) : Prop := {
  re_untouched : untouched a0 a;
  re_gone fam : fam ∈ families -> fam ∈ ma_tables a -> may_stay (ma_faults a) fam;
}.

Definition set_up (cfg : Config) (a0 : Mach) (r : result NatState Z) (a : Mach) : Prop :=
  match r with
  | Ok st => st = guard a0 /\ installed cfg a0 a
  | Err code => code <> 0 /\ untouched a0 a
  end.

Lemma installed_same cfg a0 a a' : same a a' -> installed cfg a0 a -> installed cfg a0 a'.
Proof. intros Hs (rules & founds & Hf & Ha). exists rules, founds. split; [done|]. same_tac. Qed.

Lemma evolves_untouched L v X a0 a :
  evolves L v X ∅ a0 a -> X ⊆ families ->
  FForward ∈ ma_faults a \/ fwd_back (ma_fwd a0) v -> untouched a0 a.
Proof.
  intros [Hv _ Ht _ _] HX Hf. constructor; [by rewrite Hv|..]; intros fam Hfam; destruct (Ht fam) as [H1 H2].
  - set_solver.
  - unfold may_stay, may_vanish in *. set_solver.
Qed.

Lemma evolves_restored L v a0 a :
  evolves L v families ∅ a0 a ->
  FForward ∈ ma_faults a \/ fwd_back (ma_fwd a0) v -> restored a0 a.
Proof.
  intros Ha Hf. constructor; [by eapply evolves_untouched|].
  intros fam Hin Hfam. destruct (ev_tables _ _ _ _ _ _ Ha fam) as [H1 _]. set_solver.
Qed.

Lemma untouched_calm a0 a a' : untouched a0 a -> calm a a' -> untouched a0 a'.
Proof.
  intros [Hf Hn Ho] [Ht Hv _ _ HF]. constructor; rewrite ?Hv, ?HF; [done|..]; intros fam Hfam;
    destruct (Ht fam) as [H1 H2]; unfold may_stay, may_appear, may_vanish in *; naive_solver.
Qed.

Lemma set_up_err cfg L a0 a code :
  code <> 0 -> evolves L (ma_fwd a0) ∅ ∅ a0 a -> mwp (Ret (Err code)) (set_up cfg a0) a.
Proof.
  intros Hc Hs. apply mwp_ret. intros a' Hr. split; [done|].
  eapply evolves_untouched; [same_tac|apply empty_subseteq|]. right. by left.
Qed.

(** [ip_forward] is set back as the guard says. *)
Lemma restore_spec {A} (x : A) L X Y a0 a :
  evolves L 1 X Y a0 a ->
  mwp (match restore_fwd (guard a0) with
       | Some prev => await _ := write_ip_forward prev in Ret x
       | None => Ret x
       end) (fun y a' => y = x /\ exists v, evolves L v X Y a0 a' /\
         (FForward ∈ ma_faults a' \/ fwd_back (ma_fwd a0) v)) a.
Proof.
  intros Ha. cbn [guard restore_fwd]. destruct (decide (ma_fwd a0 = 1)) as [Hone|Hone].
  - apply mwp_ret. intros a1 H1. split; [done|]. exists 1. split; [same_tac|]. right. by left.
  - eapply mwp_seq; [exact (write_fwd_spec false L 1 X Y a0 a Ha)|]. intros r a1 (v & H1 & Hr).
    apply mwp_ret. intros a2 H2. split; [done|]. exists v. split; [same_tac|].
    destruct (is_ok r); [right; by right|left]. by rewrite (ca_faults _ _ H2).
Qed.

Lemma install_spec cfg rules founds a0 a :
  Forall3 rule_for (listeners cfg) founds rules -> evolves (mjoin founds) 1 ∅ ∅ a0 a ->
  mwp (
    await _ := delete_table "ip" in
    await _ := delete_table "ip6" in
    await r := apply_ruleset (build_ruleset rules) in
    match r with
    | Err _ =>
        match restore_fwd (guard a0) with
        | Some prev => await _ := write_ip_forward prev in Ret (Err 1)
        | None => Ret (Err 1)
        end
    | Ok _ => Ret (Ok (guard a0))
    end) (set_up cfg a0) a.
Proof.
  intros Hrules Ha. eapply delete_both_spec; [exact Ha|]. intros a1 H1.
  assert (H1' : evolves (mjoin founds) 1 families ∅ a0 a1)
    by (eapply evolves_eq; [exact H1|done|done|set_solver..]).
  eapply mwp_seq; [exact (apply_spec (build_ruleset rules) _ _ _ _ _ H1')|]. intros [u|e] a2 H2; cbn in H2.
  - apply mwp_ret. intros a3 H3. split; [done|]. exists rules, founds. split; [done|]. same_tac.
  - eapply mwp_mono; [|exact (restore_spec (Err 1) _ _ _ _ _ H2)]. intros r a3 (-> & v & H3 & Hf).
    split; [done|]. exact (evolves_untouched _ _ _ _ _ H3 (reflexivity _) Hf).
Qed.

Lemma nat_setup_spec cfg a : mwp (nat_setup cfg) (set_up cfg a) a.
Proof.
  unfold nat_setup. eapply mwp_seq; [apply quiet_available|]. intros [u|e] a1 H1;
    [|by apply (set_up_err cfg [])].
  eapply mwp_seq; [apply quiet_net_admin|]. intros admin a2 H2. cbn beta in H1, H2.
  pose proof (same_trans _ _ _ H1 H2) as H02. destruct admin; [|by apply (set_up_err cfg [])].
  eapply mwp_seq; [apply build_rules_spec|]. intros r a3 (found & H3 & Hr).
  assert (H03 : evolves found (ma_fwd a) ∅ ∅ a a3).
  { rewrite (ev_fwd _ _ _ _ _ _ H02) in H3. exact (same_then _ _ _ _ _ _ _ H02 H3). }
  destruct r as [rules|e]; [|by apply (set_up_err cfg found)].
  destruct (Hr rules eq_refl) as (founds & Hf & ->).
  eapply mwp_seq; [exact (ensure_fwd_spec (set_ip_forward cfg) _ _ _ _ _ _ H03)|].
  pose proof (fun a4 => install_spec cfg rules founds a a4 Hf) as Hi. unfold guard in Hi. cbn [restore_fwd] in Hi.
  intros [[v|]|e] a4 H4; cbn beta in H4.
  - destruct H4 as (Hne & -> & H4). rewrite decide_False in Hi by done. by apply Hi.
  - destruct H4 as [Heq H4]. rewrite decide_True in Hi by done. by apply Hi.
  - destruct H4 as (v & H4 & Hv). apply mwp_ret. intros a5 H5. split; [done|].
    eapply untouched_calm; [|exact H5]. eapply evolves_untouched; [exact H4|apply empty_subseteq|].
    destruct Hv as [->|Hv]; [right; by left|by left].
Qed.

Definition nat_finish (st : NatState) : prog NatE Z :=
  await st := cleanup st in
  await _ := nat_drop st in
  Ret 0.

Lemma nat_finish_spec cfg a0 a :
  installed cfg a0 a -> mwp (nat_finish (guard a0)) (fun code a' => code = 0 /\ restored a0 a') a.
Proof.
  intros (rules & founds & _ & Ha). unfold nat_finish, cleanup. cbn [guard armed].
  apply (mwp_seq (fun st a' => st = MkNat false None /\ exists L v,
    evolves L v families ∅ a0 a' /\ (FForward ∈ ma_faults a' \/ fwd_back (ma_fwd a0) v))).
  - eapply delete_both_spec; [exact Ha|]. intros a1 H1.
    assert (H1' : evolves (mjoin founds) 1 families ∅ a0 a1)
      by (pose proof (Hloads rules); eapply evolves_eq; [exact H1|done|done|set_solver..]).
    eapply mwp_mono; [|exact (restore_spec (MkNat false None) _ _ _ _ _ H1')].
    intros st a2 (-> & v & H2). eauto.
  - intros st a1 (-> & L & v & H1 & Hf). apply mwp_ret. intros a2 H2. split; [done|].
    eapply evolves_restored; [same_tac|]. by rewrite (ca_faults _ _ H2).
Qed.

(** The end of a run. *)
Definition ended (a0 : Mach) (code : Z) (a : Mach) : Prop :=
  untouched a0 a /\ (code = 0 -> restored a0 a).

Lemma nat_run_spec cfg a : mwp (nat_run cfg) (ended a) a.
Proof.
  eapply mwp_seq; [apply nat_setup_spec|]. intros [st|code] a1 Hs; cbn in Hs.
  - destruct Hs as [-> Hi]. do 3 (eapply mwp_seq; [by apply quiet_call|]; intros ? ? ?; cbn beta in *).
    eapply mwp_mono; [|apply (nat_finish_spec cfg)].
    + intros code b [-> Hr]. split; [apply Hr|done].
    + by repeat (eapply installed_same; [eassumption|]).
  - destruct Hs as [Hc Hu]. apply mwp_ret. intros a2 H2. split; [|done]. by eapply untouched_calm.
Qed.

(** [--nat-cleanup]: the [gust] tables are gone, and nothing else has changed. *)
Lemma cleanup_main_spec a :
  mwp cleanup_main (fun code a' =>
    code = 0 /\ evolves [] (ma_fwd a) families ∅ a a' \/ code = 1 /\ same a a') a.
Proof.
  eapply mwp_seq; [apply quiet_available|]. intros [u|e] a1 H1; cbn beta in H1.
  - eapply delete_both_spec; [exact H1|]. intros a2 H2. apply mwp_ret. intros a3 H3. left.
    split; [done|]. eapply evolves_calm; [|exact H3]. eapply evolves_eq; [exact H2|done|done|set_solver..].
  - apply mwp_ret. intros a2 H2. right. split; [done|]. same_tac.
Qed.
End Main.

(** ** The status tasks *)

Section Tasks.
Context (loads : str -> gset str) {V : Type} `{Json V}.

(** Programs of the status tasks: whatever the others do, they leave the tables
    and [ip_forward] alone. *)
Definition twp {A} (p : prog NatE A) (a : Mach) : Prop :=
  wp (mstep loads) grows calm p (fun _ _ => True) a.

Lemma query_spec args a : nft_cmd args = CQuery -> twp (run_nft args None) a.
Proof.
  intros Hq. unfold twp, run_nft. apply wp_bind_ok; [apply _|]. apply wp_map_err; [apply _|].
  intros a1 r a2 Hr1 Hm. destruct r as [c|e]; cbn in Hm; [|by rewrite Hq in Hm; subst a2].
  destruct Hm as [Hc ->]. split.
  { constructor; try done. by apply insert_subseteq. }
  intros a2 H2 a3 H3 a4 r a5 H4 Hm.
  assert (Hk : exists input, ma_children a4 !! c = Some (args, input)).
  { assert (Hg : grows (add_child c args a1) a4) by (etransitivity; [|exact H4]; by etransitivity).
    apply (Hg c args []). cbn. by rewrite lookup_insert_eq. }
  destruct Hk as [input Hk]. cbn in Hm. rewrite Hk, Hq in Hm.
  destruct r as [[[ok out] err]|e]; cbn in Hm; subst a5; by split.
Qed.

Lemma list_json_spec {A} (f : option str -> A) a : twp (await r := list_json in Ret (f r)) a.
Proof.
  unfold twp, list_json. repeat (apply (wp_seq _ _ _ (fun _ _ => True)); [|by intros x a1 _ a2 _]).
  by apply query_spec.
Qed.

Lemma dump_status_spec a : twp dump_status a.
Proof. apply list_json_spec. Qed.

Lemma nat_heartbeat_spec a : twp nat_heartbeat a.
Proof. apply list_json_spec. Qed.
End Tasks.

(** ** A run alone *)

(** A specification holds of a run without the status tasks. *)
Lemma run_alone {S} (h : handler NatE S) `{MachineLaws S h} {A} (p : prog NatE A) Q s x s' :
  mwp m_loads p Q (m_abs s) -> run h p s = (x, s') -> Q x (m_abs s').
Proof. apply (wp_run _ calm (fun _ _ => True) h m_abs). intros X e s1 y s2. apply ml_step. Qed.

(** [gust --nat-cleanup] after whatever happened before. *)
Lemma cleanup_main_removes {S} (h : handler NatE S) `{MachineLaws S h} s code s' :
  run h cleanup_main s = (code, s') ->
  ma_fwd (m_abs s') = ma_fwd (m_abs s) /\
  (code = 0 -> forall fam, fam ∈ families -> fam ∈ ma_tables (m_abs s') -> may_stay (ma_faults (m_abs s')) fam).
Proof.
  intros Hr. destruct (run_alone h _ _ _ _ _ (cleanup_main_spec m_loads ml_loads (m_abs s)) Hr) as [[_ Ha]|[-> Ha]].
  - split; [apply Ha|]. intros _ fam Hin Hfam.
    destruct (ev_tables _ _ _ _ _ _ Ha fam) as [Hb _]. set_solver.
  - split; [apply Ha|done].
Qed.

(** C7: NAT mode leaves the machine as it found it, on every path through [run]
    and whichever calls fail, unless a certain failure is to blame.  At the end
    [ip_forward] has its old value (a value other than 1 may have become 0), unless
    a write of it failed.  No [gust] table is left that was not there before, and
    none at all when the exit code is 0, unless the last deletion of that table
    failed, was refused or could not be waited for, or an [nft] that was given the
    ruleset, or a part of it, was lost.  The tables of families that are not gust's
    are untouched.  It is assumed that no other program changes the tables or
    [ip_forward] meanwhile. *)
Theorem nat_run_restores {S} (h : handler NatE S) `{MachineLaws S h} cfg s code s' :
  run h (nat_run cfg) s = (code, s') ->
  let a := m_abs s in let a' := m_abs s' in
  (FForward ∈ ma_faults a' \/ fwd_back (ma_fwd a) (ma_fwd a')) /\
  (forall fam, fam ∈ ma_tables a' -> fam ∈ ma_tables a \/ may_stay (ma_faults a') fam) /\
  (code = 0 -> forall fam, fam ∈ families -> fam ∈ ma_tables a' -> may_stay (ma_faults a') fam) /\
  (forall fam, fam ∉ families -> (fam ∈ ma_tables a' <-> fam ∈ ma_tables a)).
Proof.
  intros Hr. destruct (run_alone h _ _ _ _ _ (nat_run_spec m_loads ml_loads cfg (m_abs s)) Hr) as [[Hf Hn Ho] Hc].
  split_and!; [done|done| |done]. intros H0. apply Hc, H0.
Qed.

(** ** A machine *)

Definition text_loads (text : str) : gset str :=
  (if starts_with "table ip gust" text then {["ip" : str]} else ∅)
  ∪ (if contains_str "table ip6 gust" text then {["ip6" : str]} else ∅).

(** What an [nft] process reports when it is done. *)
Definition nft_report (args : list str) (a : Mach) : bool * str * str :=
  match nft_cmd args with
  | CDelete fam =>
      if decide (fam ∈ ma_tables a) then (true, [], [])
      else (false, [], "Error: No such file or directory" : str)
  | _ => (true, [], [])
  end.

(** The machine after it is done, and after it was lost. *)
Definition nft_work (args : list str) (input : str) (a : Mach) : Mach :=
  match nft_cmd args with
  | CDelete fam => deleted fam a
  | CLoad => set_tables (ma_tables a ∪ text_loads input) a
  | _ => a
  end.

Definition nft_lose (args : list str) (input : str) (a : Mach) : Mach :=
  match nft_cmd args with
  | CDelete fam => set_tables (ma_tables a ∖ {[fam]}) (add_faults [FDelete fam; FLate fam] a)
  | CLoad => set_tables (ma_tables a ∪ text_loads input) (add_faults [FLoad] a)
  | _ => a
  end.

(** A machine run by root.  Everything works, but some processes cannot be waited
    for: they do their work all the same. *)
Definition kernel (lost : list str -> bool) : handler NatE Mach :=
  fun X e a => match e in NatE X return X * Mach with
  | SpawnNft args _ => let c := fresh (dom (ma_children a)) in (Ok c, add_child c args a)
  | WriteStdin c input =>
      (Ok tt, match ma_children a !! c with Some _ => give_input c input a | None => a end)
  | WaitOutput c =>
      match ma_children a !! c with
      | Some (args, input) =>
          if lost args then (Err (io_other "wait failed"), nft_lose args input a)
          else (Ok (nft_report args a), nft_work args input a)
      | None => (Err (io_other "no child"), a)
      end
  | ReadToString path =>
      (if decide (path = IPV4_FWD) then Ok (show_int (ma_fwd a) ++ [newline])
       else Err (io_new NotFound "not found"), a)
  | WriteFile path text =>
      (Ok tt, if decide (path = IPV4_FWD) then set_fwd (default 0 (parse_i64 (trim text))) a else a)
  | GetEuid => (0, a)
  | LookupIp host => (Ok some_addrs, add_lookup host some_addrs a)
  | NatSignals | NatHeartbeat _ | UntilShutdown => (tt, a)
  end.

#[global] Instance kernel_machine lost : Machine (kernel lost) := { m_abs := id; m_loads := text_loads }.

Lemma text_loads_families text : text_loads text ⊆ families.
Proof. unfold text_loads, families. destruct (starts_with _ _), (contains_str _ _); set_solver. Qed.

(** A process that is lost does its work after the failure is known. *)
Lemma lost_calm args input a :
  exists a2, nft_lost (nft_cmd args) a a2 /\ calm a2 (nft_lose args input a).
Proof.
  unfold nft_lose. destruct (nft_cmd args) as [fam| | |] eqn:Hc; cbn.
  - apply nft_cmd_delete in Hc. eexists. split; [done|]. constructor; try done. cbn.
    intros fam'. unfold may_vanish. destruct (decide (fam' = fam)) as [->|Hne]; set_solver.
  - eexists. split; [done|]. constructor; try done. cbn.
    intros fam. unfold may_appear. pose proof (text_loads_families input). set_solver.
  - by exists a.
  - exists a. split; [|done]. exists (ma_tables a). by destruct a.
Qed.

Lemma done_work args input a :
  nft_done text_loads (nft_cmd args) input (fst (fst (nft_report args a))) a (nft_work args input a).
Proof.
  unfold nft_report, nft_work, nft_done. destruct (nft_cmd args) as [fam| | |]; try done.
  - by case_decide.
  - exists (ma_tables a). by destruct a.
Qed.

#[global] Instance kernel_laws lost : MachineLaws (kernel lost).
Proof.
  constructor; [|intros rules; apply text_loads_families].
  intros X e a x a' He. cbn [m_abs m_loads kernel_machine id].
  assert (Hstep : mstep text_loads X e a x a' -> exists a1 a2,
    calm a a1 /\ mstep text_loads X e a1 x a2 /\ calm a2 a') by (intros Hm; by exists a, a').
  destruct e as [args piped|c input|c|path|path text| |host| |secs|]; cbn -[decide nft_report nft_work nft_lose fresh] in He.
  - injection He as <- <-. apply Hstep. split; [|done]. apply not_elem_of_dom, is_fresh.
  - injection He as <- <-. apply Hstep. cbn. destruct (ma_children a !! c) as [[args i]|]; done.
  - destruct (ma_children a !! c) as [[args input]|] eqn:Hc.
    + destruct (lost args).
      * injection He as <- <-. destruct (lost_calm args input a) as (a2 & Hl & Hca).
        exists a, a2. split; [done|]. split; [|done]. cbn. by rewrite Hc.
      * injection He as <- <-. apply Hstep. cbn. rewrite Hc. pose proof (done_work args input a) as Hd.
        by destruct (nft_report args a) as [[ok out] err].
    + injection He as <- <-. apply Hstep. cbn. by rewrite Hc.
  - injection He as <- <-. apply Hstep. split; [done|]. intros ->. rewrite decide_True by done.
    by intros t [= <-].
  - injection He as <- <-. apply Hstep. cbn -[decide]. case_decide; [|done]. eexists. split; [done|].
    intros _ n Hn ->. rewrite trim_line by (apply show_int_nonempty || apply show_int_graphic).
    by rewrite parse_i64_show by lia.
  - injection He as <- <-. by apply Hstep.
  - injection He as <- <-. by apply Hstep.
  - injection He as <- <-. by apply Hstep.
  - injection He as <- <-. by apply Hstep.
  - injection He as <- <-. by apply Hstep.
Qed.

(** Nothing is lost. *)
Abbreviation reliable := (kernel (fun _ => false)).

Lemma nat_run_restores_witness :
  let r := run reliable (nat_run nat_config) (MkMach {["ip" : str]} 0 ∅ [] []) in
  fst r = 0 /\ ma_fwd (snd r) = 0 /\ forall fam, fam ∈ families -> fam ∉ ma_tables (snd r).
Proof.
  intros r.
  destruct (nat_run_restores reliable nat_config (MkMach {["ip" : str]} 0 ∅ [] []) (fst r)
    (snd r)) as (Hf & _ & Ht & _); [apply surjective_pairing|].
  assert (H0 : fst r = 0) by (vm_compute; reflexivity).
  assert (HF : ma_faults (snd r) = []) by (vm_compute; reflexivity).
  split; [exact H0|]. cbn [m_abs kernel_machine id] in Hf, Ht. rewrite HF in Hf, Ht. split.
  - destruct Hf as [Hf|[Hf|[_ Hf]]]; [by apply elem_of_nil in Hf|exact Hf..].
  - intros fam Hin Hfam. destruct (Ht H0 fam Hin Hfam) as [_ [Hb|Hb]]; by apply elem_of_nil in Hb.
Defined.

(** ** A way to leave a table behind *)

(** The [nft] that loads the ruleset commits it, but waiting for it fails: the run
    gives up before its cleanup guard is armed, and the table stays. *)
Lemma nat_load_leak :
  let r := run (kernel (fun args => bool_decide (nft_cmd args = CLoad))) (nat_run nat_config)
    (MkMach ∅ 0 ∅ [] []) in
  fst r = 1 /\ ma_fwd (snd r) = 0 /\ ("ip" : str) ∈ ma_tables (snd r).
Proof.
  intros r. split; [vm_compute; reflexivity|]. split; [vm_compute; reflexivity|].
  apply (bool_decide_unpack _). vm_compute. exact I.
Qed.
