(* ===== verification/App.v ===== *)
(** * src/app.rs, src/main.rs and src/logging.rs: putting the parts together

    [main] and [run_userspace] are programs over the calls [AppE]: the console,
    the logging libraries, the tokio runtime, and the tasks spawned.  A spawned listener is the
    supervised serve loop of Supervisor.v with Tcp.v or Udp.v; NAT mode and its
    cleanup are the programs of Nat.v, run here as one call each. *)

From S2P Require Import Prelude Str Io Constants Netopt Cli Node Config Chain Stats Supervisor Relay Tcp.

Inductive AppE : Type -> Type :=
| Print (text : str) : AppE (io_result unit)       (* the write print! makes *)
| Println (line : str) : AppE (io_result unit)
| Eprintln (line : str) : AppE (io_result unit)
| FilterFromEnv : AppE (option nat)      (* EnvFilter::try_from_default_env(): a filter *)
| FilterNew (directives : str) : AppE nat
| StdoutWriter : AppE nat                (* tracing_appender::non_blocking(stdout()) *)
| InitSubscriber (filter writer : nat) (ansi target : bool) : AppE unit
| BuildRuntime (workers blocking : option Z) : AppE (option (io_result unit))   (* None: a panic *)
| RunNat (cfg : Config) : AppE Z
| CleanupMain : AppE (option Z)                                                 (* None: a panic *)
| SpawnSupervised (p : Protocol) (spec : ListenerSpec) (st : ListenerStats) (ctx : Context) : AppE nat
| InstallSignals (reg : list ListenerStats) : AppE unit
| SpawnHeartbeat (reg : list ListenerStats) (secs : Z) : AppE unit
| UntilCancelled : AppE unit
| JoinAll (ms : Z) (handles : list nat) : AppE bool.

(** ** Logging *)

(** [logging::init] *)
Definition logging_init (debug : bool) : prog AppE unit :=
  let default : str := if debug then "debug" else "info" in
  await env := call FilterFromEnv in
  await filter := match (env : option nat) with Some f => Ret f | None => call (FilterNew default) end in
  await writer := call StdoutWriter in
  call (InitSubscriber filter writer false false).

(** ** The application *)

Definition spawn_listener (spec : ListenerSpec) (st : ListenerStats) (ctx : Context) :
    prog AppE nat :=
  match proto spec with
  | Tcp => call (SpawnSupervised Tcp spec st ctx)
  | Udp => call (SpawnSupervised Udp spec st ctx)
  end.

(** The loop over the listeners: the registry and the handles. *)
Fixpoint spawn_all (specs : list ListenerSpec) (ctx : Context) (reg : list ListenerStats)
    (handles : list nat) : prog AppE (list ListenerStats * list nat) :=
  match specs with
  | [] => Ret (reg, handles)
  | spec :: specs =>
      let st := stats_new (name spec) (as_str (proto spec)) in
      await h := spawn_listener spec st ctx in
      spawn_all specs ctx (reg ++ [st]) (handles ++ [h])
  end.

Definition run_userspace (cfg : Config) : prog AppE Z :=
  let ctx := context_of cfg in
  await (reg, handles) := spawn_all (listeners cfg) ctx [] [] in
  await _ := call (InstallSignals reg) in
  await _ := call (SpawnHeartbeat reg (heartbeat cfg)) in
  await _ := call UntilCancelled in
  await _ := call (JoinAll (5 * 1000) handles) in
  Ret 0.

(** [app::run] *)
Definition app_run (cfg : Config) : prog AppE Z :=
  await _ := logging_init (debug cfg) in
  match mode cfg with
  | Userspace => run_userspace cfg
  | Nat => call (RunNat cfg)
  end.

(** ** [main] *)

(** [(n * 2).max(2)] on [usize], as a release build computes it *)
Definition blocking_threads (n : Z) : Z := Z.max (wrap 64 (n * 2)) 2.

(** [std::env::args().skip(1).collect()]: the iterator panics when it meets an
    argument that is not valid Unicode, the skipped program name included. *)
Definition env_args (argv : list str) : option (list str) :=
  if forallb utf8 argv then Some (drop 1 argv) else None.

(** [print!], [println!] and [eprintln!] panic when the write fails. *)
Definition or_panic (e : AppE (io_result unit)) (k : prog AppE (option Z)) : prog AppE (option Z) :=
  await r := call e in
  match (r : io_result unit) with Ok _ => k | Err _ => Ret None end.

(** The exit code; [None] is a panic. *)
Definition main (argv : list str) : prog AppE (option Z) :=
  match env_args argv with
  | None => Ret None
  | Some args =>
      match parse_args args with
      | Ok Help => or_panic (Print help_text) (Ret (Some 0))
      | Ok Version => or_panic (Println ("gust " ++ pkg_version)) (Ret (Some 0))
      | Err e =>
          or_panic (Eprintln ("gust: " ++ e)) (or_panic (Eprintln "try `gust --help`") (Ret (Some 2)))
      | Ok (Run raw) =>
          if nat_cleanup raw then call CleanupMain else
          match build_config raw with
          | None => Ret None
          | Some (Err e) => or_panic (Eprintln ("gust: " ++ e)) (Ret (Some 2))
          | Some (Ok cfg) =>
              await rt := call (BuildRuntime (Config.worker_threads cfg)
                (blocking_threads <$> Config.worker_threads cfg)) in
              match (rt : option (io_result unit)) with
              | None => Ret None
              | Some (Err e) =>
                  or_panic (Eprintln ("gust: failed to start runtime: " ++ err_msg e)) (Ret (Some 1))
              | Some (Ok _) => await code := app_run cfg in Ret (Some code)
              end
          end
      end
  end.

(** ** Properties *)

(** The counters of a listener, and the start of its supervised task. *)
Definition fresh_stats (spec : ListenerSpec) : ListenerStats :=
  stats_new (name spec) (match proto spec with Tcp => "tcp" | Udp => "udp" end).

Definition launch (ctx : Context) (spec : ListenerSpec) (handle : nat) : event AppE :=
  Ev (SpawnSupervised (proto spec) spec (fresh_stats spec) ctx) handle.

Lemma spawn_all_run o specs ctx reg handles l :
  exists hs, length hs = length specs /\
    run (record o) (spawn_all specs ctx reg handles) l =
    ((reg ++ (fresh_stats <$> specs), handles ++ hs), l ++ zip_with (launch ctx) specs hs).
Proof.
  revert reg handles l; induction specs as [|spec specs IH]; intros reg handles l; cbn [spawn_all].
  - exists []. split; [done|]. cbn. by rewrite !app_nil_r.
  - assert (Hst : stats_new (name spec) (as_str (proto spec)) = fresh_stats spec)
      by (unfold fresh_stats; by destruct (proto spec)).
    assert (Hs : spawn_listener spec (fresh_stats spec) ctx =
      call (SpawnSupervised (proto spec) spec (fresh_stats spec) ctx))
      by (unfold spawn_listener; by destruct (proto spec)).
    rewrite Hst, Hs, run_record_call. set (x := o _ _ l). fold (launch ctx spec x).
    destruct (IH (reg ++ [fresh_stats spec]) (handles ++ [x]) (l ++ [launch ctx spec x]))
      as (hs & Hl & ->).
    exists (x :: hs). split; [by cbn; f_equal|]. by rewrite <- !app_assoc.
Qed.

(** The log of [logging_init]: the filter of the environment, or else a new one
    of the debug flag. *)
Definition log_set_up (debug : bool) (env : option nat) (new writer : nat) : list (event AppE) :=
  [Ev FilterFromEnv env] ++
  match env with
  | Some _ => []
  | None => [Ev (FilterNew (if debug then "debug" else "info")) new]
  end ++
  [Ev StdoutWriter writer; Ev (InitSubscriber (default new env) writer false false) tt].

Lemma logging_init_run o debug l :
  exists env new writer, run (record o) (logging_init debug) l =
    (tt, l ++ log_set_up debug env new writer).
Proof.
  unfold logging_init. rewrite run_record_call. set (env := o _ FilterFromEnv l). exists env.
  unfold log_set_up. destruct env as [f|] eqn:He; rewrite run_bind; cbn [run call record].
  - rewrite run_record_call. cbn [run call record]. exists f. eexists. rewrite <- !app_assoc.
    by destruct (o _ (InitSubscriber _ _ _ _) _).
  - rewrite run_record_call. cbn [run call record]. do 2 eexists. rewrite <- !app_assoc.
    by destruct (o _ (InitSubscriber _ _ _ _) _).
Qed.

(** C36: the whole course of userspace mode, in every environment.  The
    application sets up logging with the filter the environment gave, or else the
    one made from the debug flag; it starts one supervised task per listener, in
    order, of the listener's own protocol, with fresh counters under its name and
    one shared context, which returns a handle; then the signals and the
    heartbeat, over the registry of exactly those counters; it waits for the
    shutdown, joins exactly the handles it got, in order, with a five-second
    limit, and exits with success.  It makes no other call. *)
Theorem userspace_launches o cfg code l :
  mode cfg = Userspace -> run (record o) (app_run cfg) [] = (code, l) ->
  let reg := fresh_stats <$> listeners cfg in
  code = 0 /\ exists env new writer hs joined,
    length hs = length (listeners cfg) /\
    l = log_set_up (debug cfg) env new writer ++
      zip_with (launch (context_of cfg)) (listeners cfg) hs ++
      [Ev (InstallSignals reg) tt; Ev (SpawnHeartbeat reg (heartbeat cfg)) tt;
       Ev UntilCancelled tt; Ev (JoinAll 5000 hs) joined].
Proof.
  intros Hm. unfold app_run, run_userspace. rewrite Hm, run_bind.
  destruct (logging_init_run o (debug cfg) []) as (env & new & w & ->). rewrite run_bind.
  destruct (spawn_all_run o (listeners cfg) (context_of cfg) [] [] ([] ++ log_set_up (debug cfg) env new w))
    as (hs & Hl & ->). rewrite !run_record_call. cbn [run].
  repeat match goal with |- context [o unit ?e ?l] => destruct (o unit e l) end.
  match goal with |- context [o bool ?e ?l] => generalize (o bool e l); intros joined end.
  intros [= <- <-]. split; [done|]. exists env, new, w, hs, joined. split; [done|].
  rewrite <- !app_assoc. unfold log_set_up. by rewrite <- ?app_assoc.
Qed.

(** An environment in which everything starts; each task has a handle of its own. *)
Definition app_oracle : oracle AppE :=
  fun X e l => match e in AppE X return X with
  | Print _ | Println _ | Eprintln _ => Ok tt
  | InstallSignals _ | SpawnHeartbeat _ _ | UntilCancelled => tt
  | FilterFromEnv => None
  | FilterNew _ => 0%nat
  | StdoutWriter => 0%nat
  | InitSubscriber _ _ _ _ => tt
  | BuildRuntime _ _ => Some (Ok tt)
  | RunNat _ => 0
  | CleanupMain => Some 0
  | SpawnSupervised _ _ _ _ => length l
  | JoinAll _ _ => true
  end.

Lemma userspace_launches_witness :
  let r := run (record app_oracle) (app_run example_config) [] in
  fst r = 0 /\ exists env new writer hs joined,
    length hs = length (listeners example_config) /\
    snd r = log_set_up (debug example_config) env new writer ++
      zip_with (launch (context_of example_config)) (listeners example_config) hs ++
      [Ev (InstallSignals (fresh_stats <$> listeners example_config)) tt;
       Ev (SpawnHeartbeat (fresh_stats <$> listeners example_config) (heartbeat example_config)) tt;
       Ev UntilCancelled tt; Ev (JoinAll 5000 hs) joined].
Proof.
  intros r. exact (userspace_launches app_oracle example_config (fst r) (snd r) eq_refl
    (surjective_pairing _)).
Defined.

(** In every environment the program writes these texts, in order, and exits with
    the code; a write that fails is its last call, and it panics. *)
Definition only_prints (p : prog AppE (option Z)) (code : Z) (texts : list (AppE (io_result unit))) : Prop :=
  forall o, let '(r, l) := run (record o) p [] in
    r = Some code /\ l = (fun e => Ev e (Ok tt)) <$> texts \/
    exists pre e post err, texts = pre ++ e :: post /\
      r = None /\ l = ((fun e => Ev e (Ok tt)) <$> pre) ++ [Ev e (Err err)].

Lemma only_prints_nil code : only_prints (Ret (Some code)) code [].
Proof. intros o. by left. Qed.

Lemma only_prints_cons e p code texts :
  only_prints p code texts -> only_prints (or_panic e p) code (e :: texts).
Proof.
  intros Hp o. unfold or_panic. rewrite run_record_call. destruct (o _ e []) as [[]|err].
  - change ([] ++ [Ev e (Ok tt)]) with ([Ev e (Ok tt)] ++ []). rewrite run_record_shift.
    specialize (Hp (fun X e' l => o X e' ([Ev e (Ok tt)] ++ l))).
    destruct (run _ p []) as [r l]. destruct Hp as [[-> ->]|(pre & e' & post & err & -> & -> & ->)]; [by left|].
    right. by exists (e :: pre), e', post, err.
  - right. by exists [], e, texts, err.
Qed.

(** C16: [main] from its arguments to the start of the application, in every
    environment.  It panics when an argument is not Unicode, when a write to the
    console fails and when the runtime's builder does, and otherwise never: bad
    arguments print the error and a hint and exit with 2, a rejected configuration
    prints the error and exits with 2, [--help] and [--version] print their text
    and exit with 0, and in these cases nothing else is done; [--nat-cleanup] runs
    the cleanup alone; else a runtime is built with the configured workers and
    twice as many blocking threads, a failure of it is printed and exits with 1,
    and the application runs with a configuration that is valid for every part of
    the program. *)
Theorem main_spec argv :
  if forallb utf8 argv then
    match parse_args (drop 1 argv) with
    | Ok (Run raw) =>
        if nat_cleanup raw then
          forall S (h : handler AppE S) s, run h (main argv) s = h _ CleanupMain s
        else
        match build_config raw with
        | Some (Ok cfg) => config_ok cfg /\ Config.worker_threads cfg <> Some 0 /\
            forall S (h : handler AppE S) s,
              match h _ (BuildRuntime (Config.worker_threads cfg)
                ((fun n => Z.max 2 (2 * n mod 2 ^ 64)) <$> Config.worker_threads cfg)) s with
              | (Some (Ok _), s') => run h (main argv) s =
                  let '(code, s'') := run h (app_run cfg) s' in (Some code, s'')
              | (Some (Err e), s') => run h (main argv) s =
                  let '(r, s'') := h _ (Eprintln ("gust: failed to start runtime: " ++ err_msg e)) s' in
                  (if is_ok r then Some 1 else None, s'')
              | (None, s') => run h (main argv) s = (None, s')
              end
        | Some (Err e) => only_prints (main argv) 2 [Eprintln ("gust: " ++ e)]
        | None => False
        end
    | Ok Help => only_prints (main argv) 0 [Print help_text]
    | Ok Version => only_prints (main argv) 0 [Println ("gust " ++ pkg_version)]
    | Err e => only_prints (main argv) 2 [Eprintln ("gust: " ++ e); Eprintln "try `gust --help`"]
    end
  else main argv = Ret None.
Proof.
  unfold main, env_args. destruct (forallb utf8 argv); [|done].
  destruct (parse_args (drop 1 argv)) as [[raw| |]|e];
    [|by repeat apply only_prints_cons; apply only_prints_nil..].
  destruct (nat_cleanup raw); [intros S h s; cbn; by destruct (h _ CleanupMain s)|].
  destruct (build_config raw) as [[cfg|e]|] eqn:Hb;
    [|by apply only_prints_cons, only_prints_nil|by apply build_config_total in Hb].
  assert (Hok : config_ok cfg) by (eapply config_spec_ok, build_config_spec_ok; exact Hb).
  split; [done|]. split; [apply (co_workers cfg Hok)|]. intros S h s.
  assert (Hbl : (fun n => Z.max 2 (2 * n mod 2 ^ 64)) <$> Config.worker_threads cfg =
    blocking_threads <$> Config.worker_threads cfg).
  { destruct (Config.worker_threads cfg) as [n|]; [|done]. cbn. f_equal. unfold blocking_threads, wrap.
    rewrite Z.max_comm, Z.mul_comm. done. }
  rewrite Hbl, run_bind. cbn [call run].
  destruct (h _ (BuildRuntime _ _) s) as [[[u|e]|] s']; [| |done].
  - rewrite run_bind. by destruct (run h (app_run cfg) s').
  - unfold or_panic. rewrite run_bind. cbn [call run].
    by destruct (h _ (Eprintln _) s') as [[]].
Qed.
