(* ===== verification/System.v ===== *)
(** * The running process: src/app.rs, src/signals.rs and src/supervisor.rs together

    [run_userspace] and the tasks it spawns (the supervisors, the two signal
    tasks and the heartbeat) are programs that share the shutdown channel and the
    counters.  Here they run concurrently: a task is its remaining program, an
    operation polls one task, which makes its next call or stays pending on it,
    and a schedule is any list of operations with the answers of the outside.
    The serve tasks under the supervisors are part of the outside: they end when
    they like and change their listener's counters at any time. *)

From S2P Require Import Prelude Str Io Constants Netopt Config Runtime Stats Supervisor Signals Heartbeat Tcp App.

(** ** Tasks *)

(** Answer a call, or leave it pending. *)
Definition poller (E : Type -> Type) (S : Type) := forall X, E X -> S -> option X * S.

Definition poll_prog {E A S} (h : poller E S) (p : prog E A) (s : S) : prog E A * S :=
  match p with
  | Ret a => (Ret a, s)
  | Vis e k =>
      match h _ e s with
      | (Some x, s) => (k x, s)
      | (None, s) => (p, s)
      end
  end.

(** A background task: a supervisor of listener [k], the two tasks of
    [signals::install], the heartbeat. *)
Inductive Bg :=
| BSup (k : nat) (p : prog SupE (option Z))
| BTerm (p : prog SigE unit)
| BUsr1 (p : prog SigE (option nat))
| BBeat (secs : Z) (p : prog (TimerE RegE) bool).

(** The end of a loop's body is the start of the next round. *)
Definition next_sup (p : prog SupE (option Z)) : prog SupE (option Z) :=
  match p with Ret (Some backoff) => supervise_iter backoff | _ => p end.

Definition next_usr1 (p : prog SigE (option nat)) : prog SigE (option nat) :=
  match p with Ret (Some s) => usr1_iter s | _ => p end.

Definition next_beat (secs : Z) (p : prog (TimerE RegE) bool) : prog (TimerE RegE) bool :=
  match p with Ret true => beat_iter app_beat secs | _ => p end.

Definition finished (b : Bg) : bool :=
  match b with
  | BSup _ (Ret _) | BTerm (Ret _) | BUsr1 (Ret _) | BBeat _ (Ret _) => true
  | _ => false
  end.

(** What the outside answers during one poll. *)
Record Env := MkEnv {
  env_install : SignalKind -> io_result nat;   (* signal(kind) *)
  env_signal : option bool;                    (* SIGINT (true) or SIGTERM came *)
  env_usr1 : option (option unit);             (* SIGUSR1 came, or its stream ended *)
  env_join : option Joined;                    (* the serve task has ended *)
  env_timer : bool;                            (* the timer has expired *)
  env_first : bool;                            (* select! polls the timer first *)
  env_clock : Z;                               (* Instant::now() and elapsed() *)
}.

Section System.
Context {Ch Rx : Type} `{WatchLaws Ch Rx}.

Record Shared := MkShared {
  sh_world : World (Ch := Ch) (Rx := Rx);      (* the channel; future i is task i - 1's, 0 is main's *)
  sh_stats : Registry;
  sh_lines : list str;
}.

Definition on_world (f : World -> World) (sh : Shared) : Shared :=
  MkShared (f (sh_world sh)) (sh_stats sh) (sh_lines sh).

Definition triggered (sh : Shared) : bool := is_triggered (chan (sh_world sh)).

(** A new call of [cancelled] by a task whose last one is over. *)
Definition renew (i : nat) (w : World (Ch := Ch) (Rx := Rx)) : World :=
  match waiters w !! i with
  | Some WDone => MkWorld (chan w) (<[i := WStart]> (waiters w))
  | _ => w
  end.

(** Poll [shutdown.cancelled()]: is it ready? *)
Definition poll_cancelled (i : nat) (sh : Shared) : bool * Shared :=
  let sh := on_world (fun w => op_step (Poll i) (renew i w)) sh in
  (match waiters (sh_world sh) !! i with Some WDone => true | _ => false end, sh).

(** [select!] between [cancelled] and another future: [None] is pending, [Some
    None] the shutdown.  The other is polled first when [first] says so. *)
Definition select_cancelled {X} (i : nat) (first : bool) (other : option X) (sh : Shared) :
    option (option X) * Shared :=
  match (if first then other else None) with
  | Some x => (Some (Some x), on_world (op_step (Cancel i)) sh)
  | None =>
      let '(cancelled, sh) := poll_cancelled i sh in
      if cancelled then (Some None, sh)
      else match other with
        | Some x => (Some (Some x), on_world (op_step (Cancel i)) sh)
        | None => (None, sh)
        end
  end.

Definition timer_select (i : nat) (env : Env) (sh : Shared) : option bool * Shared :=
  let '(r, sh) := select_cancelled i (env_first env) (if env_timer env then Some tt else None) sh in
  ((fun o : option unit => match o with Some _ => true | None => false end) <$> r, sh).

Definition sup_call (k i : nat) (env : Env) : poller SupE Shared :=
  fun X e sh => match e in SupE X return option X * Shared with
  | IsTriggered => (Some (triggered sh), sh)
  | Now => (Some (env_clock env), sh)
  | SpawnServe => (Some 0%nat, sh)
  | SelectJoin _ => select_cancelled i false (env_join env) sh
  | AbortTask _ => (Some tt, sh)
  | ElapsedSince _ => (Some (env_clock env), sh)
  | Stat o => (Some tt, MkShared (sh_world sh) (alter (stat_op o) k (sh_stats sh)) (sh_lines sh))
  | SelectSleep _ => timer_select i env sh
  end.

Definition sig_call (env : Env) : poller SigE Shared :=
  fun X e sh => match e in SigE X return option X * Shared with
  | NewSignal kind => (Some (env_install env kind), sh)
  | SelectRecv _ _ => (env_signal env, sh)
  | Recv _ => (env_usr1 env, sh)
  | TriggerShutdown => (Some tt, on_world (op_step Trigger) sh)
  | RunDump => (Some tt, MkShared (sh_world sh) (sh_stats sh) (sh_lines sh ++ dump (sh_stats sh)))
  end.

Definition beat_call (i : nat) (env : Env) : poller (TimerE RegE) Shared :=
  fun X e sh => match e in TimerE _ X return option X * Shared with
  | SelectTick _ => timer_select i env sh
  | BeatTriggered => (Some (triggered sh), sh)
  | LogLine line => (Some tt, MkShared (sh_world sh) (sh_stats sh) (sh_lines sh ++ [line]))
  | Work e => match e in RegE X return option X * Shared with
      | ReadRegistry => (Some (sh_stats sh), sh)
      end
  end.

Definition poll_bg (i : nat) (env : Env) (b : Bg) (sh : Shared) : Bg * Shared :=
  match b with
  | BSup k p => let '(p, sh) := poll_prog (sup_call k i env) p sh in (BSup k (next_sup p), sh)
  | BTerm p => let '(p, sh) := poll_prog (sig_call env) p sh in (BTerm p, sh)
  | BUsr1 p => let '(p, sh) := poll_prog (sig_call env) p sh in (BUsr1 (next_usr1 p), sh)
  | BBeat secs p =>
      let '(p, sh) := poll_prog (beat_call i env) p sh in (BBeat secs (next_beat secs p), sh)
  end.

(** ** The process *)

Record Sys := MkSys {
  sy_shared : Shared;
  sy_main : prog AppE Z;
  sy_tasks : list Bg;
}.

Definition spawn (b : Bg) (st : Shared * list Bg) : Shared * list Bg :=
  (on_world (op_step Spawn) (fst st), snd st ++ [b]).

Definition main_call (env : Env) : poller AppE (Shared * list Bg) :=
  fun X e st => match e in AppE X return option X * (Shared * list Bg) with
  | Print _ | Println _ | Eprintln _ => (Some (Ok tt), st)
  | FilterFromEnv => (Some None, st)
  | FilterNew _ | StdoutWriter => (Some 0%nat, st)
  | InitSubscriber _ _ _ _ => (Some tt, st)
  | BuildRuntime _ _ => (Some (Some (Ok tt)), st)
  | RunNat _ => (None, st)
  | CleanupMain => (None, st)
  | SpawnSupervised _ _ stats _ =>
      let '(sh, ts) := st in
      let sh' := MkShared (sh_world sh) (sh_stats sh ++ [stats]) (sh_lines sh) in
      (Some (length ts),
       spawn (BSup (length (sh_stats sh)) (supervise_iter BACKOFF_INITIAL)) (sh', ts))
  | InstallSignals _ => (Some tt, spawn (BUsr1 usr1_setup) (spawn (BTerm shutdown_task) st))
  | SpawnHeartbeat _ secs => (Some tt, spawn (BBeat secs (beat_iter app_beat secs)) st)
  | UntilCancelled =>
      let '(sh, ts) := st in
      let '(c, sh) := poll_cancelled 0 sh in (if c then Some tt else None, (sh, ts))
  | JoinAll _ hs =>
      (if forallb (fun h => match snd st !! h with Some b => finished b | None => false end) hs
       then Some true else if env_timer env then Some false else None, st)
  end.

Inductive SysOp :=
| PollMain (env : Env)
| PollTask (i : nat) (env : Env)
| ServeStat (k : nat) (o : StatOp).          (* a serve task counts something *)

Definition sys_step (op : SysOp) (sy : Sys) : Sys :=
  match op with
  | PollMain env =>
      let '(p, (sh, ts)) := poll_prog (main_call env) (sy_main sy) (sy_shared sy, sy_tasks sy) in
      MkSys sh p ts
  | PollTask i env =>
      match sy_tasks sy !! i with
      | None => sy
      | Some b =>
          let '(b, sh) := poll_bg (S i) env b (sy_shared sy) in
          MkSys sh (sy_main sy) (<[i := b]> (sy_tasks sy))
      end
  | ServeStat k o =>
      let sh := sy_shared sy in
      MkSys (MkShared (sh_world sh) (alter (stat_op o) k (sh_stats sh)) (sh_lines sh))
        (sy_main sy) (sy_tasks sy)
  end.

Definition sys_run (ops : list SysOp) (sy : Sys) : Sys := foldl (fun sy op => sys_step op sy) sy ops.

(** [Shutdown::new], and main's [cancelled] not yet polled. *)
Definition sys_init (cfg : Config) : Sys :=
  MkSys (MkShared (op_step Spawn world_new) [] []) (run_userspace cfg) [].

(** ** The shutdown channel under the tasks' calls *)

(** The shared state is as before, except for futures and what is printed or
    counted. *)
Record quiet_step (sh sh' : Shared) : Prop := {
  qs_world : world_inv (sh_world sh');
  qs_len : length (waiters (sh_world sh')) = length (waiters (sh_world sh));
  qs_trig : triggered sh' = triggered sh;
}.

Lemma quiet_step_refl sh : world_inv (sh_world sh) -> quiet_step sh sh.
Proof. by constructor. Qed.

Lemma quiet_step_trans s1 s2 s3 : quiet_step s1 s2 -> quiet_step s2 s3 -> quiet_step s1 s3.
Proof. intros [] []. constructor; [done|congruence..]. Qed.

Lemma quiet_other sh stats lines :
  world_inv (sh_world sh) -> quiet_step sh (MkShared (sh_world sh) stats lines).
Proof. by constructor. Qed.

Lemma on_waiter_len f i (w : World (Ch := Ch) (Rx := Rx)) :
  length (waiters (on_waiter f i w)) = length (waiters w).
Proof.
  unfold on_waiter. destruct (waiters w !! i); [|done].
  destruct (f _ _). simpl. by rewrite length_insert.
Qed.

Lemma cancel_quiet i sh : world_inv (sh_world sh) -> quiet_step sh (on_world (op_step (Cancel i)) sh).
Proof.
  intros Hw. destruct (on_waiter_inv cancel i (sh_world sh) Hw) as [Hi Ht].
  { intros x y tx' Hx Hc. destruct (wi_waiter _ _ _ Hw Hx). by eapply cancel_step. }
  constructor; [done|apply on_waiter_len|done].
Qed.

Lemma renew_inv i w : world_inv w -> world_inv (renew i w) /\ chan (renew i w) = chan w /\
  length (waiters (renew i w)) = length (waiters w) /\ waiters (renew i w) !! i <> Some WDone.
Proof.
  intros [Hc Ho]. unfold renew. destruct (waiters w !! i) as [x|] eqn:Hi; [|by rewrite Hi].
  destruct x as [|rx|]; try by rewrite Hi. split; [|split; [done|]].
  - constructor; simpl.
    + pose proof (count_waiting_insert _ i WDone WStart Hi) as Hn. simpl in Hn. lia.
    + by apply Forall_insert.
  - simpl. rewrite length_insert. split; [done|].
    rewrite list_lookup_insert_eq by (by eapply lookup_lt_Some). done.
Qed.

(** A future that gets ready has seen the trigger. *)
Lemma poll_done x (tx : Ch) : fst (poll x tx) = WDone -> x = WDone \/ watch_borrow tx = true.
Proof.
  unfold poll, wait_changed. destruct x as [|rx|]; [| |by left].
  - destruct (watch_subscribe tx) as [tx' rx] eqn:Hs. destruct (subscribe_law _ _ _ Hs) as (Hb & _).
    rewrite Hb. destruct (watch_borrow tx); [by right|]. destruct (watch_changed rx tx'); by rewrite ?Hb.
  - destruct (watch_changed rx tx); [|done]. destruct (watch_borrow tx); [by right|done].
Qed.

Lemma poll_cancelled_spec i sh :
  world_inv (sh_world sh) -> (i < length (waiters (sh_world sh)))%nat ->
  let '(c, sh') := poll_cancelled i sh in
  quiet_step sh sh' /\ c = triggered sh /\
  (c = false -> exists rx, waiters (sh_world sh') !! i = Some (WWait rx)).
Proof.
  intros Hw Hi. unfold poll_cancelled, triggered, on_world. cbn [sh_world].
  destruct (renew_inv i _ Hw) as (Hr & Hc & Hl & Hn). set (w := renew i _) in *.
  assert (Hi' : (i < length (waiters w))%nat) by lia.
  destruct (lookup_lt_is_Some_2 _ _ Hi') as [x Hx].
  destruct (on_waiter_inv poll i w Hr) as [Hp Ht].
  { intros y z tx' Hy Hc'. destruct (wi_waiter _ _ _ Hr Hy). by eapply poll_step. }
  split.
  { constructor; cbn [sh_world]; [done| |].
    - etransitivity; [apply on_waiter_len|done].
    - unfold triggered. cbn [sh_world]. etransitivity; [exact Ht|by rewrite Hc]. }
  destruct (wi_waiter _ _ _ Hr Hx) as [Hok Hcnt].
  assert (Hxd : x <> WDone) by congruence. cbn [op_step]. unfold on_waiter. rewrite Hx.
  pose proof (poll_done x (chan w)) as Hd. destruct (poll x (chan w)) as [y tx'] eqn:Hpx.
  destruct (poll_step x _ y tx' Hok Hcnt Hpx) as [Hso Hy]. cbn [waiters sh_world].
  rewrite list_lookup_insert_eq by done. unfold is_triggered. rewrite <- Hc in *.
  destruct (watch_borrow (chan w)) eqn:Hb.
  - by rewrite (Hy eq_refl).
  - destruct y as [|rx|]; [exfalso|by eauto|by destruct (Hd eq_refl)].
    revert Hpx. unfold poll, wait_changed. destruct x; [|by repeat case_match|by intros [=]].
    destruct (watch_subscribe (chan w)). by repeat case_match.
Qed.

Lemma select_spec {X} i first (other : option X) sh :
  world_inv (sh_world sh) -> (i < length (waiters (sh_world sh)))%nat ->
  let '(r, sh') := select_cancelled i first other sh in
  quiet_step sh sh' /\ (r = Some None -> triggered sh = true) /\
  (triggered sh = true -> r = Some None \/ first = true /\ exists x, r = Some (Some x)).
Proof.
  intros Hw Hi. unfold select_cancelled. destruct (if first then other else None) as [x|] eqn:Hf.
  { split; [by apply cancel_quiet|]. split; [done|]. destruct first; [eauto|done]. }
  pose proof (poll_cancelled_spec i sh Hw Hi) as Hp. destruct (poll_cancelled i sh) as [[] sh1].
  - destruct Hp as (Hq & <- & _). auto.
  - destruct Hp as (Hq & <- & _). destruct other as [x|]; [|done].
    split; [|done]. eapply quiet_step_trans; [exact Hq|]. apply cancel_quiet, Hq.
Qed.

Lemma timer_spec i env sh :
  world_inv (sh_world sh) -> (i < length (waiters (sh_world sh)))%nat ->
  let '(r, sh') := timer_select i env sh in
  quiet_step sh sh' /\ (triggered sh = true -> is_Some r).
Proof.
  intros Hw Hi. unfold timer_select.
  pose proof (select_spec i (env_first env) (if env_timer env then Some tt else None) sh Hw Hi) as Hs.
  destruct (select_cancelled _ _ _ _) as [r sh']. destruct Hs as (Hq & _ & Ht).
  split; [done|]. intros H1. destruct (Ht H1) as [->|[_ [x ->]]]; by eexists.
Qed.

(** ** A supervisor returns once the shutdown is triggered *)

(** The answers a supervisor can get when the shutdown is triggered. *)
Definition trig_reply {X} (e : SupE X) (x : X) : Prop :=
  match e in SupE X return X -> Prop with
  | IsTriggered => fun b => b = true
  | SelectJoin _ => fun r => r = None
  | _ => fun _ => True
  end x.

(** With such answers it returns within [n] calls. *)
Fixpoint returns_in (n : nat) (p : prog SupE (option Z)) : Prop :=
  match n, p with
  | _, Ret r => r = None
  | O, _ => False
  | S n, Vis e k => forall x, trig_reply e x -> returns_in n (next_sup (k x))
  end.

(** Wherever it is when the trigger comes, it returns within four calls. *)
Fixpoint stoppable (p : prog SupE (option Z)) : Prop :=
  returns_in 4 (next_sup p) /\
  match p with
  | Ret _ => True
  | Vis e k => forall x, stoppable (k x)
  end.

Lemma returns_in_S n p : returns_in n p -> returns_in (S n) p.
Proof.
  revert p; induction n as [|n IH]; intros [r|X e k]; simpl; [done..|].
  intros Hp x Hx. apply IH, Hp, Hx.
Qed.

Lemma iter_start b : returns_in 4 (supervise_iter b).
Proof. by intros x ->. Qed.

Lemma iter_stoppable b : stoppable (supervise_iter b).
Proof.
  unfold supervise_iter. cbn -[returns_in failure supervise_iter].
  split; [apply iter_start|]. intros [].
  { by repeat split. }
  split; [by intros x _ y _ z -> []|]. intros t.
  split; [by intros x _ y ->|]. intros hd.
  split; [by intros x -> y _|]. intros [j|].
  2: { split; [by intros x _|]. intros []. by split. }
  destruct (failure j) as [msg|]; [|by split].
  split; [by intros x _ y ->|]. intros [].
  split; [by intros x ->|]. intros [].
  { by split. }
  split; [by intros x _ y _ [] _; [intros z ->|]|]. intros el.
  split; [by intros x _ [] _; [intros z ->|]|]. intros [].
  split; [by intros [] _; [intros z ->|]|]. intros [].
  - split; [apply iter_start|done].
  - by split.
Qed.

Lemma next_stoppable p : stoppable p -> stoppable (next_sup p).
Proof. destruct p as [[b|]|X e k]; [intros _; apply iter_stoppable|done..]. Qed.

Lemma next_sup_idem p : next_sup (next_sup p) = next_sup p.
Proof. by destruct p as [[b|]|X e k]. Qed.

Lemma sup_call_spec {X} k i env (e : SupE X) sh :
  world_inv (sh_world sh) -> (i < length (waiters (sh_world sh)))%nat ->
  let '(r, sh') := sup_call k i env X e sh in
  quiet_step sh sh' /\ (triggered sh = true -> exists x, r = Some x /\ trig_reply e x).
Proof.
  intros Hw Hi. destruct e; cbn [sup_call];
    try (split; [by constructor|intros Ht; eexists; split; [done|done]]).
  - pose proof (select_spec i false (env_join env) sh Hw Hi) as Hs.
    destruct (select_cancelled _ _ _ _) as [r sh']. destruct Hs as (Hq & _ & Ht).
    split; [done|]. intros H1. destruct (Ht H1) as [->|[? _]]; [by exists None|done].
  - pose proof (timer_spec i env sh Hw Hi) as Hs. destruct (timer_select i env sh) as [r sh'].
    destruct Hs as [Hq Ht]. split; [done|]. intros H1. destruct (Ht H1) as [x ->]. by exists x.
Qed.

Lemma sup_poll k i env p sh :
  world_inv (sh_world sh) -> (i < length (waiters (sh_world sh)))%nat -> stoppable p ->
  let '(p', sh') := poll_prog (sup_call k i env) p sh in
  quiet_step sh sh' /\ stoppable (next_sup p') /\
  forall n, triggered sh = true -> returns_in (S n) p -> returns_in n (next_sup p').
Proof.
  intros Hw Hi Hp. destruct p as [r|X e c]; cbn [poll_prog].
  - split; [by apply quiet_step_refl|]. split; [by apply next_stoppable|].
    intros [|n] _ Hr; simpl in Hr; by subst r.
  - pose proof (sup_call_spec k i env e sh Hw Hi) as Hc.
    destruct (sup_call k i env X e sh) as [[x|] sh']; destruct Hc as [Hq Ht]; (split; [done|]).
    + split; [apply next_stoppable, Hp|]. intros n H1 Hr. destruct (Ht H1) as (y & [= ->] & Hy).
      by apply Hr.
    + split; [done|]. intros n H1. by destruct (Ht H1) as (y & ? & _).
Qed.

(** ** Where main is *)

Definition main_join (hs : list nat) : prog AppE Z :=
  await _ := call (JoinAll (5 * 1000) hs) in Ret 0.

Definition main_wait (hs : list nat) : prog AppE Z :=
  await _ := call UntilCancelled in main_join hs.

Definition main_beat (cfg : Config) (reg : Registry) (hs : list nat) : prog AppE Z :=
  await _ := call (SpawnHeartbeat reg (heartbeat cfg)) in main_wait hs.

Definition main_spawn (cfg : Config) (specs : list ListenerSpec) (reg : Registry) (hs : list nat) :
    prog AppE Z :=
  await (reg, hs) := spawn_all specs (context_of cfg) reg hs in
  await _ := call (InstallSignals reg) in main_beat cfg reg hs.

(** The handles main holds are those of supervisors. *)
Definition sup_handles (ts : list Bg) (hs : list nat) : Prop :=
  Forall (fun h => exists k p, ts !! h = Some (BSup k p)) hs.

(** Main's remaining program, with the calls it makes before it joins. *)
Inductive main_at (cfg : Config) (ts : list Bg) : nat -> prog AppE Z -> Prop :=
| ma_spawn specs reg hs : sup_handles ts hs -> (length specs <= length (listeners cfg))%nat ->
    main_at cfg ts (length specs + 3) (main_spawn cfg specs reg hs)
| ma_beat reg hs : sup_handles ts hs -> main_at cfg ts 2 (main_beat cfg reg hs)
| ma_wait hs : sup_handles ts hs -> main_at cfg ts 1 (main_wait hs)
| ma_join hs : sup_handles ts hs -> main_at cfg ts 0 (main_join hs)
| ma_done : main_at cfg ts 0 (Ret 0).

(** The residual programs of the SIGINT and SIGTERM task, and whether it has
    received a signal. *)
Inductive term_at : bool -> prog SigE unit -> Prop :=
| ta_int : term_at false shutdown_task
| ta_term a : term_at false (
    await r := call (NewSignal terminate) in
    match (r : io_result nat) with
    | Err _ => Ret tt
    | Ok b => await _ := call (SelectRecv a b) in call TriggerShutdown
    end)
| ta_recv a b : term_at false (await _ := call (SelectRecv a b) in call TriggerShutdown)
| ta_trigger : term_at true (call TriggerShutdown)
| ta_failed got : term_at got (Ret tt).

Definition task_ok (b : Bg) : Prop :=
  match b with
  | BSup _ p => stoppable p /\ next_sup p = p
  | BTerm p => exists got, term_at got p
  | BUsr1 p => p = usr1_setup \/ p = Ret None \/
      exists s, p = usr1_iter s \/ p = (await _ := call RunDump in Ret (Some s))
  | BBeat _ _ => True
  end.

Record sys_inv (cfg : Config) (sy : Sys) : Prop := {
  si_world : world_inv (sh_world (sy_shared sy));
  si_len : length (waiters (sh_world (sy_shared sy))) = S (length (sy_tasks sy));
  si_tasks : Forall task_ok (sy_tasks sy);
  si_main : exists n, main_at cfg (sy_tasks sy) n (sy_main sy) /\
    (n = 0%nat -> triggered (sy_shared sy) = true);
}.

(** ** One poll of a background task *)

Record bg_step (env : Env) (b b' : Bg) (sh sh' : Shared) : Prop := {
  bs_ok : task_ok b';
  bs_world : world_inv (sh_world sh');
  bs_len : length (waiters (sh_world sh')) = length (waiters (sh_world sh));
  bs_trig : triggered sh' = triggered sh \/
    b = BTerm (call TriggerShutdown) /\ sh' = on_world (op_step Trigger) sh;
  bs_sup k p : b = BSup k p -> exists p', b' = BSup k p';
  bs_term p : b = BTerm p -> exists p', b' = BTerm p' /\
    (env_signal env = None -> term_at false p -> term_at false p') /\ (p = Ret tt -> p' = Ret tt);
  bs_other p' : b' = BTerm p' -> exists p, b = BTerm p;
}.

Lemma quiet_bg env b b' sh sh' :
  quiet_step sh sh' -> task_ok b' ->
  match b, b' with
  | BSup k _, BSup k' _ => k = k'
  | BUsr1 _, BUsr1 _ | BBeat _ _, BBeat _ _ => True
  | _, _ => False
  end -> bg_step env b b' sh sh'.
Proof.
  intros [Hw Hl Ht] Hok Hk. constructor; [done..|by left| | |].
  - intros k p ->. destruct b'; try done. subst. by eexists.
  - intros p ->. done.
  - intros p' ->. by destruct b.
Qed.

Lemma term_poll env p got sh :
  world_inv (sh_world sh) -> term_at got p ->
  let '(p', sh') := poll_prog (sig_call env) p sh in
  bg_step env (BTerm p) (BTerm p') sh sh'.
Proof.
  intros Hw Hp.
  assert (Hq : forall p', (exists got', term_at got' p') ->
    (env_signal env = None -> term_at false p -> term_at false p') -> (p = Ret tt -> p' = Ret tt) ->
    bg_step env (BTerm p) (BTerm p') sh sh).
  { intros p' Hok Hs Hf. constructor; [done..|by left| | |]; [done| |by eauto].
    intros q [= <-]. eauto. }
  destruct Hp as [|a|a b| |got]; cbn [poll_prog shutdown_task call bind sig_call].
  - destruct (env_install env interrupt) as [a|e]; apply Hq; try done;
      first [by eexists; apply ta_term|by exists false; constructor|intros; constructor].
  - destruct (env_install env terminate) as [b|e]; apply Hq; try done;
      first [by eexists; apply ta_recv|by exists false; constructor|intros; constructor].
  - destruct (env_signal env) as [w|]; apply Hq; try done.
    + exists true. constructor.
    + exists false. apply (ta_recv a b).
  - constructor; [by exists true; constructor|by apply (trigger_inv (sh_world sh))|done| |done| |].
    + by right.
    + intros q [= <-]. eexists. split; [done|]. split; [intros; constructor|done].
    + eauto.
  - apply Hq; [by exists got; constructor|done|done].
Qed.

Lemma usr1_poll env p sh :
  world_inv (sh_world sh) -> task_ok (BUsr1 p) ->
  let '(p', sh') := poll_prog (sig_call env) p sh in
  quiet_step sh sh' /\ task_ok (BUsr1 (next_usr1 p')).
Proof.
  intros Hw [->|[->|[s [->| ->]]]]; cbn [poll_prog usr1_setup usr1_iter call bind sig_call].
  - split; [by apply quiet_step_refl|]. destruct (env_install env user_defined1); cbn; eauto.
  - split; [by apply quiet_step_refl|]. cbn; auto.
  - destruct (env_usr1 env) as [[u|]|]; (split; [by apply quiet_step_refl|]); cbn; eauto 6.
  - split; [by apply quiet_other|]. cbn; eauto.
Qed.

Lemma beat_poll {A} i env (p : prog _ A) sh :
  world_inv (sh_world sh) -> (i < length (waiters (sh_world sh)))%nat ->
  quiet_step sh (snd (poll_prog (beat_call i env) p sh)).
Proof.
  intros Hw Hi. destruct p as [b|X e k]; cbn [poll_prog]; [by apply quiet_step_refl|].
  enough (Hq : quiet_step sh (snd (beat_call i env X e sh))).
  { by destruct (beat_call i env X e sh) as [[] ]. }
  destruct e as [secs| |line|X []]; cbn [beat_call].
  - pose proof (timer_spec i env sh Hw Hi) as Hs. destruct (timer_select i env sh). apply Hs.
  - by apply quiet_step_refl.
  - by apply quiet_other.
  - by apply quiet_step_refl.
Qed.

Lemma poll_bg_step i env b sh :
  world_inv (sh_world sh) -> (i < length (waiters (sh_world sh)))%nat -> task_ok b ->
  let '(b', sh') := poll_bg i env b sh in bg_step env b b' sh sh'.
Proof.
  intros Hw Hi Hb. destruct b as [k p|p|p|secs p]; cbn [poll_bg].
  - destruct Hb as [Hb _]. pose proof (sup_poll k i env p sh Hw Hi Hb) as Hs.
    destruct (poll_prog _ p sh). destruct Hs as (Hq & Hp & _).
    apply quiet_bg; [done|split; [done|apply next_sup_idem]|done].
  - destruct Hb as [got Hp]. pose proof (term_poll env p got sh Hw Hp) as Hs.
    by destruct (poll_prog _ p sh).
  - pose proof (usr1_poll env p sh Hw Hb) as Hs. destruct (poll_prog _ p sh).
    destruct Hs as [Hq Hp]. by apply quiet_bg.
  - pose proof (beat_poll i env p sh Hw Hi) as Hs. destruct (poll_prog _ p sh).
    by apply quiet_bg.
Qed.

Lemma bg_step_triggered env b b' sh sh' :
  world_inv (sh_world sh) -> bg_step env b b' sh sh' -> triggered sh = true -> triggered sh' = true.
Proof.
  intros Hw [_ _ _ [Ht|[_ ->]] _ _ _] H1; [congruence|].
  by apply (op_step_triggered Trigger (sh_world sh)).
Qed.

(** ** One poll of main *)

(** The shared state and the tasks fit together. *)
Record pool_ok (st : Shared * list Bg) : Prop := {
  po_world : world_inv (sh_world (fst st));
  po_len : length (waiters (sh_world (fst st))) = S (length (snd st));
  po_tasks : Forall task_ok (snd st);
}.

Lemma sys_pool cfg sy : sys_inv cfg sy -> pool_ok (sy_shared sy, sy_tasks sy).
Proof. intros [Hw Hl Ht _]. by constructor. Qed.

Lemma spawn_ok b st :
  pool_ok st -> task_ok b -> pool_ok (spawn b st) /\ triggered (fst (spawn b st)) = triggered (fst st).
Proof.
  intros [Hw Hl Ht] Hb. split; [|done]. constructor; cbn.
  - by apply (op_step_inv Spawn).
  - rewrite !length_app, Hl. cbn. lia.
  - apply Forall_app. auto.
Qed.

Lemma sup_handles_app ts new hs : sup_handles ts hs -> sup_handles (ts ++ new) hs.
Proof.
  intros Hs. eapply Forall_impl; [exact Hs|]. intros h (k & p & Hh). exists k, p.
  by apply lookup_app_l_Some.
Qed.

Lemma sup_handles_insert ts i b b' hs :
  ts !! i = Some b -> (forall k p, b = BSup k p -> exists p', b' = BSup k p') ->
  sup_handles ts hs -> sup_handles (<[i := b']> ts) hs.
Proof.
  intros Hi Hb Hs. eapply Forall_impl; [exact Hs|]. intros h (k & p & Hh).
  destruct (decide (h = i)) as [->|Hne].
  - rewrite list_lookup_insert_eq by (by eapply lookup_lt_Some). rewrite Hi in Hh.
    injection Hh as ->. destruct (Hb k p eq_refl) as [p' ->]. eauto.
  - rewrite list_lookup_insert_ne by done. eauto.
Qed.

Lemma main_at_insert cfg ts i b b' n p :
  ts !! i = Some b -> (forall k p, b = BSup k p -> exists p', b' = BSup k p') ->
  main_at cfg ts n p -> main_at cfg (<[i := b']> ts) n p.
Proof.
  intros Hi Hb. destruct 1; constructor; eauto using sup_handles_insert.
Qed.

(** Main goes on with [p'], having spawned [new]. *)
Record main_step (cfg : Config) (sy sy' : Sys) (n : nat) : Prop := {
  ms_pool : pool_ok (sy_shared sy', sy_tasks sy');
  ms_trig : triggered (sy_shared sy') = triggered (sy_shared sy);
  ms_new : exists new, sy_tasks sy' = sy_tasks sy ++ new /\
    Forall (fun b => forall p, b = BTerm p -> p = shutdown_task /\ (2 < n)%nat) new /\
    ((n <= 1)%nat -> new = []);
  ms_main : exists n', main_at cfg (sy_tasks sy') n' (sy_main sy') /\ (n' <= n)%nat /\
    (triggered (sy_shared sy) = true -> n' = pred n) /\
    (triggered (sy_shared sy) = false -> n' <> 0%nat);
}.

Lemma main_quiet cfg sy sh p n n' :
  pool_ok (sh, sy_tasks sy) -> triggered sh = triggered (sy_shared sy) ->
  main_at cfg (sy_tasks sy) n' p -> (n' <= n)%nat ->
  (triggered (sy_shared sy) = true -> n' = pred n) ->
  (triggered (sy_shared sy) = false -> n' <> 0%nat) ->
  main_step cfg sy (MkSys sh p (sy_tasks sy)) n.
Proof.
  intros Hp Ht Hm Hn H1 H2. constructor; cbn; [done|done| |by eauto 6].
  exists []. rewrite app_nil_r. auto.
Qed.

Lemma poll_install cfg env sh ts reg hs :
  pool_ok (sh, ts) -> sup_handles ts hs ->
  let sy := MkSys sh (main_spawn cfg [] reg hs) ts in main_step cfg sy (sys_step (PollMain env) sy) 3.
Proof.
  intros Hp Hs. cbn -[usr1_setup shutdown_task].
  destruct (spawn_ok (BTerm shutdown_task) _ Hp) as [Hp1 Ht1]; [eexists; constructor|].
  destruct (spawn_ok (BUsr1 usr1_setup) _ Hp1) as [Hp2 Ht2]; [by left|].
  constructor; cbn [sy_shared sy_main sy_tasks fst snd].
  - exact Hp2.
  - exact (eq_trans Ht2 Ht1).
  - exists [BTerm shutdown_task; BUsr1 usr1_setup]. rewrite <- app_assoc. split; [done|].
    split; [|cbn; lia]. constructor; [|by repeat constructor]. intros q [= <-]. split; [done|cbn; lia].
  - exists 2%nat. split; [|cbn; split; [lia|done]]. apply ma_beat. by do 2 apply sup_handles_app.
Qed.

Lemma poll_spawn cfg env sh ts spec specs reg hs :
  pool_ok (sh, ts) -> sup_handles ts hs -> (length (spec :: specs) <= length (listeners cfg))%nat ->
  let sy := MkSys sh (main_spawn cfg (spec :: specs) reg hs) ts in
  main_step cfg sy (sys_step (PollMain env) sy) (length (spec :: specs) + 3).
Proof.
  intros Hp Hs Hle. cbn [sys_step sy_shared sy_main sy_tasks].
  set (b := BSup (length (sh_stats sh)) (supervise_iter BACKOFF_INITIAL)).
  set (st := stats_new (name spec) (as_str (proto spec))).
  set (sh1 := MkShared (sh_world sh) (sh_stats sh ++ [st]) (sh_lines sh)).
  assert (Hp1 : pool_ok (sh1, ts)) by (destruct Hp; by constructor).
  destruct (spawn_ok b _ Hp1) as [Hp2 Ht2]; [by split; [apply iter_stoppable|]|].
  assert (Hstep : poll_prog (main_call env) (main_spawn cfg (spec :: specs) reg hs) (sh, ts) =
    (main_spawn cfg specs (reg ++ [st]) (hs ++ [length ts]), spawn b (sh1, ts))).
  { unfold main_spawn. cbn [spawn_all]. unfold spawn_listener. by destruct (proto spec). }
  rewrite Hstep. cbn [spawn fst snd]. constructor; cbn [sy_shared sy_main sy_tasks].
  - exact Hp2.
  - done.
  - exists [b]. split; [done|]. split; [|cbn; lia]. by repeat constructor.
  - exists (length specs + 3)%nat. split; [|cbn; repeat split; intros; lia].
    cbn in Hle. apply ma_spawn; [|lia]. apply Forall_app. split; [by apply sup_handles_app|].
    constructor; [|constructor]. exists (length (sh_stats sh)), (supervise_iter BACKOFF_INITIAL).
    by rewrite lookup_app_r, Nat.sub_diag by lia.
Qed.

Lemma poll_beat cfg env sh ts reg hs :
  pool_ok (sh, ts) -> sup_handles ts hs ->
  let sy := MkSys sh (main_beat cfg reg hs) ts in main_step cfg sy (sys_step (PollMain env) sy) 2.
Proof.
  intros Hp Hs. cbn -[beat_iter].
  destruct (spawn_ok (BBeat (heartbeat cfg) (beat_iter app_beat (heartbeat cfg))) _ Hp) as [Hp1 Ht1]; [done|].
  constructor; cbn [sy_shared sy_main sy_tasks].
  - exact Hp1.
  - done.
  - eexists. split; [done|]. split; [|lia]. by repeat constructor.
  - exists 1%nat. split; [|split; [lia|done]]. apply ma_wait. by apply sup_handles_app.
Qed.

Lemma poll_wait cfg env sh ts hs :
  pool_ok (sh, ts) -> sup_handles ts hs ->
  let sy := MkSys sh (main_wait hs) ts in main_step cfg sy (sys_step (PollMain env) sy) 1.
Proof.
  intros Hp Hs. unfold main_wait. cbn [sys_step sy_shared sy_main sy_tasks poll_prog call bind main_call].
  assert (Hlen : (0 < length (waiters (sh_world sh)))%nat)
    by (rewrite (po_len _ Hp : length (waiters (sh_world sh)) = _); lia).
  pose proof (poll_cancelled_spec 0 sh (po_world _ Hp) Hlen) as Hc.
  destruct (poll_cancelled 0 sh) as [c sh']. destruct Hc as ([Hw Hl Ht] & -> & _).
  assert (Hp' : pool_ok (sh', ts)) by (destruct Hp; constructor; cbn in *; congruence).
  destruct (triggered sh) eqn:Hts.
  - apply main_quiet with 0%nat; cbn; [done|congruence|by apply ma_join|lia|done|congruence].
  - apply main_quiet with 1%nat; cbn; [done|congruence|by apply ma_wait|lia|congruence|done].
Qed.

Lemma main_poll cfg env sy n :
  sys_inv cfg sy -> main_at cfg (sy_tasks sy) n (sy_main sy) ->
  (n = 0%nat -> triggered (sy_shared sy) = true) ->
  main_step cfg sy (sys_step (PollMain env) sy) n.
Proof.
  intros Hi Hm Hz. pose proof (sys_pool cfg sy Hi) as Hp.
  destruct sy as [sh p ts]. cbn [sy_shared sy_main sy_tasks] in *.
  destruct Hm as [[|spec specs] reg hs Hs Hle|reg hs Hs|hs Hs|hs Hs|];
    [by apply poll_install|by apply poll_spawn|by apply poll_beat|by apply poll_wait|..];
    specialize (Hz eq_refl); cbn [sys_step sy_shared sy_main sy_tasks].
  - unfold main_join. cbn [poll_prog call bind main_call fst snd].
    assert (Hd : main_step cfg (MkSys sh (main_join hs) ts) (MkSys sh (Ret 0) ts) 0).
    { apply main_quiet with 0%nat; cbn; [done|done|constructor|done|done|congruence]. }
    destruct (forallb _ hs); [exact Hd|]. destruct (env_timer env); [exact Hd|].
    apply main_quiet with 0%nat; cbn; [done|done|by apply ma_join|done|done|congruence].
  - apply main_quiet with 0%nat; cbn; [done|done|constructor|done|done|congruence].
Qed.

(** ** The invariant of the process *)

Lemma init_inv cfg : sys_inv cfg (sys_init cfg).
Proof.
  constructor; cbn [sys_init sy_shared sy_main sy_tasks sh_world].
  - by apply (op_step_inv Spawn), world_new_inv.
  - done.
  - constructor.
  - exists (length (listeners cfg) + 3)%nat. split; [|lia].
    apply (ma_spawn cfg [] (listeners cfg) [] []); [constructor|done].
Qed.

Lemma task_waiter cfg sy i b : sys_inv cfg sy -> sy_tasks sy !! i = Some b ->
  (S i < length (waiters (sh_world (sy_shared sy))))%nat /\ task_ok b.
Proof.
  intros Hi Hb. rewrite (si_len _ _ Hi). split; [apply lookup_lt_Some in Hb; lia|].
  eapply Forall_lookup_1; [exact (si_tasks _ _ Hi)|done].
Qed.

(** A task's poll as a step of the process. *)
Lemma task_poll cfg env sy i b :
  sys_inv cfg sy -> sy_tasks sy !! i = Some b ->
  exists b' sh', poll_bg (S i) env b (sy_shared sy) = (b', sh') /\
    sys_step (PollTask i env) sy = MkSys sh' (sy_main sy) (<[i := b']> (sy_tasks sy)) /\
    bg_step env b b' (sy_shared sy) sh'.
Proof.
  intros Hi Hb. destruct (task_waiter cfg sy i b Hi Hb) as [Hl Hok]. cbn [sys_step]. rewrite Hb.
  pose proof (poll_bg_step (S i) env b (sy_shared sy) (si_world _ _ Hi) Hl Hok) as Hs.
  destruct (poll_bg _ _ _ _) as [b' sh']. eauto.
Qed.

Lemma sys_step_inv cfg op sy :
  sys_inv cfg sy -> sys_inv cfg (sys_step op sy) /\
    (triggered (sy_shared sy) = true -> triggered (sy_shared (sys_step op sy)) = true).
Proof.
  intros Hi. destruct op as [env|i env|k o].
  - destruct (si_main _ _ Hi) as (n & Hm & Hz).
    destruct (main_poll cfg env sy n Hi Hm Hz) as [Hp Ht _ (n' & Hm' & _ & Hn1 & Hn0)].
    split; [|congruence]. destruct Hp as [Hw Hl Hts]. constructor; [done..|]. exists n'.
    split; [done|]. rewrite Ht. intros ->. by destruct (triggered (sy_shared sy)); [|destruct Hn0].
  - destruct (sy_tasks sy !! i) as [b|] eqn:Hb; [|by cbn [sys_step]; rewrite Hb].
    destruct (task_poll cfg env sy i b Hi Hb) as (b' & sh' & _ & -> & Hs).
    pose proof (bg_step_triggered env b b' _ sh' (si_world _ _ Hi) Hs) as Ht.
    destruct Hi as [Hw Hl Hts (n & Hm & Hn)], Hs as [Hok Hw' Hl' _ Hsup _ _].
    split; [|done]. constructor; cbn [sy_shared sy_main sy_tasks].
    + done.
    + rewrite length_insert. congruence.
    + by apply Forall_insert.
    + exists n. split; [by eapply main_at_insert|auto].
  - split; [|done]. destruct Hi as [Hw Hl Hts Hm]. by constructor.
Qed.

Lemma sys_run_inv cfg ops sy :
  sys_inv cfg sy -> sys_inv cfg (sys_run ops sy) /\
    (triggered (sy_shared sy) = true -> triggered (sy_shared (sys_run ops sy)) = true).
Proof.
  revert sy; induction ops as [|op ops IH]; intros sy Hi; cbn; [done|].
  destruct (sys_step_inv cfg op sy Hi) as [Hi' Ht]. destruct (IH _ Hi') as [H1 H2]. auto.
Qed.

(** ** After the trigger *)

Record stopping (cfg : Config) (r : nat) (sy : Sys) : Prop := {
  sg_inv : sys_inv cfg sy;
  sg_trig : triggered (sy_shared sy) = true;
  sg_main : main_at cfg (sy_tasks sy) r (sy_main sy);
}.

Definition dec_main (op : SysOp) (r : nat) : nat :=
  match op with PollMain _ => pred r | _ => r end.

Lemma stopping_step cfg op sy r :
  stopping cfg r sy -> stopping cfg (dec_main op r) (sys_step op sy).
Proof.
  intros [Hi Ht Hm]. destruct (sys_step_inv cfg op sy Hi) as [Hi' Ht'].
  constructor; [done|auto|]. destruct op as [env|i env|k o]; cbn [dec_main].
  - destruct (main_poll cfg env sy r Hi Hm ltac:(done)) as [_ _ _ (n' & Hm' & _ & Hn & _)].
    by rewrite <- (Hn Ht).
  - destruct (sy_tasks sy !! i) as [b|] eqn:Hb; [|by cbn [sys_step]; rewrite Hb].
    destruct (task_poll cfg env sy i b Hi Hb) as (b' & sh' & _ & -> & Hs).
    cbn. eapply main_at_insert; [exact Hb|apply Hs|done].
  - done.
Qed.

Lemma stopping_zero cfg op sy : stopping cfg 0 sy -> stopping cfg 0 (sys_step op sy).
Proof. intros Hs. apply (stopping_step cfg op) in Hs. by destruct op. Qed.

(** How many calls each supervisor may still make. *)
Definition bounded (f : nat -> nat) (sy : Sys) : Prop :=
  forall i k p, sy_tasks sy !! i = Some (BSup k p) -> returns_in (f i) p.

Definition dec_task (op : SysOp) (f : nat -> nat) : nat -> nat :=
  match op with PollTask i _ => fun j => if decide (j = i) then pred (f j) else f j | _ => f end.

Lemma bounded_step cfg op sy f :
  stopping cfg 0 sy -> bounded f sy -> bounded (dec_task op f) (sys_step op sy).
Proof.
  intros [Hi Ht Hm] Hf. destruct op as [env|i env|k o]; cbn [dec_task]; [| |done].
  - destruct (main_poll cfg env sy 0 Hi Hm ltac:(done)) as [_ _ (new & Hn & _ & Hnew) _].
    rewrite (Hnew ltac:(lia)), app_nil_r in Hn. unfold bounded. by rewrite Hn.
  - destruct (sy_tasks sy !! i) as [b|] eqn:Hb.
    2: { cbn [sys_step]. rewrite Hb. intros j k p Hj. case_decide as Hd; [|by apply Hf in Hj].
         congruence. }
    destruct (task_poll cfg env sy i b Hi Hb) as (b' & sh' & Hp & -> & Hs).
    intros j k p Hj. cbn [sy_tasks] in Hj. case_decide as Hd; cycle 1.
    { rewrite list_lookup_insert_ne in Hj by done. by apply Hf in Hj. }
    subst j. rewrite list_lookup_insert_eq in Hj by (by eapply lookup_lt_Some).
    injection Hj as ->. destruct (task_waiter cfg sy i b Hi Hb) as [Hl Hok].
    destruct b as [k' p'|p'|p'|s' p']; cbn [poll_bg] in Hp; try (by destruct (poll_prog _ _ _)).
    destruct Hok as [Hok _].
    pose proof (sup_poll k' (S i) env p' _ (si_world _ _ Hi) Hl Hok) as Hsp.
    destruct (poll_prog _ p' _) as [q sh2]. injection Hp as -> <- <-.
    destruct Hsp as (_ & _ & Hr). specialize (Hf i k p' Hb). destruct (f i) as [|n]; cbn [pred].
    + apply Hr; [done|]. by apply returns_in_S in Hf.
    + by apply Hr.
Qed.

(** ** Fair schedules *)

(** Every task is polled in every round. *)
Definition covers (n : nat) (ops : list SysOp) : Prop :=
  (exists env, PollMain env ∈ ops) /\
  forall i, (i < n)%nat -> exists env, PollTask i env ∈ ops.

Fixpoint fair (sy : Sys) (rounds : list (list SysOp)) : Prop :=
  match rounds with
  | [] => True
  | ops :: rounds => covers (length (sy_tasks sy)) ops /\ fair (sys_run ops sy) rounds
  end.

Definition run_rounds (rounds : list (list SysOp)) (sy : Sys) : Sys :=
  foldl (fun sy ops => sys_run ops sy) sy rounds.

Lemma fair_app sy r1 r2 : fair sy (r1 ++ r2) <-> fair sy r1 /\ fair (run_rounds r1 sy) r2.
Proof.
  revert sy; induction r1 as [|ops r1 IH]; intros sy; cbn; [naive_solver|]. rewrite IH. naive_solver.
Qed.

Lemma main_at_zero cfg ts p :
  main_at cfg ts 0 p -> p = Ret 0 \/ exists hs, p = main_join hs /\ sup_handles ts hs.
Proof. inversion 1; subst; [lia|eauto|auto]. Qed.

(** In a round, main gets one call further. *)
Lemma round_main cfg ops sy r :
  stopping cfg r sy -> exists r', stopping cfg r' (sys_run ops sy) /\ (r' <= r)%nat /\
    ((exists env, PollMain env ∈ ops) -> (r' <= pred r)%nat).
Proof.
  revert sy r; induction ops as [|op ops IH]; intros sy r Hs; cbn.
  - exists r. split; [done|]. split; [done|]. intros [env Hin]. set_solver.
  - destruct (IH _ _ (stopping_step cfg op sy r Hs)) as (r' & Hs' & Hle & Hp).
    exists r'. split; [done|]. destruct op as [env|i env|k o]; cbn [dec_main] in *.
    + split; [lia|]. intros _. lia.
    + split; [done|]. intros [e He]. apply Hp. exists e. set_solver.
    + split; [done|]. intros [e He]. apply Hp. exists e. set_solver.
Qed.

(** In a round of a stopping process whose main joins, each supervisor gets one
    call further. *)
Lemma round_tasks cfg ops sy f :
  stopping cfg 0 sy -> bounded f sy ->
  exists g, bounded g (sys_run ops sy) /\
    forall i, (g i <= f i)%nat /\ ((exists env, PollTask i env ∈ ops) -> (g i <= pred (f i))%nat).
Proof.
  revert sy f; induction ops as [|op ops IH]; intros sy f Hs Hf; cbn.
  - exists f. split; [done|]. intros i. split; [done|]. intros [env Hin]. set_solver.
  - pose proof (stopping_zero cfg op sy Hs) as Hs'.
    destruct (IH _ _ Hs' (bounded_step cfg op sy f Hs Hf)) as (g & Hg & Hle).
    exists g. split; [done|]. intros i. destruct (Hle i) as [H1 H2].
    assert (H3 : (dec_task op f i <= f i)%nat)
      by (destruct op; cbn; [done| |done]; case_decide; lia).
    split; [lia|]. intros [env Hin]. apply elem_of_cons in Hin as [<-|Hin].
    + cbn in H1. rewrite decide_True in H1 by done. lia.
    + specialize (H2 ltac:(eauto)). lia.
Qed.

Lemma returns_in_le n m p : (n <= m)%nat -> returns_in n p -> returns_in m p.
Proof. induction 1; auto using returns_in_S. Qed.

Definition all_within (m : nat) (sy : Sys) : Prop :=
  forall i k p, sy_tasks sy !! i = Some (BSup k p) -> returns_in m p.

Lemma inv_within cfg sy : sys_inv cfg sy -> all_within 4 sy.
Proof.
  intros Hi i k p Hp. destruct (task_waiter cfg sy i _ Hi Hp) as [_ [Hs Hn]].
  rewrite <- Hn. by destruct p; apply Hs.
Qed.

Lemma rounds_main cfg rounds sy r :
  stopping cfg r sy -> fair sy rounds -> (r <= length rounds)%nat ->
  stopping cfg 0 (run_rounds rounds sy).
Proof.
  revert sy r; induction rounds as [|ops rounds IH]; intros sy r Hs; cbn.
  - intros _ Hr. by replace r with 0%nat in Hs by lia.
  - intros [[Hm _] Hf] Hr. destruct (round_main cfg ops sy r Hs) as (r' & Hs' & _ & Hle).
    specialize (Hle Hm). apply (IH _ r'); [done|done|lia].
Qed.

(** A main that joins spawns nothing. *)
Lemma joining_len cfg ops sy :
  stopping cfg 0 sy -> length (sy_tasks (sys_run ops sy)) = length (sy_tasks sy).
Proof.
  revert sy; induction ops as [|op ops IH]; intros sy Hs; cbn; [done|].
  unfold sys_run in IH. rewrite IH by (by apply stopping_zero).
  destruct Hs as [Hi Ht Hmain], op as [env|i env|k o]; [| |done].
  - destruct (main_poll cfg env sy 0 Hi Hmain ltac:(done)) as [_ _ (new & -> & _ & Hnew) _].
    by rewrite (Hnew ltac:(lia)), app_nil_r.
  - cbn [sys_step]. destruct (sy_tasks sy !! i); [|done]. destruct (poll_bg _ _ _ _).
    cbn. by rewrite length_insert.
Qed.

Lemma rounds_tasks cfg rounds sy m :
  stopping cfg 0 sy -> all_within m sy -> fair sy rounds -> (m <= length rounds)%nat ->
  all_within 0 (run_rounds rounds sy).
Proof.
  revert sy m; induction rounds as [|ops rounds IH]; intros sy m Hs Hm; cbn.
  - intros _ Hr. by replace m with 0%nat in Hm by lia.
  - intros [[_ Hc] Hf] Hr.
    destruct (round_tasks cfg ops sy (fun _ => m) Hs) as (g & Hg & Hle); [exact Hm|].
    destruct (round_main cfg ops sy 0 Hs) as (r' & Hs' & Hr' & _).
    replace r' with 0%nat in Hs' by lia. apply (IH _ (pred m)); [done| |done|lia].
    intros i k p Hp. apply (returns_in_le (g i)); [|by eapply Hg].
    destruct (decide (i < length (sy_tasks sy))%nat) as [Hi|Hi]; [by apply Hle, Hc|].
    exfalso. apply Hi. apply lookup_lt_Some in Hp. revert Hp.
    enough (length (sy_tasks (sys_run ops sy)) = length (sy_tasks sy)) by lia.
    by apply (joining_len cfg).
Qed.

(** Main joins the supervisors that have returned. *)
Lemma main_joins cfg env sy :
  stopping cfg 0 sy -> all_within 0 sy -> sy_main (sys_step (PollMain env) sy) = Ret 0.
Proof.
  intros [_ _ Hm] Hw. destruct sy as [sh p ts]. cbn [sy_tasks sy_main] in *.
  apply main_at_zero in Hm as [->|(hs & -> & Hs)]; [done|].
  cbn. enough (Hall : forallb (fun h => match ts !! h with Some b => finished b | None => false end) hs = true)
    by (by rewrite Hall).
  apply forallb_forall. intros h Hh. apply list_elem_of_In in Hh.
  unfold sup_handles in Hs. rewrite Forall_forall in Hs. destruct (Hs h Hh) as (k & q & Hq).
  specialize (Hw h k q Hq). rewrite Hq. by destruct q.
Qed.

Lemma sys_run_app ops ops' (sy : Sys) : sys_run (ops ++ ops') sy = sys_run ops' (sys_run ops sy).
Proof. apply foldl_app. Qed.

Lemma run_rounds_app r1 r2 (sy : Sys) : run_rounds (r1 ++ r2) sy = run_rounds r2 (run_rounds r1 sy).
Proof. apply foldl_app. Qed.

(** All supervisors have returned, and this stays so. *)
Lemma within_step cfg op sy :
  stopping cfg 0 sy -> all_within 0 sy -> all_within 0 (sys_step op sy).
Proof.
  intros Hs Hw i k p Hp. pose proof (bounded_step cfg op sy (fun _ => 0%nat) Hs Hw i k p Hp) as Hb.
  destruct op; cbn in Hb; [done| |done]. by case_decide.
Qed.

Lemma stopped_run cfg ops sy :
  stopping cfg 0 sy -> all_within 0 sy ->
  stopping cfg 0 (sys_run ops sy) /\ all_within 0 (sys_run ops sy).
Proof.
  revert sy; induction ops as [|op ops IH]; intros sy Hs Hw; cbn; [done|].
  apply IH; [by apply stopping_zero|by eapply within_step].
Qed.

Lemma main_done_run ops (sy : Sys) : sy_main sy = Ret 0 -> sy_main (sys_run ops sy) = Ret 0.
Proof.
  revert sy; induction ops as [|op ops IH]; intros sy Hm; cbn; [done|]. apply IH.
  destruct sy as [sh p ts], op as [env|i env|k o]; cbn in *; [by subst p| |done].
  destruct (ts !! i); [|done]. by destruct (poll_bg _ _ _ _).
Qed.

Lemma main_done_rounds rounds (sy : Sys) : sy_main sy = Ret 0 -> sy_main (run_rounds rounds sy) = Ret 0.
Proof.
  revert sy; induction rounds as [|ops rounds IH]; intros sy Hm; cbn; [done|].
  by apply IH, main_done_run.
Qed.

Lemma stopped_rounds cfg rounds sy :
  stopping cfg 0 sy -> all_within 0 sy -> all_within 0 (run_rounds rounds sy).
Proof.
  revert sy; induction rounds as [|ops rounds IH]; intros sy Hs Hw; cbn; [done|].
  destruct (stopped_run cfg ops sy Hs Hw). by apply IH.
Qed.

Lemma split_length {A} n (l : list A) :
  (n <= length l)%nat -> exists l1 l2, l = l1 ++ l2 /\ length l1 = n.
Proof.
  intros Hn. exists (take n l), (drop n l). rewrite take_drop, length_take. split; [done|lia].
Qed.

(** Four rounds after main has got to the join, everything has returned; in the
    next one main does. *)
Lemma stops cfg rounds sy r :
  stopping cfg r sy -> fair sy rounds -> (r + 5 <= length rounds)%nat ->
  sy_main (run_rounds rounds sy) = Ret 0 /\ all_within 0 (run_rounds rounds sy).
Proof.
  intros Hs Hf Hl. destruct (split_length r rounds) as (r1 & rest & -> & Hl1); [lia|].
  rewrite length_app in Hl. apply fair_app in Hf as [Hf1 Hf]. rewrite run_rounds_app.
  assert (Hs1 : stopping cfg 0 (run_rounds r1 sy)) by (apply (rounds_main _ _ _ r); [done|done|lia]).
  destruct (split_length 4 rest) as (r2 & [|ops r3] & -> & Hl2); [lia| |].
  { rewrite length_app in Hl. cbn in Hl. lia. }
  apply fair_app in Hf as [Hf2 [[[env Hin] _] _]]. rewrite run_rounds_app. cbn [run_rounds foldl].
  assert (Hw : all_within 0 (run_rounds r2 (run_rounds r1 sy)))
    by (apply (rounds_tasks cfg _ _ 4); [done|by eapply inv_within, Hs1|done|lia]).
  assert (Hs2 : stopping cfg 0 (run_rounds r2 (run_rounds r1 sy)))
    by (apply (rounds_main _ _ _ 0); [done|done|lia]).
  split; [|destruct (stopped_run cfg ops _ Hs2 Hw); by eapply (stopped_rounds _ r3)].
  apply (main_done_rounds r3). apply list_elem_of_split in Hin as (o1 & o2 & ->).
  rewrite sys_run_app. cbn [sys_run foldl]. apply (main_done_run o2).
  destruct (stopped_run cfg o1 _ Hs2 Hw). by eapply main_joins.
Qed.

(** ** Graceful shutdown *)

(** Main's next call, as a number. *)
Definition phase (p : prog AppE Z) : nat :=
  match p with
  | Ret _ => 0
  | Vis e _ => match e with JoinAll _ _ => 0 | UntilCancelled => 1 | SpawnHeartbeat _ _ => 2 | _ => 3 end
  end.

Lemma main_at_phase cfg ts n p : main_at cfg ts n p -> phase p = Nat.min n 3.
Proof.
  destruct 1 as [[|spec specs] reg hs _ _| | | |]; try done.
  unfold main_spawn. cbn [spawn_all]. unfold spawn_listener.
  destruct (proto spec); cbn; lia.
Qed.

(** Main has polled [cancelled] and waits. *)
Definition main_waiting (sy : Sys) : Prop :=
  phase (sy_main sy) = 1%nat /\
  exists rx, waiters (sh_world (sy_shared sy)) !! 0%nat = Some (WWait rx).

(** C14: when main is waiting and the task of SIGINT and SIGTERM has got a signal
    and triggers the shutdown, then in every schedule that polls every task in
    each round, whatever the serve tasks, timers and clocks do, after six rounds
    all supervisors have returned and [run_userspace] has returned success. *)
Theorem graceful_shutdown cfg ops i env rounds :
  let sy := sys_run ops (sys_init cfg) in
  let sy1 := sys_step (PollTask i env) sy in
  main_waiting sy -> sy_tasks sy !! i = Some (BTerm (call TriggerShutdown)) ->
  fair sy1 rounds -> (6 <= length rounds)%nat ->
  sy_main (run_rounds rounds sy1) = Ret 0 /\
  forall j k p, sy_tasks (run_rounds rounds sy1) !! j = Some (BSup k p) -> p = Ret None.
Proof.
  intros sy sy1 [Hph [rx Hrx]] Hb Hf Hl.
  destruct (sys_run_inv cfg ops _ (init_inv cfg)) as [Hi _]. fold sy in Hi.
  destruct (si_main _ _ Hi) as (n & Hm & _). pose proof (main_at_phase _ _ _ _ Hm) as Hn.
  replace n with 1%nat in Hm by lia.
  assert (Ht : triggered (sy_shared sy1) = true).
  { unfold sy1. cbn [sys_step]. rewrite Hb. cbn -[op_step]. unfold triggered. cbn [on_world sh_world].
    rewrite trigger_takes by apply Hi. apply orb_true_iff. right. apply bool_decide_eq_true.
    by eapply count_waiting_pos. }
  assert (Hs : stopping cfg 1 sy1).
  { destruct (sys_step_inv cfg (PollTask i env) sy Hi) as [Hi1 _]. constructor; [done|done|].
    destruct (task_poll cfg env sy i _ Hi Hb) as (b' & sh' & _ & Heq & Hst).
    unfold sy1. rewrite Heq. cbn. eapply main_at_insert; [done|apply Hst|done]. }
  destruct (stops cfg rounds sy1 1 Hs Hf Hl) as [H1 H2]. split; [done|].
  intros j k p Hp. specialize (H2 j k p Hp). by destruct p; cbn in H2; [subst|].
Qed.

(** ** The process ends only on a signal *)

(** The poll delivers SIGINT or SIGTERM. *)
Definition delivers (op : SysOp) : bool :=
  match op with
  | PollTask _ env => match env_signal env with Some _ => true | None => false end
  | _ => false
  end.

Record unsignalled (cfg : Config) (sy : Sys) : Prop := {
  us_inv : sys_inv cfg sy;
  us_trig : triggered (sy_shared sy) = false;
  us_term : forall i p, sy_tasks sy !! i = Some (BTerm p) -> term_at false p;
}.

Definition about_to_trigger (p : prog SigE unit) : bool :=
  match p with Vis e _ => match e with TriggerShutdown => true | _ => false end | _ => false end.

Lemma term_at_false p : term_at false p -> about_to_trigger p = false.
Proof. by inversion 1. Qed.

Lemma insert_term (ts : list Bg) i b b' j p :
  ts !! i = Some b -> <[i := b']> ts !! j = Some (BTerm p) ->
  j = i /\ b' = BTerm p \/ ts !! j = Some (BTerm p).
Proof.
  intros Hi Hj. apply list_lookup_insert_Some in Hj as [(-> & -> & _)|[_ Hj]]; auto.
Qed.

Lemma unsignalled_step cfg op sy :
  unsignalled cfg sy -> delivers op = false -> unsignalled cfg (sys_step op sy).
Proof.
  intros [Hi Ht Hp] Hd. destruct (sys_step_inv cfg op sy Hi) as [Hi' _].
  destruct op as [env|i env|k o]; [| |by constructor].
  - destruct (si_main _ _ Hi) as (n & Hm & Hz).
    destruct (main_poll cfg env sy n Hi Hm Hz) as [_ Ht' (new & Hts & Hnew & _) _].
    constructor; [done|congruence|]. intros i p Hip. rewrite Hts in Hip.
    apply lookup_app_Some in Hip as [Hip|[_ Hip]]; [by eapply Hp|].
    rewrite Forall_forall in Hnew. apply list_elem_of_lookup_2 in Hip.
    destruct (Hnew _ Hip p eq_refl) as [-> _]. constructor.
  - destruct (sy_tasks sy !! i) as [b|] eqn:Hb; [|by cbn [sys_step]; rewrite Hb].
    destruct (task_poll cfg env sy i b Hi Hb) as (b' & sh' & _ & Heq & Hs). rewrite Heq in *.
    destruct Hs as [_ _ _ Htr _ Hterm Hother]. constructor; [done| |]; cbn [sy_shared sy_tasks].
    + destruct Htr as [->|[-> _]]; [done|]. apply Hp, term_at_false in Hb. done.
    + intros j p Hj. destruct (insert_term _ _ _ _ _ _ Hb Hj) as [[-> ->]|Hj']; [|by eapply Hp].
      destruct (Hother p eq_refl) as [q ->]. destruct (Hterm q eq_refl) as (p' & [= <-] & Hq & _).
      apply Hq; [|by eapply Hp]. cbn in Hd. by destruct (env_signal env).
Qed.

(** C27: the process stops only when it is told to: in every schedule, the
    shutdown is triggered, and main returns, only if a SIGINT or SIGTERM was
    delivered; failing listeners, panics, timers and SIGUSR1 never end it. *)
Theorem exit_needs_signal cfg ops :
  let sy := sys_run ops (sys_init cfg) in
  triggered (sy_shared sy) = true \/ (exists code, sy_main sy = Ret code) ->
  existsb delivers ops = true.
Proof.
  intros sy. destruct (existsb delivers ops) eqn:Hd; [done|]. intros Hex. exfalso.
  assert (Hu : unsignalled cfg sy).
  { unfold sy. assert (Hn : unsignalled cfg (sys_init cfg)).
    { constructor; [apply init_inv| |done].
      destruct (trigger_before_subscribe_lost (Ch := Ch) (Rx := Rx)) as [Hl _].
      rewrite trigger_closed in Hl; [done|]. apply (wi_count _ world_new_inv). }
    clear Hex sy. revert Hn. generalize (sys_init cfg). induction ops as [|op ops IH]; cbn; [done|].
    apply orb_false_iff in Hd as [H1 H2]. intros sy Hsy. by apply IH, unsignalled_step. }
  destruct Hu as [Hi Ht _]. destruct Hex as [Hex|[code Hex]]; [congruence|].
  destruct (si_main _ _ Hi) as (n & Hm & Hz). pose proof (main_at_phase _ _ _ _ Hm) as Hn.
  rewrite Hex in Hn. cbn in Hn. specialize (Hz ltac:(lia)). congruence.
Qed.

(** ** A signal before anyone waits *)

(** The task of SIGINT and SIGTERM is gone and the shutdown is not triggered. *)
Record lost (cfg : Config) (sy : Sys) : Prop := {
  lo_inv : sys_inv cfg sy;
  lo_trig : triggered (sy_shared sy) = false;
  lo_term : forall i p, sy_tasks sy !! i = Some (BTerm p) -> p = Ret tt;
  lo_main : (phase (sy_main sy) <= 2)%nat;
}.

Lemma lost_step cfg op sy : lost cfg sy -> lost cfg (sys_step op sy).
Proof.
  intros [Hi Ht Hp Hph]. destruct (sys_step_inv cfg op sy Hi) as [Hi' _].
  destruct op as [env|i env|k o]; [| |by constructor].
  - destruct (si_main _ _ Hi) as (n & Hm & Hz). pose proof (main_at_phase _ _ _ _ Hm) as Hn.
    destruct (main_poll cfg env sy n Hi Hm Hz) as [_ Ht' (new & Hts & Hnew & _) (n' & Hm' & Hle & _)].
    constructor; [done|congruence| |].
    + intros i p Hip. rewrite Hts in Hip. apply lookup_app_Some in Hip as [Hip|[_ Hip]]; [by eapply Hp|].
      rewrite Forall_forall in Hnew. apply list_elem_of_lookup_2 in Hip.
      destruct (Hnew _ Hip p eq_refl). lia.
    + rewrite (main_at_phase _ _ _ _ Hm'). lia.
  - destruct (sy_tasks sy !! i) as [b|] eqn:Hb; [|by cbn [sys_step]; rewrite Hb].
    destruct (task_poll cfg env sy i b Hi Hb) as (b' & sh' & _ & Heq & Hs). rewrite Heq in *.
    destruct Hs as [_ _ _ Htr _ Hterm Hother]. constructor; cbn [sy_shared sy_tasks sy_main]; try done.
    + destruct Htr as [->|[-> _]]; [done|]. by apply Hp in Hb.
    + intros j p Hj. destruct (insert_term _ _ _ _ _ _ Hb Hj) as [[-> ->]|Hj']; [|by eapply Hp].
      destruct (Hother p eq_refl) as [q ->]. destruct (Hterm q eq_refl) as (p' & [= <-] & _ & Hq).
      by eapply Hq, Hp.
Qed.

Lemma lost_run cfg ops sy : lost cfg sy -> lost cfg (sys_run ops sy).
Proof. revert sy; induction ops as [|op ops IH]; intros sy Hl; cbn; [done|]. by apply IH, lost_step. Qed.

(** Main spawns the supervisors, none of which has run yet. *)
Lemma boot_run env cfg specs reg hs sh ts :
  Forall (fun b => exists k p, b = BSup k p) ts ->
  waiting <$> waiters (sh_world sh) = replicate (S (length ts)) false ->
  exists reg' hs' sh' ts',
    sys_run (replicate (length specs) (PollMain env)) (MkSys sh (main_spawn cfg specs reg hs) ts) =
      MkSys sh' (main_spawn cfg [] reg' hs') ts' /\
    chan (sh_world sh') = chan (sh_world sh) /\ length ts' = (length ts + length specs)%nat /\
    Forall (fun b => exists k p, b = BSup k p) ts' /\
    waiting <$> waiters (sh_world sh') = replicate (S (length ts')) false.
Proof.
  revert reg hs sh ts; induction specs as [|spec specs IH]; intros reg hs sh ts Hts Hw.
  - exists reg, hs, sh, ts. cbn. split; [done|]. split; [done|]. split; [lia|]. done.
  - set (b := BSup (length (sh_stats sh)) (supervise_iter BACKOFF_INITIAL)).
    set (st := stats_new (name spec) (as_str (proto spec))).
    set (sh1 := MkShared (sh_world sh) (sh_stats sh ++ [st]) (sh_lines sh)).
    destruct (IH (reg ++ [st]) (hs ++ [length ts]) (fst (spawn b (sh1, ts))) (ts ++ [b]))
      as (reg' & hs' & sh' & ts' & Hrun & Hc & Hl & Hall & Hw').
    { apply Forall_app. split; [done|]. constructor; [|done]. by eexists _, _. }
    { change (waiters _) with (waiters (sh_world sh) ++ [WStart (Rx := Rx)]).
      rewrite fmap_app, Hw, length_app, Nat.add_1_r. by rewrite (replicate_S_end (S (length ts))). }
    exists reg', hs', sh', ts'. split; [|split; [exact Hc|split; [rewrite Hl, length_app; cbn; lia|done]]].
    rewrite <- Hrun. cbn [length replicate sys_run foldl]. f_equal.
    cbn [sys_step sy_main sy_shared sy_tasks]. unfold main_spawn. cbn [spawn_all].
    unfold spawn_listener. by destruct (proto spec).
Qed.

(** The handlers install and a SIGTERM is pending. *)
Definition sigterm_env : Env :=
  MkEnv (fun _ => Ok 0%nat) (Some false) None None false false 0.

(** Main has installed the signal handlers but not yet polled [cancelled], and
    neither has any supervisor; the task of SIGINT and SIGTERM runs to its end. *)
Definition early_signal (cfg : Config) : list SysOp :=
  replicate (S (length (listeners cfg))) (PollMain sigterm_env) ++
  replicate 4 (PollTask (length (listeners cfg)) sigterm_env).

Lemma poll_term_eq i env (sh : Shared) p ts q :
  ts !! i = Some (BTerm q) -> forall q' sh', poll_prog (sig_call env) q sh = (q', sh') ->
  sys_step (PollTask i env) (MkSys sh p ts) = MkSys sh' p (<[i := BTerm q']> ts).
Proof. intros Hi q' sh' Hp. cbn. rewrite Hi. cbn. by rewrite Hp. Qed.

(** The task of SIGINT and SIGTERM runs to its end on a trigger without effect. *)
Lemma term_polls i (sh : Shared) p ts :
  ts !! i = Some (BTerm shutdown_task) -> trigger (chan (sh_world sh)) = chan (sh_world sh) ->
  sys_run (replicate 4 (PollTask i sigterm_env)) (MkSys sh p ts) =
    MkSys sh p (<[i := BTerm (Ret tt)]> ts).
Proof.
  intros Hi Htr.
  assert (Hlk : forall b, <[i := b]> ts !! i = Some b)
    by (intros b; apply list_lookup_insert_eq; by eapply lookup_lt_Some).
  cbn [replicate sys_run foldl].
  erewrite (poll_term_eq _ _ sh); [|exact Hi|reflexivity].
  erewrite (poll_term_eq _ _ sh); [|apply Hlk|reflexivity].
  erewrite (poll_term_eq _ _ sh); [|rewrite list_insert_insert_eq; apply Hlk|reflexivity].
  erewrite (poll_term_eq _ _ sh); [|rewrite !list_insert_insert_eq; apply Hlk|reflexivity].
  rewrite !list_insert_insert_eq. unfold on_world. cbn [op_step]. rewrite Htr.
  by destruct sh as [[] ? ?].
Qed.

Lemma early_signal_run cfg : lost cfg (sys_run (early_signal cfg) (sys_init cfg)) /\
  sy_tasks (sys_run (early_signal cfg) (sys_init cfg)) !! length (listeners cfg) = Some (BTerm (Ret tt)).
Proof.
  destruct (sys_run_inv cfg (early_signal cfg) _ (init_inv cfg)) as [Hi _].
  unfold early_signal in *. rewrite replicate_S_end, <- app_assoc, !sys_run_app in *.
  destruct (boot_run sigterm_env cfg (listeners cfg) [] []
    (MkShared (op_step Spawn world_new) [] []) []) as (reg & hs & sh & ts & Hrun & Hc & Hl & Hall & Hw);
    [done|done|].
  unfold sys_init in *. change (run_userspace cfg) with (main_spawn cfg (listeners cfg) [] []) in *.
  rewrite Hrun in *. cbn in Hl. rewrite <- Hl in *. clear Hrun.
  set (ts1 := (ts ++ [BTerm shutdown_task]) ++ [BUsr1 usr1_setup]).
  set (w := MkWorld (chan (sh_world sh)) ((waiters (sh_world sh) ++ [WStart]) ++ [WStart])).
  set (sh1 := MkShared w (sh_stats sh) (sh_lines sh)).
  change (sys_run [PollMain sigterm_env] (MkSys sh (main_spawn cfg [] reg hs) ts))
    with (MkSys sh1 (main_beat cfg reg hs) ts1) in *.
  assert (Hlk : ts1 !! length ts = Some (BTerm shutdown_task))
    by (unfold ts1; rewrite <- app_assoc; by apply list_lookup_middle).
  assert (Hnew : chan w = shutdown_new) by exact Hc.
  assert (Htr : trigger (chan w) = chan w)
    by (rewrite Hnew; apply trigger_closed, (wi_count _ world_new_inv)).
  pose proof (term_polls (length ts) sh1 (main_beat cfg reg hs) ts1 Hlk Htr) as Heq.
  rewrite Heq in *. clear Heq.
  split; [|apply list_lookup_insert_eq; by eapply lookup_lt_Some]. constructor; [done| | |done].
  - unfold triggered. cbn [sy_shared sh1 sh_world]. rewrite Hnew.
    destruct (trigger_before_subscribe_lost (Ch := Ch) (Rx := Rx)) as [Hlost _].
    rewrite trigger_closed in Hlost; [done|]. apply (wi_count _ world_new_inv).
  - cbn [sy_tasks]. intros j p Hj.
    apply list_lookup_insert_Some in Hj as [(_ & [= <-] & _)|[Hne Hj]]; [done|]. exfalso.
    unfold ts1 in Hj. rewrite <- app_assoc in Hj. apply lookup_app_Some in Hj as [Hj|[Hge Hj]].
    + rewrite Forall_forall in Hall. apply list_elem_of_lookup_2, Hall in Hj as (k & q & ?). done.
    + destruct (j - length ts)%nat as [|[|m]] eqn:Hd; cbn in Hj; [lia|done|done].
Qed.

(** C28: a SIGTERM that arrives after the handlers are installed but before main or
    a supervisor has polled [cancelled] is lost for good: the trigger finds no
    receiver, the task that waits for signals has ended, and whatever is delivered
    or happens later, the shutdown is never triggered and main never returns. *)
Theorem early_signal_lost cfg ops :
  let sy := sys_run (early_signal cfg ++ ops) (sys_init cfg) in
  existsb delivers (early_signal cfg) = true /\
  triggered (sy_shared sy) = false /\ forall code, sy_main sy <> Ret code.
Proof.
  intros sy. split.
  { unfold early_signal. rewrite existsb_app. apply orb_true_iff. by right. }
  destruct (lost_run cfg ops _ (proj1 (early_signal_run cfg))) as [Hi Ht _ _].
  rewrite <- sys_run_app in Hi, Ht. fold sy in Hi, Ht. split; [done|]. intros code Hc.
  destruct (si_main _ _ Hi) as (n & Hm & Hz). pose proof (main_at_phase _ _ _ _ Hm) as Hn.
  rewrite Hc in Hn. cbn in Hn. specialize (Hz ltac:(lia)). congruence.
Qed.

End System.

(** ** Witnesses *)

Definition idle_env : Env := MkEnv (fun _ => Ok 0%nat) None None None false false 0.

Definition one_listener : Config :=
  MkConfig [MkListener Tcp ":80" 80 ["1.2.3.4:443"%string : str] true "tcp://:80"] []
    Userspace None false 32768 60 false None default_opts.

(** Main starts everything and waits; then a SIGTERM arrives. *)
Definition late_signal : list SysOp :=
  replicate 4 (PollMain idle_env) ++ replicate 3 (PollTask 1 sigterm_env).

Definition poll_everything : list SysOp :=
  PollMain idle_env :: ((fun i => PollTask i idle_env) <$> seq 0 4).

Lemma graceful_shutdown_witness :
  let sy : Sys (Ch := Chan) (Rx := nat) := sys_run late_signal (sys_init one_listener) in
  sy_main (run_rounds (replicate 6 poll_everything) (sys_step (PollTask 1 sigterm_env) sy)) = Ret 0.
Proof.
  intros sy. apply (graceful_shutdown one_listener late_signal 1 sigterm_env).
  - split; [reflexivity|]. exists 0%nat. reflexivity.
  - reflexivity.
  - assert (Hc : covers 4 poll_everything).
    { split; [exists idle_env; apply elem_of_cons; by left|]. intros i Hi. exists idle_env.
      apply elem_of_cons. right. apply list_elem_of_fmap. exists i. split; [done|]. apply elem_of_seq. lia. }
    repeat split; exact (proj1 Hc) || exact (proj2 Hc).
  - simpl. lia.
Defined.

Lemma exit_needs_signal_witness :
  let sy : Sys (Ch := Chan) (Rx := nat) :=
    sys_run (late_signal ++ [PollTask 1 idle_env]) (sys_init one_listener) in
  triggered (sy_shared sy) = true /\ existsb delivers (late_signal ++ [PollTask 1 idle_env]) = true.
Proof.
  intros sy. assert (Ht : triggered (sy_shared sy) = true) by reflexivity. split; [exact Ht|].
  apply (exit_needs_signal (Ch := Chan) (Rx := nat) one_listener). left. exact Ht.
Defined.

(** A second SIGTERM after the lost one does not stop the process either. *)
Lemma early_signal_lost_witness :
  let sy : Sys (Ch := Chan) (Rx := nat) :=
    sys_run (early_signal one_listener ++ late_signal) (sys_init one_listener) in
  triggered (sy_shared sy) = false.
Proof.
  exact (proj1 (proj2 (early_signal_lost (Ch := Chan) (Rx := nat) one_listener late_signal))).
Defined.
