(* ===== verification/NatSystem.v ===== *)
(** * The running process in NAT mode

    [nat_run] with the tasks it spawns (the two signal tasks, whose dump reads the
    counters, and the heartbeat) as concurrently polled programs, like System.v
    for userspace mode: they share the shutdown channel and the machine of
    Machine.v, on which main and the status tasks run [nft] side by side.  A
    schedule is any list of polls with the answers of the outside. *)

From S2P Require Import Prelude Str Io Interference Config Runtime Stats Signals Heartbeat Nftables Json Status Nat Machine Supervisor App System.
From Stdlib Require Import RelationClasses.

Section NatSystem.
Context {Ch Rx : Type} `{WatchLaws Ch Rx}.
Context {S : Type} (h : handler NatE S) `{MachineLaws S h}.
Context {V : Type} `{Json V}.









(** ** The process *)








(** ** Tasks and the machine *)















(** ** Where main is *)












(** ** The invariant of the process *)




















(** ** What the position of main says *)



(** ** Only a signal ends it *)







(** ** A signal ends it *)





End NatSystem.

(** ** Witnesses *)

#[local] Existing Instance text_json.







