(* ===== verification/Listener.v ===== *)
(** * One listener: the supervisor and the serve loop it restarts

    [supervise] (Supervisor.v) runs against real serve loops instead of an
    arbitrary environment.  What it needs of a forwarder is the class
    [ServeLoop] with its laws; the TCP accept loop and the UDP receive loop are
    the instances.  A listener is the supervisor's remaining program, the
    generations of serve loops it has spawned, the counters they all share and
    the shutdown; every interleaving of the supervisor, the loops and their
    connection tasks is a run. *)

From S2P Require Import Prelude Str Ip Io Constants Config Stats Supervisor Tcp Udp System.

(** ** What a forwarder promises its supervisor *)

Class ServeLoop (St Ev : Type) := {
  sl_bind : ListenerStats -> Z -> io_result unit -> io_result St;   (* the bind, at a time *)
  sl_step : Ev -> St -> option St;
  sl_stats : St -> ListenerStats;
  sl_with : ListenerStats -> St -> St;       (* the shared counters, changed by others *)
  sl_ended : St -> bool;                     (* the loop has returned Ok *)
  sl_loop : Ev -> bool;                      (* an event of the loop, not of a task *)
  sl_cancels : Ev -> bool;                   (* shutdown.cancelled() in the loop *)
  sl_error : Ev -> bool;                     (* counted as an error *)
  sl_live : St -> nat;                       (* connections being handled *)
  sl_made : St -> nat;                       (* connections ever handled *)
}.

Class ServeLaws (St Ev : Type) `{ServeLoop St Ev} : Prop := {
  bind_law st now : exists s, sl_bind st now (Ok tt) = Ok s /\ sl_stats s = st /\
    sl_live s = 0%nat /\ sl_made s = 0%nat /\ sl_ended s = false;
  bind_fails st now e : exists e', sl_bind st now (Err e) = Err e';
  with_law st s : sl_stats (sl_with st s) = st /\ sl_live (sl_with st s) = sl_live s /\
    sl_made (sl_with st s) = sl_made s /\ sl_ended (sl_with st s) = sl_ended s;
  step_counted ev s s' live made : sl_step ev s = Some s' ->
    counted (live + sl_live s) (made + sl_made s) (sl_stats s) ->
    counted (live + sl_live s') (made + sl_made s') (sl_stats s');
  step_errors ev s s' : sl_step ev s = Some s' ->
    errors (sl_stats s') = if sl_error ev then fetch_add (errors (sl_stats s)) else errors (sl_stats s);
  step_kept ev s s' : sl_step ev s = Some s' ->
    restarts (sl_stats s') = restarts (sl_stats s) /\ last_error (sl_stats s') = last_error (sl_stats s);
  step_ended ev s s' : sl_step ev s = Some s' -> sl_ended s' = sl_ended s || sl_cancels ev;
  step_loop ev s s' : sl_step ev s = Some s' -> sl_loop ev = true -> sl_ended s = false;
  cancels_loop ev : sl_cancels ev = true -> sl_loop ev = true;
}.

(** ** The listener *)

Section Listener.
Context {St Ev : Type} `{ServeLaws St Ev}.

(** A spawned serve task: not polled yet, failed to bind, or serving. *)
Record Gen := MkGen { g_state : option (io_result St); g_aborted : bool }.

Record Core := MkCore { c_gens : list Gen; c_stats : ListenerStats; c_trig : bool }.

(** What the join handle of a serve task gives, if the task is over.  The serve
    loops of validated listeners have no panic of their own (a target always
    exists), so a task ends only by an error of its bind, on the shutdown or by
    an abort. *)
Definition joined (g : Gen) : option Joined :=
  if g_aborted g then Some Aborted else
  match g_state g with
  | None => None
  | Some (Err e) => Some (Finished (Err e))
  | Some (Ok s) => if sl_ended s then Some (Finished (Ok tt)) else None
  end.

Definition abort_gen (h : nat) (gens : list Gen) : list Gen :=
  match gens !! h with
  | Some g => <[h := MkGen (g_state g) true]> gens
  | None => gens
  end.

(** The timer of the back-off and the clock. *)
Record SupEnv := MkSupEnv { se_timer : bool; se_first : bool; se_clock : Z }.

Definition lst_call (env : SupEnv) : poller SupE Core :=
  fun X e c => match e in SupE X return option X * Core with
  | IsTriggered => (Some (c_trig c), c)
  | Now => (Some (se_clock env), c)
  | SpawnServe =>
      (Some (length (c_gens c)), MkCore (c_gens c ++ [MkGen None false]) (c_stats c) (c_trig c))
  | SelectJoin h =>
      (if c_trig c then Some None
       else match c_gens c !! h with Some g => Some <$> joined g | None => None end, c)
  | AbortTask h =>
      (Some tt, MkCore (abort_gen h (c_gens c)) (c_stats c) (c_trig c))
  | ElapsedSince _ => (Some (se_clock env), c)
  | Stat o => (Some tt, MkCore (c_gens c) (stat_op o (c_stats c)) (c_trig c))
  | SelectSleep _ =>
      (if se_timer env && (se_first env || negb (c_trig c)) then Some true
       else if c_trig c then Some false else None, c)
  end.

Record Lst := MkLst { l_sup : prog SupE (option Z); l_core : Core }.

Inductive LstOp :=
| LSup (env : SupEnv)                              (* poll the supervisor *)
| LBind (g : nat) (now : Z) (r : io_result unit)   (* first poll of a serve task *)
| LEv (g : nat) (ev : Ev)                          (* an event of its loop or its tasks *)
| LTrigger.                                        (* the shutdown is triggered *)

(** [None]: the operation cannot happen now. *)
Definition lst_step (op : LstOp) (l : Lst) : option Lst :=
  let c := l_core l in
  match op with
  | LSup env =>
      let '(p, c) := poll_prog (lst_call env) (l_sup l) c in Some (MkLst (next_sup p) c)
  | LBind g now r =>
      match c_gens c !! g with
      | Some (MkGen None false) =>
          Some (MkLst (l_sup l) (MkCore
            (<[g := MkGen (Some (sl_bind (c_stats c) now r)) false]> (c_gens c)) (c_stats c) (c_trig c)))
      | _ => None
      end
  | LEv g ev =>
      match c_gens c !! g with
      | Some (MkGen (Some (Ok s)) aborted) =>
          if aborted && sl_loop ev || sl_cancels ev && negb (c_trig c) then None else
          s' ← sl_step ev (sl_with (c_stats c) s);
          Some (MkLst (l_sup l) (MkCore
            (<[g := MkGen (Some (Ok s')) aborted]> (c_gens c)) (sl_stats s') (c_trig c)))
      | _ => None
      end
  | LTrigger => Some (MkLst (l_sup l) (MkCore (c_gens c) (c_stats c) true))
  end.

Fixpoint lst_run (ops : list LstOp) (l : Lst) : option Lst :=
  match ops with
  | [] => Some l
  | op :: ops => l ← lst_step op l; lst_run ops l
  end.

Definition lst_init (name proto : str) : Lst :=
  MkLst (supervise_iter BACKOFF_INITIAL) (MkCore [] (stats_new name proto) false).

(** ** Where the supervisor is *)

Definition s_sleep (b : Z) : prog SupE (option Z) :=
  await slept := call (SelectSleep b) in
  if (slept : bool) then Ret (Some (Z.min (b * 2) BACKOFF_MAX)) else Ret None.

Definition s_restart (b : Z) : prog SupE (option Z) :=
  await _ := call (Stat IncRestart) in s_sleep b.

Definition s_elapsed (b t : Z) : prog SupE (option Z) :=
  await elapsed := call (ElapsedSince t) in
  s_restart (if BACKOFF_HEALTHY <=? elapsed then BACKOFF_INITIAL else b).

Definition s_check (b t : Z) : prog SupE (option Z) :=
  await trig := call IsTriggered in if (trig : bool) then Ret None else s_elapsed b t.

Definition s_error (b t : Z) (msg : str) : prog SupE (option Z) :=
  await _ := call (Stat (SetLastError msg)) in s_check b t.

Definition s_abort (h : nat) : prog SupE (option Z) :=
  await _ := call (AbortTask h) in Ret None.

Definition s_join (b t : Z) (h : nat) : prog SupE (option Z) :=
  await selected := call (SelectJoin h) in
  match (selected : option Joined) with
  | None => s_abort h
  | Some outcome =>
      match failure outcome with
      | None => Ret None
      | Some msg => s_error b t msg
      end
  end.

Definition s_spawn (b t : Z) : prog SupE (option Z) :=
  await h := call SpawnServe in s_join b t h.

Definition s_now (b : Z) : prog SupE (option Z) :=
  await t := call Now in s_spawn b t.

(** A serve task that could not bind. *)
Definition failed (g : Gen) : Prop := exists e, g = MkGen (Some (Err e)) false.

Definition bind_error (e : io_error) (gens : list Gen) : Prop :=
  exists aborted, MkGen (Some (Err e)) aborted ∈ gens.

(** Between two serve tasks. *)
Inductive idle_at : prog SupE (option Z) -> Prop :=
| ia_top b : idle_at (supervise_iter b)
| ia_now b : idle_at (s_now b)
| ia_spawn b t : idle_at (s_spawn b t)
| ia_sleep b : idle_at (s_sleep b).

(** After a serve task has failed, before the restart is counted. *)
Inductive fail_at (gens : list Gen) : prog SupE (option Z) -> Prop :=
| fa_error b t e : bind_error e gens -> fail_at gens (s_error b t (err_msg e))
| fa_check b t : fail_at gens (s_check b t)
| fa_elapsed b t : fail_at gens (s_elapsed b t)
| fa_restart b : fail_at gens (s_restart b).

(** The supervisor's remaining program, with the serve tasks spawned and the
    restarts counted: every serve task but the last one has failed to bind. *)
Inductive sup_at : list Gen -> nat -> prog SupE (option Z) -> Prop :=
| sa_idle gens p : Forall failed gens -> idle_at p -> sup_at gens (length gens) p
| sa_join gens g b t : Forall failed gens -> g_aborted g = false ->
    sup_at (gens ++ [g]) (length gens) (s_join b t (length gens))
| sa_abort gens g : Forall failed gens ->
    sup_at (gens ++ [g]) (length gens) (s_abort (length gens))
| sa_fail gens g p : Forall failed (gens ++ [g]) -> fail_at (gens ++ [g]) p ->
    sup_at (gens ++ [g]) (length gens) p
| sa_done gens g : Forall failed gens -> sup_at (gens ++ [g]) (length gens) (Ret None)
| sa_stop gens : Forall failed gens -> sup_at gens (length gens) (Ret None).

Definition gen_live (g : Gen) : nat := match g_state g with Some (Ok s) => sl_live s | _ => 0 end.
Definition gen_made (g : Gen) : nat := match g_state g with Some (Ok s) => sl_made s | _ => 0 end.

Record lst_inv (errs : nat) (l : Lst) : Prop := {
  li_sup : exists r, sup_at (c_gens (l_core l)) r (l_sup l) /\
    restarts (c_stats (l_core l)) = wrap 64 (Z.of_nat r);
  li_counted : counted (sum_list_with gen_live (c_gens (l_core l)))
    (sum_list_with gen_made (c_gens (l_core l))) (c_stats (l_core l));
  li_errors : errors (c_stats (l_core l)) = wrap 64 (Z.of_nat errs);
  li_last : forall m, last_error (c_stats (l_core l)) = Some m ->
    exists e, bind_error e (c_gens (l_core l)) /\ err_msg e = m;
}.

(** ** One operation *)

Lemma sum_insert {A} (f : A -> nat) (xs : list A) i x :
  xs !! i = Some x -> exists rest, sum_list_with f xs = (rest + f x)%nat /\
    forall y, sum_list_with f (<[i := y]> xs) = (rest + f y)%nat.
Proof.
  revert i; induction xs as [|z xs IH]; intros [|i] Hi; simplify_eq/=.
  - exists (sum_list_with f xs). split; [lia|]. intros y. lia.
  - destruct (IH i Hi) as (rest & H1 & H2). exists (f z + rest)%nat. split; [lia|].
    intros y. cbn. rewrite H2. lia.
Qed.

(** The shared state after a call of the supervisor that touches only the serve
    tasks it holds. *)
Record sup_kept (c c' : Core) : Prop := {
  sk_live : sum_list_with gen_live (c_gens c') = sum_list_with gen_live (c_gens c);
  sk_made : sum_list_with gen_made (c_gens c') = sum_list_with gen_made (c_gens c);
  sk_errors e : bind_error e (c_gens c) -> bind_error e (c_gens c');
}.

Lemma sup_kept_refl c c' : c_gens c' = c_gens c -> sup_kept c c'.
Proof. intros Hg. constructor; rewrite ?Hg; auto. Qed.

Lemma sup_kept_spawn c st tr : sup_kept c (MkCore (c_gens c ++ [MkGen None false]) st tr).
Proof.
  constructor; cbn; rewrite ?sum_list_with_app; cbn; [lia|lia|].
  intros e [ab Hin]. exists ab. apply elem_of_app. by left.
Qed.

Lemma sup_kept_abort c h st tr : sup_kept c (MkCore (abort_gen h (c_gens c)) st tr).
Proof.
  unfold abort_gen. destruct (c_gens c !! h) as [g|] eqn:Hg; [|by apply sup_kept_refl].
  constructor; cbn.
  - destruct (sum_insert gen_live _ _ _ Hg) as (rest & -> & ->). done.
  - destruct (sum_insert gen_made _ _ _ Hg) as (rest & -> & ->). done.
  - intros e [ab Hin]. apply list_elem_of_lookup in Hin as [i Hi]. unfold bind_error.
    destruct (decide (i = h)) as [->|Hne].
    + exists true. rewrite Hg in Hi. injection Hi as ->. apply list_elem_of_lookup. exists h.
      apply list_lookup_insert_eq. by eapply lookup_lt_Some.
    + exists ab. apply list_elem_of_lookup. exists i. by rewrite list_lookup_insert_ne.
Qed.

(** The last serve task, by its handle. *)
Lemma last_gen (gens : list Gen) g : (gens ++ [g]) !! length gens = Some g.
Proof. by apply list_lookup_middle. Qed.

(** The supervisor's poll: the serve tasks and the restarts agree again. *)
Record sup_polled (r : nat) (p' : prog SupE (option Z)) (c c' : Core) : Prop := {
  sp_kept : sup_kept c c';
  sp_at : exists r', sup_at (c_gens c') r' (next_sup p') /\
    restarts (c_stats c') = (if decide (r' = r) then restarts (c_stats c) else fetch_add (restarts (c_stats c))) /\
    (r' = r \/ r' = S r);
  sp_stats : (accepted (c_stats c'), active (c_stats c'), errors (c_stats c')) =
    (accepted (c_stats c), active (c_stats c), errors (c_stats c));
  sp_last m : last_error (c_stats c') = Some m -> last_error (c_stats c) = Some m \/
    exists e, bind_error e (c_gens c) /\ err_msg e = m;
}.

Lemma polled_same r p' c : sup_at (c_gens c) r (next_sup p') -> sup_polled r p' c c.
Proof.
  intros Hs. constructor; [by apply sup_kept_refl| |done|auto].
  exists r. rewrite decide_True by done. auto.
Qed.

Lemma idle_poll env c p :
  Forall failed (c_gens c) -> idle_at p ->
  let '(p', c') := poll_prog (lst_call env) p c in sup_polled (length (c_gens c)) p' c c'.
Proof.
  intros Hf Hp. destruct Hp as [b|b|b t|b]; cbn.
  - destruct (c_trig c); apply polled_same; [by constructor|]. apply sa_idle; [done|constructor].
  - apply polled_same. apply sa_idle; [done|constructor].
  - constructor; [apply sup_kept_spawn| |done|auto].
    exists (length (c_gens c)). rewrite decide_True by done. split; [|auto].
    by apply (sa_join (c_gens c) (MkGen None false)).
  - destruct (_ && _); [|destruct (c_trig c)]; apply polled_same; cbn.
    + apply sa_idle; [done|constructor].
    + by constructor.
    + apply sa_idle; [done|apply (ia_sleep b)].
Qed.

Lemma join_poll env c gens g b t :
  c_gens c = gens ++ [g] -> Forall failed gens -> g_aborted g = false ->
  let '(p', c') := poll_prog (lst_call env) (s_join b t (length gens)) c in
  sup_polled (length gens) p' c c'.
Proof.
  intros Hg Hf Hab. cbn. rewrite Hg, last_gen. unfold joined. rewrite Hab.
  destruct (c_trig c).
  { apply polled_same. rewrite Hg. by apply (sa_abort gens g). }
  destruct g as [[[s|e]|] ab]; cbn in *; subst ab.
  - destruct (sl_ended s); apply polled_same; rewrite Hg; cbn; [by constructor|by apply sa_join].
  - apply polled_same. rewrite Hg. cbn. apply sa_fail.
    + apply Forall_app. split; [done|]. constructor; [by exists e|done].
    + apply (fa_error _ b t e). exists false. apply elem_of_app. right. by apply list_elem_of_singleton.
  - apply polled_same. rewrite Hg. by apply sa_join.
Qed.

Lemma fail_poll env c gens g p :
  c_gens c = gens ++ [g] -> Forall failed (gens ++ [g]) -> fail_at (gens ++ [g]) p ->
  let '(p', c') := poll_prog (lst_call env) p c in sup_polled (length gens) p' c c'.
Proof.
  intros Hg Hf Hp. assert (Hf' := Hf). apply Forall_app in Hf' as [Hf' _].
  destruct Hp as [b t e He|b t|b t|b]; cbn.
  - constructor; [by apply sup_kept_refl| |done|].
    + exists (length gens). rewrite decide_True by done. cbn. rewrite Hg. split; [|auto].
      apply sa_fail; [done|constructor].
    + intros m [= <-]. right. exists e. by rewrite Hg.
  - destruct (c_trig c); apply polled_same; rewrite Hg; [by constructor|].
    apply sa_fail; [done|constructor].
  - apply polled_same. rewrite Hg. apply sa_fail; [done|apply (fa_restart _ _)].
  - constructor; [by apply sup_kept_refl| |done|auto].
    exists (S (length gens)). rewrite decide_False by lia. cbn. rewrite Hg. split; [|auto].
    replace (S (length gens)) with (length (gens ++ [g])) by (rewrite length_app; cbn; lia).
    apply sa_idle; [done|constructor].
Qed.

Lemma sup_poll_at env c r p :
  sup_at (c_gens c) r p ->
  let '(p', c') := poll_prog (lst_call env) p c in sup_polled r p' c c'.
Proof.
  intros Hs. remember (c_gens c) as gs eqn:Hgs. destruct Hs as [gens p Hf Hp|gens g b t Hf Hab|gens g Hf|gens g p Hf Hp|gens g Hf|gens Hf].
  - subst gens. by apply idle_poll.
  - by apply (join_poll env c gens g).
  - cbn. constructor; [apply sup_kept_abort| |done|auto].
    exists (length gens). rewrite decide_True by done. cbn. split; [|auto].
    unfold abort_gen. rewrite <- Hgs, last_gen, insert_app_r_alt, Nat.sub_diag by lia. by constructor.
  - by apply (fail_poll env c gens g).
  - apply polled_same. rewrite <- Hgs. by constructor.
  - apply polled_same. rewrite <- Hgs. by constructor.
Qed.

(** The serve task that is not failed is the last one; it can change. *)
Lemma sup_at_change gens r p i g g' :
  sup_at gens r p -> gens !! i = Some g -> ~ failed g -> g_aborted g' = g_aborted g ->
  sup_at (<[i := g']> gens) r p.
Proof.
  intros Hs Hi Hn Hab.
  assert (Hno : forall gs, Forall failed gs -> gs !! i <> Some g)
    by (intros gs Hf Hx; apply Hn; exact (Forall_lookup_1 _ _ _ _ Hf Hx)).
  assert (Hlast : forall gs x, Forall failed gs -> (gs ++ [x]) !! i = Some g ->
    x = g /\ <[i := g']> (gs ++ [x]) = gs ++ [g']).
  { intros gs x Hf Hx. apply lookup_app_Some in Hx as [Hx|[Hle Hx]]; [by destruct (Hno gs Hf)|].
    apply list_lookup_singleton_Some in Hx as [Hz ->]. split; [done|].
    rewrite insert_app_r_alt by done. by rewrite Hz. }
  destruct Hs as [gs p Hf Hp|gs x b t Hf Ha|gs x Hf|gs x p Hf Hp|gs x Hf|gs Hf].
  1, 4, 6: by destruct (Hno _ Hf).
  all: destruct (Hlast gs x Hf Hi) as [-> ->]; constructor; congruence.
Qed.

Lemma bind_error_change e gens i g g' :
  gens !! i = Some g -> (forall e' ab, g <> MkGen (Some (Err e')) ab) ->
  bind_error e gens -> bind_error e (<[i := g']> gens).
Proof.
  intros Hi Hn [ab Hin]. exists ab. apply list_elem_of_lookup in Hin as [j Hj].
  apply list_elem_of_lookup. exists j. rewrite list_lookup_insert_ne; [done|]. intros ->.
  rewrite Hi in Hj. injection Hj as ->. by destruct (Hn e ab).
Qed.

Definition counts_error (op : LstOp) : bool :=
  match op with LEv _ ev => sl_error ev | _ => false end.

Lemma lst_bind_inv errs l g now b l' :
  lst_inv errs l -> lst_step (LBind g now b) l = Some l' -> lst_inv errs l'.
Proof.
  intros [(r & Hat & Hr) Hc He Hl] Hs. cbn in Hs.
  destruct (c_gens (l_core l) !! g) as [[[]  []]|] eqn:Hg; try done. injection Hs as <-.
  assert (Hz : gen_live (MkGen (Some (sl_bind (c_stats (l_core l)) now b)) false) = 0%nat /\
               gen_made (MkGen (Some (sl_bind (c_stats (l_core l)) now b)) false) = 0%nat).
  { destruct b as [[]|e].
    - destruct (bind_law (c_stats (l_core l)) now) as (s & -> & _ & H1 & H2 & _). done.
    - destruct (bind_fails (c_stats (l_core l)) now e) as [e' ->]. done. }
  constructor; cbn [l_core l_sup c_gens c_stats].
  - exists r. split; [|done]. eapply sup_at_change; [done|exact Hg|by intros [e [=]]|done].
  - destruct (sum_insert gen_live _ _ _ Hg) as (n & H1 & ->).
    destruct (sum_insert gen_made _ _ _ Hg) as (m & H2 & ->).
    rewrite H1, H2 in Hc. destruct Hz as [-> ->]. exact Hc.
  - done.
  - intros m Hm. destruct (Hl m Hm) as (e & Hin & Hmsg). exists e. split; [|done].
    by eapply bind_error_change.
Qed.

Lemma lst_event_inv errs l g ev l' :
  lst_inv errs l -> lst_step (LEv g ev) l = Some l' ->
  lst_inv (errs + Nat.b2n (sl_error ev)) l'.
Proof.
  intros [(r & Hat & Hr) Hc He Hl] Hs. cbn in Hs.
  destruct (c_gens (l_core l) !! g) as [[[[s|e]|] ab]|] eqn:Hg; try done.
  destruct (_ || _); [done|]. apply bind_Some in Hs as (s' & Hs & [= <-]).
  destruct (with_law (c_stats (l_core l)) s) as (Hw1 & Hw2 & Hw3 & _).
  destruct (step_kept _ _ _ Hs) as [Hk1 Hk2]. rewrite Hw1 in Hk1, Hk2.
  constructor; cbn [l_core l_sup c_gens c_stats].
  - exists r. split; [|congruence]. eapply sup_at_change; [done|exact Hg|by intros [e [=]]|done].
  - destruct (sum_insert gen_live _ _ _ Hg) as (n & H1 & ->).
    destruct (sum_insert gen_made _ _ _ Hg) as (m & H2 & ->). rewrite H1, H2 in Hc.
    cbn in *. eapply step_counted; [exact Hs|]. by rewrite Hw1, Hw2, Hw3.
  - rewrite (step_errors _ _ _ Hs), Hw1, He. destruct (sl_error ev); cbn.
    + rewrite fetch_add_wrap. f_equal. lia.
    + by rewrite Nat.add_0_r.
  - intros m Hm. rewrite Hk2 in Hm. destruct (Hl m Hm) as (e & Hin & Hmsg). exists e.
    split; [|done]. by eapply bind_error_change.
Qed.

Lemma lst_sup_inv errs l env l' :
  lst_inv errs l -> lst_step (LSup env) l = Some l' -> lst_inv errs l'.
Proof.
  intros [(r & Hat & Hr) Hc He Hl] Hs. cbn [lst_step] in Hs.
  pose proof (sup_poll_at env (l_core l) r (l_sup l) Hat) as Hp.
  destruct (poll_prog _ _ _) as [p' c']. injection Hs as <-.
  destruct Hp as [[Hk1 Hk2 Hk3] (r' & Hat' & Hr' & Hrr) [= Hst1 Hst2 Hst3] Hlast].
  constructor; cbn [l_core l_sup].
  - exists r'. split; [done|]. rewrite Hr', Hr. case_decide; [by subst|].
    destruct Hrr as [->| ->]; [done|]. rewrite fetch_add_wrap. f_equal. lia.
  - rewrite Hk1, Hk2. destruct Hc as [H1 H2 H3]. constructor; congruence.
  - congruence.
  - intros m Hm. destruct (Hlast m Hm) as [Hm'|(e & Hin & Hmsg)]; [|by eauto].
    destruct (Hl m Hm') as (e & Hin & Hmsg). eauto.
Qed.

Lemma lst_step_inv errs op l l' :
  lst_inv errs l -> lst_step op l = Some l' -> lst_inv (errs + Nat.b2n (counts_error op)) l'.
Proof.
  intros Hi Hs. destruct op as [env|g now b|g ev|]; cbn [counts_error Nat.b2n].
  - rewrite Nat.add_0_r. by eapply lst_sup_inv.
  - rewrite Nat.add_0_r. by eapply lst_bind_inv.
  - by eapply lst_event_inv.
  - rewrite Nat.add_0_r. injection Hs as <-. by destruct Hi.
Qed.

Definition error_count (ops : list LstOp) : nat := length (List.filter counts_error ops).

Lemma lst_run_inv errs ops l l' :
  lst_inv errs l -> lst_run ops l = Some l' -> lst_inv (errs + error_count ops) l'.
Proof.
  revert errs l; induction ops as [|op ops IH]; intros errs l Hi; cbn.
  - intros [= <-]. by rewrite Nat.add_0_r.
  - intros Hr. apply bind_Some in Hr as (l1 & H1 & Hr).
    specialize (IH _ _ (lst_step_inv _ _ _ _ Hi H1) Hr). unfold error_count in *. cbn.
    destruct (counts_error op); cbn in *; [|by rewrite Nat.add_0_r in IH].
    by rewrite <- Nat.add_assoc in IH.
Qed.

Lemma lst_init_inv name proto : lst_inv 0 (lst_init name proto).
Proof.
  constructor; cbn.
  - exists 0%nat. split; [|done]. apply (sa_idle []); [done|constructor].
  - apply counted_new.
  - done.
  - done.
Qed.

Lemma sup_at_shape gens r p :
  sup_at gens r p -> (r <= length gens <= S r)%nat /\
  forall i g, gens !! i = Some g -> failed g \/ S i = length gens.
Proof.
  assert (Hall : forall gs, Forall failed gs ->
    forall i g, gs !! i = Some g -> failed g \/ S i = length gs)
    by (intros gs Hf i g Hi; left; exact (Forall_lookup_1 _ _ _ _ Hf Hi)).
  assert (Hsnoc : forall gs x, Forall failed gs ->
    forall i g, (gs ++ [x]) !! i = Some g -> failed g \/ S i = length (gs ++ [x])).
  { intros gs x Hf i g Hi. rewrite length_app. cbn.
    apply lookup_app_Some in Hi as [Hi|[Hle Hi]]; [left; exact (Forall_lookup_1 _ _ _ _ Hf Hi)|].
    apply list_lookup_singleton_Some in Hi as [Hz ->]. right. lia. }
  destruct 1; (split; [rewrite ?length_app; cbn; lia|]); auto.
Qed.

(** C15: under every interleaving of the supervisor with the serve tasks it starts
    and their connections, for both protocols: every serve task but the last has
    failed to bind, so at most one loop serves at a time and a listener that is
    bound is never bound again; [restarts] counts the failed serve tasks (the
    last one once its restart is due); the gauge, [accepted] and [errors] are
    exact over all serve tasks together, and the last error is that of a failed
    bind (counters modulo 2^64). *)
Theorem listener_exact name proto ops l :
  lst_run ops (lst_init name proto) = Some l ->
  let gens := c_gens (l_core l) in
  let st := c_stats (l_core l) in
  (forall i g, gens !! i = Some g -> failed g \/ S i = length gens) /\
  (exists r, restarts st = wrap 64 (Z.of_nat r) /\ (r <= length gens <= S r)%nat) /\
  active st = wrap 64 (Z.of_nat (sum_list_with gen_live gens)) /\
  accepted st = wrap 64 (Z.of_nat (sum_list_with gen_made gens)) /\
  errors st = wrap 64 (Z.of_nat (error_count ops)) /\
  (forall m, last_error st = Some m -> exists e, bind_error e gens /\ err_msg e = m).
Proof.
  intros Hr gens st. destruct (lst_run_inv 0 ops _ l (lst_init_inv name proto) Hr)
    as [(r & Hat & Hrs) [Ha Hc _] He Hl].
  destruct (sup_at_shape _ _ _ Hat) as [Hlen Hall]. eauto 10.
Qed.

End Listener.

(** ** The TCP accept loop *)

Definition tcp_loop (ev : ServeEv) : bool :=
  match ev with EvCancelled | EvAccept _ | EvPauseOver => true | _ => false end.

Definition tcp_cancels (ev : ServeEv) : bool := bool_decide (ev = EvCancelled).

Section Tcp.
Context (spec : ListenerSpec).

#[export] Instance tcp_serve : ServeLoop Serve ServeEv := {
  sl_bind st now b := let s := serve_start spec st b in
    match sv_result s with Some (Err e) => Err e | _ => Ok s end;
  sl_step := serve_step spec;
  sl_stats := sv_stats;
  sl_with st s := MkServe st (sv_rr s) (sv_tasks s) (sv_paused s) (sv_result s);
  sl_ended s := match sv_result s with Some _ => true | None => false end;
  sl_loop := tcp_loop;
  sl_cancels := tcp_cancels;
  sl_error := is_error;
  sl_live s := in_phase Running (sv_tasks s);
  sl_made s := started (sv_tasks s);
}.

#[export] Instance tcp_laws : ServeLaws Serve ServeEv.
Proof.
  constructor; cbn [sl_bind sl_step sl_stats sl_with sl_ended sl_loop sl_cancels sl_error sl_live
    sl_made tcp_serve].
  - intros st now. by eexists.
  - intros st now e. by eexists.
  - done.
  - intros ev s s' live made. apply serve_step_counted.
  - intros ev s s' Hs. apply (serve_step_stats _ _ _ _ Hs).
  - intros ev s s' Hs. apply (serve_step_stats _ _ _ _ Hs).
  - intros ev s s' Hs. destruct (serve_step_result _ _ _ _ Hs) as [-> Hc]. unfold tcp_cancels.
    destruct ev; [by rewrite Hc|by rewrite orb_false_r..].
  - intros ev s s' Hs. destruct ev as [|r| |i|i j]; cbn in *; try done; destruct (sv_result s);
      try done; by destruct r.
  - unfold tcp_cancels, tcp_loop. intros ev Hc. apply bool_decide_eq_true in Hc. by subst.
Qed.

End Tcp.

(** ** The UDP receive loop *)

Definition udp_loop (ev : UdpEv) : bool :=
  match ev with UCancelled | URecv _ | UPauseOver | UOpened _ | USent _ => true | _ => false end.

Definition udp_cancels (ev : UdpEv) : bool := match ev with UCancelled => true | _ => false end.

Section Udp.
Context (spec : ListenerSpec).

#[export] Instance udp_serve : ServeLoop UdpServe UdpEv := {
  sl_bind := udp_start spec;
  sl_step := udp_step spec;
  sl_stats := us_stats;
  sl_with st s := set_loop st (us_rr s) (us_pc s) s;
  sl_ended s := match us_pc s with LDone => true | _ => false end;
  sl_loop := udp_loop;
  sl_cancels := udp_cancels;
  sl_error := udp_error;
  sl_live s := guards (us_tasks s);
  sl_made s := length (us_tasks s);
}.

#[export] Instance udp_laws : ServeLaws UdpServe UdpEv.
Proof.
  constructor; cbn [sl_bind sl_step sl_stats sl_with sl_ended sl_loop sl_cancels sl_error sl_live
    sl_made udp_serve].
  - intros st now. by eexists.
  - intros st now e. by eexists.
  - done.
  - intros ev s s' live made. apply udp_step_counted.
  - intros ev s s' Hs. apply (udp_step_stats _ _ _ _ Hs).
  - intros ev s s' Hs. destruct (udp_step_stats _ _ _ _ Hs) as (_ & Hr & Hl & _). done.
  - intros ev s s' Hs. destruct (udp_step_stats _ _ _ _ Hs) as (_ & _ & _ & Hd).
    apply eq_iff_eq_true. rewrite orb_true_iff.
    assert (Hdone : forall pc, match pc with LDone => true | _ => false end = true <-> pc = LDone)
      by (by intros []).
    rewrite !Hdone, Hd. by destruct ev; split; intros [?|?]; auto.
  - intros ev s s' Hs. destruct (udp_step_case _ _ _ _ Hs) as [| |? Hpc| | | | | | | | | | | | | |]; try done;
      repeat match goal with Hpc : us_pc s = _ |- _ => rewrite Hpc end; done.
  - by intros [].
Qed.

End Udp.

(** ** A run of a TCP listener *)

(** A serve task that cannot bind, and its restart. *)
Definition failed_bind (k : nat) : list (LstOp (Ev := ServeEv)) :=
  replicate 3 (LSup (MkSupEnv false false 3)) ++ [LBind k 0 (Err (io_other "EADDRINUSE"))] ++
  replicate 6 (LSup (MkSupEnv true false 3)).

(** Two such; the third serve task accepts a client, and the shutdown comes while
    it is served. *)
Definition third_time : list (LstOp (Ev := ServeEv)) :=
  failed_bind 0 ++ failed_bind 1 ++
  replicate 3 (LSup (MkSupEnv false false 3)) ++
  [LBind 2 0 (Ok tt); LEv 2 (EvAccept (Ok 7%nat)); LEv 2 (EvTaskStart 0); LTrigger;
   LSup (MkSupEnv false false 3); LSup (MkSupEnv false false 3)].

Lemma listener_exact_witness :
  exists l, @lst_run _ _ (tcp_serve example_spec) third_time (lst_init "tcp://:80" "tcp") = Some l /\
    length (c_gens (l_core l)) = 3%nat /\ active (c_stats (l_core l)) = 1 /\
    accepted (c_stats (l_core l)) = 1 /\ l_sup l = Ret None.
Proof.
  eexists. split; [vm_compute; reflexivity|].
  destruct (@listener_exact _ _ (tcp_serve example_spec) (tcp_laws example_spec)
    "tcp://:80" "tcp" third_time _ ltac:(vm_compute; reflexivity)) as (_ & _ & Ha & Hc & _).
  split; [reflexivity|]. split; [exact Ha|]. split; [exact Hc|reflexivity].
Defined.
